(** * Aura memory engine: a shallow embedding of the Python sources

    The development follows the modules of [agents/memory]:

    - [Temporal]     : temporal_graph.py      (bi-temporal triples, append-only log)
    - [MemoryTypes]  : memory_types.py        (payloads, scores, configuration)
    - [Episodic]     : episodic_memory.py     (episodes, recall, access statistics)
    - [Procedural]   : procedural_memory.py   (skills, usage statistics)
    - [Knowledge]    : knowledge_graph.py     (triples, inverted indices)
    - [Hybrid]       : hybrid_search.py       (BM25, fusion with the vector ranker)
    - [Consolidator] : memory_consolidator.py (episodes into skills and triples)

    The facts come after the models, in modules of their own
    ([TemporalFacts], [EpisodicFacts], ...).

    Conventions of the embedding.
    - A Python [float] that is only stored and compared is a rational [Q];
      where the code applies [math.exp] or [math.log] the value is a real [R]
      (idealised arithmetic: no rounding, no NaN).
    - [datetime] values are integers (microseconds since the epoch); the
      value read from [datetime.now()] and the identifier drawn by
      [uuid.uuid4()] are explicit arguments of the operation that reads them.
    - A [dict] whose iteration order is observable is an association list in
      insertion order; a [dict] or [set] that is only looked up is a [gmap]
      or [gset]. *)

From Stdlib Require Import ZArith QArith Qminmax Qreals Reals Psatz List Sorted Ascii String.
From stdpp Require Import gmap strings list pretty.

Open Scope string_scope.

(* ===================================================================== *)
(** * Python runtime: exceptions, state threading, dictionaries, sorting *)
(* ===================================================================== *)

(** The exceptions the modelled code can raise. *)
Inductive exn :=
| AttributeError
| TypeError
| KeyError
| IndexError
| ZeroDivisionError.

Inductive result (A : Type) :=
| Ok (a : A)
| Raise (e : exn).

Arguments Ok {A} a.
Arguments Raise {A} e.

(** A method of an object with state [S]: the state is threaded through the
    call and survives an exception (what was mutated before the [raise]
    stays mutated). *)
Definition M (S A : Type) : Type := S -> S * result A.

Definition ret {S A} (a : A) : M S A := fun s => (s, Ok a).

Definition raise {S A} (e : exn) : M S A := fun s => (s, Raise e).

Definition bind {S A B} (m : M S A) (k : A -> M S B) : M S B :=
  fun s => match m s with
           | (s', Ok a) => k a s'
           | (s', Raise e) => (s', Raise e)
           end.

Definition get_state {S} : M S S := fun s => (s, Ok s).

Definition put_state {S} (s : S) : M S unit := fun _ => (s, Ok tt).

Notation "x <- m ;; k" := (bind m (fun x => k))
  (at level 100, m at next level, right associativity).
Notation "m ;;; k" := (bind m (fun _ => k))
  (at level 100, right associativity).

(** [for x in xs: acc = body(acc, x)] with an exception leaving the loop. *)
Fixpoint for_each {S A B} (body : B -> A -> M S B) (acc : B) (xs : list A) : M S B :=
  match xs with
  | [] => ret acc
  | x :: xs' => acc' <- body acc x ;; for_each body acc' xs'
  end.

(** Run a method of a component on the component stored in a larger object. *)
Definition lift {S T A} (proj : T -> S) (upd : T -> S -> T) (m : M S A) : M T A :=
  fun t => let '(s', r) := m (proj t) in (upd t s', r).

(** A [dict] in insertion order. *)
Definition odict (V : Type) : Type := list (string * V).

Fixpoint od_get {V} (k : string) (d : odict V) : option V :=
  match d with
  | [] => None
  | (k', v) :: d' => if decide (k = k') then Some v else od_get k d'
  end.

(** [d[k] = v]: an existing key keeps its position, a new key goes last. *)
Fixpoint od_set {V} (k : string) (v : V) (d : odict V) : odict V :=
  match d with
  | [] => [(k, v)]
  | (k', v') :: d' => if decide (k = k') then (k, v) :: d' else (k', v') :: od_set k v d'
  end.

Definition od_keys {V} (d : odict V) : list string := map fst d.

Definition od_values {V} (d : odict V) : list V := map snd d.

(** [list.sort(key=..., reverse=True)]: stable, descending.  [gt y x] says
    that the key of [y] is strictly greater than the key of [x]. *)
Fixpoint insert_desc {A} (gt : A -> A -> bool) (x : A) (l : list A) : list A :=
  match l with
  | [] => [x]
  | y :: l' => if gt y x then y :: insert_desc gt x l' else x :: l
  end.

Definition sort_desc {A} (gt : A -> A -> bool) (l : list A) : list A :=
  foldr (insert_desc gt) [] l.

(** Comparison of float keys. *)
Definition Rgtb (x y : R) : bool := if Rlt_dec y x then true else false.

Definition Qgtb (x y : Q) : bool := if Qlt_le_dec y x then true else false.

Definition Qltb (x y : Q) : bool := if Qlt_le_dec x y then true else false.

(** The library calls of the sources whose results are taken as given:
    string methods, [hashlib], [datetime], [re]. *)
Inductive sub_pattern := PathPattern | NumberPattern | DoubleQuoted | SingleQuoted.

Inductive extract_pattern :=
| EstUn | Utilise | DependDe | UtilisateurPrefere | A_ | Peut.

Class PyLib := {
  (** [str.lower] *)
  lower : string -> string;
  (** [str.split()] *)
  split : string -> list string;
  (** [hashlib.sha256(data.encode()).hexdigest()[:12]] *)
  sha256_hex12 : string -> string;
  (** [datetime.fromisoformat], [None] when it raises *)
  fromisoformat : string -> option Z;
  (** [datetime.isoformat] *)
  isoformat : Z -> string;
  (** [datetime.strftime('%Y%m%d_%H%M%S')] *)
  strftime_stamp : Z -> string;
  (** [re.sub(pattern, repl, s)] for the patterns of [_generalize_action] *)
  re_sub : sub_pattern -> string -> string -> string;
  (** [re.finditer(pattern, text, re.IGNORECASE)]: groups 1 and 2 of each
      match, for the patterns of [extract_triples_from_text] *)
  re_finditer : extract_pattern -> string -> list (string * string);
  (** [re.findall] with the word pattern of [BM25.tokenize] *)
  re_findall_words : string -> list string;
  (** [json.dumps] of a list of strings *)
  json_dumps_list : list string -> string
}.

(** A flat metadata value handed to the vector index. *)
Inductive mval :=
| MStr (s : string)
| MInt (z : Z)
| MFloat (q : Q).

(** The vector index (ChromaDB) and the embedding model behind it: an
    external collaborator.  A query returns identifiers with distances. *)
Class VectorIndex := {
  collection : Type;
  coll_count : collection -> nat;
  (** [collection.query(query, n_results, where)] for a positive
      [n_results] (the library raises on a request for no result); the flag
      says that archived entries are excluded *)
  coll_query : collection -> string -> nat -> bool -> list (string * Q);
  (** [collection.upsert(id, document, metadata)] *)
  coll_upsert : collection -> string -> string -> list (string * mval) -> collection;
  (** [collection.update(id, metadata)] *)
  coll_update : collection -> string -> list (string * mval) -> collection
}.

(* ===================================================================== *)
(** * temporal_graph.py *)
(* ===================================================================== *)

Module Temporal.

(** [@dataclass class TemporalTriple]. *)
Record TemporalTriple := mkTriple {
  tt_id : string;
  tt_subject : string;
  tt_predicate : string;
  tt_object : string;
  tt_confidence : Q;
  tt_valid_from : Z;
  tt_valid_to : option Z;
  tt_transaction_time : Z;
  tt_source : string;
  tt_version : Z;
  tt_supersedes : option string;
  tt_metadata : list (string * string)
}.

(** [old_triple.valid_to = now]: the attribute assignment on the object that
    the [triples] dictionary holds. *)
Definition set_valid_to (t : TemporalTriple) (v : option Z) : TemporalTriple :=
  mkTriple (tt_id t) (tt_subject t) (tt_predicate t) (tt_object t)
           (tt_confidence t) (tt_valid_from t) v (tt_transaction_time t)
           (tt_source t) (tt_version t) (tt_supersedes t) (tt_metadata t).

(** [TemporalTriple.is_valid_at]. *)
Definition is_valid_at (t : TemporalTriple) (point_in_time : Z) : bool :=
  if (point_in_time <? tt_valid_from t)%Z then false
  else match tt_valid_to t with
       | Some vt => if (vt <? point_in_time)%Z then false else true
       | None => true
       end.

(** The JSON object written by [to_dict]: the keys that [from_dict] reads
    with [data.get] may be absent. *)
Record triple_json := mkJson {
  j_id : string;
  j_subject : string;
  j_predicate : string;
  j_object : string;
  j_confidence : option Q;
  j_valid_from : Z;
  j_valid_to : option Z;
  j_transaction_time : Z;
  j_source : option string;
  j_version : option Z;
  j_supersedes : option string;
  j_metadata : option (list (string * string))
}.

(** [TemporalTriple.to_dict]. *)
Definition to_dict (t : TemporalTriple) : triple_json :=
  mkJson (tt_id t) (tt_subject t) (tt_predicate t) (tt_object t)
         (Some (tt_confidence t)) (tt_valid_from t) (tt_valid_to t)
         (tt_transaction_time t) (Some (tt_source t)) (Some (tt_version t))
         (tt_supersedes t) (Some (tt_metadata t)).

(** [TemporalTriple.from_dict]. *)
Definition from_dict (data : triple_json) : TemporalTriple :=
  mkTriple (j_id data) (j_subject data) (j_predicate data) (j_object data)
           (default 1%Q (j_confidence data)) (j_valid_from data)
           (j_valid_to data) (j_transaction_time data)
           (default "" (j_source data)) (default 1%Z (j_version data))
           (j_supersedes data) (default [] (j_metadata data)).

(** One line of [triples.jsonl]: a record, a blank line, or a line on which
    [json.loads] or [from_dict] raises. *)
Inductive log_line :=
| LJson (data : triple_json)
| LBlank
| LCorrupt.

(** [class TemporalGraph]: the in-memory indices and the content of
    [triples_file] (a missing file reads as no line). *)
Record TemporalGraph := mkGraph {
  triples : gmap string TemporalTriple;
  subject_index : gmap string (list string);
  predicate_index : gmap string (list string);
  object_index : gmap string (list string);
  triples_file : list log_line
}.

(** [if key not in index: index[key] = []] then [index[key].append(tid)]. *)
Definition index_append (index : gmap string (list string)) (key tid : string)
  : gmap string (list string) :=
  <[key := (default [] (index !! key) ++ [tid])%list]> index.

(** [TemporalGraph._index_triple]. *)
Definition _index_triple (g : TemporalGraph) (triple : TemporalTriple) : TemporalGraph :=
  mkGraph (<[tt_id triple := triple]> (triples g))
          (index_append (subject_index g) (tt_subject triple) (tt_id triple))
          (index_append (predicate_index g) (tt_predicate triple) (tt_id triple))
          (index_append (object_index g) (tt_object triple) (tt_id triple))
          (triples_file g).

(** [TemporalGraph._save_triple]: one line appended to the log. *)
Definition _save_triple (g : TemporalGraph) (triple : TemporalTriple) : TemporalGraph :=
  mkGraph (triples g) (subject_index g) (predicate_index g) (object_index g)
          (triples_file g ++ [LJson (to_dict triple)])%list.

(** The state built by [__init__] before [_load] runs. *)
Definition init_graph (file : list log_line) : TemporalGraph :=
  mkGraph ∅ ∅ ∅ ∅ file.

(** The body of the loop of [_load] for one line. *)
Definition load_line (g : TemporalGraph) (line : log_line) : TemporalGraph :=
  match line with
  | LJson data => _index_triple g (from_dict data)
  | LBlank => g
  | LCorrupt => g
  end.

(** [TemporalGraph._load], run by [__init__] on the stored log. *)
Definition _load (file : list log_line) : TemporalGraph :=
  fold_left load_line file (init_graph file).

(** [TemporalGraph.add]; [new_id] is the value of [str(uuid.uuid4())]. *)
Definition add (g : TemporalGraph) (new_id : string) (now : Z)
    (subject predicate obj : string) (confidence : Q)
    (valid_from valid_to : option Z) (source : string)
    (metadata : option (list (string * string))) : TemporalGraph * string :=
  let triple :=
    mkTriple new_id subject predicate obj confidence (default now valid_from)
             valid_to now source 1 None (default [] metadata) in
  (_save_triple (_index_triple g triple) triple, tt_id triple).

(** The new version built by [update]. *)
Definition new_version (old_triple : TemporalTriple) (new_id : string) (now : Z)
    (triple_id : string) (new_object : option string) (new_confidence : option Q)
    (valid_to : option Z) : TemporalTriple :=
  mkTriple new_id (tt_subject old_triple) (tt_predicate old_triple)
           (default (tt_object old_triple) new_object)
           (default (tt_confidence old_triple) new_confidence)
           now valid_to now (tt_source old_triple)
           (tt_version old_triple + 1) (Some triple_id) (tt_metadata old_triple).

(** [TemporalGraph.update]. *)
Definition update (g : TemporalGraph) (new_id : string) (now : Z)
    (triple_id : string) (new_object : option string)
    (new_confidence : option Q) (valid_to : option Z)
  : TemporalGraph * option string :=
  match triples g !! triple_id with
  | None => (g, None)
  | Some old_triple =>
      let g1 := mkGraph (<[triple_id := set_valid_to old_triple (Some now)]> (triples g))
                        (subject_index g) (predicate_index g) (object_index g)
                        (triples_file g) in
      let new_triple :=
        new_version old_triple new_id now triple_id new_object new_confidence valid_to in
      (_save_triple (_index_triple g1 new_triple) new_triple, Some (tt_id new_triple))
  end.

(** [TemporalGraph.invalidate]. *)
Definition invalidate (g : TemporalGraph) (now : Z) (triple_id : string)
  : TemporalGraph * bool :=
  match triples g !! triple_id with
  | None => (g, false)
  | Some t =>
      (mkGraph (<[triple_id := set_valid_to t (Some now)]> (triples g))
               (subject_index g) (predicate_index g) (object_index g)
               (triples_file g), true)
  end.

(** Python truth value of an optional string argument: [None] and [""] are
    false. *)
Definition truthy (s : option string) : bool :=
  match s with
  | Some k => if decide (k = "") then false else true
  | None => false
  end.

(** One of the three index filters of [query_at_time]:
    [if key and key in index: candidates &= set(index[key])]
    [elif key: candidates = set()]. *)
Definition filter_index (index : gmap string (list string)) (key : option string)
    (candidates : gset string) : gset string :=
  match key with
  | Some k =>
      if truthy key then
        match index !! k with
        | Some ids => candidates ∩ list_to_set ids
        | None => ∅
        end
      else candidates
  | None => candidates
  end.

(** [TemporalGraph.query_at_time].  The candidates are a Python [set]; its
    iteration order is the enumeration [elements]. *)
Definition query_at_time (g : TemporalGraph) (point_in_time : Z)
    (subject predicate obj : option string) : list TemporalTriple :=
  let candidates :=
    filter_index (object_index g) obj
      (filter_index (predicate_index g) predicate
         (filter_index (subject_index g) subject (dom (triples g)))) in
  omap (fun tid =>
          match triples g !! tid with
          | Some triple => if is_valid_at triple point_in_time then Some triple else None
          | None => None
          end)
       (elements candidates).

(** ** Specification vocabulary *)

(** At most one open version (valid_to = None) per (subject, predicate) in a
    list of versions. *)
Definition one_open_version (l : list TemporalTriple) : Prop :=
  forall t1 t2, t1 ∈ l -> t2 ∈ l ->
    tt_subject t1 = tt_subject t2 -> tt_predicate t1 = tt_predicate t2 ->
    tt_valid_to t1 = None -> tt_valid_to t2 = None -> t1 = t2.

(** The same on the store. *)
Definition open_unique (g : TemporalGraph) : Prop :=
  forall i j ti tj, triples g !! i = Some ti -> triples g !! j = Some tj ->
    tt_subject ti = tt_subject tj -> tt_predicate ti = tt_predicate tj ->
    tt_valid_to ti = None -> tt_valid_to tj = None -> i = j.

(** Histories of one session.  They start with the graph that [__init__]
    builds by [_load] from the stored log, which must hold at most one open
    version per pair (an empty or missing log does); then a pair is added
    only while it has no open version and only open versions are updated. *)
Inductive disciplined : TemporalGraph -> Prop :=
| disc_load file :
    open_unique (_load file) ->
    disciplined (_load file)
| disc_add g new_id now s p o c vf vt src md :
    disciplined g ->
    triples g !! new_id = None ->
    (forall i t, triples g !! i = Some t ->
       tt_subject t = s -> tt_predicate t = p -> tt_valid_to t <> None) ->
    disciplined (add g new_id now s p o c vf vt src md).1
| disc_update g new_id now tid o c vt old :
    disciplined g ->
    triples g !! new_id = None ->
    triples g !! tid = Some old ->
    tt_valid_to old = None ->
    disciplined (update g new_id now tid o c vt).1
| disc_invalidate g now tid :
    disciplined g ->
    disciplined (invalidate g now tid).1.

(** ** The demo of the [__main__] block, continued *)

(** [graph.add("Aura", "version", "3.1", source="config")] on an empty store. *)
Definition demo_added : TemporalGraph :=
  (add (init_graph []) "t1" 10 "Aura" "version" "3.1" 1 None None "config" None).1.

(** [graph.update(old_id, new_object="3.2")]. *)
Definition demo_updated : TemporalGraph :=
  (update demo_added "t2" 20 "t1" (Some "3.2") None None).1.

(** A second [graph.update(old_id, new_object="3.3")] on the same, now closed,
    version. *)
Definition demo_updated_twice : TemporalGraph :=
  (update demo_updated "t3" 30 "t1" (Some "3.3") None None).1.

End Temporal.

(* ===================================================================== *)
(** * memory_types.py *)
(* ===================================================================== *)

Module MemoryTypes.

(** [MEMORY_CONFIG]. *)
Definition recency_decay_days : Z := 30.
Definition consolidation_threshold : Z := 10.
Definition min_skill_occurrences : nat := 3.

(** [MemoryStatus.<X>.name] and [MemoryPriority.NORMAL.value]. *)
Definition ACTIVE : string := "ACTIVE".
Definition ARCHIVED : string := "ARCHIVED".
Definition CONSOLIDATED : string := "CONSOLIDATED".
Definition NORMAL : Z := 3.

(** [@dataclass class MemoryMetadata]. *)
Record MemoryMetadata := mkMeta {
  created_at : string;
  updated_at : string;
  access_count : Z;
  last_accessed : option string;
  source : string;
  tags : list string;
  priority : Z;
  status : string
}.

(** [MemoryMetadata(source=src)] built at the instant [now_iso]. *)
Definition new_metadata (now_iso : string) (src : string) : MemoryMetadata :=
  mkMeta now_iso now_iso 0 None src [] NORMAL ACTIVE.

(** A metadata [dict] as found in a JSON payload: any key may be missing. *)
Record meta_dict := mkMetaDict {
  md_created_at : option string;
  md_updated_at : option string;
  md_access_count : option Z;
  md_last_accessed : option string;
  md_source : option string;
  md_tags : option (list string);
  md_priority : option Z;
  md_status : option string
}.

Definition empty_meta_dict : meta_dict :=
  mkMetaDict None None None None None None None None.

(** [MemoryMetadata.to_dict] ([asdict]). *)
Definition meta_to_dict (m : MemoryMetadata) : meta_dict :=
  mkMetaDict (Some (created_at m)) (Some (updated_at m)) (Some (access_count m))
             (last_accessed m) (Some (source m)) (Some (tags m))
             (Some (priority m)) (Some (status m)).

(** [MemoryMetadata.from_dict]: the constructor applied to the keys of the
    dictionary, the dataclass defaults fill
    the missing keys. *)
Definition meta_from_dict (now_iso : string) (d : meta_dict) : MemoryMetadata :=
  mkMeta (default now_iso (md_created_at d)) (default now_iso (md_updated_at d))
         (default 0%Z (md_access_count d)) (md_last_accessed d)
         (default "user" (md_source d)) (default [] (md_tags d))
         (default NORMAL (md_priority d)) (default ACTIVE (md_status d)).

(** What the key ["metadata"] of a payload dictionary holds at run time:
    nothing, a [dict], or a [MemoryMetadata] object.  The third case arises
    because [Episode.from_dict], [Skill.from_dict] and
    [KnowledgeTriple.from_dict] assign
    [data['metadata'] = MemoryMetadata.from_dict(data['metadata'])] on the
    dictionary they are given, which is the dictionary held by the store. *)
Inductive meta_rep :=
| MAbsent
| MDict (d : meta_dict)
| MObj (m : MemoryMetadata).

(** The metadata a payload denotes, whatever its representation. *)
Definition meta_content (now_iso : string) (r : meta_rep) : option MemoryMetadata :=
  match r with
  | MAbsent => None
  | MDict d => Some (meta_from_dict now_iso d)
  | MObj m => Some m
  end.

(** [@dataclass class Episode]. *)
Record Episode := mkEpisode {
  ep_id : string;
  ep_timestamp : string;
  ep_context : string;
  ep_action : string;
  ep_outcome : string;
  ep_thought_process : string;
  ep_entities : list string;
  ep_emotional_valence : Q;
  ep_importance : Q;
  ep_metadata : MemoryMetadata
}.

(** An episode payload of [_metadata_cache]; ["consolidated_into"] is the key
    added by [mark_consolidated]. *)
Record episode_dict := mkEpisodeDict {
  ed_id : string;
  ed_timestamp : string;
  ed_context : string;
  ed_action : string;
  ed_outcome : string;
  ed_thought_process : string;
  ed_entities : list string;
  ed_emotional_valence : option Q;
  ed_importance : option Q;
  ed_metadata : meta_rep;
  ed_consolidated_into : option (list string)
}.

Definition ed_set_metadata (d : episode_dict) (r : meta_rep) : episode_dict :=
  mkEpisodeDict (ed_id d) (ed_timestamp d) (ed_context d) (ed_action d) (ed_outcome d)
                (ed_thought_process d) (ed_entities d) (ed_emotional_valence d)
                (ed_importance d) r (ed_consolidated_into d).

Definition ed_set_consolidated_into (d : episode_dict) (l : option (list string))
  : episode_dict :=
  mkEpisodeDict (ed_id d) (ed_timestamp d) (ed_context d) (ed_action d) (ed_outcome d)
                (ed_thought_process d) (ed_entities d) (ed_emotional_valence d)
                (ed_importance d) (ed_metadata d) l.

(** [@dataclass class Skill]. *)
Record Skill := mkSkill {
  sk_id : string;
  sk_name : string;
  sk_description : string;
  sk_pattern : string;
  sk_trigger_conditions : list string;
  sk_action_template : string;
  sk_success_rate : Q;
  sk_usage_count : Z;
  sk_source_episodes : list string;
  sk_metadata : MemoryMetadata
}.

(** A skill payload of [_skills_cache]. *)
Record skill_dict := mkSkillDict {
  sd_id : string;
  sd_name : string;
  sd_description : string;
  sd_pattern : string;
  sd_trigger_conditions : list string;
  sd_action_template : string;
  sd_success_rate : option Q;
  sd_usage_count : option Z;
  sd_source_episodes : option (list string);
  sd_metadata : meta_rep
}.

Definition sd_set_metadata (d : skill_dict) (r : meta_rep) : skill_dict :=
  mkSkillDict (sd_id d) (sd_name d) (sd_description d) (sd_pattern d)
              (sd_trigger_conditions d) (sd_action_template d) (sd_success_rate d)
              (sd_usage_count d) (sd_source_episodes d) r.

(** [@dataclass class MemoryScore]. *)
Record MemoryScore := mkScore {
  similarity : R;
  importance : R;
  recency : R;
  access_frequency : R
}.

(** [MemoryScore.combined_score]. *)
Definition combined_score (s : MemoryScore) : R :=
  (similarity s * 0.4 + importance s * 0.3 + recency s * 0.2 + access_frequency s * 0.1)%R.

(** [@dataclass class ConsolidationResult]; [details] holds the two keys the
    consolidator writes. *)
Record ConsolidationResult := mkResult {
  episodes_processed : nat;
  skills_created : nat;
  skills_updated : nat;
  triples_extracted : nat;
  episodes_archived : nat;
  timestamp : string;
  details_message : option string;
  details_pattern_groups : option nat
}.

Section WithLib.
Context `{PyLib}.

(** [s[:n]]. *)
Definition prefix_of (n : nat) (s : string) : string := substring 0 n s.

(** [Episode._generate_id]. *)
Definition episode_generate_id (timestamp context action : string) : string :=
  "ep_" ++ sha256_hex12 (timestamp ++ ":" ++ prefix_of 50 context ++ ":" ++ prefix_of 50 action).

(** [Skill._generate_id]. *)
Definition skill_generate_id (name pattern : string) : string :=
  "sk_" ++ sha256_hex12 (name ++ ":" ++ prefix_of 50 pattern).

(** [KnowledgeTriple._generate_id]. *)
Definition triple_generate_id (subject predicate object : string) : string :=
  "kg_" ++ sha256_hex12 (subject ++ ":" ++ predicate ++ ":" ++ object).

(** [Episode.to_dict]. *)
Definition episode_to_dict (e : Episode) : episode_dict :=
  mkEpisodeDict (ep_id e) (ep_timestamp e) (ep_context e) (ep_action e) (ep_outcome e)
                (ep_thought_process e) (ep_entities e) (Some (ep_emotional_valence e))
                (Some (ep_importance e)) (MDict (meta_to_dict (ep_metadata e))) None.

(** [Episode.from_dict] on a payload held by a store.  It returns the payload
    as the call leaves it: a metadata [dict] has been replaced by the object
    built from it, also when the constructor then raises on the unexpected key
    ["consolidated_into"].  [__post_init__] generates the identifier when it
    is empty. *)
Definition episode_from_dict (now_iso : string) (data : episode_dict)
  : episode_dict * result Episode :=
  let data' :=
    match ed_metadata data with
    | MDict d => ed_set_metadata data (MObj (meta_from_dict now_iso d))
    | _ => data
    end in
  match ed_consolidated_into data' with
  | Some _ => (data', Raise TypeError)
  | None =>
      let metadata :=
        match ed_metadata data' with
        | MObj m => m
        | _ => new_metadata now_iso "user"
        end in
      let id := if decide (ed_id data' = "")
                then episode_generate_id (ed_timestamp data') (ed_context data') (ed_action data')
                else ed_id data' in
      (data', Ok (mkEpisode id (ed_timestamp data') (ed_context data') (ed_action data')
                            (ed_outcome data') (ed_thought_process data') (ed_entities data')
                            (default 0%Q (ed_emotional_valence data'))
                            (default 0.5%Q (ed_importance data')) metadata))
  end.

(** [Skill.to_dict]. *)
Definition skill_to_dict (k : Skill) : skill_dict :=
  mkSkillDict (sk_id k) (sk_name k) (sk_description k) (sk_pattern k)
              (sk_trigger_conditions k) (sk_action_template k)
              (Some (sk_success_rate k)) (Some (sk_usage_count k))
              (Some (sk_source_episodes k)) (MDict (meta_to_dict (sk_metadata k))).

(** [Skill.from_dict], with the same assignment on the payload. *)
Definition skill_from_dict (now_iso : string) (data : skill_dict) : skill_dict * Skill :=
  let data' :=
    match sd_metadata data with
    | MDict d => sd_set_metadata data (MObj (meta_from_dict now_iso d))
    | _ => data
    end in
  let metadata :=
    match sd_metadata data' with
    | MObj m => m
    | _ => new_metadata now_iso "user"
    end in
  let id := if decide (sd_id data' = "")
            then skill_generate_id (sd_name data') (sd_pattern data')
            else sd_id data' in
  (data', mkSkill id (sd_name data') (sd_description data') (sd_pattern data')
                  (sd_trigger_conditions data') (sd_action_template data')
                  (default 0%Q (sd_success_rate data')) (default 0%Z (sd_usage_count data'))
                  (default [] (sd_source_episodes data')) metadata).

(** [timestamp.replace('Z', '+00:00')]. *)
Fixpoint replace_Z (s : string) : string :=
  match s with
  | EmptyString => EmptyString
  | String c s' =>
      if decide (c = "Z"%char) then "+00:00" ++ replace_Z s' else String c (replace_Z s')
  end.

(** [calculate_recency_score]: [exp(-age_days / decay_days)], and [0.5] when
    the [try] block raises (a timestamp that does not parse, a zero
    [decay_days]).  Instants are in microseconds.  The definition follows
    the code for timestamps that are not in the future; for a timestamp so
    far in the future that [math.exp] overflows the code also answers
    [0.5]. *)
Definition calculate_recency_score (now : Z) (timestamp : string) (decay_days : Z) : R :=
  match fromisoformat (replace_Z timestamp) with
  | Some memory_time =>
      if decide (decay_days = 0%Z) then 0.5%R
      else
        let age_days := (IZR (now - memory_time) / 1000000 / 86400)%R in
        exp (- age_days / IZR decay_days)
  | None => 0.5%R
  end.

End WithLib.

End MemoryTypes.

(* ===================================================================== *)
(** * episodic_memory.py *)
(* ===================================================================== *)

Module Episodic.
Import MemoryTypes.

Section WithEnv.
Context `{PyLib} `{VectorIndex}.

(** [class EpisodicMemory]: the vector collection, the in-memory
    [_metadata_cache] and the content of [episodes_metadata.json] ([None]
    while the file does not exist). *)
Record EpisodicMemory := mkEpisodic {
  em_collection : collection;
  _metadata_cache : odict episode_dict;
  metadata_file : option (odict episode_dict)
}.

Definition set_cache (mem : EpisodicMemory) (cache : odict episode_dict) : EpisodicMemory :=
  mkEpisodic (em_collection mem) cache (metadata_file mem).

Definition set_collection (mem : EpisodicMemory) (c : collection) : EpisodicMemory :=
  mkEpisodic c (_metadata_cache mem) (metadata_file mem).

(** [json.dumps] raises [TypeError] on a [MemoryMetadata] object. *)
Definition episode_serializable (d : episode_dict) : bool :=
  match ed_metadata d with
  | MObj _ => false
  | _ => true
  end.

(** [EpisodicMemory._save_metadata_cache]. *)
Definition _save_metadata_cache : M EpisodicMemory unit :=
  fun mem =>
    if forallb episode_serializable (od_values (_metadata_cache mem))
    then (mkEpisodic (em_collection mem) (_metadata_cache mem) (Some (_metadata_cache mem)), Ok tt)
    else (mem, Raise TypeError).

(** [EpisodicMemory._episode_to_text]. *)
Definition _episode_to_text (episode : Episode) : string :=
  let parts :=
    [ "Contexte: " ++ ep_context episode;
      "Action: " ++ ep_action episode;
      "Résultat: " ++ ep_outcome episode;
      "Raisonnement: " ++ ep_thought_process episode ] in
  let parts :=
    match ep_entities episode with
    | [] => parts
    | _ => (parts ++ ["Entités: " +:+ String.concat ", " (ep_entities episode)])%list
    end in
  String.concat (String "010"%char EmptyString) parts.

(** [EpisodicMemory.store]. *)
Definition store (episode : Episode) : M EpisodicMemory string :=
  let text := _episode_to_text episode in
  let chroma_metadata :=
    [ ("timestamp", MStr (ep_timestamp episode));
      ("context_preview", MStr (prefix_of 200 (ep_context episode)));
      ("action_preview", MStr (prefix_of 200 (ep_action episode)));
      ("outcome_preview", MStr (prefix_of 200 (ep_outcome episode)));
      ("importance", MFloat (ep_importance episode));
      ("emotional_valence", MFloat (ep_emotional_valence episode));
      ("status", MStr (status (ep_metadata episode)));
      ("priority", MInt (priority (ep_metadata episode)));
      ("source", MStr (source (ep_metadata episode)));
      ("entities", MStr (json_dumps_list (ep_entities episode))) ] in
  mem <- get_state ;;
  put_state (mkEpisodic (coll_upsert (em_collection mem) (ep_id episode) text chroma_metadata)
                        (od_set (ep_id episode) (episode_to_dict episode) (_metadata_cache mem))
                        (metadata_file mem)) ;;;
  _save_metadata_cache ;;;
  ret (ep_id episode).

(** [EpisodicMemory.record_interaction]. *)
Definition record_interaction (now : Z) (context action outcome thought_process : string)
    (entities : list string) (importance emotional_valence : Q) (src : string)
  : M EpisodicMemory string :=
  let timestamp := isoformat now in
  let thought := if decide (thought_process = "") then "Action: " ++ action else thought_process in
  store (mkEpisode (episode_generate_id timestamp context action) timestamp context action
                   outcome thought entities emotional_valence importance
                   (new_metadata (isoformat now) src)).

(** [Episode.from_dict(self._metadata_cache[key])]: the payload of the cache
    is the dictionary that [from_dict] assigns to. *)
Definition from_dict_in_cache (now : Z) (key : string) (data : episode_dict)
  : M EpisodicMemory Episode :=
  fun mem =>
    let '(data', r) := episode_from_dict (isoformat now) data in
    (set_cache mem (od_set key data' (_metadata_cache mem)), r).

(** [e.get("metadata", {}).get("access_count", 1)] for the payloads in turn:
    [AttributeError] on a payload whose metadata is an object. *)
Fixpoint access_counts (payloads : list episode_dict) : result (list Z) :=
  match payloads with
  | [] => Ok []
  | e :: rest =>
      match ed_metadata e with
      | MObj _ => Raise AttributeError
      | MDict d =>
          match access_counts rest with
          | Ok l => Ok (default 1%Z (md_access_count d) :: l)
          | Raise x => Raise x
          end
      | MAbsent =>
          match access_counts rest with
          | Ok l => Ok (1%Z :: l)
          | Raise x => Raise x
          end
      end
  end.

(** [max(iterable, default=1)]. *)
Definition max_default (l : list Z) : Z :=
  match l with
  | [] => 1%Z
  | x :: l' => fold_left Z.max l' x
  end.

(** The [max_access] expression of [recall]. *)
Definition read_max_access : M EpisodicMemory Z :=
  fun mem =>
    match access_counts (od_values (_metadata_cache mem)) with
    | Ok l => (mem, Ok (max_default l))
    | Raise x => (mem, Raise x)
    end.

(** [EpisodicMemory._update_access_stats]. *)
Definition _update_access_stats (now : Z) (episode_id : string) : M EpisodicMemory unit :=
  fun mem =>
    match od_get episode_id (_metadata_cache mem) with
    | None => (mem, Ok tt)
    | Some payload =>
        let bump (d : meta_dict) :=
          mkMetaDict (md_created_at d) (md_updated_at d)
                     (Some (default 0%Z (md_access_count d) + 1)%Z)
                     (Some (isoformat now)) (md_source d) (md_tags d)
                     (md_priority d) (md_status d) in
        match ed_metadata payload with
        | MObj _ => (mem, Raise AttributeError)
        | MDict d =>
            (set_cache mem (od_set episode_id (ed_set_metadata payload (MDict (bump d)))
                                   (_metadata_cache mem)), Ok tt)
        | MAbsent =>
            (set_cache mem (od_set episode_id
                                   (ed_set_metadata payload (MDict (bump empty_meta_dict)))
                                   (_metadata_cache mem)), Ok tt)
        end
    end.

(** The score built for a candidate of [recall]. *)
Definition episode_score (now : Z) (episode : Episode) (distance : Q) (max_access : Z)
  : MemoryScore :=
  mkScore (1 - Q2R distance)%R
          (Q2R (ep_importance episode))
          (calculate_recency_score now (ep_timestamp episode) recency_decay_days)
          (if (0 <? max_access)%Z
           then (IZR (access_count (ep_metadata episode)) / IZR max_access)%R
           else 0%R).

(** The body of the loop of [recall] over the query results. *)
Definition recall_step (now : Z) (min_importance : Q)
    (scored_results : list (Episode * MemoryScore)) (candidate : string * Q)
  : M EpisodicMemory (list (Episode * MemoryScore)) :=
  let '(doc_id, distance) := candidate in
  mem <- get_state ;;
  match od_get doc_id (_metadata_cache mem) with
  | None => ret scored_results
  | Some episode_data =>
      episode <- from_dict_in_cache now doc_id episode_data ;;
      if Qltb (ep_importance episode) min_importance then ret scored_results
      else
        max_access <- read_max_access ;;
        let score := episode_score now episode distance max_access in
        _update_access_stats now doc_id ;;;
        ret (scored_results ++ [(episode, score)])%list
  end.

(** [EpisodicMemory.recall]. *)
Definition recall (now : Z) (query : string) (n_results : nat) (min_importance : Q)
    (include_archived : bool) : M EpisodicMemory (list (Episode * MemoryScore)) :=
  mem <- get_state ;;
  if decide (coll_count (em_collection mem) = 0) then ret []
  else
    let results :=
      coll_query (em_collection mem) query
                 (min (n_results * 2) (coll_count (em_collection mem)))
                 (negb include_archived) in
    scored_results <- for_each (recall_step now min_importance) [] results ;;
    ret (firstn n_results
           (sort_desc (fun x y => Rgtb (combined_score x.2) (combined_score y.2))
                      scored_results)).

(** The loop shared by [get_recent_episodes] and [get_successful_episodes]:
    [Episode.from_dict(data)] for every payload of the cache, kept when the
    test holds. *)
Definition collect_episodes (now : Z) (keep : Episode -> bool)
  : M EpisodicMemory (list Episode) :=
  mem <- get_state ;;
  for_each (fun episodes key =>
              mem' <- get_state ;;
              match od_get key (_metadata_cache mem') with
              | None => ret episodes
              | Some data =>
                  episode <- from_dict_in_cache now key data ;;
                  ret (if keep episode then (episodes ++ [episode])%list else episodes)
              end)
           [] (od_keys (_metadata_cache mem)).

(** [EpisodicMemory.get_recent_episodes]. *)
Definition get_recent_episodes (now : Z) (limit : nat) : M EpisodicMemory (list Episode) :=
  episodes <- collect_episodes now
                (fun e => if decide (status (ep_metadata e) = ARCHIVED) then false else true) ;;
  ret (firstn limit
         (sort_desc (fun x y => String.ltb (ep_timestamp y) (ep_timestamp x)) episodes)).

(** [EpisodicMemory.get_successful_episodes]. *)
Definition get_successful_episodes (now : Z) (min_valence : Q) (limit : nat)
  : M EpisodicMemory (list Episode) :=
  episodes <- collect_episodes now
                (fun e => negb (Qltb (ep_emotional_valence e) min_valence)
                          && (if decide (status (ep_metadata e) = ACTIVE) then true else false)) ;;
  ret (firstn limit
         (sort_desc (fun x y => Qgtb (ep_emotional_valence x) (ep_emotional_valence y))
                    episodes)).

(** [payload["metadata"]["status"] = s; payload["metadata"]["updated_at"] = now]:
    [KeyError] without the key, [TypeError] on an object. *)
Definition set_status_in_payload (now : Z) (s : string) (payload : episode_dict)
  : result episode_dict :=
  match ed_metadata payload with
  | MAbsent => Raise KeyError
  | MObj _ => Raise TypeError
  | MDict d =>
      Ok (ed_set_metadata payload
            (MDict (mkMetaDict (md_created_at d) (Some (isoformat now)) (md_access_count d)
                               (md_last_accessed d) (md_source d) (md_tags d)
                               (md_priority d) (Some s))))
  end.

(** [EpisodicMemory.archive_episode]. *)
Definition archive_episode (now : Z) (episode_id : string) : M EpisodicMemory bool :=
  mem <- get_state ;;
  match od_get episode_id (_metadata_cache mem) with
  | None => ret false
  | Some payload =>
      match set_status_in_payload now ARCHIVED payload with
      | Raise x => raise x
      | Ok payload' =>
          put_state (set_cache mem (od_set episode_id payload' (_metadata_cache mem))) ;;;
          _save_metadata_cache ;;;
          mem' <- get_state ;;
          put_state (set_collection mem'
                       (coll_update (em_collection mem') episode_id
                                    [("status", MStr ARCHIVED)])) ;;;
          ret true
      end
  end.

(** [EpisodicMemory.mark_consolidated]. *)
Definition mark_consolidated (now : Z) (episode_ids : list string) (skill_id : string)
  : M EpisodicMemory nat :=
  count <- for_each (fun count ep_id =>
                       mem <- get_state ;;
                       match od_get ep_id (_metadata_cache mem) with
                       | None => ret count
                       | Some payload =>
                           match set_status_in_payload now CONSOLIDATED payload with
                           | Raise x => raise x
                           | Ok payload' =>
                               let into := (default [] (ed_consolidated_into payload')
                                            ++ [skill_id])%list in
                               put_state (set_cache mem
                                            (od_set ep_id
                                               (ed_set_consolidated_into payload' (Some into))
                                               (_metadata_cache mem))) ;;;
                               ret (S count)
                           end
                       end)
                    0%nat episode_ids ;;
  (if decide (count = 0%nat) then ret tt else _save_metadata_cache) ;;;
  ret count.

End WithEnv.

End Episodic.

(* ===================================================================== *)
(** * procedural_memory.py *)
(* ===================================================================== *)

Module Procedural.
Import MemoryTypes.

Section WithEnv.
Context `{PyLib} `{VectorIndex}.

(** [class ProceduralMemory]. *)
Record ProceduralMemory := mkProcedural {
  pm_collection : collection;
  _skills_cache : odict skill_dict;
  skills_file : option (odict skill_dict)
}.

Definition set_skills (mem : ProceduralMemory) (cache : odict skill_dict) : ProceduralMemory :=
  mkProcedural (pm_collection mem) cache (skills_file mem).

Definition skill_serializable (d : skill_dict) : bool :=
  match sd_metadata d with
  | MObj _ => false
  | _ => true
  end.

(** [ProceduralMemory._save_skills_cache]. *)
Definition _save_skills_cache : M ProceduralMemory unit :=
  fun mem =>
    if forallb skill_serializable (od_values (_skills_cache mem))
    then (mkProcedural (pm_collection mem) (_skills_cache mem) (Some (_skills_cache mem)), Ok tt)
    else (mem, Raise TypeError).

(** [ProceduralMemory._skill_to_text]. *)
Definition _skill_to_text (skill : Skill) : string :=
  String.concat (String "010"%char EmptyString)
    [ "Skill: " ++ sk_name skill;
      "Description: " ++ sk_description skill;
      "Pattern: " ++ sk_pattern skill;
      "Conditions: " ++ String.concat ", " (sk_trigger_conditions skill);
      "Action: " ++ sk_action_template skill ].

(** [ProceduralMemory.store]. *)
Definition store (skill : Skill) : M ProceduralMemory string :=
  let text := _skill_to_text skill in
  let chroma_metadata :=
    [ ("name", MStr (sk_name skill));
      ("description", MStr (prefix_of 200 (sk_description skill)));
      ("pattern_preview", MStr (prefix_of 200 (sk_pattern skill)));
      ("success_rate", MFloat (sk_success_rate skill));
      ("usage_count", MInt (sk_usage_count skill));
      ("status", MStr (status (sk_metadata skill)));
      ("trigger_conditions", MStr (json_dumps_list (sk_trigger_conditions skill))) ] in
  mem <- get_state ;;
  put_state (mkProcedural (coll_upsert (pm_collection mem) (sk_id skill) text chroma_metadata)
                          (od_set (sk_id skill) (skill_to_dict skill) (_skills_cache mem))
                          (skills_file mem)) ;;;
  _save_skills_cache ;;;
  ret (sk_id skill).

(** [ProceduralMemory.create_skill]. *)
Definition create_skill (now : Z) (name description pattern : string)
    (trigger_conditions : list string) (action_template : string)
    (source_episodes : list string) (success_rate : Q) : M ProceduralMemory string :=
  store (mkSkill (skill_generate_id name pattern) name description pattern
                 trigger_conditions action_template success_rate 0 source_episodes
                 (new_metadata (isoformat now) "consolidation")).

(** [Skill.from_dict(self._skills_cache[key])], assigning to the payload of
    the cache. *)
Definition from_dict_in_cache (now : Z) (key : string) (data : skill_dict)
  : M ProceduralMemory Skill :=
  fun mem =>
    let '(data', skill) := skill_from_dict (isoformat now) data in
    (set_skills mem (od_set key data' (_skills_cache mem)), Ok skill).

(** The score built for a candidate of [find_applicable_skills]. *)
Definition skill_score (now : Z) (skill : Skill) (distance : Q) : MemoryScore :=
  mkScore (1 - Q2R distance)%R
          (Q2R (sk_success_rate skill))
          (calculate_recency_score now (created_at (sk_metadata skill)) recency_decay_days)
          (Rmin (IZR (sk_usage_count skill) / 100) 1).

(** The body of the loop of [find_applicable_skills]. *)
Definition find_step (now : Z) (min_success_rate : Q)
    (scored_results : list (Skill * MemoryScore)) (candidate : string * Q)
  : M ProceduralMemory (list (Skill * MemoryScore)) :=
  let '(skill_id, distance) := candidate in
  mem <- get_state ;;
  match od_get skill_id (_skills_cache mem) with
  | None => ret scored_results
  | Some data =>
      skill <- from_dict_in_cache now skill_id data ;;
      if Qltb (sk_success_rate skill) min_success_rate then ret scored_results
      else ret (scored_results ++ [(skill, skill_score now skill distance)])%list
  end.

(** [ProceduralMemory.find_applicable_skills]. *)
Definition find_applicable_skills (now : Z) (context : string) (n_results : nat)
    (min_success_rate : Q) : M ProceduralMemory (list (Skill * MemoryScore)) :=
  mem <- get_state ;;
  if decide (coll_count (pm_collection mem) = 0) then ret []
  else
    let results :=
      coll_query (pm_collection mem) context
                 (min (n_results * 2) (coll_count (pm_collection mem))) false in
    scored_results <- for_each (find_step now min_success_rate) [] results ;;
    ret (firstn n_results
           (sort_desc (fun x y => Rgtb (combined_score x.2) (combined_score y.2))
                      scored_results)).

(** The first payload whose name is [name], with its key. *)
Fixpoint find_by_name (name : string) (cache : odict skill_dict) : option (string * skill_dict) :=
  match cache with
  | [] => None
  | (key, data) :: rest =>
      if decide (sd_name data = name) then Some (key, data) else find_by_name name rest
  end.

(** [ProceduralMemory.get_skill_by_name]. *)
Definition get_skill_by_name (now : Z) (name : string) : M ProceduralMemory (option Skill) :=
  mem <- get_state ;;
  match find_by_name name (_skills_cache mem) with
  | None => ret None
  | Some (key, data) => skill <- from_dict_in_cache now key data ;; ret (Some skill)
  end.

(** The running average of [record_usage]:
    [current_rate * (1 - weight) + new_success * weight] with
    [weight = 1 / usage_count]. *)
Definition new_success_rate (current_rate : Q) (usage_count : Z) (success : bool) : Q :=
  let new_success : Q := if success then 1%Q else 0%Q in
  let weight : Q := (1 / inject_Z usage_count)%Q in
  (current_rate * (1 - weight) + new_success * weight)%Q.

(** [skill_data["metadata"]["updated_at"] = now]. *)
Definition touch_updated_at (now : Z) (r : meta_rep) : result meta_rep :=
  match r with
  | MAbsent => Raise KeyError
  | MObj _ => Raise TypeError
  | MDict d =>
      Ok (MDict (mkMetaDict (md_created_at d) (Some (isoformat now)) (md_access_count d)
                            (md_last_accessed d) (md_source d) (md_tags d)
                            (md_priority d) (md_status d)))
  end.

(** [ProceduralMemory.record_usage].  The two counters are assigned in the
    payload before the metadata assignment, the index update and the save,
    each of which may raise. *)
Definition record_usage (now : Z) (skill_id : string) (success : bool)
  : M ProceduralMemory bool :=
  mem <- get_state ;;
  match od_get skill_id (_skills_cache mem) with
  | None => ret false
  | Some skill_data =>
      let usage_count := (default 0 (sd_usage_count skill_data) + 1)%Z in
      let current_rate := default 0%Q (sd_success_rate skill_data) in
      if decide (usage_count = 0%Z) then raise ZeroDivisionError
      else
        let new_rate := new_success_rate current_rate usage_count success in
        let counted :=
          mkSkillDict (sd_id skill_data) (sd_name skill_data) (sd_description skill_data)
                      (sd_pattern skill_data) (sd_trigger_conditions skill_data)
                      (sd_action_template skill_data) (Some new_rate) (Some usage_count)
                      (sd_source_episodes skill_data) (sd_metadata skill_data) in
        put_state (set_skills mem (od_set skill_id counted (_skills_cache mem))) ;;;
        match touch_updated_at now (sd_metadata counted) with
        | Raise x => raise x
        | Ok meta =>
            put_state (mkProcedural
                         (coll_update (pm_collection mem) skill_id
                                      [("usage_count", MInt usage_count);
                                       ("success_rate", MFloat new_rate)])
                         (od_set skill_id (sd_set_metadata counted meta) (_skills_cache mem))
                         (skills_file mem)) ;;;
            _save_skills_cache ;;;
            ret true
        end
  end.

(** [ProceduralMemory.update_skill].  [skill.metadata] is the object that
    [from_dict] left in the payload, so the assignment to [updated_at] shows
    in the cache until [store] replaces the payload stored under
    [skill.id]. *)
Definition update_skill (now : Z) (skill_id : string) (pattern : option string)
    (trigger_conditions : option (list string)) (action_template : option string)
  : M ProceduralMemory bool :=
  mem <- get_state ;;
  match od_get skill_id (_skills_cache mem) with
  | None => ret false
  | Some data =>
      skill <- from_dict_in_cache now skill_id data ;;
      let pattern' :=
        match pattern with
        | Some p => if decide (p = "") then sk_pattern skill else p
        | None => sk_pattern skill
        end in
      let triggers' :=
        match trigger_conditions with
        | Some (t :: ts) => t :: ts
        | _ => sk_trigger_conditions skill
        end in
      let template' :=
        match action_template with
        | Some a => if decide (a = "") then sk_action_template skill else a
        | None => sk_action_template skill
        end in
      let m := sk_metadata skill in
      let m' := mkMeta (created_at m) (isoformat now) (access_count m) (last_accessed m)
                       (source m) (tags m) (priority m) (status m) in
      mem1 <- get_state ;;
      (match od_get skill_id (_skills_cache mem1) with
       | Some data1 =>
           match sd_metadata data1 with
           | MObj _ =>
               put_state (set_skills mem1 (od_set skill_id (sd_set_metadata data1 (MObj m'))
                                                  (_skills_cache mem1)))
           | _ => ret tt
           end
       | None => ret tt
       end) ;;;
      store (mkSkill (sk_id skill) (sk_name skill) (sk_description skill) pattern' triggers'
                     template' (sk_success_rate skill) (sk_usage_count skill)
                     (sk_source_episodes skill) m') ;;;
      ret true
  end.

(** [ProceduralMemory.add_source_episode]. *)
Definition add_source_episode (now : Z) (skill_id episode_id : string)
  : M ProceduralMemory bool :=
  mem <- get_state ;;
  match od_get skill_id (_skills_cache mem) with
  | None => ret false
  | Some skill_data =>
      let sources := default [] (sd_source_episodes skill_data) in
      if decide (episode_id ∈ sources) then ret true
      else
        let sourced :=
          mkSkillDict (sd_id skill_data) (sd_name skill_data) (sd_description skill_data)
                      (sd_pattern skill_data) (sd_trigger_conditions skill_data)
                      (sd_action_template skill_data) (sd_success_rate skill_data)
                      (sd_usage_count skill_data) (Some (sources ++ [episode_id])%list)
                      (sd_metadata skill_data) in
        put_state (set_skills mem (od_set skill_id sourced (_skills_cache mem))) ;;;
        match touch_updated_at now (sd_metadata sourced) with
        | Raise x => raise x
        | Ok meta =>
            put_state (set_skills mem (od_set skill_id (sd_set_metadata sourced meta)
                                              (_skills_cache mem))) ;;;
            _save_skills_cache ;;;
            ret true
        end
  end.

End WithEnv.

End Procedural.

(* ===================================================================== *)
(** * knowledge_graph.py *)
(* ===================================================================== *)

Module Knowledge.
Import MemoryTypes.

Section WithEnv.
Context `{PyLib} `{VectorIndex}.

(** A triple payload of [_graph], as [KnowledgeTriple.to_dict] writes it. *)
Record triple_dict := mkTripleDict {
  td_id : string;
  td_subject : string;
  td_predicate : string;
  td_object : string;
  td_confidence : option Q;
  td_source_episode : option string;
  td_metadata : meta_rep
}.

(** [class KnowledgeGraph]: the vector collection, the payloads, the three
    inverted indices and the content of [graph.json]. *)
Record KnowledgeGraph := mkKnowledge {
  kg_collection : collection;
  _graph : gmap string triple_dict;
  _subject_index : gmap string (gset string);
  _object_index : gmap string (gset string);
  _predicate_index : gmap string (gset string);
  graph_file : option (gmap string triple_dict)
}.

Definition triple_serializable (d : triple_dict) : bool :=
  match td_metadata d with
  | MObj _ => false
  | _ => true
  end.

(** [KnowledgeGraph._save_graph]: [json.dumps] raises on a payload that
    holds a [MemoryMetadata] object. *)
Definition _save_graph : M KnowledgeGraph unit :=
  fun kg =>
    if forallb triple_serializable (map snd (map_to_list (_graph kg)))
    then (mkKnowledge (kg_collection kg) (_graph kg) (_subject_index kg) (_object_index kg)
                      (_predicate_index kg) (Some (_graph kg)), Ok tt)
    else (kg, Raise TypeError).

(** [index[key].add(tid)] on a [defaultdict(set)]. *)
Definition index_add (index : gmap string (gset string)) (key tid : string)
  : gmap string (gset string) :=
  <[key := default ∅ (index !! key) ∪ {[tid]}]> index.

(** The test of [_find_existing_triple] on one identifier:
    [data = self._graph.get(triple_id, {})] and the comparison of the
    lower-cased predicate and object. *)
Definition same_relation (graph : gmap string triple_dict) (predicate obj : string)
    (triple_id : string) : bool :=
  let data_predicate := default "" (td_predicate <$> graph !! triple_id) in
  let data_object := default "" (td_object <$> graph !! triple_id) in
  bool_decide (lower data_predicate = lower predicate)
  && bool_decide (lower data_object = lower obj).

(** [KnowledgeGraph._find_existing_triple]; the set of identifiers is
    iterated in the order of [elements]. *)
Definition _find_existing_triple (kg : KnowledgeGraph) (subject predicate obj : string)
  : option string :=
  let subject_matches := default ∅ (_subject_index kg !! lower subject) in
  List.find (same_relation (_graph kg) predicate obj) (elements subject_matches).

(** [KnowledgeTriple.to_dict] of the triple built by [add_triple]. *)
Definition new_triple_dict (now : Z) (subject predicate obj : string) (confidence : Q)
    (source_episode : option string) : triple_dict :=
  let src :=
    match source_episode with
    | Some e => if decide (e = "") then "user" else "extraction"
    | None => "user"
    end in
  mkTripleDict (triple_generate_id subject predicate obj) subject predicate obj
               (Some confidence) source_episode
               (MDict (meta_to_dict (new_metadata (isoformat now) src))).

(** The branch of [add_triple] taken when a structurally identical triple
    exists: the confidence is raised when the new one is greater. *)
Definition raise_confidence (now : Z) (existing_id : string) (confidence : Q)
  : M KnowledgeGraph string :=
  kg <- get_state ;;
  match _graph kg !! existing_id with
  | None => raise KeyError
  | Some data =>
      if Qgtb confidence (default 0%Q (td_confidence data)) then
        let raised :=
          mkTripleDict (td_id data) (td_subject data) (td_predicate data) (td_object data)
                       (Some confidence) (td_source_episode data) (td_metadata data) in
        put_state (mkKnowledge (kg_collection kg) (<[existing_id := raised]> (_graph kg))
                               (_subject_index kg) (_object_index kg) (_predicate_index kg)
                               (graph_file kg)) ;;;
        match td_metadata raised with
        | MAbsent => raise KeyError
        | MObj _ => raise TypeError
        | MDict d =>
            let touched :=
              mkTripleDict (td_id data) (td_subject data) (td_predicate data)
                           (td_object data) (Some confidence) (td_source_episode data)
                           (MDict (mkMetaDict (md_created_at d) (Some (isoformat now))
                                              (md_access_count d) (md_last_accessed d)
                                              (md_source d) (md_tags d) (md_priority d)
                                              (md_status d))) in
            put_state (mkKnowledge (kg_collection kg) (<[existing_id := touched]> (_graph kg))
                                   (_subject_index kg) (_object_index kg)
                                   (_predicate_index kg) (graph_file kg)) ;;;
            _save_graph ;;;
            ret existing_id
        end
      else ret existing_id
  end.

(** The branch of [add_triple] that inserts a new triple. *)
Definition insert_triple (now : Z) (subject predicate obj : string) (confidence : Q)
    (source_episode : option string) : M KnowledgeGraph string :=
  let triple := new_triple_dict now subject predicate obj confidence source_episode in
  let text := subject ++ " " ++ predicate ++ " " ++ obj in
  let chroma_metadata :=
    [ ("subject", MStr subject); ("predicate", MStr predicate); ("object", MStr obj);
      ("confidence", MFloat confidence);
      ("source_episode", MStr (default "" source_episode)) ] in
  kg <- get_state ;;
  put_state (mkKnowledge (coll_upsert (kg_collection kg) (td_id triple) text chroma_metadata)
                         (<[td_id triple := triple]> (_graph kg))
                         (_subject_index kg) (_object_index kg) (_predicate_index kg)
                         (graph_file kg)) ;;;
  _save_graph ;;;
  kg' <- get_state ;;
  put_state (mkKnowledge (kg_collection kg') (_graph kg')
                         (index_add (_subject_index kg') (lower subject) (td_id triple))
                         (index_add (_object_index kg') (lower obj) (td_id triple))
                         (index_add (_predicate_index kg') (lower predicate) (td_id triple))
                         (graph_file kg')) ;;;
  ret (td_id triple).

(** [KnowledgeGraph.add_triple].  [if existing_id:] is false for [None] and
    for the empty identifier. *)
Definition add_triple (now : Z) (subject predicate obj : string) (confidence : Q)
    (source_episode : option string) : M KnowledgeGraph string :=
  kg <- get_state ;;
  match _find_existing_triple kg subject predicate obj with
  | Some existing_id =>
      if decide (existing_id = "")
      then insert_triple now subject predicate obj confidence source_episode
      else raise_confidence now existing_id confidence
  | None => insert_triple now subject predicate obj confidence source_episode
  end.

(** The patterns of [extract_triples_from_text], in order, with their
    predicate and, for the third component, the default subject. *)
Definition extraction_patterns : list (extract_pattern * string * option string) :=
  [ (EstUn, "is_a", None);
    (Utilise, "uses", None);
    (DependDe, "depends_on", None);
    (UtilisateurPrefere, "prefers", Some "utilisateur");
    (A_, "has", None);
    (Peut, "can", None) ].

(** [KnowledgeGraph.extract_triples_from_text]. *)
Definition extract_triples_from_text (now : Z) (text : string)
    (source_episode : option string) : M KnowledgeGraph (list string) :=
  for_each
    (fun created_ids pattern_tuple =>
       let '(pattern, predicate, default_subject) := pattern_tuple in
       for_each
         (fun created_ids' groups =>
            let '(subject, obj) :=
              match default_subject with
              | Some s => (s, groups.1)
              | None => (groups.1, groups.2)
              end in
            triple_id <- add_triple now subject predicate obj 0.7%Q source_episode ;;
            ret (created_ids' ++ [triple_id])%list)
         created_ids (re_finditer pattern text))
    [] extraction_patterns.

End WithEnv.

End Knowledge.

(* ===================================================================== *)
(** * hybrid_search.py *)
(* ===================================================================== *)

Module Hybrid.

(** [x / y] on floats: [ZeroDivisionError] when the divisor is zero. *)
Definition div_float (x y : R) : result R :=
  if Req_dec_T y 0 then Raise ZeroDivisionError else Ok (x / y)%R.

(** [max(l)] and [min(l)] of a list of floats (never called on []). *)
Definition max_list (l : list R) : R :=
  match l with
  | [] => 0%R
  | x :: l' => fold_left Rmax l' x
  end.

Definition min_list (l : list R) : R :=
  match l with
  | [] => 0%R
  | x :: l' => fold_left Rmin l' x
  end.

Section WithEnv.
Context `{PyLib} `{VectorIndex}.

(** [class BM25]. *)
Record BM25 := mkBM25 {
  k1 : R;
  b : R;
  corpus : list (list string);
  doc_lengths : list nat;
  avgdl : R;
  df : gmap string nat;
  idf : gmap string R;
  doc_ids : list string;
  doc_contents : list string
}.

(** [BM25(k1, b)]. *)
Definition new_BM25 (k1 b : R) : BM25 := mkBM25 k1 b [] [] 0 ∅ ∅ [] [].

(** [BM25.tokenize]. *)
Definition tokenize (text : string) : list string := re_findall_words (lower text).

(** The inner loop of [fit]: the document frequency of every distinct token
    of one document grows by one. *)
Fixpoint count_document (tokens : list string) (seen : gset string) (df : gmap string nat)
  : gmap string nat :=
  match tokens with
  | [] => df
  | token :: rest =>
      if decide (token ∈ seen) then count_document rest seen df
      else count_document rest ({[token]} ∪ seen) (<[token := S (default 0%nat (df !! token))]> df)
  end.

(** The body of the loop of [fit] over the documents. *)
Definition fit_document (bm : BM25) (document : string * string) : BM25 :=
  let '(doc_id, content) := document in
  let tokens := tokenize content in
  mkBM25 (k1 bm) (b bm) (corpus bm ++ [tokens]) (doc_lengths bm ++ [length tokens])
         (avgdl bm) (count_document tokens ∅ (df bm)) (idf bm)
         (doc_ids bm ++ [doc_id]) (doc_contents bm ++ [content]).

(** The smoothed inverse document frequency computed by [fit]. *)
Definition idf_value (n df_val : nat) : R :=
  ln ((INR n - INR df_val + 0.5) / (INR df_val + 0.5) + 1).

(** [BM25.fit].  [self.idf] is not reset: the terms of an earlier corpus
    keep their value. *)
Definition fit (bm : BM25) (documents : list (string * string)) : BM25 :=
  let indexed :=
    fold_left fit_document documents
              (mkBM25 (k1 bm) (b bm) [] [] (avgdl bm) ∅ (idf bm) [] []) in
  let avgdl' :=
    match doc_lengths indexed with
    | [] => avgdl indexed
    | _ => (INR (list_sum (doc_lengths indexed)) / INR (length (doc_lengths indexed)))%R
    end in
  let n := length (corpus indexed) in
  mkBM25 (k1 indexed) (b indexed) (corpus indexed) (doc_lengths indexed) avgdl'
         (df indexed) ((idf_value n <$> df indexed) ∪ idf indexed)
         (doc_ids indexed) (doc_contents indexed).

(** [Counter(doc_tokens)[term]]. *)
Definition term_count (doc_tokens : list string) (term : string) : nat :=
  length (List.filter (fun t => bool_decide (t = term)) doc_tokens).

(** The contribution of one query term found in the document. *)
Definition term_score (bm : BM25) (term_freq : nat) (doc_len : nat) (term : string)
  : result R :=
  let idf_term := default 0%R (idf bm !! term) in
  let numerator := (INR term_freq * (k1 bm + 1))%R in
  match div_float (b bm * INR doc_len) (avgdl bm) with
  | Raise x => Raise x
  | Ok ratio =>
      let denominator := (INR term_freq + k1 bm * (1 - b bm + ratio))%R in
      match div_float numerator denominator with
      | Raise x => Raise x
      | Ok quotient => Ok (idf_term * quotient)%R
      end
  end.

(** The loop of [score] over the query tokens. *)
Fixpoint score_terms (bm : BM25) (doc_tokens : list string) (doc_len : nat)
    (query_tokens : list string) (score : R) : result R :=
  match query_tokens with
  | [] => Ok score
  | term :: rest =>
      if decide (term_count doc_tokens term = 0%nat)
      then score_terms bm doc_tokens doc_len rest score
      else
        match term_score bm (term_count doc_tokens term) doc_len term with
        | Raise x => Raise x
        | Ok s => score_terms bm doc_tokens doc_len rest (score + s)%R
        end
  end.

(** [BM25.score]. *)
Definition score (bm : BM25) (query : string) (doc_idx : nat) : result R :=
  match corpus bm !! doc_idx, doc_lengths bm !! doc_idx with
  | Some doc_tokens, Some doc_len =>
      score_terms bm doc_tokens doc_len (tokenize query) 0
  | _, _ => Raise IndexError
  end.

(** The loop of [BM25.search] over the document indices. *)
Fixpoint search_scores (bm : BM25) (query : string) (indices : list nat)
    (scores : list (string * string * R)) : result (list (string * string * R)) :=
  match indices with
  | [] => Ok scores
  | idx :: rest =>
      match score bm query idx with
      | Raise x => Raise x
      | Ok s =>
          if Rgtb s 0 then
            match doc_ids bm !! idx, doc_contents bm !! idx with
            | Some doc_id, Some content =>
                search_scores bm query rest (scores ++ [(doc_id, content, s)])
            | _, _ => Raise IndexError
            end
          else search_scores bm query rest scores
      end
  end.

(** [BM25.search]. *)
Definition bm25_search (bm : BM25) (query : string) (top_k : nat)
  : result (list (string * string * R)) :=
  match search_scores bm query (seq 0 (length (corpus bm))) [] with
  | Raise x => Raise x
  | Ok scores => Ok (firstn top_k (sort_desc (fun x y => Rgtb x.2 y.2) scores))
  end.

(** [@dataclass class HybridSearchResult]. *)
Record HybridSearchResult := mkHybridResult {
  hr_id : string;
  hr_content : string;
  hr_bm25_score : R;
  hr_vector_score : R;
  hr_combined_score : R;
  hr_metadata : list (string * mval)
}.

(** [class HybridSearchEngine]. *)
Record HybridSearchEngine := mkEngine {
  bm25_weight : R;
  vector_weight : R;
  bm25 : BM25;
  chroma_collection : option collection;
  documents : odict string;
  metadata : odict (list (string * mval))
}.

(** [HybridSearchEngine(bm25_weight, vector_weight)] over a collection. *)
Definition new_engine (bm25_weight vector_weight : R) (c : option collection)
  : HybridSearchEngine :=
  mkEngine bm25_weight vector_weight (new_BM25 1.5 0.75) c [] [].

(** [HybridSearchEngine.rebuild_bm25]. *)
Definition rebuild_bm25 (e : HybridSearchEngine) : HybridSearchEngine :=
  mkEngine (bm25_weight e) (vector_weight e) (fit (bm25 e) (documents e))
           (chroma_collection e) (documents e) (metadata e).

(** [HybridSearchEngine.index]. *)
Definition index (e : HybridSearchEngine) (doc_id content : string)
    (meta : option (list (string * mval))) : HybridSearchEngine :=
  mkEngine (bm25_weight e) (vector_weight e) (bm25 e)
           ((fun c => coll_upsert c doc_id content (default [] meta)) <$> chroma_collection e)
           (od_set doc_id content (documents e))
           (od_set doc_id (default [] meta) (metadata e)).

(** [HybridSearchEngine.index_batch], for documents that the vector index
    accepts (the library raises on an empty metadata dictionary). *)
Definition index_batch (e : HybridSearchEngine)
    (docs : list (string * string * option (list (string * mval))))
  : HybridSearchEngine * nat :=
  (rebuild_bm25 (fold_left (fun e' d => index e' d.1.1 d.1.2 d.2) docs e), length docs).

(** [HybridSearchEngine._normalize_scores]: min-max normalisation. *)
Definition _normalize_scores (scores : list R) : list R :=
  match scores with
  | [] => []
  | _ =>
      let min_s := min_list scores in
      let max_s := max_list scores in
      if Req_dec_T max_s min_s then map (fun _ => 1%R) scores
      else map (fun s => ((s - min_s) / (max_s - min_s))%R) scores
  end.

(** The dictionary built from the result list of a ranker; a later entry
    for the same identifier replaces an earlier one. *)
Definition scores_dict (l : list (string * R)) : gmap string R :=
  fold_left (fun m p => <[p.1 := p.2]> m) l ∅.

(** [max(list(d.values()) if d else [0])]. *)
Definition max_score (d : gmap string R) : R :=
  max_list (if decide (d = ∅) then [0%R] else map snd (map_to_list d)).

(** [d.get(doc_id, 0) / d_max if d_max > 0 else 0]. *)
Definition scaled_score (d : gmap string R) (d_max : R) (doc_id : string) : R :=
  if Rgtb d_max 0 then (default 0%R (d !! doc_id) / d_max)%R else 0%R.

(** The result built for one identifier of [all_ids]. *)
Definition fuse (e : HybridSearchEngine) (bm25_scores vector_scores : gmap string R)
    (doc_id : string) : HybridSearchResult :=
  let bm25_s := scaled_score bm25_scores (max_score bm25_scores) doc_id in
  let vector_s := scaled_score vector_scores (max_score vector_scores) doc_id in
  mkHybridResult doc_id (default "" (od_get doc_id (documents e))) bm25_s vector_s
                 (bm25_weight e * bm25_s + vector_weight e * vector_s)%R
                 (default [] (od_get doc_id (metadata e))).

(** The scores of the vector ranker: [1 - dist] for the [2 * top_k] nearest
    documents, nothing without a collection. *)
Definition vector_scores_of (e : HybridSearchEngine) (query : string) (top_k : nat)
  : gmap string R :=
  match chroma_collection e with
  | Some c =>
      scores_dict (map (fun p => (p.1, (1 - Q2R p.2)%R)) (coll_query c query (top_k * 2) false))
  | None => ∅
  end.

(** [HybridSearchEngine.search].  [all_ids] is a set: it is iterated in the
    order of [elements]. *)
Definition search (e : HybridSearchEngine) (query : string) (top_k : nat) (min_score : R)
  : result (list HybridSearchResult) :=
  match bm25_search (bm25 e) query (top_k * 2) with
  | Raise x => Raise x
  | Ok bm25_results =>
      let bm25_scores := scores_dict (map (fun r => (r.1.1, r.2)) bm25_results) in
      let vector_scores := vector_scores_of e query top_k in
      let all_ids := elements (dom bm25_scores ∪ dom vector_scores) in
      let results :=
        List.filter (fun r => negb (Rgtb min_score (hr_combined_score r)))
                    (map (fuse e bm25_scores vector_scores) all_ids) in
      Ok (firstn top_k
            (sort_desc (fun x y => Rgtb (hr_combined_score x) (hr_combined_score y)) results))
  end.

End WithEnv.

End Hybrid.

(* ===================================================================== *)
(** * memory_consolidator.py *)
(* ===================================================================== *)

Module Consolidator.
Import MemoryTypes.

Section WithEnv.
Context `{PyLib} `{VectorIndex}.

(** [class MemoryConsolidator]: the three stores and the content of
    [consolidation_logs/] (file name to record). *)
Record MemoryConsolidator := mkConsolidator {
  episodic : Episodic.EpisodicMemory;
  procedural : Procedural.ProceduralMemory;
  knowledge : Knowledge.KnowledgeGraph;
  logs_dir : odict ConsolidationResult
}.

Definition on_episodic {A} (m : M Episodic.EpisodicMemory A) : M MemoryConsolidator A :=
  lift episodic (fun c e => mkConsolidator e (procedural c) (knowledge c) (logs_dir c)) m.

Definition on_procedural {A} (m : M Procedural.ProceduralMemory A) : M MemoryConsolidator A :=
  lift procedural (fun c p => mkConsolidator (episodic c) p (knowledge c) (logs_dir c)) m.

Definition on_knowledge {A} (m : M Knowledge.KnowledgeGraph A) : M MemoryConsolidator A :=
  lift knowledge (fun c k => mkConsolidator (episodic c) (procedural c) k (logs_dir c)) m.

(** The key of [_group_by_pattern] for one episode. *)
Definition pattern_key_of (episode : Episode) : string :=
  match firstn 3 (split (lower (ep_action episode))) with
  | [] => "unknown"
  | action_words => String.concat "_" action_words
  end.

(** [MemoryConsolidator._group_by_pattern]. *)
Definition _group_by_pattern (episodes : list Episode) : odict (list Episode) :=
  fold_left (fun groups episode =>
               let pattern_key := pattern_key_of episode in
               od_set pattern_key
                      (default [] (od_get pattern_key groups) ++ [episode])%list groups)
            episodes [].

(** [MemoryConsolidator._find_common_pattern]. *)
Definition _find_common_pattern (texts : list string) : string :=
  match texts with
  | [] => ""
  | first :: others =>
      let word_set (t : string) : gset string := list_to_set (split (lower t)) in
      let common_words := fold_left (fun ws t => ws ∩ word_set t) others (word_set first) in
      let pattern :=
        String.concat " "
          (List.filter (fun w => bool_decide (lower w ∈ common_words)) (split first)) in
      if decide (pattern = "") then prefix_of 100 first else pattern
  end.

(** [word_freq[word] += 1] on a [defaultdict(int)]. *)
Definition count_word (word_freq : odict nat) (word : string) : odict nat :=
  od_set word (S (default 0%nat (od_get word word_freq))) word_freq.

(** [MemoryConsolidator._extract_trigger_conditions]. *)
Definition _extract_trigger_conditions (contexts : list string) : list string :=
  let word_freq :=
    fold_left (fun freq ctx =>
                 fold_left (fun freq' word =>
                              if decide (3 < String.length word)%nat
                              then count_word freq' word else freq')
                           (split (lower ctx)) freq)
              contexts [] in
  let common_keywords :=
    map fst (List.filter (fun wc => bool_decide (length contexts <= 2 * wc.2)%nat) word_freq) in
  firstn 5 common_keywords.

(** [MemoryConsolidator._generalize_action]. *)
Definition _generalize_action (action : string) : string :=
  let template := re_sub PathPattern "{{PATH}}" action in
  let template := re_sub NumberPattern "{{NUMBER}}" template in
  let template := re_sub DoubleQuoted "{{STRING}}" template in
  re_sub SingleQuoted "{{STRING}}" template.

(** The dictionary returned by [_consolidate_pattern_to_skill]. *)
Record skill_result := mkSkillResult {
  created : bool;
  updated : bool;
  skill_id : option string
}.

(** [MemoryConsolidator._consolidate_pattern_to_skill]. *)
Definition _consolidate_pattern_to_skill (now : Z) (pattern_key : string)
    (episodes : list Episode) (dry_run : bool) : M MemoryConsolidator skill_result :=
  match episodes with
  | [] => raise ZeroDivisionError
  | _ =>
      let avg_valence :=
        (fold_left Qplus (map ep_emotional_valence episodes) 0
         / inject_Z (Z.of_nat (length episodes)))%Q in
      let contexts := map ep_context episodes in
      let actions := map ep_action episodes in
      let skill_name := "skill_" ++ pattern_key in
      let description :=
        "Pattern appris depuis " ++ pretty (length episodes) ++ " épisodes réussis" in
      let common_action := _find_common_pattern actions in
      let trigger_conditions := _extract_trigger_conditions contexts in
      let action_template := _generalize_action common_action in
      existing_skill <- on_procedural (Procedural.get_skill_by_name now skill_name) ;;
      if dry_run then
        match existing_skill with
        | Some skill => ret (mkSkillResult false true (Some (sk_id skill)))
        | None => ret (mkSkillResult true false None)
        end
      else
        match existing_skill with
        | Some skill =>
            on_procedural (Procedural.update_skill now (sk_id skill) (Some common_action)
                             (Some trigger_conditions) (Some action_template)) ;;;
            for_each (fun _ ep =>
                        on_procedural
                          (Procedural.add_source_episode now (sk_id skill) (ep_id ep)) ;;;
                        ret tt)
                     tt episodes ;;;
            ret (mkSkillResult false true (Some (sk_id skill)))
        | None =>
            new_id <- on_procedural
                        (Procedural.create_skill now skill_name description common_action
                           trigger_conditions action_template (map ep_id episodes)
                           avg_valence) ;;
            ret (mkSkillResult true false (Some new_id))
        end
  end.

(** [MemoryConsolidator._extract_knowledge_from_episode]. *)
Definition _extract_knowledge_from_episode (now : Z) (episode : Episode) (dry_run : bool)
  : M MemoryConsolidator nat :=
  if dry_run then ret 0%nat
  else
    let text := ep_context episode ++ ". " ++ ep_action episode ++ ". " ++ ep_outcome episode in
    created_ids <- on_knowledge
                     (Knowledge.extract_triples_from_text now text (Some (ep_id episode))) ;;
    for_each (fun created_count entity =>
                on_knowledge
                  (Knowledge.add_triple now entity "mentioned_in"
                     ("episode_" ++ prefix_of 8 (ep_id episode)) 0.9%Q
                     (Some (ep_id episode))) ;;;
                ret (S created_count))
             (length created_ids) (ep_entities episode).

(** [MemoryConsolidator._archive_old_consolidated] with [days_old = 30]. *)
Definition _archive_old_consolidated (now : Z) : M MemoryConsolidator nat :=
  let cutoff_iso := isoformat (now - 30 * 86400 * 1000000) in
  episodes <- on_episodic (Episodic.get_recent_episodes now 1000) ;;
  for_each (fun archived episode =>
              if decide (status (ep_metadata episode) = CONSOLIDATED) then
                if String.ltb (ep_timestamp episode) cutoff_iso then
                  done <- on_episodic (Episodic.archive_episode now (ep_id episode)) ;;
                  ret (if done : bool then S archived else archived)
                else ret archived
              else ret archived)
           0%nat episodes.

(** [MemoryConsolidator._log_consolidation]: one file per second, written
    with [write_text]. *)
Definition _log_consolidation (now : Z) (result : ConsolidationResult)
  : M MemoryConsolidator unit :=
  fun c =>
    (mkConsolidator (episodic c) (procedural c) (knowledge c)
                    (od_set ("consolidation_" ++ strftime_stamp now ++ ".json") result
                            (logs_dir c)),
     Ok tt).

(** The message stored in [details] when there are too few episodes. *)
Definition too_few_message (n : nat) (min_episodes : Z) : string :=
  "Pas assez d'épisodes (" ++ pretty n ++ " < " ++ pretty min_episodes ++ ")".

(** The body of step 3 of [consolidate] for one group; the accumulator
    counts the skills created and updated. *)
Definition consolidate_group (now : Z) (dry_run : bool) (counts : nat * nat)
    (group : string * list Episode) : M MemoryConsolidator (nat * nat) :=
  let '(pattern_key, episodes) := group in
  if decide (length episodes < min_skill_occurrences)%nat then ret counts
  else
    skill_result <- _consolidate_pattern_to_skill now pattern_key episodes dry_run ;;
    let counts' :=
      if created skill_result then (S counts.1, counts.2)
      else if updated skill_result then (counts.1, S counts.2)
      else counts in
    match skill_id skill_result with
    | Some sid =>
        if negb dry_run && negb (bool_decide (sid = "")) then
          on_episodic (Episodic.mark_consolidated now (map ep_id episodes) sid) ;;;
          ret counts'
        else ret counts'
    | None => ret counts'
    end.

(** [MemoryConsolidator.consolidate]; [min_episodes or
    MEMORY_CONFIG["consolidation_threshold"]] takes the default for [None]
    and for [0]. *)
Definition consolidate (now : Z) (min_episodes : option Z) (min_valence : Q)
    (dry_run : bool) : M MemoryConsolidator ConsolidationResult :=
  let min_episodes :=
    match min_episodes with
    | Some n => if decide (n = 0%Z) then consolidation_threshold else n
    | None => consolidation_threshold
    end in
  successful_episodes <-
    on_episodic (Episodic.get_successful_episodes now min_valence 100) ;;
  if decide (Z.of_nat (length successful_episodes) < min_episodes)%Z then
    ret (mkResult 0 0 0 0 0 (isoformat now)
                  (Some (too_few_message (length successful_episodes) min_episodes)) None)
  else
    let pattern_groups := _group_by_pattern successful_episodes in
    counts <- for_each (consolidate_group now dry_run) (0%nat, 0%nat) pattern_groups ;;
    triples <- for_each (fun total episode =>
                           triples_created <-
                             _extract_knowledge_from_episode now episode dry_run ;;
                           ret (total + triples_created)%nat)
                        0%nat successful_episodes ;;
    archived <- (if dry_run then ret 0%nat else _archive_old_consolidated now) ;;
    let result :=
      mkResult (length successful_episodes) counts.1 counts.2 triples archived
               (isoformat now) None (Some (length pattern_groups)) in
    _log_consolidation now result ;;;
    ret result.

End WithEnv.

End Consolidator.

(* ===================================================================== *)
(** * Stand-ins for the collaborators, used to run the model on examples *)
(* ===================================================================== *)

Module Examples.

(** ASCII lower-casing. *)
Definition lower_char (c : ascii) : ascii :=
  let n := nat_of_ascii c in
  if (65 <=? n)%nat && (n <=? 90)%nat then ascii_of_nat (n + 32) else c.

Fixpoint lower_string (s : string) : string :=
  match s with
  | EmptyString => EmptyString
  | String c s' => String (lower_char c) (lower_string s')
  end.

(** Splitting on spaces; [word] is the word being read, reversed. *)
Fixpoint split_spaces (s : string) (word : list ascii) : list string :=
  let flush (w : list ascii) (rest : list string) :=
    match w with
    | [] => rest
    | _ => string_of_list_ascii (rev w) :: rest
    end in
  match s with
  | EmptyString => flush word []
  | String c s' =>
      if decide (c = " "%char) then flush word (split_spaces s' [])
      else split_spaces s' (c :: word)
  end.

(** Instants written as decimal numbers. *)
Fixpoint parse_digits (s : string) (acc : Z) : option Z :=
  match s with
  | EmptyString => Some acc
  | String c s' =>
      let n := nat_of_ascii c in
      if (48 <=? n)%nat && (n <=? 57)%nat
      then parse_digits s' (10 * acc + Z.of_nat (n - 48))
      else None
  end.

Definition parse_instant (s : string) : option Z :=
  match s with
  | EmptyString => None
  | _ => parse_digits s 0
  end.

#[export] Instance toy_lib : PyLib := {|
  lower := lower_string;
  split := fun s => split_spaces s [];
  sha256_hex12 := fun s => s;
  fromisoformat := parse_instant;
  isoformat := fun z => pretty z;
  strftime_stamp := fun z => pretty z;
  re_sub := fun _ _ s => s;
  re_finditer := fun _ _ => [];
  re_findall_words := fun s => split_spaces s [];
  json_dumps_list := String.concat ","
|}.

(** A vector index that keeps, for every identifier, the distance it
    answers to any query, in the order of insertion. *)
#[export] Instance toy_index : VectorIndex := {|
  collection := list (string * Q);
  coll_count := fun c => length c;
  coll_query := fun c _ n _ => firstn n c;
  coll_upsert := fun c id _ _ =>
    if bool_decide (id ∈ map fst c) then c else (c ++ [(id, 0.25%Q)])%list;
  coll_update := fun c _ _ => c
|}.

(** [ProceduralMemory] after [create_skill] on an empty store, as in
    [test_procedural_memory]. *)
Definition fresh_skill_memory : Procedural.ProceduralMemory :=
  (Procedural.create_skill 100 "test_skill" "Skill de test" "commande test"
     ["test"; "commande"] "echo {{STRING}}" [] 0%Q
     (Procedural.mkProcedural [] [] None)).1.

Definition fresh_skill_id : string := "sk_test_skill:commande test".



(** A knowledge graph on an empty store. *)
Definition empty_knowledge : Knowledge.KnowledgeGraph :=
  Knowledge.mkKnowledge [] ∅ ∅ ∅ ∅ None.

End Examples.

(* ===================================================================== *)
(** * temporal_graph.py: the current view and the decayed search *)
(* ===================================================================== *)

Module TemporalQueries.
Import Temporal.

(** [TemporalTriple.is_current]; [now] is the value of [datetime.now()]. *)
Definition is_current (t : TemporalTriple) (now : Z) : bool := is_valid_at t now.

(** [TemporalTriple.age_hours]: [delta.total_seconds() / 3600]. *)
Definition age_hours (t : TemporalTriple) (now : Z) : Q :=
  (inject_Z (now - tt_transaction_time t) / 1000000 / 3600)%Q.

(** [TemporalGraph.query_current]. *)
Definition query_current (g : TemporalGraph) (now : Z)
    (subject predicate obj : option string) : list TemporalTriple :=
  query_at_time g now subject predicate obj.

(** [TemporalGraph.compute_decay_score]: the division raises when
    [1 + decay_rate * age_days] is zero. *)
Definition compute_decay_score (now : Z) (triple : TemporalTriple) (decay_rate : Q)
  : result Q :=
  let age_days := (age_hours triple now / 24)%Q in
  let divisor := (1 + decay_rate * age_days)%Q in
  if Qeq_bool divisor 0 then Raise ZeroDivisionError
  else Ok (tt_confidence triple * (1 / divisor))%Q.

(** The loop of [search_with_decay] over the current triples; [clock i] is
    the value that [datetime.now()] returns for the triple of rank [i]. *)
Fixpoint score_current (clock : nat -> Z) (rank : nat) (decay_rate min_score : Q)
    (current : list TemporalTriple) (scored : list (TemporalTriple * Q))
  : result (list (TemporalTriple * Q)) :=
  match current with
  | [] => Ok scored
  | triple :: rest =>
      match compute_decay_score (clock rank) triple decay_rate with
      | Raise x => Raise x
      | Ok score =>
          score_current clock (S rank) decay_rate min_score rest
            (if Qltb score min_score then scored else (scored ++ [(triple, score)])%list)
      end
  end.

(** [TemporalGraph.search_with_decay]; [now] is the instant read by
    [query_current]. *)
Definition search_with_decay (g : TemporalGraph) (now : Z) (clock : nat -> Z)
    (subject predicate obj : option string) (decay_rate min_score : Q)
  : result (list (TemporalTriple * Q)) :=
  match score_current clock 0 decay_rate min_score
          (query_current g now subject predicate obj) [] with
  | Raise x => Raise x
  | Ok scored => Ok (sort_desc (fun x y => Qgtb x.2 y.2) scored)
  end.

(** One event of [get_entity_timeline]. *)
Inductive event_type := fact_added | fact_ended.
Inductive event_role := as_subject | as_object.

Record timeline_event := mkEvent {
  ev_time : Z;
  ev_type : event_type;
  ev_role : event_role;
  ev_triple : triple_json
}.

(** The events of one indexed identifier; [self.triples[tid]] raises
    [KeyError] for an identifier that is not stored. *)
Definition events_of (g : TemporalGraph) (role : event_role) (tid : string)
  : result (list timeline_event) :=
  match triples g !! tid with
  | None => Raise KeyError
  | Some triple =>
      Ok (mkEvent (tt_valid_from triple) fact_added role (to_dict triple)
          :: match tt_valid_to triple with
             | Some vt => [mkEvent vt fact_ended role (to_dict triple)]
             | None => []
             end)
  end.

Fixpoint events_of_all (g : TemporalGraph) (role : event_role) (tids : list string)
    (events : list timeline_event) : result (list timeline_event) :=
  match tids with
  | [] => Ok events
  | tid :: rest =>
      match events_of g role tid with
      | Raise x => Raise x
      | Ok es => events_of_all g role rest (events ++ es)%list
      end
  end.

(** [list.sort(key=...)]: stable, ascending; [lt x y] says that the key of
    [x] is strictly smaller than the key of [y]. *)
Fixpoint insert_asc {A} (lt : A -> A -> bool) (x : A) (l : list A) : list A :=
  match l with
  | [] => [x]
  | y :: l' => if lt x y then x :: l else y :: insert_asc lt x l'
  end.

Definition sort_asc {A} (lt : A -> A -> bool) (l : list A) : list A :=
  fold_left (fun sorted x => insert_asc lt x sorted) l [].

(** [TemporalGraph.get_entity_timeline]. *)
Definition get_entity_timeline (g : TemporalGraph) (entity : string)
  : result (list timeline_event) :=
  match events_of_all g as_subject (default [] (subject_index g !! entity)) [] with
  | Raise x => Raise x
  | Ok events =>
      match events_of_all g as_object (default [] (object_index g !! entity)) events with
      | Raise x => Raise x
      | Ok events' => Ok (sort_asc (fun x y => (ev_time x <? ev_time y)%Z) events')
      end
  end.

End TemporalQueries.

(* ===================================================================== *)
(** * episodic_memory.py: reading one episode *)
(* ===================================================================== *)

Module EpisodicAccess.
Import MemoryTypes Episodic.

Section WithEnv.
Context `{PyLib} `{VectorIndex}.

(** [EpisodicMemory.get_episode]; [now] is the instant read by
    [_update_access_stats], [now_load] the one read by the defaults of
    [MemoryMetadata] in [from_dict]. *)
Definition get_episode (now now_load : Z) (episode_id : string)
  : M EpisodicMemory (option Episode) :=
  mem <- get_state ;;
  match od_get episode_id (_metadata_cache mem) with
  | None => ret None
  | Some _ =>
      _update_access_stats now episode_id ;;;
      mem' <- get_state ;;
      match od_get episode_id (_metadata_cache mem') with
      | None => raise KeyError
      | Some data =>
          episode <- from_dict_in_cache now_load episode_id data ;;
          ret (Some episode)
      end
  end.

End WithEnv.

End EpisodicAccess.

(* ===================================================================== *)
(** * knowledge_graph.py: loading, relations, paths, deletion *)
(* ===================================================================== *)

Module KnowledgeQueries.
Import MemoryTypes Knowledge.

(** [collection.delete(ids=[id])] of the vector index; the call is made
    under [try: ... except Exception: pass]. *)
Class VectorIndexDelete `{VectorIndex} := {
  coll_delete : collection -> string -> collection
}.

(** [@dataclass class KnowledgeTriple]. *)
Record KnowledgeTriple := mkKnowledgeTriple {
  kt_id : string;
  kt_subject : string;
  kt_predicate : string;
  kt_object : string;
  kt_confidence : Q;
  kt_source_episode : option string;
  kt_metadata : MemoryMetadata
}.

Section WithEnv.
Context `{PyLib} `{VectorIndex}.

Definition td_set_metadata (d : triple_dict) (r : meta_rep) : triple_dict :=
  mkTripleDict (td_id d) (td_subject d) (td_predicate d) (td_object d)
               (td_confidence d) (td_source_episode d) r.

(** [KnowledgeTriple.from_dict] on a payload held by the graph: a metadata
    [dict] of the payload is replaced by the object built from it;
    [__post_init__] generates the identifier when it is empty. *)
Definition triple_from_dict (now_iso : string) (data : triple_dict)
  : triple_dict * KnowledgeTriple :=
  let data' :=
    match td_metadata data with
    | MDict d => td_set_metadata data (MObj (meta_from_dict now_iso d))
    | _ => data
    end in
  let metadata :=
    match td_metadata data' with
    | MObj m => m
    | _ => new_metadata now_iso "user"
    end in
  let id := if decide (td_id data' = "")
            then triple_generate_id (td_subject data') (td_predicate data') (td_object data')
            else td_id data' in
  (data', mkKnowledgeTriple id (td_subject data') (td_predicate data') (td_object data')
                            (default 1%Q (td_confidence data')) (td_source_episode data')
                            metadata).

(** The body of the loop of [_rebuild_indices] for one item of [_graph]. *)
Definition index_entry (kg : KnowledgeGraph) (entry : string * triple_dict) : KnowledgeGraph :=
  mkKnowledge (kg_collection kg) (_graph kg)
              (index_add (_subject_index kg) (lower (td_subject entry.2)) entry.1)
              (index_add (_object_index kg) (lower (td_object entry.2)) entry.1)
              (index_add (_predicate_index kg) (lower (td_predicate entry.2)) entry.1)
              (graph_file kg).

(** [KnowledgeGraph._rebuild_indices]. *)
Definition _rebuild_indices (kg : KnowledgeGraph) : KnowledgeGraph :=
  fold_left index_entry (map_to_list (_graph kg))
            (mkKnowledge (kg_collection kg) (_graph kg) ∅ ∅ ∅ (graph_file kg)).

(** [KnowledgeGraph.__init__] over a collection and the content of
    [graph.json] ([None] when the file is missing or cannot be parsed). *)
Definition open_graph (c : collection) (file : option (gmap string triple_dict))
  : KnowledgeGraph :=
  _rebuild_indices (mkKnowledge c (default ∅ file) ∅ ∅ ∅ file).

(** [for triple_id in ids: if triple_id in self._graph:
    triples.append(KnowledgeTriple.from_dict(self._graph[triple_id]))]. *)
Definition fetch_triple (now : Z) (triples : list KnowledgeTriple) (triple_id : string)
  : M KnowledgeGraph (list KnowledgeTriple) :=
  kg <- get_state ;;
  match _graph kg !! triple_id with
  | None => ret triples
  | Some data =>
      let '(data', triple) := triple_from_dict (isoformat now) data in
      put_state (mkKnowledge (kg_collection kg) (<[triple_id := data']> (_graph kg))
                             (_subject_index kg) (_object_index kg) (_predicate_index kg)
                             (graph_file kg)) ;;;
      ret (triples ++ [triple])%list
  end.

(** [KnowledgeGraph.get_relations]; the sets of identifiers are iterated in
    the order of [elements]. *)
Definition get_relations (now : Z) (entity : string) (direction : string)
  : M KnowledgeGraph (list KnowledgeTriple) :=
  let entity_lower := lower entity in
  kg <- get_state ;;
  triples <-
    (if bool_decide (direction = "outgoing" \/ direction = "both")
     then for_each (fetch_triple now) []
                   (elements (default ∅ (_subject_index kg !! entity_lower)))
     else ret []) ;;
  if bool_decide (direction = "incoming" \/ direction = "both")
  then for_each (fetch_triple now) triples
                (elements (default ∅ (_object_index kg !! entity_lower)))
  else ret triples.

(** [KnowledgeGraph.get_by_predicate]. *)
Definition get_by_predicate (now : Z) (predicate : string)
  : M KnowledgeGraph (list KnowledgeTriple) :=
  kg <- get_state ;;
  for_each (fetch_triple now) []
           (elements (default ∅ (_predicate_index kg !! lower predicate))).

(** The [for triple in ...] loop of [get_path] over the relations of the
    entity taken from the queue: the path found, or the new set of visited
    entities and the new queue. *)
Fixpoint scan_relations (target_lower : string) (path : list KnowledgeTriple)
    (relations : list KnowledgeTriple) (visited : gset string)
    (queue : list (string * list KnowledgeTriple))
  : list KnowledgeTriple + gset string * list (string * list KnowledgeTriple) :=
  match relations with
  | [] => inr (visited, queue)
  | triple :: rest =>
      let obj_lower := lower (kt_object triple) in
      if decide (obj_lower = target_lower) then inl (path ++ [triple])%list
      else if decide (obj_lower ∈ visited)
           then scan_relations target_lower path rest visited queue
           else scan_relations target_lower path rest ({[obj_lower]} ∪ visited)
                               (queue ++ [(kt_object triple, (path ++ [triple])%list)])%list
  end.

(** The [while queue:] loop of [get_path], for at most [fuel] iterations:
    [None] when the iterations are used up, [Some] of the value returned
    otherwise. *)
Fixpoint search_path (fuel : nat) (now : Z) (target_lower : string) (max_depth : nat)
    (visited : gset string) (queue : list (string * list KnowledgeTriple))
  : M KnowledgeGraph (option (option (list KnowledgeTriple))) :=
  match queue with
  | [] => ret (Some None)
  | (current, path) :: queue' =>
      match fuel with
      | O => ret None
      | S fuel' =>
          if (max_depth <=? length path)%nat
          then search_path fuel' now target_lower max_depth visited queue'
          else
            relations <- get_relations now current "outgoing" ;;
            match scan_relations target_lower path relations visited queue' with
            | inl found => ret (Some (Some found))
            | inr (visited', queue'') =>
                search_path fuel' now target_lower max_depth visited' queue''
            end
      end
  end.

(** [KnowledgeGraph.get_path]. *)
Definition get_path (fuel : nat) (now : Z) (source target : string) (max_depth : nat)
  : M KnowledgeGraph (option (option (list KnowledgeTriple))) :=
  if decide (lower source = lower target) then ret (Some (Some []))
  else search_path fuel now (lower target) max_depth {[lower source]} [(source, [])].

Section WithDelete.
Context `{!VectorIndexDelete}.

(** [index[key].discard(tid)] on a [defaultdict(set)]. *)
Definition index_discard (index : gmap string (gset string)) (key tid : string)
  : gmap string (gset string) :=
  <[key := default ∅ (index !! key) ∖ {[tid]}]> index.

(** [KnowledgeGraph.delete_triple]. *)
Definition delete_triple (triple_id : string) : M KnowledgeGraph bool :=
  kg <- get_state ;;
  match _graph kg !! triple_id with
  | None => ret false
  | Some data =>
      put_state (mkKnowledge (kg_collection kg) (delete triple_id (_graph kg))
                   (index_discard (_subject_index kg) (lower (td_subject data)) triple_id)
                   (index_discard (_object_index kg) (lower (td_object data)) triple_id)
                   (index_discard (_predicate_index kg) (lower (td_predicate data)) triple_id)
                   (graph_file kg)) ;;;
      _save_graph ;;;
      kg' <- get_state ;;
      put_state (mkKnowledge (coll_delete (kg_collection kg') triple_id) (_graph kg')
                             (_subject_index kg') (_object_index kg') (_predicate_index kg')
                             (graph_file kg')) ;;;
      ret true
  end.

End WithDelete.

End WithEnv.

End KnowledgeQueries.

(* ===================================================================== *)
(** * procedural_memory.py: reading, ranking and deleting skills *)
(* ===================================================================== *)

Module ProceduralAccess.
Import MemoryTypes Procedural.

(** [del d[k]]. *)
Fixpoint od_del {V} (k : string) (d : odict V) : odict V :=
  match d with
  | [] => []
  | (k', v) :: d' => if decide (k = k') then d' else (k', v) :: od_del k d'
  end.

Section WithEnv.
Context `{PyLib} `{VectorIndex}.

(** [ProceduralMemory.get_skill]. *)
Definition get_skill (now : Z) (skill_id : string) : M ProceduralMemory (option Skill) :=
  mem <- get_state ;;
  match od_get skill_id (_skills_cache mem) with
  | None => ret None
  | Some data => skill <- from_dict_in_cache now skill_id data ;; ret (Some skill)
  end.

(** [ProceduralMemory.get_all_skills]: [Skill.from_dict(data)] for every
    payload of the cache, in the order of the dictionary. *)
Definition get_all_skills (now : Z) : M ProceduralMemory (list Skill) :=
  mem <- get_state ;;
  for_each (fun skills key =>
              mem' <- get_state ;;
              match od_get key (_skills_cache mem') with
              | None => ret skills
              | Some data =>
                  skill <- from_dict_in_cache now key data ;;
                  ret (skills ++ [skill])%list
              end)
           [] (od_keys (_skills_cache mem)).

(** [ProceduralMemory.get_top_skills]; any other value of [by] leaves the
    list in the order of the cache. *)
Definition get_top_skills (now : Z) (limit : nat) (by_ : string)
  : M ProceduralMemory (list Skill) :=
  skills <- get_all_skills now ;;
  let sorted :=
    if decide (by_ = "success_rate")
    then sort_desc (fun x y => Qgtb (sk_success_rate x) (sk_success_rate y)) skills
    else if decide (by_ = "usage_count")
    then sort_desc (fun x y => (sk_usage_count y <? sk_usage_count x)%Z) skills
    else skills in
  ret (firstn limit sorted).

Section WithDelete.
Context `{!KnowledgeQueries.VectorIndexDelete}.

(** [ProceduralMemory.delete_skill]: the cache entry goes first, then the
    file is written, then the vector index is asked to forget the id. *)
Definition delete_skill (skill_id : string) : M ProceduralMemory bool :=
  mem <- get_state ;;
  match od_get skill_id (_skills_cache mem) with
  | None => ret false
  | Some _ =>
      put_state (set_skills mem (od_del skill_id (_skills_cache mem))) ;;;
      _save_skills_cache ;;;
      mem' <- get_state ;;
      put_state (mkProcedural
                   (KnowledgeQueries.coll_delete (pm_collection mem') skill_id)
                   (_skills_cache mem') (skills_file mem')) ;;;
      ret true
  end.

End WithDelete.

End WithEnv.

End ProceduralAccess.

(* ===================================================================== *)
(** * Facts on the runtime: dictionaries, loops, sorting *)
(* ===================================================================== *)

Section OdictFacts.
Context {V : Type}.
Implicit Types (d : odict V) (k : string) (v : V).

Lemma od_get_set_eq k v d : od_get k (od_set k v d) = Some v.
Proof.
  induction d as [|[k' v'] d IH]; simpl.
  - by rewrite decide_True.
  - destruct (decide (k = k')) as [->|Hne]; simpl.
    + by rewrite decide_True.
    + by rewrite decide_False.
Qed.

Lemma od_get_set_ne k k' v d : k <> k' -> od_get k' (od_set k v d) = od_get k' d.
Proof.
  intros Hne. induction d as [|[k1 v1] d IH]; simpl.
  - by rewrite decide_False.
  - destruct (decide (k = k1)) as [->|Hne1]; simpl.
    + by rewrite !decide_False.
    + destruct (decide (k' = k1)); [done | apply IH].
Qed.

Lemma od_get_set k k' v d :
  od_get k' (od_set k v d) = if decide (k = k') then Some v else od_get k' d.
Proof.
  destruct (decide (k = k')) as [->|Hne].
  - apply od_get_set_eq.
  - by apply od_get_set_ne.
Qed.

Lemma od_keys_set_present k v v0 d :
  od_get k d = Some v0 -> od_keys (od_set k v d) = od_keys d.
Proof.
  unfold od_keys. induction d as [|[k' v'] d IH]; simpl; [done|].
  destruct (decide (k = k')) as [->|Hne]; simpl; [done|].
  intros Hg. by rewrite IH.
Qed.

(** Replacing a payload by one with the same image under [f] leaves the
    image of the dictionary unchanged. *)
Lemma od_set_same_image {W} (f : V -> W) k v v0 d :
  od_get k d = Some v0 -> f v = f v0 ->
  map (fun p => (p.1, f p.2)) (od_set k v d) = map (fun p => (p.1, f p.2)) d.
Proof.
  intros Hg Hf. induction d as [|[k' v'] d IH]; simpl in *; [done|].
  destruct (decide (k = k')) as [->|Hne]; simpl.
  - simplify_eq. by rewrite Hf.
  - by rewrite IH.
Qed.

Lemma od_get_elem k v d : od_get k d = Some v -> (k, v) ∈ d.
Proof.
  induction d as [|[k' v'] d IH]; simpl; [done|].
  destruct (decide (k = k')) as [->|Hne].
  - intros [= ->]. apply list_elem_of_here.
  - intros Hg. apply list_elem_of_further. by apply IH.
Qed.

Lemma od_get_value k v d : od_get k d = Some v -> v ∈ od_values d.
Proof.
  intros Hg. apply od_get_elem in Hg. unfold od_values.
  apply list_elem_of_fmap. by exists (k, v).
Qed.

Lemma od_get_key k v d : od_get k d = Some v -> k ∈ od_keys d.
Proof.
  intros Hg. apply od_get_elem in Hg. unfold od_keys.
  apply list_elem_of_fmap. by exists (k, v).
Qed.

Lemma od_key_get k d : k ∈ od_keys d -> exists v, od_get k d = Some v.
Proof.
  unfold od_keys. induction d as [|[k' v'] d IH]; simpl.
  - intros Hin. by apply elem_of_nil in Hin.
  - intros Hin. destruct (decide (k = k')) as [->|Hne]; [by eexists|].
    apply elem_of_cons in Hin as [?|Hin]; [done | by apply IH].
Qed.

Lemma od_set_forallb (f : V -> bool) k v d :
  forallb f (od_values d) = true -> f v = true ->
  forallb f (od_values (od_set k v d)) = true.
Proof.
  intros Hd Hv. induction d as [|[k' v'] d IH]; simpl in *.
  - by rewrite Hv.
  - apply andb_prop in Hd as [Hv' Hd].
    destruct (decide (k = k')) as [->|Hne]; simpl.
    + by rewrite Hv, Hd.
    + by rewrite Hv', IH.
Qed.

End OdictFacts.

Section LoopFacts.
Context {S A B : Type}.

Lemma bind_ok {C} (m : M S A) (k : A -> M S C) s s' a :
  m s = (s', Ok a) -> bind m k s = k a s'.
Proof. intros Hm. unfold bind. by rewrite Hm. Qed.

Lemma for_each_nil (body : B -> A -> M S B) acc s : for_each body acc [] s = (s, Ok acc).
Proof. reflexivity. Qed.

Lemma for_each_cons (body : B -> A -> M S B) acc x xs s :
  for_each body acc (x :: xs) s =
  match body acc x s with
  | (s1, Ok acc1) => for_each body acc1 xs s1
  | (s1, Raise e) => (s1, Raise e)
  end.
Proof. reflexivity. Qed.


(** An invariant of the state alone that every iteration preserves, whether
    it ends normally or raises, holds after the loop in both cases. *)
Lemma for_each_state_inv (I : S -> Prop) (body : B -> A -> M S B) xs :
  (forall s acc x, x ∈ xs -> I s -> I (body acc x s).1) ->
  forall acc s, I s -> I (for_each body acc xs s).1.
Proof.
  induction xs as [|x xs IH]; intros Hbody acc s HI; simpl; [done|].
  unfold bind. specialize (Hbody s acc x (list_elem_of_here _ _) HI) as H1.
  destruct (body acc x s) as [s1 [acc1|e]] eqn:Hb; simpl in *; [|done].
  apply IH; [|done]. intros. apply Hbody; [|done]. by apply list_elem_of_further.
Qed.

End LoopFacts.

Section SortFacts.
Context {A : Type} (gt : A -> A -> bool).

Lemma insert_desc_perm x l : insert_desc gt x l ≡ₚ x :: l.
Proof.
  induction l as [|y l IH]; simpl; [done|].
  destruct (gt y x); [|done].
  rewrite IH. apply Permutation_swap.
Qed.

Lemma sort_desc_perm l : sort_desc gt l ≡ₚ l.
Proof.
  induction l as [|x l IH]; simpl; [done|].
  rewrite insert_desc_perm. by rewrite IH.
Qed.

Lemma sort_desc_elem x l : x ∈ sort_desc gt l <-> x ∈ l.
Proof. by rewrite sort_desc_perm. Qed.

Lemma sort_desc_length l : length (sort_desc gt l) = length l.
Proof. by rewrite sort_desc_perm. Qed.

Lemma firstn_sort_elem n x l : x ∈ firstn n (sort_desc gt l) -> x ∈ l.
Proof.
  intros Hin. apply sort_desc_elem.
  rewrite <- (firstn_skipn n (sort_desc gt l)). apply elem_of_app. by left.
Qed.

End SortFacts.

Section SortByKey.
Context {A : Type} (key : A -> R).

Definition key_gt (x y : A) : bool := Rgtb (key x) (key y).

Definition descending : list A -> Prop :=
  StronglySorted (fun x y => (key y <= key x)%R).

Lemma insert_desc_descending x l :
  descending l -> descending (insert_desc key_gt x l).
Proof.
  induction 1 as [|y l Hs IH Hall]; simpl.
  - repeat constructor.
  - unfold key_gt at 1, Rgtb. destruct (Rlt_dec (key x) (key y)) as [Hlt|Hge].
    + constructor; [exact IH|].
      rewrite Forall_forall. intros z Hz.
      rewrite insert_desc_perm in Hz. apply elem_of_cons in Hz as [->|Hz]; [lra|].
      rewrite Forall_forall in Hall. by apply Hall.
    + constructor; [by constructor|].
      constructor; [lra|].
      rewrite Forall_forall in Hall |- *. intros z Hz.
      specialize (Hall z Hz). lra.
Qed.

Lemma sort_desc_descending l : descending (sort_desc key_gt l).
Proof.
  induction l as [|x l IH]; simpl; [constructor|].
  by apply insert_desc_descending.
Qed.

Lemma descending_firstn n l : descending l -> descending (firstn n l).
Proof.
  intros Hs. revert n. induction Hs as [|x l Hs IH Hall]; intros [|n]; simpl;
    try constructor; [apply IH|].
  rewrite Forall_forall in Hall |- *. intros z Hz. apply Hall.
  rewrite <- (firstn_skipn n l). apply elem_of_app. by left.
Qed.

Lemma descending_app l1 l2 :
  descending (l1 ++ l2) -> forall x y, x ∈ l1 -> y ∈ l2 -> (key y <= key x)%R.
Proof.
  induction l1 as [|a l1 IH]; simpl; intros Hs x y Hx Hy.
  - by apply elem_of_nil in Hx.
  - apply StronglySorted_inv in Hs as [Hs Hall].
    apply elem_of_cons in Hx as [->|Hx]; [|by apply IH].
    rewrite Forall_forall in Hall. apply Hall, elem_of_app. by right.
Qed.

(** What [sorted(l, reverse=True)[:n]] keeps: an element of [l] is kept, or
    the result is full and holds only elements with a key at least as
    large. *)
Lemma firstn_sort_complete n x l :
  x ∈ l ->
  x ∈ firstn n (sort_desc key_gt l) \/
  (length (firstn n (sort_desc key_gt l)) = n /\
   forall y, y ∈ firstn n (sort_desc key_gt l) -> (key x <= key y)%R).
Proof.
  intros Hx. apply (sort_desc_elem key_gt) in Hx.
  pose proof (sort_desc_descending l) as Hs.
  rewrite <- (firstn_skipn n (sort_desc key_gt l)) in Hx, Hs.
  apply elem_of_app in Hx as [Hx|Hx]; [by left | right]. split.
  - apply firstn_length_le.
    destruct (decide (n <= length (sort_desc key_gt l))) as [Hle|Hgt]; [done|].
    rewrite skipn_all2 in Hx by lia. by apply elem_of_nil in Hx.
  - intros y Hy. by eapply descending_app.
Qed.

End SortByKey.
(* ===================================================================== *)
(** * Properties of the temporal graph *)
(* ===================================================================== *)

Module TemporalFacts.
Import Temporal.

(** ** Lemmas on the store *)

Lemma query_at_time_stored g pit s p o t :
  t ∈ query_at_time g pit s p o -> exists tid, triples g !! tid = Some t.
Proof.
  unfold query_at_time. rewrite list_elem_of_omap.
  intros (tid & _ & Hf). exists tid.
  destruct (triples g !! tid) as [t'|]; [|discriminate].
  destruct (is_valid_at t' pit); congruence.
Qed.

Lemma open_unique_one_open g pit s p o :
  open_unique g -> one_open_version (query_at_time g pit s p o).
Proof.
  intros Hu t1 t2 H1 H2 Hs Hp Ho1 Ho2.
  apply query_at_time_stored in H1 as [i Hi].
  apply query_at_time_stored in H2 as [j Hj].
  assert (i = j) by (eapply Hu; eauto). subst j. congruence.
Qed.

Lemma triples_add g new_id now s p o c vf vt src md :
  triples (add g new_id now s p o c vf vt src md).1 =
  <[new_id := mkTriple new_id s p o c (default now vf) vt now src 1 None (default [] md)]>
    (triples g).
Proof. reflexivity. Qed.

Lemma triples_update g new_id now tid o c vt old :
  triples g !! tid = Some old ->
  triples (update g new_id now tid o c vt).1 =
  <[new_id := new_version old new_id now tid o c vt]>
    (<[tid := set_valid_to old (Some now)]> (triples g)).
Proof. intros H. unfold update. rewrite H. reflexivity. Qed.

Lemma triples_invalidate g now tid :
  triples (invalidate g now tid).1 =
  match triples g !! tid with
  | Some t => <[tid := set_valid_to t (Some now)]> (triples g)
  | None => triples g
  end.
Proof. unfold invalidate. destruct (triples g !! tid); reflexivity. Qed.

Lemma open_unique_add g new_id now s p o c vf vt src md :
  open_unique g ->
  triples g !! new_id = None ->
  (forall i t, triples g !! i = Some t ->
     tt_subject t = s -> tt_predicate t = p -> tt_valid_to t <> None) ->
  open_unique (add g new_id now s p o c vf vt src md).1.
Proof.
  intros Hu Hfresh Hpair i j ti tj. rewrite triples_add.
  rewrite !lookup_insert. repeat case_decide; subst; intros Hi Hj Hs Hp Hoi Hoj;
    simplify_eq; simpl in *; try done.
  - exfalso. eapply Hpair; eauto.
  - exfalso. eapply Hpair; eauto.
  - eapply Hu; eauto.
Qed.

Lemma open_unique_update g new_id now tid o c vt old :
  open_unique g ->
  triples g !! new_id = None ->
  triples g !! tid = Some old ->
  tt_valid_to old = None ->
  open_unique (update g new_id now tid o c vt).1.
Proof.
  intros Hu Hfresh Hold Hopen i j ti tj. rewrite (triples_update _ _ _ _ _ _ _ old Hold).
  rewrite !lookup_insert. repeat case_decide; subst; intros Hi Hj Hs Hp Hoi Hoj;
    simplify_eq; simpl in *; try done.
  - exfalso. assert (j = tid) by (eapply Hu; eauto). done.
  - exfalso. assert (i = tid) by (eapply Hu; eauto). done.
  - eapply Hu; eauto.
Qed.

Lemma open_unique_invalidate g now tid :
  open_unique g -> open_unique (invalidate g now tid).1.
Proof.
  intros Hu i j ti tj. rewrite triples_invalidate.
  destruct (triples g !! tid) as [t|] eqn:Ht; [|apply Hu].
  rewrite !lookup_insert. repeat case_decide; subst; intros Hi Hj Hs Hp Hoi Hoj;
    simplify_eq; simpl in *; try done.
  eapply Hu; eauto.
Qed.

Lemma disciplined_open_unique g : disciplined g -> open_unique g.
Proof.
  induction 1.
  - done.
  - by apply open_unique_add.
  - by eapply open_unique_update.
  - by apply open_unique_invalidate.
Qed.

(** A store opened on an empty or missing log. *)
Lemma new_store_disciplined : disciplined (_load []).
Proof.
  apply disc_load. intros i j ti tj Hi. simpl in Hi. by rewrite lookup_empty in Hi.
Qed.

Lemma demo_added_disciplined : disciplined demo_added.
Proof.
  apply (disc_add (_load [])); [apply new_store_disciplined | reflexivity |].
  intros i t Hi. simpl in Hi. by rewrite lookup_empty in Hi.
Qed.

(** A store reopened on the log of the demo, after [add] and [update]: the
    closing of "t1" was not written, so [_load] rebuilds both versions
    open, and the reopened store is outside the discipline. *)
Lemma reopened_store_two_open :
  ~ open_unique (_load (triples_file demo_updated)).
Proof.
  intros Hu.
  assert (H1 : triples (_load (triples_file demo_updated)) !! "t1"
               = Some (mkTriple "t1" "Aura" "version" "3.1" 1 10 None 10 "config" 1 None []))
    by (vm_compute; reflexivity).
  assert (H2 : triples (_load (triples_file demo_updated)) !! "t2"
               = Some (mkTriple "t2" "Aura" "version" "3.2" 1 20 None 20 "config" 2
                                (Some "t1") []))
    by (vm_compute; reflexivity).
  specialize (Hu _ _ _ _ H1 H2 eq_refl eq_refl eq_refl eq_refl). discriminate Hu.
Qed.

Lemma reopened_store_not_disciplined :
  ~ disciplined (_load (triples_file demo_updated)).
Proof. intros Hd. by apply reopened_store_two_open, disciplined_open_unique. Qed.

(** ** Load of the log *)

Lemma load_line_triples g1 g2 line :
  triples g1 = triples g2 ->
  triples (load_line g1 line) = triples (load_line g2 line).
Proof. intros H. destruct line; simpl; congruence. Qed.

Lemma fold_load_triples lines g1 g2 :
  triples g1 = triples g2 ->
  triples (fold_left load_line lines g1) = triples (fold_left load_line lines g2).
Proof.
  revert g1 g2. induction lines as [|l lines IH]; intros g1 g2 H; simpl; [done|].
  apply IH. by apply load_line_triples.
Qed.

Lemma load_snoc file line :
  triples (_load (file ++ [line])%list) = triples (load_line (_load file) line).
Proof.
  unfold _load. rewrite fold_left_app. simpl.
  apply load_line_triples, fold_load_triples. reflexivity.
Qed.

Lemma from_dict_to_dict t : from_dict (to_dict t) = t.
Proof. by destruct t. Qed.

Lemma load_saved file t :
  triples (_load (file ++ [LJson (to_dict t)])%list) = <[tt_id t := t]> (triples (_load file)).
Proof. rewrite load_snoc. simpl. by rewrite from_dict_to_dict. Qed.

(** ** Claims on the temporal graph *)

(** C1 (as stated, refuted): after [add] and two [update] calls on the same
    identifier, [query_at_time] returns two versions of
    ("Aura", "version") whose [valid_to] is [None]; none of them was
    invalidated. *)
Lemma two_open_versions_after_updates :
  ~ one_open_version
      (query_at_time demo_updated_twice 40 (Some "Aura") (Some "version") None).
Proof.
  intros H.
  assert (Hq : query_at_time demo_updated_twice 40 (Some "Aura") (Some "version") None =
               [ mkTriple "t3" "Aura" "version" "3.3" 1 30 None 30 "config" 2 (Some "t1") [];
                 mkTriple "t2" "Aura" "version" "3.2" 1 20 None 20 "config" 2 (Some "t1") [] ])
    by (vm_compute; reflexivity).
  rewrite Hq in H.
  specialize (H _ _ (list_elem_of_here _ _)
                (list_elem_of_further _ _ _ (list_elem_of_here _ _))
                eq_refl eq_refl eq_refl eq_refl).
  discriminate H.
Qed.

(** C1 (amended): [update] on a stored triple returns the new identifier,
    closes the prior version at [now] (no other field changes), and stores a
    new version with [valid_from = now], [version = old.version + 1] and
    [supersedes = triple_id].  When the history is disciplined and the
    updated version was open, [query_at_time] then returns, at every instant
    and for every filter, at most one version per (subject, predicate) whose
    [valid_to] is [None].  Disciplined means: the graph that [_load] built
    when the store was opened held at most one open version per pair, and
    since then a pair was added only while it had no open version and only
    open versions were updated.  A store reopened after an [update] is not
    disciplined ([reopened_store_not_disciplined]): the closing is not in
    the log. *)
Theorem update_closes_and_supersedes g new_id now tid o c vt old :
  triples g !! tid = Some old ->
  triples g !! new_id = None ->
  exists g' nv,
    update g new_id now tid o c vt = (g', Some new_id) /\
    triples g' !! tid = Some (set_valid_to old (Some now)) /\
    triples g' !! new_id = Some nv /\
    tt_valid_from nv = now /\
    tt_version nv = (tt_version old + 1)%Z /\
    tt_supersedes nv = Some tid /\
    tt_subject nv = tt_subject old /\
    tt_predicate nv = tt_predicate old /\
    (disciplined g -> tt_valid_to old = None ->
     forall pit s p ob, one_open_version (query_at_time g' pit s p ob)).
Proof.
  intros Hold Hfresh.
  assert (Hne : new_id <> tid) by congruence.
  exists (update g new_id now tid o c vt).1, (new_version old new_id now tid o c vt).
  split; [unfold update; rewrite Hold; reflexivity|].
  rewrite (triples_update _ _ _ _ _ _ _ old Hold).
  split; [by rewrite lookup_insert_ne, lookup_insert_eq|].
  split; [by rewrite lookup_insert_eq|].
  do 5 (split; [reflexivity|]).
  intros Hd Hopen pit s p ob.
  apply open_unique_one_open.
  eapply open_unique_update; eauto using disciplined_open_unique.
Qed.

Lemma update_closes_and_supersedes_witness :
  exists g' nv,
    update demo_added "t2" 20 "t1" (Some "3.2") None None = (g', Some "t2") /\
    (tt_valid_to <$> triples g' !! "t1") = Some (Some 20%Z) /\
    triples g' !! "t2" = Some nv /\
    tt_valid_from nv = 20%Z /\ tt_version nv = 2%Z /\ tt_supersedes nv = Some "t1" /\
    one_open_version (query_at_time g' 40 (Some "Aura") (Some "version") None).
Proof.
  destruct (update_closes_and_supersedes demo_added "t2" 20 "t1" (Some "3.2") None None
              (mkTriple "t1" "Aura" "version" "3.1" 1 10 None 10 "config" 1 None [])
              eq_refl eq_refl)
    as (g' & nv & Hu & Ht1 & Ht2 & Hvf & Hv & Hs & _ & _ & Hq).
  exists g', nv. rewrite Ht1. repeat split; try assumption.
  apply Hq; [apply demo_added_disciplined | reflexivity].
Defined.

(** C10: closing a version is not written to the log.  For a stored triple
    whose log record is open, [update] appends exactly the record of the new
    version and [invalidate] writes nothing; in both cases the version is
    closed at [now] in memory, and a graph rebuilt by [_load] from the
    resulting log holds it with [valid_to = None]. *)
Theorem closure_not_persisted g now tid old logged :
  triples g !! tid = Some old ->
  triples (_load (triples_file g)) !! tid = Some logged ->
  tt_valid_to logged = None ->
  (forall new_id o c vt, new_id <> tid ->
     let g' := (update g new_id now tid o c vt).1 in
     triples_file g' =
       (triples_file g ++ [LJson (to_dict (new_version old new_id now tid o c vt))])%list /\
     (tt_valid_to <$> triples g' !! tid) = Some (Some now) /\
     (tt_valid_to <$> triples (_load (triples_file g')) !! tid) = Some None) /\
  (let g' := (invalidate g now tid).1 in
     triples_file g' = triples_file g /\
     (tt_valid_to <$> triples g' !! tid) = Some (Some now) /\
     (tt_valid_to <$> triples (_load (triples_file g')) !! tid) = Some None).
Proof.
  intros Hold Hlog Hopen. split.
  - intros new_id o c vt Hne g'. subst g'.
    rewrite (triples_update _ _ _ _ _ _ _ old Hold).
    unfold update. rewrite Hold. simpl. split; [reflexivity|]. split.
    + by rewrite lookup_insert_ne, lookup_insert_eq.
    + rewrite load_saved. simpl. rewrite lookup_insert_ne by done.
      by rewrite Hlog, <- Hopen.
  - simpl. rewrite triples_invalidate. unfold invalidate. rewrite Hold. simpl.
    split; [reflexivity|]. split.
    + by rewrite lookup_insert_eq.
    + by rewrite Hlog, <- Hopen.
Qed.

Lemma closure_not_persisted_witness :
  (tt_valid_to <$> triples demo_updated !! "t1") = Some (Some 20%Z) /\
  (tt_valid_to <$> triples (_load (triples_file demo_updated)) !! "t1") = Some None /\
  (tt_valid_to <$> triples (invalidate demo_added 20 "t1").1 !! "t1") = Some (Some 20%Z) /\
  (tt_valid_to <$> triples (_load (triples_file (invalidate demo_added 20 "t1").1)) !! "t1")
    = Some None.
Proof.
  destruct (closure_not_persisted demo_added 20 "t1"
              (mkTriple "t1" "Aura" "version" "3.1" 1 10 None 10 "config" 1 None [])
              (mkTriple "t1" "Aura" "version" "3.1" 1 10 None 10 "config" 1 None [])
              eq_refl eq_refl eq_refl) as [Hu Hi].
  destruct (Hu "t2" (Some "3.2") None None ltac:(discriminate)) as (_ & Hm & Hl).
  destruct Hi as (_ & Hm' & Hl').
  repeat split; assumption.
Defined.


End TemporalFacts.

(* ===================================================================== *)
(** * Properties of the episodic store *)
(* ===================================================================== *)

Module EpisodicFacts.
Import MemoryTypes Episodic.

(** The fields of a payload other than its metadata. *)
Definition ed_fields (p : episode_dict) :=
  (ed_id p, ed_timestamp p, ed_context p, ed_action p, ed_outcome p,
   ed_thought_process p, ed_entities p, ed_emotional_valence p, ed_importance p,
   ed_consolidated_into p).



(** The importance test of [recall] on a payload. *)
Definition payload_scored (min_importance : Q) (p : episode_dict) : bool :=
  negb (Qltb (default 0.5%Q (ed_importance p)) min_importance).

(** The keys of the candidates that [recall] scores: present in the cache
    and important enough. *)
Definition scored_keys (cache : odict episode_dict) (min_importance : Q)
    (candidates : list (string * Q)) : list string :=
  omap (fun c => match od_get c.1 cache with
                 | Some p => if payload_scored min_importance p then Some c.1 else None
                 | None => None
                 end) candidates.





Section WithEnv.
Context `{PyLib} `{VectorIndex}.

(** The candidates that [recall] fetches from the vector index. *)
Definition fetched (mem : EpisodicMemory) (query : string) (n_results : nat)
    (include_archived : bool) : list (string * Q) :=
  if decide (coll_count (em_collection mem) = 0) then []
  else coll_query (em_collection mem) query
                  (min (n_results * 2) (coll_count (em_collection mem)))
                  (negb include_archived).

(** [Episode.from_dict] changes at most the representation of the metadata. *)
Lemma episode_from_dict_payload now_iso p :
  ed_fields (episode_from_dict now_iso p).1 = ed_fields p /\
  meta_content now_iso (ed_metadata (episode_from_dict now_iso p).1)
    = meta_content now_iso (ed_metadata p).
Proof.
  unfold episode_from_dict.
  destruct (ed_metadata p) as [|d|m] eqn:Hm; simpl; rewrite ?Hm;
    destruct (ed_consolidated_into p); simpl; rewrite ?Hm; done.
Qed.



Lemma episode_from_dict_not_dict now_iso p d :
  ed_metadata (episode_from_dict now_iso p).1 <> MDict d.
Proof.
  unfold episode_from_dict.
  destruct (ed_metadata p) as [|d'|m] eqn:Hm; simpl; rewrite ?Hm;
    destruct (ed_consolidated_into p); simpl; rewrite ?Hm; done.
Qed.






Lemma payload_scored_fields min_importance p q :
  ed_fields p = ed_fields q -> payload_scored min_importance p = payload_scored min_importance q.
Proof. unfold ed_fields, payload_scored. intros [=]. congruence. Qed.

Lemma scored_keys_ext c1 c2 min_importance candidates :
  (forall k, payload_scored min_importance <$> od_get k c1
             = payload_scored min_importance <$> od_get k c2) ->
  scored_keys c1 min_importance candidates = scored_keys c2 min_importance candidates.
Proof.
  intros Hext. unfold scored_keys. apply list_omap_ext, Forall2_same_length_lookup_2; [done|].
  intros i x y Hx Hy. assert (x = y) as <- by congruence.
  specialize (Hext x.1). destruct (od_get x.1 c1), (od_get x.1 c2); simpl in Hext;
    try done. injection Hext as ->. done.
Qed.





(** The results that the loop appends: each comes from a scored candidate
    whose payload had no metadata. *)
Definition scored_results (now : Z) (min_importance : Q) (cache : odict episode_dict)
    (candidates : list (string * Q)) (new : list (Episode * MemoryScore)) : Prop :=
  forall e sc, (e, sc) ∈ new ->
    exists k dist p max_access,
      (k, dist) ∈ candidates /\
      k ∈ scored_keys cache min_importance candidates /\
      od_get k cache = Some p /\
      ed_metadata p = MAbsent /\
      (episode_from_dict (isoformat now) p).2 = Ok e /\
      sc = episode_score now e dist max_access.

Lemma scored_keys_cons cache min_importance c candidates :
  scored_keys cache min_importance (c :: candidates) =
  (scored_keys cache min_importance [c] ++ scored_keys cache min_importance candidates)%list.
Proof.
  unfold scored_keys. simpl.
  destruct (od_get c.1 cache) as [p|]; [|done].
  by destruct (payload_scored min_importance p).
Qed.





End WithEnv.

#[local] Existing Instances Examples.toy_lib Examples.toy_index.



End EpisodicFacts.

(* ===================================================================== *)
(** * Properties of the procedural store *)
(* ===================================================================== *)

Module ProceduralFacts.
Import MemoryTypes Procedural.
Local Open Scope Q_scope.

(** [skill_data.get("usage_count", 0)] and [skill_data.get("success_rate", 0.0)]. *)
Definition count_of (data : skill_dict) : Z := default 0%Z (sd_usage_count data).

Definition rate_of (data : skill_dict) : Q := default 0%Q (sd_success_rate data).

Lemma weight_bounds (n : Z) : (1 <= n)%Z -> 0 < 1 / inject_Z n /\ 1 / inject_Z n <= 1.
Proof.
  intros Hn.
  assert (Hpos : 0 < inject_Z n) by (change 0 with (inject_Z 0); rewrite <- Zlt_Qlt; lia).
  split.
  - apply Qlt_shift_div_l; [done|]. by rewrite Qmult_0_l.
  - apply Qle_shift_div_r; [done|]. rewrite Qmult_1_l.
    change 1 with (inject_Z 1). rewrite <- Zle_Qle. lia.
Qed.

Lemma new_success_rate_formula r n success :
  new_success_rate r n success ==
  r * (1 - 1 / inject_Z n) + (if success then 1 else 0) / inject_Z n.
Proof.
  unfold new_success_rate. destruct success; unfold Qdiv; ring.
Qed.

Lemma new_success_rate_keeps_one r n :
  (1 <= n)%Z -> r == 1 -> new_success_rate r n true == 1.
Proof.
  intros Hn Hr. unfold new_success_rate. rewrite Hr. ring.
Qed.

Lemma new_success_rate_first r success :
  new_success_rate r 1 success == if success then 1 else 0.
Proof. unfold new_success_rate. destruct success; field. Qed.

Lemma new_success_rate_nonneg r n success :
  (1 <= n)%Z -> 0 <= r -> 0 <= new_success_rate r n success.
Proof.
  intros Hn Hr. destruct (weight_bounds n Hn) as [Hw0 Hw1].
  unfold new_success_rate. set (w := 1 / inject_Z n) in *. clearbody w.
  assert (0 <= r * (1 - w)) by (apply Qmult_le_0_compat; [done | lra]).
  destruct success; lra.
Qed.

Section WithEnv.
Context `{PyLib} `{VectorIndex}.

(** The state after [record_usage] has been called for each outcome in
    turn. *)
Definition after_usages (now : Z) (skill_id : string) (outcomes : list bool)
    (mem : ProceduralMemory) : ProceduralMemory :=
  fold_left (fun m success => (record_usage now skill_id success m).1) outcomes mem.

(** The payload after one call: the two counters are assigned whatever the
    later steps of the call do. *)
Lemma record_usage_payload now skill_id success mem data :
  od_get skill_id (_skills_cache mem) = Some data ->
  (0 <= count_of data)%Z ->
  exists data',
    od_get skill_id (_skills_cache (record_usage now skill_id success mem).1) = Some data' /\
    sd_usage_count data' = Some (count_of data + 1)%Z /\
    sd_success_rate data' = Some (new_success_rate (rate_of data) (count_of data + 1) success).
Proof.
  intros Hget Hcount. unfold record_usage, bind, get_state, put_state, raise, ret.
  rewrite Hget. fold (count_of data) (rate_of data).
  destruct (decide ((count_of data + 1)%Z = 0%Z)) as [Hz|_]; [lia|].
  simpl. destruct (sd_metadata data) as [|d|m] eqn:Hmeta; simpl.
  - eexists. rewrite od_get_set_eq. done.
  - unfold _save_skills_cache. simpl.
    match goal with |- context [forallb ?f ?l] => destruct (forallb f l) end;
      simpl; eexists; rewrite od_get_set_eq; done.
  - eexists. rewrite od_get_set_eq. done.
Qed.

(** The normal return of one call. *)
Lemma record_usage_returns now skill_id success mem data d :
  od_get skill_id (_skills_cache mem) = Some data ->
  (0 <= count_of data)%Z ->
  sd_metadata data = MDict d ->
  forallb skill_serializable (od_values (_skills_cache mem)) = true ->
  let r := record_usage now skill_id success mem in
  r.2 = Ok true /\ skills_file r.1 = Some (_skills_cache r.1).
Proof.
  intros Hget Hcount Hmeta Hser. unfold record_usage, bind, get_state, put_state, raise, ret.
  rewrite Hget. fold (count_of data) (rate_of data).
  destruct (decide ((count_of data + 1)%Z = 0%Z)) as [Hz|_]; [lia|].
  simpl. rewrite Hmeta. simpl. unfold _save_skills_cache. simpl.
  rewrite od_set_forallb; [done | done | reflexivity].
Qed.

Lemma after_successes_keep_one now skill_id k : forall mem data,
  od_get skill_id (_skills_cache mem) = Some data ->
  (0 <= count_of data)%Z ->
  rate_of data == 1 ->
  exists data',
    od_get skill_id (_skills_cache (after_usages now skill_id (repeat true k) mem)) = Some data' /\
    count_of data' = (count_of data + Z.of_nat k)%Z /\
    rate_of data' == 1.
Proof.
  induction k as [|k IH]; intros mem data Hget Hcount Hrate; simpl.
  - exists data. repeat split; [done | lia | done].
  - destruct (record_usage_payload now skill_id true mem data Hget Hcount)
      as (data1 & Hget1 & Hc1 & Hr1).
    destruct (IH _ data1 Hget1) as (data' & Hget' & Hc' & Hr').
    + unfold count_of. rewrite Hc1. simpl. fold (count_of data). lia.
    + unfold rate_of. rewrite Hr1. simpl. apply new_success_rate_keeps_one; [lia | done].
    + exists data'. repeat split; [done | | done].
      rewrite Hc'. unfold count_of at 1. rewrite Hc1. simpl. lia.
Qed.

Lemma after_usages_nonneg now skill_id outcomes : forall mem data,
  od_get skill_id (_skills_cache mem) = Some data ->
  (0 <= count_of data)%Z ->
  0 <= rate_of data ->
  exists data',
    od_get skill_id (_skills_cache (after_usages now skill_id outcomes mem)) = Some data' /\
    0 <= rate_of data'.
Proof.
  induction outcomes as [|success outcomes IH]; intros mem data Hget Hcount Hrate; simpl.
  - by exists data.
  - destruct (record_usage_payload now skill_id success mem data Hget Hcount)
      as (data1 & Hget1 & Hc1 & Hr1).
    apply (IH _ data1 Hget1).
    + unfold count_of. rewrite Hc1. simpl. fold (count_of data). lia.
    + unfold rate_of. rewrite Hr1. simpl. apply new_success_rate_nonneg; [lia | done].
Qed.

(** C7: for a stored skill (with a usage count that is not negative),
    [record_usage] adds one to [usage_count] and sets [success_rate] to
    [old_rate * (1 - 1/n) + success_value / n] for the new count [n]; the
    call returns [True] and saves the cache when the metadata of the payload
    is a dictionary and the cache can be serialised.  Recording [k > 0]
    successes and no failure from a fresh skill (usage count 0) leaves the
    rate equal to 1, and no sequence of outcomes drives a rate that is not
    negative below 0. *)
Theorem record_usage_running_average now skill_id mem data :
  od_get skill_id (_skills_cache mem) = Some data ->
  (0 <= count_of data)%Z ->
  (forall success,
     let n := (count_of data + 1)%Z in
     exists data',
       od_get skill_id (_skills_cache (record_usage now skill_id success mem).1) = Some data' /\
       sd_usage_count data' = Some n /\
       rate_of data' ==
         rate_of data * (1 - 1 / inject_Z n) + (if success then 1 else 0) / inject_Z n /\
       ((exists d, sd_metadata data = MDict d) ->
        forallb skill_serializable (od_values (_skills_cache mem)) = true ->
        (record_usage now skill_id success mem).2 = Ok true /\
        skills_file (record_usage now skill_id success mem).1 =
          Some (_skills_cache (record_usage now skill_id success mem).1))) /\
  (count_of data = 0%Z ->
   forall k, (0 < k)%nat ->
     exists data',
       od_get skill_id (_skills_cache (after_usages now skill_id (repeat true k) mem))
         = Some data' /\
       count_of data' = Z.of_nat k /\
       rate_of data' == 1) /\
  (0 <= rate_of data ->
   forall outcomes,
     exists data',
       od_get skill_id (_skills_cache (after_usages now skill_id outcomes mem)) = Some data' /\
       0 <= rate_of data').
Proof.
  intros Hget Hcount. split; [|split].
  - intros success n.
    destruct (record_usage_payload now skill_id success mem data Hget Hcount)
      as (data' & Hget' & Hc' & Hr').
    exists data'. split; [done|]. split; [done|]. split.
    + unfold rate_of at 1. rewrite Hr'. simpl. apply new_success_rate_formula.
    + intros [d Hd] Hser. by eapply record_usage_returns.
  - intros Hfresh [|k] Hk; [lia|]. simpl.
    destruct (record_usage_payload now skill_id true mem data Hget Hcount)
      as (data1 & Hget1 & Hc1 & Hr1).
    destruct (after_successes_keep_one now skill_id k _ data1 Hget1)
      as (data' & Hget' & Hc' & Hr').
    + unfold count_of. rewrite Hc1. simpl. fold (count_of data). lia.
    + unfold rate_of. rewrite Hr1, Hfresh. simpl. apply new_success_rate_first.
    + exists data'. split; [done|]. split; [|done].
      rewrite Hc'. unfold count_of at 1. rewrite Hc1, Hfresh. simpl. lia.
  - intros Hrate outcomes. by eapply after_usages_nonneg.
Qed.

End WithEnv.

#[local] Existing Instances Examples.toy_lib Examples.toy_index.

Lemma record_usage_running_average_witness :
  (record_usage 200 Examples.fresh_skill_id true Examples.fresh_skill_memory).2 = Ok true /\
  (exists data',
     od_get Examples.fresh_skill_id
       (_skills_cache (after_usages 200 Examples.fresh_skill_id [true; true; true]
                         Examples.fresh_skill_memory)) = Some data' /\
     count_of data' = 3%Z /\ rate_of data' == 1) /\
  (exists data',
     od_get Examples.fresh_skill_id
       (_skills_cache (after_usages 200 Examples.fresh_skill_id [true; false; true; true]
                         Examples.fresh_skill_memory)) = Some data' /\
     0 <= rate_of data').
Proof.
  edestruct (record_usage_running_average (H := Examples.toy_lib) (H0 := Examples.toy_index)
               200 Examples.fresh_skill_id Examples.fresh_skill_memory)
    as (Hone & Hfresh & Hnonneg).
  - vm_compute. reflexivity.
  - vm_compute. discriminate.
  - split; [|split].
    + destruct (Hone true) as (data' & _ & _ & _ & Hret).
      apply Hret; [eexists; reflexivity | reflexivity].
    + apply (Hfresh eq_refl 3%nat). lia.
    + apply Hnonneg. vm_compute. discriminate.
Defined.

End ProceduralFacts.

(* ===================================================================== *)
(** * Bounds of the relevance scores *)
(* ===================================================================== *)

Module ScoreFacts.
Import MemoryTypes.







Section WithEnv.
Context `{PyLib} `{VectorIndex}.

(** A timestamp that, when it parses, is not later than [now]. *)
Definition valid_timestamp (now : Z) (timestamp : string) : Prop :=
  forall t, fromisoformat (replace_Z timestamp) = Some t -> (t <= now)%Z.











End WithEnv.

#[local] Existing Instances Examples.toy_lib Examples.toy_index.


End ScoreFacts.

(* ===================================================================== *)
(** * Properties of the knowledge graph *)
(* ===================================================================== *)

Module KnowledgeFacts.
Import MemoryTypes Knowledge.


Lemma find_none_elem {A} (f : A -> bool) (l : list A) (x : A) :
  List.find f l = None -> x ∈ l -> f x = false.
Proof.
  intros Hnone Hin. apply list_elem_of_In in Hin.
  by apply (find_none f l Hnone).
Qed.

Lemma Qgtb_max (c1 c2 : Q) : (if Qgtb c2 c1 then c2 else c1) = Qmax c1 c2.
Proof.
  unfold Qgtb, Qmax, GenericMinMax.gmax.
  destruct (Qcompare c1 c2) eqn:Hcmp, (Qlt_le_dec c1 c2) as [Hlt|Hle]; try done.
  - apply Qeq_alt in Hcmp. rewrite Hcmp in Hlt. exfalso. by eapply Qlt_irrefl.
  - apply Qlt_alt in Hcmp. exfalso. by eapply Qlt_not_le.
  - apply Qgt_alt in Hcmp. exfalso. eapply Qlt_irrefl, Qlt_trans; eauto.
Qed.

Section WithEnv.
Context `{PyLib} `{VectorIndex}.

(** Structural identity as [_find_existing_triple] tests it. *)
Definition same_triple (subject predicate obj : string) (d : triple_dict) : Prop :=
  lower (td_subject d) = lower subject /\
  lower (td_predicate d) = lower predicate /\
  lower (td_object d) = lower obj.

(** Every stored triple is listed in the subject index under its
    lower-cased subject. *)
Definition indexed (kg : KnowledgeGraph) : Prop :=
  forall id d, _graph kg !! id = Some d ->
    id ∈ default ∅ (_subject_index kg !! lower (td_subject d)).

(** No payload holds a metadata object: [_save_graph] succeeds. *)
Definition serializable (kg : KnowledgeGraph) : Prop :=
  forall id d, _graph kg !! id = Some d -> triple_serializable d = true.

Lemma serializable_forallb (g : gmap string triple_dict) :
  (forall id d, g !! id = Some d -> triple_serializable d = true) ->
  forallb triple_serializable (map snd (map_to_list g)) = true.
Proof.
  intros Hser. apply forallb_forall. intros d Hd.
  apply in_map_iff in Hd as ([id d'] & <- & Hin).
  apply list_elem_of_In, elem_of_map_to_list in Hin. by eapply Hser.
Qed.

Lemma same_relation_spec g predicate obj id d :
  g !! id = Some d ->
  same_relation g predicate obj id = true <->
  lower (td_predicate d) = lower predicate /\ lower (td_object d) = lower obj.
Proof.
  intros Hget. unfold same_relation. rewrite Hget. simpl.
  rewrite andb_true_iff, !bool_decide_eq_true. done.
Qed.



(** The insertion of a triple that is not stored yet. *)
Lemma insert_triple_ok now subject predicate obj confidence source_episode kg :
  serializable kg ->
  let id := triple_generate_id subject predicate obj in
  let d := new_triple_dict now subject predicate obj confidence source_episode in
  insert_triple now subject predicate obj confidence source_episode kg =
  (mkKnowledge
     (coll_upsert (kg_collection kg) id (subject ++ " " ++ predicate ++ " " ++ obj)
        [ ("subject", MStr subject); ("predicate", MStr predicate); ("object", MStr obj);
          ("confidence", MFloat confidence);
          ("source_episode", MStr (default "" source_episode)) ])
     (<[id := d]> (_graph kg))
     (index_add (_subject_index kg) (lower subject) id)
     (index_add (_object_index kg) (lower obj) id)
     (index_add (_predicate_index kg) (lower predicate) id)
     (Some (<[id := d]> (_graph kg))),
   Ok id).
Proof.
  intros Hser id d. unfold insert_triple, bind, get_state, put_state, ret, _save_graph.
  simpl. fold id d.
  rewrite serializable_forallb; [done|].
  intros k d'. rewrite lookup_insert. case_decide.
  - by intros [= <-].
  - apply Hser.
Qed.





End WithEnv.

#[local] Existing Instances Examples.toy_lib Examples.toy_index.


End KnowledgeFacts.

(* ===================================================================== *)
(** * Facts on hybrid_search.py: BM25 *)
(* ===================================================================== *)

Module BM25Facts.
Import Hybrid.

Section WithEnv.
Context `{PyLib} `{VectorIndex}.
Local Open Scope R_scope.

(** The index in which the tokens of document [idx] are replaced while the
    stored lengths, the average length and the term weights are kept. *)
Definition with_document (bm : BM25) (idx : nat) (doc_tokens : list string) : BM25 :=
  mkBM25 (k1 bm) (b bm) (<[idx := doc_tokens]> (corpus bm)) (doc_lengths bm) (avgdl bm)
         (df bm) (idf bm) (doc_ids bm) (doc_contents bm).

(** The parameters of a usable index: [k1 >= 0], [0 <= b <= 1] and a
    positive average document length. *)
Definition parameters_ok (bm : BM25) : Prop :=
  0 <= k1 bm /\ 0 <= b bm <= 1 /\ 0 < avgdl bm.

Definition idf_nonneg (idf : gmap string R) : Prop :=
  forall term v, idf !! term = Some v -> 0 <= v.

(** The saturation [x * c / (x + K)] grows with [x]. *)
Lemma saturation_mono (x y K c : R) :
  0 < x -> x <= y -> 0 <= K -> 0 <= c -> x * c / (x + K) <= y * c / (y + K).
Proof.
  intros Hx Hxy HK Hc.
  assert (x * c / (x + K) = c * (x / (x + K))) as -> by (field; lra).
  assert (y * c / (y + K) = c * (y / (y + K))) as -> by (field; lra).
  apply Rmult_le_compat_l; [exact Hc|].
  apply Rmult_le_reg_r with ((x + K) * (y + K)); [nra|].
  replace (x / (x + K) * ((x + K) * (y + K))) with (x * (y + K)) by (field; lra).
  replace (y / (y + K) * ((x + K) * (y + K))) with (y * (x + K)) by (field; lra).
  nra.
Qed.

Lemma saturation_nonneg (x K c : R) : 0 < x -> 0 <= K -> 0 <= c -> 0 <= x * c / (x + K).
Proof.
  intros Hx HK Hc. apply Rmult_le_pos; [nra|].
  apply Rlt_le, Rinv_0_lt_compat. lra.
Qed.

(** The length penalty [k1 * (1 - b + b * len / avgdl)] of the denominator. *)
Definition penalty (bm : BM25) (doc_len : nat) : R :=
  k1 bm * (1 - b bm + b bm * INR doc_len / avgdl bm).

Lemma penalty_nonneg bm doc_len : parameters_ok bm -> 0 <= penalty bm doc_len.
Proof.
  intros (Hk & [Hb0 Hb1] & Havg). unfold penalty.
  apply Rmult_le_pos; [exact Hk|].
  assert (0 <= b bm * INR doc_len / avgdl bm); [|lra].
  apply Rmult_le_pos; [apply Rmult_le_pos; [exact Hb0 | apply pos_INR]|].
  apply Rlt_le, Rinv_0_lt_compat, Havg.
Qed.

(** With sound parameters the contribution of a term that occurs in the
    document is computed without a division by zero. *)
Lemma term_score_ok bm term_freq doc_len term :
  parameters_ok bm -> (0 < term_freq)%nat ->
  term_score bm term_freq doc_len term =
  Ok (default 0 (idf bm !! term)
      * (INR term_freq * (k1 bm + 1) / (INR term_freq + penalty bm doc_len))).
Proof.
  intros Hp Htf. pose proof (penalty_nonneg bm doc_len Hp) as HK.
  destruct Hp as (Hk & Hb & Havg).
  apply lt_0_INR in Htf.
  unfold term_score, div_float, penalty in *.
  destruct (Req_dec_T (avgdl bm) 0) as [E|_]; [lra|].
  destruct (Req_dec_T _ 0) as [E|_]; [|reflexivity].
  unfold Rdiv in *. lra.
Qed.

Lemma idf_default_nonneg idf term : idf_nonneg idf -> 0 <= default 0 (idf !! term).
Proof.
  intros Hidf. destruct (idf !! term) as [v|] eqn:E; simpl; [by eapply Hidf | lra].
Qed.

(** The loop of [score]: if no query term is rarer in the second document
    than in the first, the second total is at least the first. *)
Lemma score_terms_mono bm doc_tokens doc_tokens' doc_len query_tokens :
  parameters_ok bm -> idf_nonneg (idf bm) ->
  (forall u, u ∈ query_tokens -> (term_count doc_tokens u <= term_count doc_tokens' u)%nat) ->
  forall acc acc', acc <= acc' ->
  exists s s',
    score_terms bm doc_tokens doc_len query_tokens acc = Ok s /\
    score_terms bm doc_tokens' doc_len query_tokens acc' = Ok s' /\
    s <= s'.
Proof.
  intros Hp Hidf. induction query_tokens as [|term rest IH]; intros Hle acc acc' Hacc; simpl.
  - by exists acc, acc'.
  - assert (Hrest : forall u, u ∈ rest ->
                      (term_count doc_tokens u <= term_count doc_tokens' u)%nat)
      by (intros u Hu; apply Hle; by apply list_elem_of_further).
    specialize (Hle term (list_elem_of_here _ _)).
    pose proof (penalty_nonneg bm doc_len Hp) as HK.
    pose proof (idf_default_nonneg _ term Hidf) as Hw.
    assert (Hk : 0 <= k1 bm + 1) by (destruct Hp as (? & _); lra).
    destruct (decide (term_count doc_tokens' term = 0%nat)) as [E'|N'].
    + rewrite decide_True by lia. by apply IH.
    + rewrite (term_score_ok bm (term_count doc_tokens' term)) by (done || lia).
      assert (0 < INR (term_count doc_tokens' term)) as Hpos' by (apply lt_0_INR; lia).
      destruct (decide (term_count doc_tokens term = 0%nat)) as [E|N].
      * apply IH; [done|].
        pose proof (saturation_nonneg _ _ _ Hpos' HK Hk).
        assert (0 <= default 0 (idf bm !! term)
                     * (INR (term_count doc_tokens' term) * (k1 bm + 1)
                        / (INR (term_count doc_tokens' term) + penalty bm doc_len)))
          by (by apply Rmult_le_pos).
        lra.
      * rewrite (term_score_ok bm (term_count doc_tokens term)) by (done || lia).
        apply IH; [done|].
        assert (0 < INR (term_count doc_tokens term)) as Hpos by (apply lt_0_INR; lia).
        apply le_INR in Hle.
        pose proof (saturation_mono _ _ _ _ Hpos Hle HK Hk).
        apply Rplus_le_compat; [done|].
        by apply Rmult_le_compat_l.
Qed.

Lemma score_terms_with_document bm idx d doc_tokens doc_len query_tokens acc :
  score_terms (with_document bm idx d) doc_tokens doc_len query_tokens acc =
  score_terms bm doc_tokens doc_len query_tokens acc.
Proof.
  revert acc. induction query_tokens as [|term rest IH]; intros acc; simpl; [done|].
  rewrite IH.
  change (term_score (with_document bm idx d)) with (term_score bm).
  destruct (decide _); [done|].
  destruct (term_score bm _ _ _); [apply IH | done].
Qed.

(** ** The index built by [fit] *)

(** A token counted by the inner loop of [fit] gains at most one. *)
Lemma count_document_bound tokens : forall seen df term,
  (default 0 (count_document tokens seen df !! term)
   <= (if decide (term ∈ seen) then 0 else 1) + default 0 (df !! term))%nat.
Proof.
  induction tokens as [|token rest IH]; intros seen df0 term; simpl.
  - destruct (decide _); lia.
  - destruct (decide (token ∈ seen)) as [Hin|Hnin]; [apply IH|].
    etrans; [apply IH|].
    destruct (decide (term = token)) as [->|Hne].
    + rewrite lookup_insert_eq. simpl.
      rewrite decide_True by set_solver. rewrite decide_False by done. lia.
    + rewrite lookup_insert_ne by done.
      destruct (decide (term ∈ seen)).
      * rewrite decide_True by set_solver. lia.
      * rewrite decide_False by set_solver. lia.
Qed.

(** The document frequencies never exceed the number of documents read. *)
Definition df_bounded (bm : BM25) : Prop :=
  forall term, (default 0 (df bm !! term) <= length (corpus bm))%nat.

Lemma fit_document_df_bounded bm document :
  df_bounded bm -> df_bounded (fit_document bm document).
Proof.
  intros Hb term. destruct document as [doc_id content]. simpl.
  rewrite length_app. simpl.
  pose proof (count_document_bound (tokenize content) ∅ (df bm) term) as Hc.
  rewrite decide_False in Hc by set_solver.
  specialize (Hb term). lia.
Qed.

Lemma fold_fit_document_df_bounded documents bm :
  df_bounded bm -> df_bounded (fold_left fit_document documents bm).
Proof.
  revert bm. induction documents as [|d ds IH]; intros bm Hb; simpl; [done|].
  by apply IH, fit_document_df_bounded.
Qed.

Lemma fold_fit_document_idf documents bm :
  idf (fold_left fit_document documents bm) = idf bm.
Proof.
  revert bm. induction documents as [|[doc_id content] ds IH]; intros bm; simpl; [done|].
  by rewrite IH.
Qed.

Lemma idf_value_nonneg n df_val : (df_val <= n)%nat -> 0 <= idf_value n df_val.
Proof.
  intros Hle. apply le_INR in Hle. pose proof (pos_INR df_val) as Hd.
  unfold idf_value. rewrite <- ln_1.
  assert (0 <= (INR n - INR df_val + 0.5) / (INR df_val + 0.5)) as Hq.
  { apply Rmult_le_pos; [lra|]. apply Rlt_le, Rinv_0_lt_compat. lra. }
  destruct (Req_dec_T ((INR n - INR df_val + 0.5) / (INR df_val + 0.5)) 0) as [E|N].
  - rewrite E. replace (0 + 1) with 1 by lra. lra.
  - apply Rlt_le, ln_increasing; lra.
Qed.

(** [fit] leaves only non-negative term weights when it started so. *)
Lemma fit_idf_nonneg bm documents :
  idf_nonneg (idf bm) -> idf_nonneg (idf (fit bm documents)).
Proof.
  intros Hidf term v. unfold fit. simpl.
  set (indexed := fold_left fit_document documents _).
  assert (Hb : df_bounded indexed).
  { apply fold_fit_document_df_bounded. intros t. simpl. by rewrite lookup_empty. }
  intros Hget. apply lookup_union_Some_raw in Hget as [Hget|[_ Hget]].
  - apply lookup_fmap_Some in Hget as (df_val & <- & Hdf).
    apply idf_value_nonneg. specialize (Hb term). by rewrite Hdf in Hb.
  - unfold indexed in Hget. rewrite fold_fit_document_idf in Hget. simpl in Hget.
    by eapply Hidf.
Qed.

Lemma fold_fit_document_params documents bm :
  k1 (fold_left fit_document documents bm) = k1 bm /\
  b (fold_left fit_document documents bm) = b bm.
Proof.
  revert bm. induction documents as [|[doc_id content] ds IH]; intros bm; simpl; [done|].
  apply (IH (fit_document bm (doc_id, content))).
Qed.

(** [fit] keeps the parameters and, when some document has a token, sets a
    positive average length. *)
Lemma fit_parameters_ok bm documents :
  0 <= k1 bm -> 0 <= b bm <= 1 ->
  (0 < list_sum (doc_lengths (fit bm documents)))%nat ->
  parameters_ok (fit bm documents).
Proof.
  intros Hk Hb. unfold fit, parameters_ok. cbv zeta.
  set (indexed := fold_left fit_document documents _).
  destruct (fold_fit_document_params documents
              (mkBM25 (k1 bm) (b bm) [] [] (avgdl bm) ∅ (idf bm) [] [])) as [Ek Eb].
  fold indexed in Ek, Eb. simpl in Ek, Eb |- *. rewrite Ek, Eb.
  intros Hsum. split_and!; try lra.
  destruct (doc_lengths indexed) as [|l ls] eqn:E; [simpl in Hsum; lia|].
  apply Rmult_lt_0_compat.
  - by apply lt_0_INR.
  - apply Rinv_0_lt_compat, lt_0_INR. simpl. lia.
Qed.

(** C6 (BM25 monotonicity).  In an index with sound parameters and
    non-negative term weights, replace the tokens of a document so that one
    term occurs once more and every other query term as often as before,
    the stored document length, the average length and the term weights
    being kept: [score] returns for both documents, and the second score is
    at least the first. *)
Theorem bm25_score_monotone_in_term_frequency
    bm query idx doc_tokens doc_tokens' term :
  parameters_ok bm -> idf_nonneg (idf bm) ->
  corpus bm !! idx = Some doc_tokens ->
  is_Some (doc_lengths bm !! idx) ->
  term_count doc_tokens' term = S (term_count doc_tokens term) ->
  (forall u, u ∈ tokenize query -> u <> term ->
             term_count doc_tokens' u = term_count doc_tokens u) ->
  exists s s',
    score bm query idx = Ok s /\
    score (with_document bm idx doc_tokens') query idx = Ok s' /\
    s <= s'.
Proof.
  intros Hp Hidf Hdoc [doc_len Hlen] Hterm Hothers.
  unfold score. simpl. rewrite Hdoc, Hlen.
  rewrite list_lookup_insert_eq by (by eapply lookup_lt_Some).
  setoid_rewrite score_terms_with_document.
  apply score_terms_mono; [done | done | | lra].
  intros u Hu. destruct (decide (u = term)) as [->|Hne]; [lia|].
  rewrite (Hothers u Hu Hne). lia.
Qed.

End WithEnv.

#[local] Existing Instances Examples.toy_lib Examples.toy_index.

Lemma bm25_score_monotone_in_term_frequency_witness :
  let bm := fit (new_BM25 1.5 0.75) [("d1", "python code"); ("d2", "rust code")] in
  exists s s',
    score bm "python" 0 = Ok s /\
    score (with_document bm 0 ["python"; "python"]) "python" 0 = Ok s' /\
    (s <= s')%R.
Proof.
  intros bm.
  apply (bm25_score_monotone_in_term_frequency bm "python" 0%nat
           ["python"; "code"] ["python"; "python"] "python").
  - apply fit_parameters_ok; simpl; [lra | lra | lazy; lia].
  - apply fit_idf_nonneg. intros term v Hget. simpl in Hget. by rewrite lookup_empty in Hget.
  - reflexivity.
  - eexists. reflexivity.
  - reflexivity.
  - intros u Hu Hne. change (tokenize "python") with ["python"] in Hu.
    by apply list_elem_of_singleton in Hu.
Defined.

End BM25Facts.

(* ===================================================================== *)
(** * Facts on hybrid_search.py: the fusion of the two rankers *)
(* ===================================================================== *)

Module FusionFacts.
Import Hybrid BM25Facts.

Section WithEnv.
Context `{PyLib} `{VectorIndex}.
Local Open Scope R_scope.

(** The parallel lists of an index have the length of the corpus. *)
Definition aligned (bm : BM25) : Prop :=
  length (doc_lengths bm) = length (corpus bm) /\
  length (doc_ids bm) = length (corpus bm) /\
  length (doc_contents bm) = length (corpus bm).

Lemma fit_document_aligned bm document : aligned bm -> aligned (fit_document bm document).
Proof.
  intros (H1 & H2 & H3). destruct document as [doc_id content].
  unfold aligned. simpl. rewrite !length_app. simpl. lia.
Qed.

Lemma fold_fit_document_aligned documents bm :
  aligned bm -> aligned (fold_left fit_document documents bm).
Proof.
  revert bm. induction documents as [|d ds IH]; intros bm Hb; simpl; [done|].
  by apply IH, fit_document_aligned.
Qed.

Lemma fit_aligned bm documents : aligned (fit bm documents).
Proof.
  unfold fit. cbv zeta.
  set (indexed := fold_left fit_document documents _).
  assert (aligned indexed) as Ha by (by apply fold_fit_document_aligned).
  exact Ha.
Qed.

(** ** [BM25.search] returns, with positive scores *)

Lemma score_terms_total bm doc_tokens doc_len query_tokens :
  parameters_ok bm ->
  forall acc, exists s, score_terms bm doc_tokens doc_len query_tokens acc = Ok s.
Proof.
  intros Hp. induction query_tokens as [|term rest IH]; intros acc; simpl.
  - by eexists.
  - destruct (decide _) as [E|N]; [apply IH|].
    rewrite term_score_ok by (done || lia). apply IH.
Qed.

Lemma score_total bm query idx :
  parameters_ok bm -> aligned bm -> (idx < length (corpus bm))%nat ->
  exists s, score bm query idx = Ok s.
Proof.
  intros Hp (Hl & _ & _) Hidx. unfold score.
  destruct (lookup_lt_is_Some_2 (corpus bm) idx Hidx) as [doc_tokens ->].
  destruct (lookup_lt_is_Some_2 (doc_lengths bm) idx) as [doc_len ->]; [lia|].
  by apply score_terms_total.
Qed.

Definition positive_scores (scores : list (string * string * R)) : Prop :=
  Forall (fun r => 0 < r.2) scores.

Lemma search_scores_total bm query indices :
  parameters_ok bm -> aligned bm ->
  Forall (fun idx => (idx < length (corpus bm))%nat) indices ->
  forall scores, positive_scores scores ->
  exists scores', search_scores bm query indices scores = Ok scores' /\
                  positive_scores scores'.
Proof.
  intros Hp Ha. induction 1 as [|idx rest Hidx _ IH]; intros scores Hpos; simpl.
  - by exists scores.
  - destruct (score_total bm query idx Hp Ha Hidx) as [s ->].
    unfold Rgtb. destruct (Rlt_dec 0 s) as [Hs|_]; [|by apply IH].
    destruct Ha as (_ & Hi & Hc).
    destruct (lookup_lt_is_Some_2 (doc_ids bm) idx) as [doc_id ->]; [lia|].
    destruct (lookup_lt_is_Some_2 (doc_contents bm) idx) as [content ->]; [lia|].
    apply IH. apply Forall_app. split; [done|]. by constructor.
Qed.

Lemma bm25_search_total bm query top_k :
  parameters_ok bm -> aligned bm ->
  exists results, bm25_search bm query top_k = Ok results /\
                  positive_scores results /\ (length results <= top_k)%nat.
Proof.
  intros Hp Ha. unfold bm25_search.
  destruct (search_scores_total bm query (seq 0 (length (corpus bm))) Hp Ha) with (scores := @nil (string * string * R))
    as (scores & -> & Hpos).
  - apply Forall_forall. intros idx Hidx. apply elem_of_seq in Hidx. lia.
  - constructor.
  - eexists. split; [done|]. split.
    + apply Forall_forall. intros r Hr. apply firstn_sort_elem in Hr.
      unfold positive_scores in Hpos. rewrite Forall_forall in Hpos. by apply Hpos.
    + apply firstn_le_length.
Qed.

(** ** The dictionaries of scores *)

Lemma fold_insert_lookup (l : list (string * R)) : forall (m : gmap string R) k v,
  fold_left (fun m p => <[p.1 := p.2]> m) l m !! k = Some v ->
  (k, v) ∈ l \/ m !! k = Some v.
Proof.
  induction l as [|[k0 v0] l IH]; intros m k v Hget; simpl in *; [by right|].
  apply IH in Hget as [Hin|Hget]; [left; by apply list_elem_of_further|].
  apply lookup_insert_Some in Hget as [[<- <-]|[_ Hget]]; [left; apply list_elem_of_here | by right].
Qed.

Lemma scores_dict_lookup l k v : scores_dict l !! k = Some v -> (k, v) ∈ l.
Proof.
  intros Hget. apply fold_insert_lookup in Hget as [Hin|Hget]; [done|].
  by rewrite lookup_empty in Hget.
Qed.

Definition positive_dict (d : gmap string R) : Prop :=
  forall k v, d !! k = Some v -> 0 < v.

Lemma bm25_scores_positive (results : list (string * string * R)) :
  positive_scores results ->
  positive_dict (scores_dict (map (fun r => (r.1.1, r.2)) results)).
Proof.
  intros Hpos k v Hget. apply scores_dict_lookup in Hget.
  apply list_elem_of_fmap in Hget as (r & [= -> ->] & Hr).
  unfold positive_scores in Hpos. rewrite Forall_forall in Hpos. by apply Hpos.
Qed.

(** ** The maximum of a dictionary of scores *)

Lemma fold_Rmax_upper l : forall x y, y ∈ x :: l -> y <= fold_left Rmax l x.
Proof.
  induction l as [|a l IH]; intros x y Hy; simpl.
  - apply list_elem_of_singleton in Hy as ->. lra.
  - apply elem_of_cons in Hy as [->|Hy].
    + etrans; [apply (Rmax_l x a)|]. apply IH, list_elem_of_here.
    + apply elem_of_cons in Hy as [->|Hy].
      * etrans; [apply (Rmax_r x a)|]. apply IH, list_elem_of_here.
      * apply IH. by apply list_elem_of_further.
Qed.

Lemma fold_Rmax_elem l : forall x, fold_left Rmax l x ∈ x :: l.
Proof.
  induction l as [|a l IH]; intros x; simpl.
  - apply list_elem_of_here.
  - specialize (IH (Rmax x a)). apply elem_of_cons in IH as [E|Hin].
    + rewrite E. unfold Rmax. destruct (Rle_dec x a).
      * apply list_elem_of_further, list_elem_of_here.
      * apply list_elem_of_here.
    + by do 2 apply list_elem_of_further.
Qed.

Lemma max_score_empty : max_score ∅ = 0.
Proof. unfold max_score. by rewrite decide_True. Qed.

Lemma values_not_empty (d : gmap string R) :
  d <> ∅ -> exists x l, map snd (map_to_list d) = x :: l.
Proof.
  intros Hne. destruct (map_to_list d) as [|[k v] l] eqn:E.
  - by apply map_to_list_empty_iff in E.
  - by exists v, (map snd l).
Qed.

Lemma max_score_upper d k v : d !! k = Some v -> v <= max_score d.
Proof.
  intros Hget. unfold max_score.
  assert (d <> ∅) as Hne by (intros ->; by rewrite lookup_empty in Hget).
  rewrite decide_False by done.
  destruct (values_not_empty d Hne) as (x & l & E). rewrite E. simpl.
  apply fold_Rmax_upper. rewrite <- E.
  apply list_elem_of_fmap. exists (k, v). split; [done|]. by apply elem_of_map_to_list.
Qed.

Lemma max_score_attained d : d <> ∅ -> exists k, d !! k = Some (max_score d).
Proof.
  intros Hne. unfold max_score. rewrite decide_False by done.
  destruct (values_not_empty d Hne) as (x & l & E). rewrite E. simpl.
  pose proof (fold_Rmax_elem l x) as Hin. rewrite <- E in Hin.
  apply list_elem_of_fmap in Hin as ([k v] & Ev & Hin). simpl in Ev. subst v.
  exists k. by apply elem_of_map_to_list.
Qed.

(** A dictionary of positive scores is scaled into the unit interval. *)
Lemma scaled_score_unit d doc_id :
  positive_dict d -> 0 <= scaled_score d (max_score d) doc_id <= 1.
Proof.
  intros Hpos. unfold scaled_score, Rgtb.
  destruct (Rlt_dec 0 (max_score d)) as [Hm|_]; [|lra].
  destruct (d !! doc_id) as [v|] eqn:E; simpl.
  - pose proof (Hpos _ _ E). pose proof (max_score_upper _ _ _ E). split.
    + apply Rmult_le_pos; [lra|]. by apply Rlt_le, Rinv_0_lt_compat.
    + apply Rmult_le_reg_r with (max_score d); [done|].
      replace (v / max_score d * max_score d) with v by (field; lra). lra.
  - unfold Rdiv. rewrite Rmult_0_l. lra.
Qed.

(** ** [HybridSearchEngine.search] *)

(** [bm25_scores] of [search]. *)
Definition bm25_scores_of (bm25_results : list (string * string * R)) : gmap string R :=
  scores_dict (map (fun r => (r.1.1, r.2)) bm25_results).

(** The test [combined >= min_score]. *)
Definition kept (min_score : R) (r : HybridSearchResult) : bool :=
  negb (Rgtb min_score (hr_combined_score r)).

Lemma Rgtb_true x y : y < x -> Rgtb x y = true.
Proof. intros Hlt. unfold Rgtb. by destruct (Rlt_dec y x). Qed.

Lemma Rgtb_false x y : x <= y -> Rgtb x y = false.
Proof. intros Hle. unfold Rgtb. destruct (Rlt_dec y x); [lra | done]. Qed.

Lemma kept_spec min_score r : kept min_score r = true <-> min_score <= hr_combined_score r.
Proof.
  unfold kept, Rgtb. destruct (Rlt_dec (hr_combined_score r) min_score); simpl; split;
    intros; (done || lra).
Qed.

Lemma search_results e query top_k min_score bm25_results :
  bm25_search (bm25 e) query (top_k * 2) = Ok bm25_results ->
  search e query top_k min_score =
  Ok (firstn top_k
        (sort_desc (key_gt hr_combined_score)
           (List.filter (kept min_score)
              (map (fuse e (bm25_scores_of bm25_results) (vector_scores_of e query top_k))
                   (elements (dom (bm25_scores_of bm25_results)
                              ∪ dom (vector_scores_of e query top_k))))))).
Proof. intros Hb. unfold search. by rewrite Hb. Qed.

Lemma kept_elem e bs vs min_score r :
  r ∈ List.filter (kept min_score) (map (fuse e bs vs) (elements (dom bs ∪ dom vs))) <->
  exists doc_id, doc_id ∈ dom bs ∪ dom vs /\ r = fuse e bs vs doc_id /\
                 min_score <= hr_combined_score r.
Proof.
  rewrite list_elem_of_In, filter_In, <- list_elem_of_In, list_elem_of_fmap, kept_spec.
  setoid_rewrite elem_of_elements. naive_solver.
Qed.

(** ** Min-max normalisation, as the specification words the fusion *)

(** The scores of one ranker after [_normalize_scores]. *)
Definition min_max_normalized (d : gmap string R) : gmap string R :=
  list_to_map (zip (map fst (map_to_list d)) (_normalize_scores (map snd (map_to_list d)))).

(** The final score of a document under min-max normalisation, 0 standing
    for a missing signal. *)
Definition min_max_fused (e : HybridSearchEngine) (bm25_scores vector_scores : gmap string R)
    (doc_id : string) : R :=
  bm25_weight e * default 0 (min_max_normalized bm25_scores !! doc_id)
  + vector_weight e * default 0 (min_max_normalized vector_scores !! doc_id).

(** C4 (hybrid fusion), as the code has it.  When the BM25 index has sound
    parameters and aligned lists, [search] returns.  BM25 contributes at
    most [2 * top_k] results.  Every returned result is a document of one
    of the two result sets; each of its two scores is the score of the
    ranker divided by the greatest score of that ranker (0 when that
    maximum is not positive or the ranker did not return the document); the
    BM25 score lies in the unit interval; the combined score is the
    weighted sum and is at least [min_score].  The list is in descending
    order of combined score and has at most [top_k] entries; a candidate
    that reaches [min_score] is returned unless the list is full of results
    with a combined score at least as large. *)
Theorem search_scales_by_maximum e query top_k min_score :
  parameters_ok (bm25 e) -> aligned (bm25 e) ->
  exists bm25_results results,
    bm25_search (bm25 e) query (top_k * 2) = Ok bm25_results /\
    search e query top_k min_score = Ok results /\
    (length bm25_results <= top_k * 2)%nat /\
    (length results <= top_k)%nat /\
    descending hr_combined_score results /\
    let bm25_scores := bm25_scores_of bm25_results in
    let vector_scores := vector_scores_of e query top_k in
    let bm25_max := max_score bm25_scores in
    let vector_max := max_score vector_scores in
    (forall r, r ∈ results ->
       hr_id r ∈ dom bm25_scores ∪ dom vector_scores /\
       hr_bm25_score r =
         (if Rgtb bm25_max 0 then default 0 (bm25_scores !! hr_id r) / bm25_max else 0) /\
       hr_vector_score r =
         (if Rgtb vector_max 0 then default 0 (vector_scores !! hr_id r) / vector_max
          else 0) /\
       0 <= hr_bm25_score r <= 1 /\
       hr_combined_score r
         = bm25_weight e * hr_bm25_score r + vector_weight e * hr_vector_score r /\
       min_score <= hr_combined_score r) /\
    (forall doc_id, doc_id ∈ dom bm25_scores ∪ dom vector_scores ->
       let r := fuse e bm25_scores vector_scores doc_id in
       min_score <= hr_combined_score r ->
       r ∈ results \/
       (length results = top_k /\
        forall r', r' ∈ results -> hr_combined_score r <= hr_combined_score r')).
Proof.
  intros Hp Ha.
  destruct (bm25_search_total (bm25 e) query (top_k * 2) Hp Ha) as (bm25_results & Hb & Hpos & Hlen).
  exists bm25_results. eexists. split; [exact Hb|].
  split; [by apply search_results|].
  split; [exact Hlen|].
  split; [apply firstn_le_length|].
  split; [apply descending_firstn, sort_desc_descending|].
  intros bm25_scores vector_scores bm25_max vector_max. split.
  - intros r Hr. apply firstn_sort_elem in Hr.
    apply kept_elem in Hr as (doc_id & Hin & -> & Hmin).
    pose proof (scaled_score_unit (bm25_scores_of bm25_results) doc_id
                  (bm25_scores_positive _ Hpos)) as [Hlo Hhi].
    by split_and!.
  - intros doc_id Hin r Hmin.
    apply (firstn_sort_complete hr_combined_score).
    apply kept_elem. by exists doc_id.
Qed.

End WithEnv.

#[local] Existing Instances Examples.toy_lib Examples.toy_index.

Lemma two_vector_candidates (x y : R) :
  let vector_scores := scores_dict [("a", x); ("b", y)] in
  elements (dom (bm25_scores_of []) ∪ dom vector_scores) = ["a"; "b"] /\
  map_to_list vector_scores = [("a", x); ("b", y)] /\
  vector_scores !! "a" = Some x /\ vector_scores !! "b" = Some y.
Proof. split_and!; vm_compute; reflexivity. Qed.

Lemma normalized_lookup (x y u v : R) :
  (list_to_map (zip (map fst [("a", x); ("b", y)]) [u; v]) : gmap string R) !! "b" = Some v.
Proof. vm_compute. reflexivity. Qed.

Lemma empty_normalized doc_id : min_max_normalized (bm25_scores_of []) !! doc_id = None.
Proof. apply lookup_empty. Qed.

Lemma fuse_scores e bs vs doc_id :
  hr_id (fuse e bs vs doc_id) = doc_id /\
  hr_bm25_score (fuse e bs vs doc_id) = scaled_score bs (max_score bs) doc_id /\
  hr_vector_score (fuse e bs vs doc_id) = scaled_score vs (max_score vs) doc_id /\
  hr_combined_score (fuse e bs vs doc_id)
  = (bm25_weight e * scaled_score bs (max_score bs) doc_id
     + vector_weight e * scaled_score vs (max_score vs) doc_id)%R.
Proof. done. Qed.

Lemma scaled_score_empty doc_id : scaled_score ∅ (max_score ∅) doc_id = 0%R.
Proof. rewrite max_score_empty. unfold scaled_score. by rewrite Rgtb_false by lra. Qed.

(** An engine without BM25 documents over a vector index that answers
    distance [0.2] for ["a"] and [0.5] for ["b"]. *)
Definition vector_only_engine : HybridSearchEngine :=
  mkEngine 0.4 0.6 (new_BM25 1.5 0.75) (Some [("a", 0.2%Q); ("b", 0.5%Q)]) [] [].

(** The vector scores of the two documents are [0.8] and [0.5]: [search]
    gives ["b"] the vector score [0.5 / 0.8] and the combined score
    [0.375], where min-max normalisation gives the lowest score [0]. *)
Lemma search_does_not_min_max_normalize :
  exists results r,
    bm25_search (bm25 vector_only_engine) "q" (10 * 2) = Ok [] /\
    search vector_only_engine "q" 10 0 = Ok results /\
    r ∈ results /\ hr_id r = "b" /\
    hr_vector_score r = 0.625%R /\
    hr_combined_score r = 0.375%R /\
    min_max_fused vector_only_engine (bm25_scores_of [])
                  (vector_scores_of vector_only_engine "q" 10) "b" = 0%R.
Proof.
  assert (Hb : bm25_search (bm25 vector_only_engine) "q" (10 * 2) = Ok []) by reflexivity.
  pose proof (search_results vector_only_engine "q" 10 0 [] Hb) as Hs.
  set (x := (1 - Q2R 0.2)%R) in *. set (y := (1 - Q2R 0.5)%R).
  assert (Hx : x = 0.8%R) by (unfold x, Q2R; simpl; lra).
  assert (Hy : y = 0.5%R) by (unfold y, Q2R; simpl; lra).
  assert (Hv : vector_scores_of vector_only_engine "q" 10 = scores_dict [("a", x); ("b", y)])
    by reflexivity.
  rewrite Hv in *. clearbody x y.
  destruct (two_vector_candidates x y) as (Hel & Hl & Ha & Hb').
  set (vs := scores_dict [("a", x); ("b", y)]) in *.
  assert (Hmax : max_score vs = 0.8%R).
  { unfold max_score. rewrite decide_False; [|intros E; by rewrite E in Hl].
    rewrite Hl. simpl. rewrite Hx, Hy. apply Rmax_left. lra. }
  assert (Hsb : scaled_score vs (max_score vs) "b" = 0.625%R).
  { rewrite Hmax. unfold scaled_score. rewrite Rgtb_true by lra.
    rewrite Hb'. simpl. rewrite Hy. lra. }
  set (rb := fuse vector_only_engine (bm25_scores_of []) vs "b").
  destruct (fuse_scores vector_only_engine (bm25_scores_of []) vs "b") as (Hid & _ & Hvs & Hcs).
  fold rb in Hid, Hvs, Hcs.
  change (bm25_scores_of []) with (∅ : gmap string R) in Hcs.
  rewrite scaled_score_empty, Hsb in Hcs.
  change (bm25_weight vector_only_engine) with 0.4%R in Hcs.
  change (vector_weight vector_only_engine) with 0.6%R in Hcs.
  assert (Hcb : hr_combined_score rb = 0.375%R) by lra.
  eexists. exists rb. split; [exact Hb|]. split; [exact Hs|].
  split_and!; [| exact Hid | by rewrite Hvs | exact Hcb |].
  - match goal with |- _ ∈ firstn _ (sort_desc _ ?l) =>
      destruct (firstn_sort_complete hr_combined_score 10 rb l) as [Hin|[Hfull _]]
    end.
    + apply kept_elem. exists "b". split; [|split; [reflexivity | rewrite Hcb; lra]].
      apply elem_of_elements. rewrite Hel. set_solver.
    + exact Hin.
    + exfalso. rewrite length_firstn, sort_desc_length in Hfull.
      match type of Hfull with context [length (List.filter ?f ?l)] =>
        pose proof (filter_length_le f l) as Hle
      end.
      rewrite length_map in Hle. rewrite Hel in Hle, Hfull. change (length ["a"; "b"]) with 2%nat in Hle. lia.
  - unfold min_max_fused. rewrite empty_normalized.
    unfold min_max_normalized. rewrite Hl.
    assert (Hn : _normalize_scores [x; y] = [1; 0]%R).
    { unfold _normalize_scores, max_list, min_list. simpl. rewrite Hx, Hy.
      rewrite Rmax_left, Rmin_right by lra.
      destruct (Req_dec_T _ _) as [E|_]; [lra|]. simpl.
      f_equal; [|f_equal]; lra. }
    change (map snd [("a", x); ("b", y)]) with [x; y]. rewrite Hn.
    rewrite normalized_lookup. simpl. lra.
Qed.

(** An engine over two indexed documents. *)
Definition indexed_engine : HybridSearchEngine :=
  (index_batch (new_engine 0.4 0.6 (Some []))
               [("d1", "python code", Some [("kind", MStr "note")]);
                ("d2", "rust code", Some [("kind", MStr "note")])]).1.

Lemma search_scales_by_maximum_witness :
  exists results,
    search indexed_engine "python" 1 0 = Ok results /\
    (length results <= 1)%nat /\
    descending hr_combined_score results /\
    forall r, r ∈ results ->
      (0 <= hr_bm25_score r <= 1)%R /\
      hr_combined_score r = (0.4 * hr_bm25_score r + 0.6 * hr_vector_score r)%R /\
      (0 <= hr_combined_score r)%R.
Proof.
  destruct (search_scales_by_maximum indexed_engine "python" 1 0)
    as (bm25_results & results & _ & Hs & _ & Hlen & Hdesc & Hres & _).
  - apply (fit_parameters_ok (new_BM25 1.5 0.75) [("d1", "python code"); ("d2", "rust code")]);
      simpl; [lra | lra | lazy; lia].
  - apply (fit_aligned (new_BM25 1.5 0.75) [("d1", "python code"); ("d2", "rust code")]).
  - exists results. split_and!; [exact Hs | exact Hlen | exact Hdesc |].
    intros r Hr. destruct (Hres r Hr) as (_ & _ & _ & Hu & Hc & Hm).
    split_and!; [apply Hu | apply Hu | exact Hc | exact Hm].
Defined.

End FusionFacts.

(* ===================================================================== *)
(** * Facts on memory_consolidator.py *)
(* ===================================================================== *)

Module ConsolidatorFacts.
Import MemoryTypes Consolidator EpisodicFacts.

Section LoopTotal.
Context {S A B : Type}.

(** A loop whose every iteration returns, from a state that satisfies the
    invariant of the elements already visited, returns. *)
Lemma for_each_total (I : list A -> S -> B -> Prop) (body : B -> A -> M S B) xs :
  (forall visited x s acc, I visited s acc -> x ∈ xs ->
     exists s' acc', body acc x s = (s', Ok acc') /\ I (visited ++ [x])%list s' acc') ->
  forall visited acc s, I visited s acc ->
  exists s' acc', for_each body acc xs s = (s', Ok acc') /\ I (visited ++ xs)%list s' acc'.
Proof.
  induction xs as [|x xs IH]; intros Hbody visited acc s HI.
  - exists s, acc. rewrite app_nil_r. by rewrite for_each_nil.
  - rewrite for_each_cons.
    destruct (Hbody visited x s acc HI (list_elem_of_here _ _)) as (s1 & acc1 & -> & HI1).
    destruct (IH (fun v y s0 a HIv Hy => Hbody v y s0 a HIv (list_elem_of_further _ _ _ Hy))
                 (visited ++ [x])%list acc1 s1 HI1) as (s' & acc' & Hrun & HI').
    exists s', acc'. split; [exact Hrun|]. by rewrite <- app_assoc in HI'.
Qed.

End LoopTotal.

Section WithEnv.
Context `{PyLib} `{VectorIndex}.

(** ** What a payload says, whatever represents its metadata *)

Definition episode_content (now : Z) (d : episode_dict) :=
  (ed_fields d, meta_content (isoformat now) (ed_metadata d)).

Definition skill_content (now : Z) (d : skill_dict) :=
  (sd_id d, sd_name d, sd_description d, sd_pattern d, sd_trigger_conditions d,
   sd_action_template d, sd_success_rate d, sd_usage_count d, sd_source_episodes d,
   meta_content (isoformat now) (sd_metadata d)).

(** The content of a cache: its keys, in order, with what their payloads
    say. *)
Definition cache_content {V C} (content : V -> C) (cache : odict V) : list (string * C) :=
  map (fun p => (p.1, content p.2)) cache.

Lemma episode_from_dict_content now d :
  episode_content now (episode_from_dict (isoformat now) d).1 = episode_content now d.
Proof.
  unfold episode_from_dict, episode_content, ed_fields.
  destruct d as [? ? ? ? ? ? ? ? ? [|md|m] [l|]]; reflexivity.
Qed.

Lemma skill_from_dict_content now d :
  skill_content now (skill_from_dict (isoformat now) d).1 = skill_content now d.
Proof.
  unfold skill_from_dict, skill_content.
  destruct d as [? ? ? ? ? ? ? ? ? [|md|m]]; reflexivity.
Qed.

(** ** The episodic store under the read accessors *)

(** The store is the same but for the representation of the metadata of its
    payloads. *)
Definition episodic_kept (now : Z) (mem mem' : Episodic.EpisodicMemory) : Prop :=
  Episodic.em_collection mem' = Episodic.em_collection mem /\
  Episodic.metadata_file mem' = Episodic.metadata_file mem /\
  cache_content (episode_content now) (Episodic._metadata_cache mem')
  = cache_content (episode_content now) (Episodic._metadata_cache mem).

Lemma episodic_kept_refl now mem : episodic_kept now mem mem.
Proof. done. Qed.

Lemma episodic_kept_trans now m1 m2 m3 :
  episodic_kept now m1 m2 -> episodic_kept now m2 m3 -> episodic_kept now m1 m3.
Proof. intros (? & ? & ?) (? & ? & ?). split_and!; congruence. Qed.

Lemma from_dict_in_cache_kept now key data mem :
  od_get key (Episodic._metadata_cache mem) = Some data ->
  episodic_kept now mem (Episodic.from_dict_in_cache now key data mem).1.
Proof.
  intros Hget. unfold Episodic.from_dict_in_cache.
  pose proof (episode_from_dict_content now data) as Hc.
  destruct (episode_from_dict (isoformat now) data) as [data' r]. simpl in *.
  split_and!; [done | done |].
  unfold cache_content. by eapply od_set_same_image.
Qed.

Lemma collect_episodes_kept now keep mem :
  episodic_kept now mem (Episodic.collect_episodes now keep mem).1.
Proof.
  unfold Episodic.collect_episodes, bind, get_state.
  apply (for_each_state_inv (fun mem' => episodic_kept now mem mem')); [|done].
  intros s acc key _ Hs. simpl.
  destruct (od_get key (Episodic._metadata_cache s)) as [data|] eqn:Hget; [|done].
  pose proof (from_dict_in_cache_kept now key data s Hget) as Hstep.
  destruct (Episodic.from_dict_in_cache now key data s) as [s1 [episode|e]]; simpl in *;
    by eapply episodic_kept_trans.
Qed.

Lemma get_successful_episodes_kept now min_valence limit mem :
  episodic_kept now mem (Episodic.get_successful_episodes now min_valence limit mem).1.
Proof.
  unfold Episodic.get_successful_episodes, bind.
  pose proof (collect_episodes_kept now
                (fun e => negb (Qltb (ep_emotional_valence e) min_valence)
                          && (if decide (status (ep_metadata e) = ACTIVE) then true else false))
                mem) as Hk.
  destruct (Episodic.collect_episodes now _ mem) as [mem' [episodes|e]]; exact Hk.
Qed.

(** ** The procedural store under [get_skill_by_name] *)

Definition procedural_kept (now : Z) (mem mem' : Procedural.ProceduralMemory) : Prop :=
  Procedural.pm_collection mem' = Procedural.pm_collection mem /\
  Procedural.skills_file mem' = Procedural.skills_file mem /\
  cache_content (skill_content now) (Procedural._skills_cache mem')
  = cache_content (skill_content now) (Procedural._skills_cache mem).

Lemma procedural_kept_trans now m1 m2 m3 :
  procedural_kept now m1 m2 -> procedural_kept now m2 m3 -> procedural_kept now m1 m3.
Proof. intros (? & ? & ?) (? & ? & ?). split_and!; congruence. Qed.

Lemma cache_content_keys {V C} (content : V -> C) (cache cache' : odict V) :
  cache_content content cache' = cache_content content cache -> od_keys cache' = od_keys cache.
Proof.
  intros Hc. apply (f_equal (map fst)) in Hc. unfold cache_content in Hc.
  rewrite !map_map in Hc. exact Hc.
Qed.

Lemma find_by_name_get name cache key data :
  NoDup (od_keys cache) ->
  Procedural.find_by_name name cache = Some (key, data) -> od_get key cache = Some data.
Proof.
  unfold od_keys. induction cache as [|[k d] cache IH]; simpl; [done|].
  intros Hnd Hfind. apply NoDup_cons in Hnd as [Hk Hnd].
  destruct (decide (sd_name d = name)) as [_|_].
  - simplify_eq. by rewrite decide_True.
  - specialize (IH Hnd Hfind). rewrite decide_False; [done|].
    intros ->. apply Hk. apply od_get_key in IH. exact IH.
Qed.

Lemma get_skill_by_name_kept now name mem :
  NoDup (od_keys (Procedural._skills_cache mem)) ->
  exists mem' found,
    Procedural.get_skill_by_name now name mem = (mem', Ok found) /\
    procedural_kept now mem mem' /\
    (found = None <-> Procedural.find_by_name name (Procedural._skills_cache mem) = None).
Proof.
  intros Hnd. unfold Procedural.get_skill_by_name, bind, get_state.
  destruct (Procedural.find_by_name name (Procedural._skills_cache mem))
    as [[key data]|] eqn:Hfind.
  - apply find_by_name_get in Hfind; [|done].
    unfold Procedural.from_dict_in_cache.
    pose proof (skill_from_dict_content now data) as Hc.
    destruct (skill_from_dict (isoformat now) data) as [data' skill]. simpl in *.
    do 2 eexists. split; [done|]. split; [|done].
    split_and!; [done | done |]. unfold cache_content. by eapply od_set_same_image.
  - do 2 eexists. by split.
Qed.

(** ** A dry run *)

(** The consolidator is as before, but for the representation of the
    metadata in the payloads of the procedural cache. *)
Definition dry_frame (now : Z) (c c' : MemoryConsolidator) : Prop :=
  episodic c' = episodic c /\ knowledge c' = knowledge c /\ logs_dir c' = logs_dir c /\
  procedural_kept now (procedural c) (procedural c').

Lemma dry_frame_trans now c1 c2 c3 :
  dry_frame now c1 c2 -> dry_frame now c2 c3 -> dry_frame now c1 c3.
Proof.
  intros (? & ? & ? & ?) (? & ? & ? & ?).
  split_and!; [congruence.. | by eapply procedural_kept_trans].
Qed.

Lemma dry_frame_keys now c c' :
  dry_frame now c c' ->
  NoDup (od_keys (Procedural._skills_cache (procedural c))) ->
  NoDup (od_keys (Procedural._skills_cache (procedural c'))).
Proof.
  intros (_ & _ & _ & _ & _ & Hc) Hnd. by rewrite (cache_content_keys _ _ _ Hc).
Qed.

(** A group large enough to be analysed in step 3. *)
Definition qualifies (group : string * list Episode) : bool :=
  bool_decide (min_skill_occurrences <= length group.2)%nat.

Lemma consolidate_pattern_dry now pattern_key episodes c :
  episodes <> [] ->
  NoDup (od_keys (Procedural._skills_cache (procedural c))) ->
  exists c' r,
    _consolidate_pattern_to_skill now pattern_key episodes true c = (c', Ok r) /\
    dry_frame now c c' /\
    (created r = true \/ (created r = false /\ updated r = true)).
Proof.
  intros Hne Hnd. destruct episodes as [|episode rest]; [done|].
  unfold _consolidate_pattern_to_skill. cbv zeta. unfold bind, on_procedural, lift.
  destruct (get_skill_by_name_kept now ("skill_" ++ pattern_key) (procedural c) Hnd)
    as (mem' & found & -> & Hkept & _).
  destruct found as [skill|]; do 2 eexists; (split; [reflexivity|]); split; try done; auto.
Qed.

Lemma consolidate_group_dry now counts group c :
  NoDup (od_keys (Procedural._skills_cache (procedural c))) ->
  exists c' counts',
    consolidate_group now true counts group c = (c', Ok counts') /\
    dry_frame now c c' /\
    (counts'.1 + counts'.2 = counts.1 + counts.2 + (if qualifies group then 1 else 0))%nat.
Proof.
  intros Hnd. destruct group as [pattern_key episodes]. unfold consolidate_group, qualifies.
  simpl. destruct (decide (length episodes < min_skill_occurrences)%nat) as [Hlt|Hge].
  - rewrite bool_decide_eq_false_2 by lia. exists c, counts. split_and!; [done | | lia].
    by split_and!.
  - rewrite bool_decide_eq_true_2 by lia.
    destruct (consolidate_pattern_dry now pattern_key episodes c) as (c' & r & Hrun & Hf & Hr);
      [|done|].
    { intros ->. unfold min_skill_occurrences in Hge. simpl in Hge. lia. }
    unfold bind. rewrite Hrun.
    exists c'. destruct Hr as [Hc|[Hc Hu]]; rewrite ?Hc, ?Hu;
      destruct (skill_id r); simpl; eexists; (split; [reflexivity|]); split; try done; simpl; lia.
Qed.

(** [min_episodes or MEMORY_CONFIG["consolidation_threshold"]]. *)
Definition effective_threshold (min_episodes : option Z) : Z :=
  match min_episodes with
  | Some n => if decide (n = 0%Z) then consolidation_threshold else n
  | None => consolidation_threshold
  end.

(** The name of the log file written at the instant [now]. *)
Definition log_name (now : Z) : string := "consolidation_" ++ strftime_stamp now ++ ".json".

Lemma extract_knowledge_dry_loop now episodes c :
  for_each (fun total episode =>
              triples_created <- _extract_knowledge_from_episode now episode true ;;
              ret (total + triples_created)%nat)
           0%nat episodes c = (c, Ok 0%nat).
Proof.
  induction episodes as [|episode rest IH]; [done|].
  rewrite for_each_cons. exact IH.
Qed.

(** C9 (dry run), as the code has it.  A dry run over a fetch that returns
    enough successful episodes ends normally.  It counts the episodes and,
    for every group of at least [min_skill_occurrences] episodes, one skill
    as created or updated; it extracts no triple and archives nothing.  The
    knowledge graph is untouched; the episodic and procedural stores keep
    their index, their file and the content of every payload (no status
    changes, no key is added); and the result is written to the log
    directory under the name of the current second. *)
Theorem dry_run_changes_only_the_log now min_episodes min_valence c mem1 successful_episodes :
  NoDup (od_keys (Procedural._skills_cache (procedural c))) ->
  Episodic.get_successful_episodes now min_valence 100 (episodic c)
    = (mem1, Ok successful_episodes) ->
  (effective_threshold min_episodes <= Z.of_nat (length successful_episodes))%Z ->
  exists c' result,
    consolidate now min_episodes min_valence true c = (c', Ok result) /\
    episodes_processed result = length successful_episodes /\
    (skills_created result + skills_updated result)%nat
      = length (List.filter qualifies (_group_by_pattern successful_episodes)) /\
    triples_extracted result = 0%nat /\
    episodes_archived result = 0%nat /\
    knowledge c' = knowledge c /\
    episodic_kept now (episodic c) (episodic c') /\
    procedural_kept now (procedural c) (procedural c') /\
    logs_dir c' = od_set (log_name now) result (logs_dir c).
Proof.
  intros Hnd Hfetch Hmin.
  pose proof (get_successful_episodes_kept now min_valence 100 (episodic c)) as Hek.
  rewrite Hfetch in Hek. simpl in Hek.
  unfold consolidate. fold (effective_threshold min_episodes). cbv zeta.
  unfold bind at 1. unfold on_episodic, lift. rewrite Hfetch.
  set (c1 := mkConsolidator mem1 (procedural c) (knowledge c) (logs_dir c)).
  rewrite decide_False by lia.
  destruct (for_each_total
              (fun visited s counts =>
                 dry_frame now c1 s /\
                 (counts.1 + counts.2 = length (List.filter qualifies visited))%nat)
              (consolidate_group now true) (_group_by_pattern successful_episodes))
    with (visited := @nil (string * list Episode)) (acc := (0%nat, 0%nat)) (s := c1)
    as (c2 & counts & Hloop & Hframe & Hcounts).
  - intros visited group s counts [Hf Hc] _.
    destruct (consolidate_group_dry now counts group s) as (s' & counts' & Hrun & Hf' & Hc').
    { eapply dry_frame_keys; [exact Hf | exact Hnd]. }
    exists s', counts'. split; [exact Hrun|]. split; [by eapply dry_frame_trans|].
    rewrite List.filter_app, length_app. simpl. rewrite Hc', Hc.
    destruct (qualifies group); simpl; lia.
  - split; [|done]. by split_and!.
  - simpl in Hcounts. destruct Hframe as (He & Hk & Hl & Hp).
    rewrite (bind_ok _ _ _ _ _ Hloop).
    rewrite (bind_ok _ _ _ _ _ (extract_knowledge_dry_loop now successful_episodes c2)).
    unfold bind, ret, _log_consolidation.
    do 2 eexists. split; [reflexivity|]. simpl.
    split_and!; try done.
    + by rewrite He.
    + by rewrite Hl.
Qed.

(** X1 (abort path, what is kept).  When the fetch returns fewer successful
    episodes than the threshold, [consolidate] returns the result with five
    zero counters and the message, whatever [dry_run]; the procedural store,
    the knowledge graph and the log directory are untouched, and the
    episodic store keeps its index, its file and the content of every
    payload. *)
Theorem consolidate_abort_keeps_content
    now min_episodes min_valence dry_run c mem1 successful_episodes :
  Episodic.get_successful_episodes now min_valence 100 (episodic c)
    = (mem1, Ok successful_episodes) ->
  (Z.of_nat (length successful_episodes) < effective_threshold min_episodes)%Z ->
  exists c',
    consolidate now min_episodes min_valence dry_run c
      = (c', Ok (mkResult 0 0 0 0 0 (isoformat now)
                          (Some (too_few_message (length successful_episodes)
                                                 (effective_threshold min_episodes)))
                          None)) /\
    procedural c' = procedural c /\
    knowledge c' = knowledge c /\
    logs_dir c' = logs_dir c /\
    episodic_kept now (episodic c) (episodic c').
Proof.
  intros Hfetch Hfew.
  pose proof (get_successful_episodes_kept now min_valence 100 (episodic c)) as Hek.
  rewrite Hfetch in Hek. simpl in Hek.
  unfold consolidate. fold (effective_threshold min_episodes). cbv zeta.
  unfold bind at 1. unfold on_episodic, lift. rewrite Hfetch.
  rewrite decide_True by lia.
  eexists. split; [reflexivity|]. by split_and!.
Qed.

End WithEnv.

#[local] Existing Instances Examples.toy_lib Examples.toy_index.

(** A consolidator over three recorded episodes with the same action. *)
Definition three_episode_consolidator : MemoryConsolidator :=
  let record (now : Z) (context : string) (mem : Episodic.EpisodicMemory) :=
    (Episodic.record_interaction now context "git status" "ok" "" [] 0.5 0.8 "user" mem).1 in
  mkConsolidator
    (record 30%Z "third"
       (record 20%Z "second" (record 10%Z "first" (Episodic.mkEpisodic [] [] None))))
    (Procedural.mkProcedural [] [] None)
    Examples.empty_knowledge
    [].

(** The fetch of step 1 on the three episodes. *)
Definition three_fetched : Episodic.EpisodicMemory * result (list Episode) :=
  Episodic.get_successful_episodes 200 0.3 100 (episodic three_episode_consolidator).

Lemma dry_run_changes_only_the_log_witness :
  exists c' result,
    consolidate 200 (Some 3%Z) 0.3 true three_episode_consolidator = (c', Ok result) /\
    episodes_processed result = 3%nat /\
    (skills_created result + skills_updated result)%nat = 1%nat /\
    triples_extracted result = 0%nat /\
    episodes_archived result = 0%nat /\
    knowledge c' = knowledge three_episode_consolidator /\
    logs_dir c' = [("consolidation_200.json", result)].
Proof.
  destruct (dry_run_changes_only_the_log 200 (Some 3%Z) 0.3 three_episode_consolidator
              three_fetched.1
              (match three_fetched.2 with Ok l => l | Raise _ => [] end))
    as (c' & result & Hrun & Hn & Hs & Ht & Ha & Hk & _ & _ & Hl).
  - simpl. constructor.
  - vm_compute. reflexivity.
  - vm_compute. discriminate.
  - exists c', result. split_and!; [exact Hrun | exact Hn | exact Hs | exact Ht | exact Ha
                                   | exact Hk | exact Hl].
Defined.

Lemma consolidate_abort_keeps_content_witness :
  exists c',
    consolidate 200 None 0.3 false three_episode_consolidator
      = (c', Ok (mkResult 0 0 0 0 0 "200" (Some (too_few_message 3 10)) None)) /\
    procedural c' = procedural three_episode_consolidator /\
    knowledge c' = knowledge three_episode_consolidator /\
    logs_dir c' = [].
Proof.
  destruct (consolidate_abort_keeps_content 200 None 0.3 false three_episode_consolidator
              three_fetched.1
              (match three_fetched.2 with Ok l => l | Raise _ => [] end))
    as (c' & Hrun & Hp & Hk & Hl & _).
  - vm_compute. reflexivity.
  - vm_compute. reflexivity.
  - exists c'. split_and!; [exact Hrun | exact Hp | exact Hk | exact Hl].
Defined.

(** A dry run over the three episodes finds one pattern to turn into a
    skill, and writes its result to the log directory, which was empty. *)
Lemma dry_run_writes_a_log_entry :
  let run := consolidate 200 (Some 3%Z) 0.3 true three_episode_consolidator in
  let result := mkResult 3 1 0 0 0 "200" None (Some 1%nat) in
  logs_dir three_episode_consolidator = [] /\
  run.2 = Ok result /\
  logs_dir run.1 = [("consolidation_200.json", result)].
Proof. vm_compute. done. Qed.

(** C5 (consolidation threshold), at a store of three recorded episodes and
    the default threshold of ten.  [consolidate] returns the result with
    five zero counters and the message, and leaves the procedural store, the
    knowledge graph, the log directory, the episodic index and the episodic
    file as they were; but in the episodic cache the metadata of every
    payload, a dictionary before the call, is an object after it: the cache,
    which [_save_metadata_cache] could write before the call, makes it raise
    [TypeError] after the call. *)
Theorem abort_replaces_cached_metadata :
  let c := three_episode_consolidator in
  let run := consolidate 200 None 0.3 false c in
  run.2 = Ok (mkResult 0 0 0 0 0 "200" (Some (too_few_message 3 10)) None) /\
  procedural run.1 = procedural c /\
  knowledge run.1 = knowledge c /\
  logs_dir run.1 = logs_dir c /\
  Episodic.em_collection (episodic run.1) = Episodic.em_collection (episodic c) /\
  Episodic.metadata_file (episodic run.1) = Episodic.metadata_file (episodic c) /\
  map (fun p => Episodic.episode_serializable p.2) (Episodic._metadata_cache (episodic c))
    = [true; true; true] /\
  map (fun p => Episodic.episode_serializable p.2) (Episodic._metadata_cache (episodic run.1))
    = [false; false; false] /\
  (Episodic._save_metadata_cache (episodic c)).2 = Ok tt /\
  (Episodic._save_metadata_cache (episodic run.1)).2 = Raise TypeError.
Proof. vm_compute. done. Qed.

End ConsolidatorFacts.

(* ===================================================================== *)
(** * More facts on the runtime: sorting by any key *)
(* ===================================================================== *)

Section SortDescBy.
Context {A : Type} (gt : A -> A -> bool).
Hypothesis gt_asym : forall x y, gt x y = true -> gt y x = false.
Hypothesis gt_ntrans : forall x y z, gt x y = false -> gt y z = false -> gt x z = false.

(** [y] does not come strictly before [x] in the descending order. *)
Definition not_beaten (x y : A) : Prop := gt y x = false.

Lemma insert_desc_sorted x l :
  StronglySorted not_beaten l -> StronglySorted not_beaten (insert_desc gt x l).
Proof.
  induction 1 as [|y l Hs IH Hall]; simpl.
  - repeat constructor.
  - destruct (gt y x) eqn:Hyx.
    + constructor; [exact IH|].
      rewrite Forall_forall. intros z Hz.
      rewrite insert_desc_perm in Hz. apply elem_of_cons in Hz as [->|Hz].
      * by apply gt_asym.
      * rewrite Forall_forall in Hall. by apply Hall.
    + constructor; [by constructor|].
      constructor; [exact Hyx|].
      rewrite Forall_forall in Hall |- *. intros z Hz.
      specialize (Hall z Hz). unfold not_beaten in *. by eapply gt_ntrans.
Qed.

Lemma sort_desc_sorted l : StronglySorted not_beaten (sort_desc gt l).
Proof.
  induction l as [|x l IH]; simpl; [constructor|].
  by apply insert_desc_sorted.
Qed.

Lemma sorted_firstn {R : A -> A -> Prop} n l :
  StronglySorted R l -> StronglySorted R (firstn n l).
Proof.
  intros Hs. revert n. induction Hs as [|x l Hs IH Hall]; intros [|n]; simpl;
    try constructor; [apply IH|].
  rewrite Forall_forall in Hall |- *. intros z Hz. apply Hall.
  rewrite <- (firstn_skipn n l). apply elem_of_app. by left.
Qed.

End SortDescBy.

Section SortAscBy.
Context {A : Type} (lt : A -> A -> bool).
Hypothesis lt_asym : forall x y, lt x y = true -> lt y x = false.
Hypothesis lt_ntrans : forall x y z, lt x y = false -> lt y z = false -> lt x z = false.

(** [y] is not strictly smaller than [x]. *)
Definition not_smaller (x y : A) : Prop := lt y x = false.

Lemma insert_asc_perm x l : TemporalQueries.insert_asc lt x l ≡ₚ x :: l.
Proof.
  induction l as [|y l IH]; simpl; [done|].
  destruct (lt x y); [done|].
  rewrite IH. apply Permutation_swap.
Qed.

Lemma insert_asc_sorted x l :
  StronglySorted not_smaller l ->
  StronglySorted not_smaller (TemporalQueries.insert_asc lt x l).
Proof.
  induction 1 as [|y l Hs IH Hall]; simpl.
  - repeat constructor.
  - destruct (lt x y) eqn:Hxy.
    + constructor; [by constructor|].
      constructor; [by apply lt_asym|].
      rewrite Forall_forall in Hall |- *. intros z Hz.
      specialize (Hall z Hz). unfold not_smaller in *.
      eapply lt_ntrans; [exact Hall | by apply lt_asym].
    + constructor; [exact IH|].
      rewrite Forall_forall. intros z Hz.
      rewrite insert_asc_perm in Hz. apply elem_of_cons in Hz as [->|Hz].
      * exact Hxy.
      * rewrite Forall_forall in Hall. by apply Hall.
Qed.

Lemma fold_insert_asc_perm l : forall sorted,
  fold_left (fun s x => TemporalQueries.insert_asc lt x s) l sorted ≡ₚ (sorted ++ l)%list.
Proof.
  induction l as [|x l IH]; intros sorted; simpl.
  - by rewrite app_nil_r.
  - rewrite IH, insert_asc_perm. simpl. apply Permutation_middle.
Qed.

Lemma sort_asc_perm l : TemporalQueries.sort_asc lt l ≡ₚ l.
Proof. apply (fold_insert_asc_perm l []). Qed.

Lemma fold_insert_asc_sorted l : forall sorted,
  StronglySorted not_smaller sorted ->
  StronglySorted not_smaller (fold_left (fun s x => TemporalQueries.insert_asc lt x s) l sorted).
Proof.
  induction l as [|x l IH]; intros sorted Hs; simpl; [done|].
  by apply IH, insert_asc_sorted.
Qed.

Lemma sort_asc_sorted l : StronglySorted not_smaller (TemporalQueries.sort_asc lt l).
Proof. apply fold_insert_asc_sorted. constructor. Qed.

End SortAscBy.

(** The two comparisons of rational keys. *)
Lemma Qgtb_spec (x y : Q) : Qgtb x y = true <-> (y < x)%Q.
Proof.
  unfold Qgtb. destruct (Qlt_le_dec y x) as [Hlt|Hle]; split; try done.
  intros Hlt. exfalso. by apply (Qlt_not_le y x).
Qed.

Lemma Qgtb_false (x y : Q) : Qgtb x y = false <-> (x <= y)%Q.
Proof.
  unfold Qgtb. destruct (Qlt_le_dec y x) as [Hlt|Hle]; split; try done.
  intros Hle. exfalso. by apply (Qlt_not_le y x).
Qed.

Lemma Qltb_spec (x y : Q) : Qltb x y = true <-> (x < y)%Q.
Proof.
  unfold Qltb. destruct (Qlt_le_dec x y) as [Hlt|Hle]; split; try done.
  intros Hlt. exfalso. by apply (Qlt_not_le x y).
Qed.

Lemma Qltb_false (x y : Q) : Qltb x y = false <-> (y <= x)%Q.
Proof.
  unfold Qltb. destruct (Qlt_le_dec x y) as [Hlt|Hle]; split; try done.
  intros Hle. exfalso. by apply (Qlt_not_le x y).
Qed.

Lemma sorted_weaken {A} (R R' : A -> A -> Prop) (l : list A) :
  (forall x y, R x y -> R' x y) -> StronglySorted R l -> StronglySorted R' l.
Proof.
  intros Himp. induction 1 as [|x l Hs IH Hall]; constructor; [exact IH|].
  eapply Forall_impl; [exact Hall|]. intros y. apply Himp.
Qed.

(** A list sorted by [sort_desc] on a rational key is in descending order
    of that key. *)
Lemma sort_desc_by_Q {A} (key : A -> Q) (l : list A) :
  StronglySorted (fun x y => (key y <= key x)%Q)
                 (sort_desc (fun x y => Qgtb (key x) (key y)) l).
Proof.
  eapply sorted_weaken; [|apply sort_desc_sorted].
  - intros x y Hxy. unfold not_beaten in Hxy. by apply Qgtb_false in Hxy.
  - intros x y Hxy. apply Qgtb_spec in Hxy. apply Qgtb_false. by apply Qlt_le_weak.
  - intros x y z Hxy Hyz. apply Qgtb_false in Hxy, Hyz. apply Qgtb_false.
    by eapply Qle_trans.
Qed.

(** What [sorted(l)[:n]] keeps of a sorted list: an element is kept, or
    the result is full and every kept element comes before it. *)
Lemma sorted_app {A} (R : A -> A -> Prop) (l1 l2 : list A) :
  StronglySorted R (l1 ++ l2) -> forall x y, x ∈ l1 -> y ∈ l2 -> R x y.
Proof.
  induction l1 as [|a l1 IH]; simpl; intros Hs x y Hx Hy.
  - by apply elem_of_nil in Hx.
  - apply StronglySorted_inv in Hs as [Hs Hall].
    apply elem_of_cons in Hx as [->|Hx]; [|by apply IH].
    rewrite Forall_forall in Hall. apply Hall, elem_of_app. by right.
Qed.

Lemma sorted_firstn_complete {A} (R : A -> A -> Prop) (n : nat) (x : A) (l : list A) :
  StronglySorted R l -> x ∈ l ->
  x ∈ firstn n l \/ (length (firstn n l) = n /\ forall y, y ∈ firstn n l -> R y x).
Proof.
  intros Hs Hx. rewrite <- (firstn_skipn n l) in Hx, Hs.
  apply elem_of_app in Hx as [Hx|Hx]; [by left | right]. split.
  - apply firstn_length_le.
    destruct (decide (n <= length l)) as [Hle|Hgt]; [done|].
    rewrite skipn_all2 in Hx by lia. by apply elem_of_nil in Hx.
  - intros y Hy. by eapply sorted_app.
Qed.

(** In a dictionary (no key twice) every entry is found under its key. *)
Lemma od_elem_get {V} (k : string) (v : V) (d : odict V) :
  NoDup (od_keys d) -> (k, v) ∈ d -> od_get k d = Some v.
Proof.
  unfold od_keys. induction d as [|[k' v'] d IH]; simpl; intros Hnd Hin.
  - by apply elem_of_nil in Hin.
  - apply NoDup_cons in Hnd as [Hk Hnd].
    apply elem_of_cons in Hin as [[= -> ->]|Hin]; [by rewrite decide_True|].
    rewrite decide_False; [by apply IH|].
    intros ->. apply Hk. apply list_elem_of_fmap. by exists (k', v).
Qed.

(* ===================================================================== *)
(** * More facts on the temporal graph: log, indices, queries *)
(* ===================================================================== *)

Module TemporalStoreFacts.
Import Temporal TemporalQueries TemporalFacts.

(** ** The log and the store *)

Definition with_file (g : TemporalGraph) (file : list log_line) : TemporalGraph :=
  mkGraph (triples g) (subject_index g) (predicate_index g) (object_index g) file.

Lemma load_line_with_file g line file :
  load_line (with_file g file) line = with_file (load_line g line) file.
Proof. by destruct line. Qed.

Lemma fold_load_with_file lines : forall g file,
  fold_left load_line lines (with_file g file) = with_file (fold_left load_line lines g) file.
Proof.
  induction lines as [|l lines IH]; intros g file; simpl; [done|].
  by rewrite load_line_with_file, IH.
Qed.

Lemma load_file file : triples_file (_load file) = file.
Proof.
  unfold _load. change (init_graph file) with (with_file (init_graph []) file).
  by rewrite fold_load_with_file.
Qed.

Lemma with_file_id g : with_file g (triples_file g) = g.
Proof. by destruct g. Qed.

Lemma load_app file line :
  _load (file ++ [line])%list = with_file (load_line (_load file) line) (file ++ [line])%list.
Proof.
  unfold _load. rewrite fold_left_app. simpl.
  change (init_graph (file ++ [line])%list)
    with (with_file (init_graph file) (file ++ [line])%list).
  by rewrite fold_load_with_file, load_line_with_file.
Qed.

Lemma load_idempotent file : _load (triples_file (_load file)) = _load file.
Proof. by rewrite load_file. Qed.

(** X2 (an added triple survives a restart).  On a store that agrees with
    its log, [add] returns the fresh identifier and leaves a store that
    still agrees with its log: a graph rebuilt by [_load] from the log has
    the same triples and the same three indices, the new triple
    included. *)
Theorem add_survives_reload g new_id now s p o c vf vt src md :
  _load (triples_file g) = g ->
  exists g',
    add g new_id now s p o c vf vt src md = (g', new_id) /\
    _load (triples_file g') = g' /\
    triples (_load (triples_file g')) !! new_id
      = Some (mkTriple new_id s p o c (default now vf) vt now src 1 None (default [] md)).
Proof.
  intros Hsync. eexists. split; [reflexivity|].
  assert (Hload : forall t,
            _load (triples_file (_save_triple (_index_triple g t) t))
            = _save_triple (_index_triple g t) t).
  { intros t. simpl. rewrite load_app, Hsync. simpl. by rewrite from_dict_to_dict. }
  split; [apply Hload|].
  rewrite Hload. simpl. apply lookup_insert_eq.
Qed.

Lemma add_survives_reload_witness :
  exists g',
    add (_load [LBlank]) "t1" 10 "Aura" "version" "3.1" 1 None None "config" None = (g', "t1") /\
    _load (triples_file g') = g' /\
    (tt_object <$> triples (_load (triples_file g')) !! "t1") = Some "3.1".
Proof.
  destruct (add_survives_reload (_load [LBlank]) "t1" 10 "Aura" "version" "3.1" 1 None None
              "config" None (load_idempotent [LBlank])) as (g' & Hadd & Hsync & Hget).
  exists g'. split; [exact Hadd|]. split; [exact Hsync|]. by rewrite Hget.
Defined.

(** ** Consistency of the indices *)

(** An index lists, under every key, the identifiers of the stored triples
    with that key. *)
Definition index_exact (index : gmap string (list string))
    (key_of : TemporalTriple -> string) (m : gmap string TemporalTriple) : Prop :=
  forall k tid, tid ∈ default [] (index !! k) <->
                exists t, m !! tid = Some t /\ key_of t = k.

Definition well_indexed (g : TemporalGraph) : Prop :=
  (forall tid t, triples g !! tid = Some t -> tt_id t = tid) /\
  index_exact (subject_index g) tt_subject (triples g) /\
  index_exact (predicate_index g) tt_predicate (triples g) /\
  index_exact (object_index g) tt_object (triples g).

Lemma index_append_lookup index key tid k :
  default [] (index_append index key tid !! k) =
  if decide (key = k) then (default [] (index !! k) ++ [tid])%list
  else default [] (index !! k).
Proof.
  unfold index_append. destruct (decide (key = k)) as [->|Hne].
  - by rewrite lookup_insert_eq.
  - by rewrite lookup_insert_ne.
Qed.

(** ** What a restart rebuilds *)

(** The records of a log, in the order of its lines. *)
Definition records (file : list log_line) : list triple_json :=
  omap (fun line => match line with LJson data => Some data | _ => None end) file.

(** The records filed under an identifier, oldest first. *)
Definition records_of (id : string) (rs : list triple_json) : list triple_json :=
  List.filter (fun data => bool_decide (j_id data = id)) rs.

(** The identifiers of the records with a given key, in the order of the
    log, an identifier once for each of its records. *)
Definition ids_with (key_of : triple_json -> string) (k : string) (rs : list triple_json)
  : list string :=
  map j_id (List.filter (fun data => bool_decide (key_of data = k)) rs).

Lemma ids_with_cons key_of k data rs :
  ids_with key_of k (data :: rs)
  = ((if decide (key_of data = k) then [j_id data] else []) ++ ids_with key_of k rs)%list.
Proof.
  unfold ids_with. simpl. destruct (decide (key_of data = k)) as [Hk|Hk].
  - by rewrite bool_decide_eq_true_2.
  - by rewrite bool_decide_eq_false_2.
Qed.

Lemma fold_load_spec lines : forall g,
  let g' := fold_left load_line lines g in
  (forall id, triples g' !! id
              = match last (records_of id (records lines)) with
                | Some data => Some (from_dict data)
                | None => triples g !! id
                end) /\
  (forall k, default [] (subject_index g' !! k)
             = (default [] (subject_index g !! k) ++ ids_with j_subject k (records lines))%list) /\
  (forall k, default [] (predicate_index g' !! k)
             = (default [] (predicate_index g !! k)
                ++ ids_with j_predicate k (records lines))%list) /\
  (forall k, default [] (object_index g' !! k)
             = (default [] (object_index g !! k) ++ ids_with j_object k (records lines))%list).
Proof.
  induction lines as [|[data| |] lines IH]; intros g; cbn [fold_left load_line].
  - cbv zeta. unfold records, ids_with. simpl. split_and!; intros; by rewrite ?app_nil_r.
  - destruct (IH (_index_triple g (from_dict data))) as (Ht & Hs & Hp & Ho).
    cbv zeta in *. change (records (LJson data :: lines)) with (data :: records lines).
    split_and!.
    + intros id. rewrite Ht. unfold records_of. cbn [List.filter].
      destruct (decide (j_id data = id)) as [Hid|Hid].
      * rewrite bool_decide_eq_true_2 by done. rewrite last_cons.
        destruct (last _) as [data'|]; [done|].
        cbn [triples _index_triple from_dict tt_id]. subst id. by rewrite lookup_insert_eq.
      * rewrite bool_decide_eq_false_2 by done.
        destruct (last _) as [data'|]; [done|].
        cbn [triples _index_triple from_dict tt_id]. by rewrite lookup_insert_ne.
    + intros k. rewrite Hs, ids_with_cons. cbn [subject_index _index_triple].
      rewrite index_append_lookup. cbn [from_dict tt_subject tt_id].
      destruct (decide (j_subject data = k)); [by rewrite <- app_assoc | done].
    + intros k. rewrite Hp, ids_with_cons. cbn [predicate_index _index_triple].
      rewrite index_append_lookup. cbn [from_dict tt_predicate tt_id].
      destruct (decide (j_predicate data = k)); [by rewrite <- app_assoc | done].
    + intros k. rewrite Ho, ids_with_cons. cbn [object_index _index_triple].
      rewrite index_append_lookup. cbn [from_dict tt_object tt_id].
      destruct (decide (j_object data = k)); [by rewrite <- app_assoc | done].
  - apply IH.
  - apply IH.
Qed.

(** X3 (what a restart rebuilds).  The graph that [_load] builds from a
    log holds, under every identifier, the last record logged for it, and
    in each index, under every key, the identifiers of the records with
    that key in the order of the log, an identifier once for each of its
    records.  So a record logged twice is listed twice, and an identifier
    stays listed under the key of an earlier record when a later record of
    the same identifier has another key. *)
Theorem reload_keeps_last_record file :
  (forall id, triples (_load file) !! id
              = from_dict <$> last (records_of id (records file))) /\
  (forall k, default [] (subject_index (_load file) !! k)
             = ids_with j_subject k (records file)) /\
  (forall k, default [] (predicate_index (_load file) !! k)
             = ids_with j_predicate k (records file)) /\
  (forall k, default [] (object_index (_load file) !! k)
             = ids_with j_object k (records file)) /\
  triples_file (_load file) = file.
Proof.
  destruct (fold_load_spec file (init_graph file)) as (Ht & Hs & Hp & Ho). cbv zeta in *.
  fold (_load file) in Ht, Hs, Hp, Ho. split_and!.
  - intros id. rewrite Ht. destruct (last _); [done|]. simpl. by rewrite lookup_empty.
  - intros k. rewrite Hs. simpl. by rewrite lookup_empty.
  - intros k. rewrite Hp. simpl. by rewrite lookup_empty.
  - intros k. rewrite Ho. simpl. by rewrite lookup_empty.
  - apply load_file.
Qed.

Lemma index_exact_insert index key_of m t :
  m !! tt_id t = None ->
  index_exact index key_of m ->
  index_exact (index_append index (key_of t) (tt_id t)) key_of (<[tt_id t := t]> m).
Proof.
  intros Hfresh Hex k tid. rewrite index_append_lookup.
  destruct (decide (tid = tt_id t)) as [->|Hne].
  - rewrite lookup_insert_eq. destruct (decide (key_of t = k)) as [Hk|Hk].
    + split; [intros _; by exists t|]. intros _. apply elem_of_app. right.
      apply list_elem_of_here.
    + split; [|by intros (t' & [= <-] & ?)].
      intros Hin. apply Hex in Hin as (t' & Hget & _). congruence.
  - rewrite lookup_insert_ne by done. destruct (decide (key_of t = k)) as [Hk|Hk].
    + rewrite elem_of_app, list_elem_of_singleton. split.
      * intros [Hin|?]; [by apply Hex | done].
      * intros Hin. left. by apply Hex.
    + apply Hex.
Qed.

Lemma index_exact_replace index key_of m tid old new :
  m !! tid = Some old -> key_of new = key_of old ->
  index_exact index key_of m -> index_exact index key_of (<[tid := new]> m).
Proof.
  intros Hold Hkey Hex k tid'. etrans; [apply Hex|].
  destruct (decide (tid' = tid)) as [->|Hne].
  - rewrite lookup_insert_eq, Hold. split; intros (t' & [= <-] & Hk); eexists; split; eauto.
    + by rewrite Hkey.
    + by rewrite <- Hkey.
  - by rewrite lookup_insert_ne.
Qed.

Lemma well_indexed_init file : well_indexed (init_graph file).
Proof.
  split_and!; simpl.
  - intros tid t Hget. by rewrite lookup_empty in Hget.
  - intros k tid. rewrite !lookup_empty. simpl. split; [by intros ?%elem_of_nil|].
    by intros (t & ? & _).
  - intros k tid. rewrite !lookup_empty. simpl. split; [by intros ?%elem_of_nil|].
    by intros (t & ? & _).
  - intros k tid. rewrite !lookup_empty. simpl. split; [by intros ?%elem_of_nil|].
    by intros (t & ? & _).
Qed.

Lemma well_indexed_index_triple g t :
  triples g !! tt_id t = None -> well_indexed g -> well_indexed (_index_triple g t).
Proof.
  intros Hfresh (Hid & Hs & Hp & Ho). split_and!; simpl.
  - intros tid t'. rewrite lookup_insert. case_decide; [by intros [= <-]|apply Hid].
  - by apply index_exact_insert.
  - by apply index_exact_insert.
  - by apply index_exact_insert.
Qed.

Lemma well_indexed_close g tid old v :
  triples g !! tid = Some old -> well_indexed g ->
  well_indexed (mkGraph (<[tid := set_valid_to old v]> (triples g)) (subject_index g)
                        (predicate_index g) (object_index g) (triples_file g)).
Proof.
  intros Hold (Hid & Hs & Hp & Ho). split_and!; simpl.
  - intros tid' t'. rewrite lookup_insert. case_decide; [|apply Hid].
    intros [= <-]. simpl. subst. by apply Hid.
  - by eapply index_exact_replace.
  - by eapply index_exact_replace.
  - by eapply index_exact_replace.
Qed.

Lemma well_indexed_add g new_id now s p o c vf vt src md :
  triples g !! new_id = None -> well_indexed g ->
  well_indexed (add g new_id now s p o c vf vt src md).1.
Proof.
  intros Hfresh Hw.
  pose proof (well_indexed_index_triple g
                (mkTriple new_id s p o c (default now vf) vt now src 1 None (default [] md))
                Hfresh Hw) as (? & ? & ? & ?).
  by split_and!.
Qed.

Lemma well_indexed_update g new_id now tid o c vt :
  triples g !! new_id = None -> well_indexed g ->
  well_indexed (update g new_id now tid o c vt).1.
Proof.
  intros Hfresh Hw. unfold update.
  destruct (triples g !! tid) as [old|] eqn:Hold; [|done].
  pose proof (well_indexed_close g tid old (Some now) Hold Hw) as Hw1.
  match goal with |- well_indexed (_save_triple (_index_triple ?g1 ?t) _, _).1 =>
    pose proof (well_indexed_index_triple g1 t) as Hw2
  end.
  destruct Hw2 as (? & ? & ? & ?); [|exact Hw1|by split_and!].
  simpl. rewrite lookup_insert_ne; [done|]. intros ->. congruence.
Qed.

Lemma well_indexed_invalidate g now tid :
  well_indexed g -> well_indexed (invalidate g now tid).1.
Proof.
  intros Hw. unfold invalidate.
  destruct (triples g !! tid) as [old|] eqn:Hold; [|done].
  by apply well_indexed_close.
Qed.

(** ** Point-in-time queries *)

(** A filter argument that is given (not [None], not empty) names the value
    of the field. *)
Definition matches (key : option string) (value : string) : Prop :=
  truthy key = true -> key = Some value.

Lemma filter_index_spec index key_of m key candidates tid t :
  index_exact index key_of m -> m !! tid = Some t ->
  (tid ∈ filter_index index key candidates <-> tid ∈ candidates /\ matches key (key_of t)).
Proof.
  intros Hex Hget. unfold matches. destruct key as [k|]; simpl; [|naive_solver].
  destruct (decide (k = "")) as [->|Hk]; simpl; [naive_solver|].
  specialize (Hex k tid).
  destruct (index !! k) as [ids|] eqn:Hidx; simpl in Hex.
  - rewrite elem_of_intersection, elem_of_list_to_set. split.
    + intros [Hc Hin]. split; [done|]. intros _.
      apply Hex in Hin as (t' & Hget' & <-). congruence.
    + intros [Hc Hm]. split; [done|]. apply Hex. exists t. split; [done|].
      specialize (Hm eq_refl). congruence.
  - split; [set_solver|]. intros [_ Hm]. specialize (Hm eq_refl).
    assert (tid ∈ @nil string) as Hin; [|by apply elem_of_nil in Hin].
    apply Hex. exists t. split; [done | congruence].
Qed.

(** X4 (point-in-time query).  On a store with consistent indices,
    [query_at_time] returns exactly the stored triples that are valid at the
    instant and whose subject, predicate and object equal the filters that
    are given; a filter that is [None] or the empty string is ignored. *)
Theorem query_at_time_exact g point_in_time subject predicate obj t :
  well_indexed g ->
  t ∈ query_at_time g point_in_time subject predicate obj <->
  triples g !! tt_id t = Some t /\
  is_valid_at t point_in_time = true /\
  matches subject (tt_subject t) /\
  matches predicate (tt_predicate t) /\
  matches obj (tt_object t).
Proof.
  intros (Hid & Hs & Hp & Ho). unfold query_at_time. rewrite list_elem_of_omap.
  split.
  - intros (tid & Hin & Hf).
    destruct (triples g !! tid) as [t'|] eqn:Hget; [|done].
    destruct (is_valid_at t' point_in_time) eqn:Hv; [|done].
    injection Hf as ->. rewrite elem_of_elements in Hin.
    apply (filter_index_spec _ tt_object _ _ _ _ t Ho Hget) in Hin as [Hin Hmo].
    apply (filter_index_spec _ tt_predicate _ _ _ _ t Hp Hget) in Hin as [Hin Hmp].
    apply (filter_index_spec _ tt_subject _ _ _ _ t Hs Hget) in Hin as [Hin Hms].
    rewrite (Hid _ _ Hget). by split_and!.
  - intros (Hget & Hv & Hms & Hmp & Hmo). exists (tt_id t). rewrite Hget, Hv.
    split; [|done]. rewrite elem_of_elements.
    apply (filter_index_spec _ tt_object _ _ _ _ t Ho Hget). split; [|done].
    apply (filter_index_spec _ tt_predicate _ _ _ _ t Hp Hget). split; [|done].
    apply (filter_index_spec _ tt_subject _ _ _ _ t Hs Hget). split; [|done].
    apply elem_of_dom. by eexists.
Qed.

Lemma demo_updated_well_indexed : well_indexed demo_updated.
Proof.
  apply well_indexed_update; [reflexivity|].
  apply well_indexed_add; [reflexivity|]. apply well_indexed_init.
Qed.

Lemma query_at_time_exact_witness :
  mkTriple "t2" "Aura" "version" "3.2" 1 20 None 20 "config" 2 (Some "t1") []
    ∈ query_at_time demo_updated 25 (Some "Aura") (Some "") None.
Proof.
  apply (query_at_time_exact demo_updated 25 (Some "Aura") (Some "") None
           (mkTriple "t2" "Aura" "version" "3.2" 1 20 None 20 "config" 2 (Some "t1") [])
           demo_updated_well_indexed).
  split_and!; try reflexivity; intros Ht; try reflexivity; discriminate Ht.
Defined.

(** ** Search with temporal decay *)

Lemma compute_decay_score_ok now triple decay_rate :
  (0 <= decay_rate)%Q -> (tt_transaction_time triple <= now)%Z ->
  (0 <= tt_confidence triple)%Q ->
  exists score, compute_decay_score now triple decay_rate = Ok score /\
                (0 <= score)%Q /\ (score <= tt_confidence triple)%Q.
Proof.
  intros Hrate Hage Hconf. unfold compute_decay_score. cbv zeta.
  set (age_days := (age_hours triple now / 24)%Q).
  assert (Hd : (0 <= age_days)%Q).
  { unfold age_days, age_hours.
    assert (0 <= inject_Z (now - tt_transaction_time triple))%Q as H0.
    { change 0%Q with (inject_Z 0). rewrite <- Zle_Qle. lia. }
    repeat (apply Qle_shift_div_l; [done|]; rewrite Qmult_0_l). exact H0. }
  assert (Hdiv : (1 <= 1 + decay_rate * age_days)%Q).
  { rewrite <- (Qplus_0_r 1) at 1. apply Qplus_le_r. by apply Qmult_le_0_compat. }
  set (divisor := (1 + decay_rate * age_days)%Q) in *.
  assert (Hpos : (0 < divisor)%Q) by (eapply Qlt_le_trans; [|exact Hdiv]; done).
  destruct (Qeq_bool divisor 0) eqn:Hz.
  - apply Qeq_bool_iff in Hz. rewrite Hz in Hpos. by apply Qlt_irrefl in Hpos.
  - eexists. split; [reflexivity|].
    assert (0 <= 1 / divisor)%Q as Hlo
      by (apply Qle_shift_div_l; [done|]; by rewrite Qmult_0_l).
    assert (1 / divisor <= 1)%Q as Hhi
      by (apply Qle_shift_div_r; [done|]; by rewrite Qmult_1_l).
    set (x := (1 / divisor)%Q) in *. clearbody x. split; nra.
Qed.

(** A triple that was recorded before every reading of the clock, with a
    confidence that is not negative. *)
Definition scorable (clock : nat -> Z) (t : TemporalTriple) : Prop :=
  (forall n, (tt_transaction_time t <= clock n)%Z) /\ (0 <= tt_confidence t)%Q.

Lemma score_current_ok clock decay_rate min_score current :
  (0 <= decay_rate)%Q -> Forall (scorable clock) current ->
  forall rank scored,
  exists scored',
    score_current clock rank decay_rate min_score current scored = Ok scored' /\
    forall t sc, (t, sc) ∈ scored' ->
      (t, sc) ∈ scored \/
      (t ∈ current /\ (min_score <= sc)%Q /\ (0 <= sc)%Q /\ (sc <= tt_confidence t)%Q).
Proof.
  intros Hrate. induction 1 as [|triple rest [Hage Hconf] _ IH]; intros rank scored; simpl.
  - exists scored. split; [done|]. by left.
  - destruct (compute_decay_score_ok (clock rank) triple decay_rate Hrate (Hage rank) Hconf)
      as (score & -> & Hlo & Hhi).
    destruct (IH (S rank)
                 (if Qltb score min_score then scored else (scored ++ [(triple, score)])%list))
      as (scored' & -> & Hin).
    exists scored'. split; [done|]. intros t sc Ht.
    destruct (Hin t sc Ht) as [Hold|(Hr & ? & ? & ?)].
    + destruct (Qltb score min_score) eqn:Hlt; [by left|].
      apply elem_of_app in Hold as [Hold|Hnew]; [by left|].
      apply list_elem_of_singleton in Hnew as [= -> ->]. right.
      apply Qltb_false in Hlt. split_and!; try done. apply list_elem_of_here.
    + right. split_and!; try done. by apply list_elem_of_further.
Qed.

(** Every score lies between 0 and the confidence of its triple. *)
Definition forall_scores_bounded (scored : list (TemporalTriple * Q)) : Prop :=
  Forall (fun r => (0 <= r.2)%Q /\ (r.2 <= tt_confidence r.1)%Q) scored.

(** X5 (search with decay).  With a decay rate that is not negative, on a
    store whose triples were recorded before every reading of the clock
    with confidences that are not negative, [search_with_decay] returns
    (no division by zero); every result is a currently valid triple that
    matches the query, with a score between 0 and its confidence and at
    least [min_score]; the results are in descending order of score. *)
Theorem search_with_decay_ranks g now clock subject predicate obj decay_rate min_score :
  (0 <= decay_rate)%Q ->
  (forall tid t, triples g !! tid = Some t -> scorable clock t) ->
  exists scored,
    search_with_decay g now clock subject predicate obj decay_rate min_score = Ok scored /\
    StronglySorted (fun a b => (b.2 <= a.2)%Q) scored /\
    forall t sc, (t, sc) ∈ scored ->
      t ∈ query_current g now subject predicate obj /\
      (min_score <= sc)%Q /\ (0 <= sc)%Q /\ (sc <= tt_confidence t)%Q.
Proof.
  intros Hrate Hstore. unfold search_with_decay.
  destruct (score_current_ok clock decay_rate min_score
              (query_current g now subject predicate obj) Hrate) with (rank := 0%nat)
    (scored := @nil (TemporalTriple * Q)) as (scored & -> & Hin).
  - apply Forall_forall. intros t Ht.
    apply query_at_time_stored in Ht as [tid Hget]. by eapply Hstore.
  - eexists. split; [reflexivity|]. split; [apply (sort_desc_by_Q snd)|].
    intros t sc Ht. apply sort_desc_elem in Ht.
    destruct (Hin t sc Ht) as [Hnil|?]; [by apply elem_of_nil in Hnil | done].
Qed.

Lemma search_with_decay_ranks_witness :
  exists scored,
    search_with_decay demo_updated 25 (fun _ => 50%Z) (Some "Aura") None None 0.1 0 = Ok scored /\
    StronglySorted (fun a b => (b.2 <= a.2)%Q) scored /\
    forall_scores_bounded scored.
Proof.
  destruct (search_with_decay_ranks demo_updated 25 (fun _ => 50%Z) (Some "Aura") None None
              0.1 0) as (scored & Hrun & Hsorted & Hin).
  - done.
  - intros tid t Hget.
    unfold demo_updated in Hget.
    rewrite (triples_update demo_added "t2" 20 "t1" (Some "3.2") None None
               (mkTriple "t1" "Aura" "version" "3.1" 1 10 None 10 "config" 1 None [])
               eq_refl) in Hget.
    apply lookup_insert_Some in Hget as [[_ <-]|[_ Hget]]; [by split|].
    apply lookup_insert_Some in Hget as [[_ <-]|[_ Hget]]; [by split|].
    unfold demo_added in Hget. rewrite triples_add in Hget.
    apply lookup_insert_Some in Hget as [[_ <-]|[_ Hget]]; [by split|].
    simpl in Hget. by rewrite lookup_empty in Hget.
  - exists scored. split; [exact Hrun|]. split; [exact Hsorted|].
    apply Forall_forall. intros [t sc] Ht. destruct (Hin t sc Ht) as (_ & _ & ? & ?).
    by split.
Defined.

(** ** The timeline of an entity *)

(** The events that one stored triple contributes in a role. *)
Definition triple_events (role : event_role) (t : TemporalTriple) : list timeline_event :=
  mkEvent (tt_valid_from t) fact_added role (to_dict t)
  :: match tt_valid_to t with
     | Some vt => [mkEvent vt fact_ended role (to_dict t)]
     | None => []
     end.

(** An event tells the start of the triple or, for a closed triple, its
    end. *)
Definition event_of (e : timeline_event) (t : TemporalTriple) : Prop :=
  ev_triple e = to_dict t /\
  ((ev_type e = fact_added /\ ev_time e = tt_valid_from t) \/
   (ev_type e = fact_ended /\ tt_valid_to t = Some (ev_time e))).

Lemma triple_events_elem e role t :
  e ∈ triple_events role t <-> ev_role e = role /\ event_of e t.
Proof.
  unfold triple_events, event_of. destruct e as [time type role' data]. simpl.
  destruct (tt_valid_to t) as [vt|]; rewrite !elem_of_cons, elem_of_nil; split.
  - intros [[= -> -> -> ->]|[[= -> -> -> ->]|[]]]; auto.
  - intros (-> & -> & [[-> ->]|[-> [= ->]]]); auto.
  - intros [[= -> -> -> ->]|[]]; auto.
  - intros (-> & -> & [[-> ->]|[-> [=]]]); auto.
Qed.

Lemma events_of_all_spec g role tids :
  (forall tid, tid ∈ tids -> is_Some (triples g !! tid)) ->
  forall events,
  exists events',
    events_of_all g role tids events = Ok events' /\
    forall e, e ∈ events' <->
      e ∈ events \/
      exists tid t, tid ∈ tids /\ triples g !! tid = Some t /\ e ∈ triple_events role t.
Proof.
  induction tids as [|tid rest IH]; intros Hstored events; simpl.
  - exists events. split; [done|]. intros e. split; [by left|].
    intros [?|(tid & t & Hin & _)]; [done | by apply elem_of_nil in Hin].
  - destruct (Hstored tid (list_elem_of_here _ _)) as [t Hget].
    unfold events_of. rewrite Hget. fold (triple_events role t).
    destruct (IH (fun k Hk => Hstored k (list_elem_of_further _ _ _ Hk))
                 (events ++ triple_events role t)%list) as (events' & -> & Hspec).
    exists events'. split; [done|]. intros e. rewrite Hspec, elem_of_app. split.
    + intros [[?|He]|(k & t' & Hk & Hg & He)]; [by left | right | right].
      * exists tid, t. split_and!; [apply list_elem_of_here | done | done].
      * exists k, t'. split_and!; [by apply list_elem_of_further | done | done].
    + intros [?|(k & t' & Hk & Hg & He)]; [by left; left|].
      apply elem_of_cons in Hk as [->|Hk].
      * left. right. by simplify_eq.
      * right. by exists k, t'.
Qed.

Lemma sort_asc_by_time (l : list timeline_event) :
  StronglySorted (fun a b => (ev_time a <= ev_time b)%Z)
                 (sort_asc (fun x y => (ev_time x <? ev_time y)%Z) l).
Proof.
  eapply sorted_weaken; [|apply sort_asc_sorted].
  - intros a b Hab. unfold not_smaller in Hab. apply Z.ltb_ge in Hab. exact Hab.
  - intros a b Hab. apply Z.ltb_lt in Hab. apply Z.ltb_ge. lia.
  - intros a b c Hab Hbc. apply Z.ltb_ge in Hab, Hbc. apply Z.ltb_ge. lia.
Qed.

(** The events that the identifiers of an index list contribute, in the
    order of the list, an identifier once for each of its occurrences. *)
Definition indexed_events (g : TemporalGraph) (role : event_role) (tids : list string)
  : list timeline_event :=
  flat_map (fun tid => match triples g !! tid with
                       | Some t => triple_events role t
                       | None => []
                       end) tids.

Lemma events_of_all_exact g role tids :
  (forall tid, tid ∈ tids -> is_Some (triples g !! tid)) ->
  forall events,
    events_of_all g role tids events = Ok (events ++ indexed_events g role tids)%list.
Proof.
  induction tids as [|tid rest IH]; intros Hstored events; simpl.
  - by rewrite app_nil_r.
  - destruct (Hstored tid (list_elem_of_here _ _)) as [t Hget].
    unfold events_of. rewrite Hget. fold (triple_events role t).
    rewrite IH by (intros k Hk; apply Hstored; by apply list_elem_of_further).
    by rewrite <- app_assoc.
Qed.

(** X6 (timeline of an entity).  On a store with consistent indices,
    [get_entity_timeline] returns (no identifier of an index is unknown)
    and the events are in ascending order of time.  They are, up to that
    order, the events of the identifiers that the subject index and then
    the object index list under the entity: for each occurrence of an
    identifier, the start of its triple and, when the triple is closed, its
    end, each carrying the serialised triple and the role; an identifier
    that an index lists twice contributes its events twice.  As a set they
    are the start and end events of the stored triples that have the
    entity for subject or for object. *)
Theorem entity_timeline_sorted g entity :
  well_indexed g ->
  exists events,
    get_entity_timeline g entity = Ok events /\
    StronglySorted (fun a b => (ev_time a <= ev_time b)%Z) events /\
    events ≡ₚ (indexed_events g as_subject (default [] (subject_index g !! entity))
               ++ indexed_events g as_object (default [] (object_index g !! entity)))%list /\
    forall e, e ∈ events <->
      exists t, triples g !! tt_id t = Some t /\ event_of e t /\
                ((ev_role e = as_subject /\ tt_subject t = entity) \/
                 (ev_role e = as_object /\ tt_object t = entity)).
Proof.
  intros (Hid & Hs & _ & Ho). unfold get_entity_timeline.
  assert (Hstored1 : forall tid, tid ∈ default [] (subject_index g !! entity) ->
                                 is_Some (triples g !! tid)).
  { intros tid Hin. apply Hs in Hin as (t & Hget & _). by eexists. }
  assert (Hstored2 : forall tid, tid ∈ default [] (object_index g !! entity) ->
                                 is_Some (triples g !! tid)).
  { intros tid Hin. apply Ho in Hin as (t & Hget & _). by eexists. }
  destruct (events_of_all_spec g as_subject (default [] (subject_index g !! entity)) Hstored1)
    with (events := @nil timeline_event) as (ev1 & Hrun1 & Hspec1).
  destruct (events_of_all_spec g as_object (default [] (object_index g !! entity)) Hstored2)
    with (events := ev1) as (ev2 & Hrun2 & Hspec2).
  rewrite Hrun1, Hrun2.
  rewrite (events_of_all_exact g as_subject _ Hstored1) in Hrun1. injection Hrun1 as <-.
  rewrite (events_of_all_exact g as_object _ Hstored2) in Hrun2. injection Hrun2 as <-.
  cbn [app] in *.
  eexists. split; [reflexivity|]. split; [apply sort_asc_by_time|].
  split; [apply sort_asc_perm|].
  intros e. rewrite sort_asc_perm, Hspec2, Hspec1. split.
    + intros [[Hnil|(tid & t & Hin & Hget & He)]|(tid & t & Hin & Hget & He)].
      * by apply elem_of_nil in Hnil.
      * apply triple_events_elem in He as [Hrole He].
        apply Hs in Hin as (t' & Hget' & Hsub). assert (t' = t) as -> by congruence.
        exists t. rewrite (Hid _ _ Hget). split_and!; [done | done | by left].
      * apply triple_events_elem in He as [Hrole He].
        apply Ho in Hin as (t' & Hget' & Hobj). assert (t' = t) as -> by congruence.
        exists t. rewrite (Hid _ _ Hget). split_and!; [done | done | by right].
    + intros (t & Hget & He & [[Hrole Hsub]|[Hrole Hobj]]).
      * left. right. exists (tt_id t), t. split_and!; [|done|by apply triple_events_elem].
        apply Hs. by exists t.
      * right. exists (tt_id t), t. split_and!; [|done|by apply triple_events_elem].
        apply Ho. by exists t.
Qed.

Lemma entity_timeline_sorted_witness :
  exists events,
    get_entity_timeline demo_updated "Aura" = Ok events /\
    StronglySorted (fun a b => (ev_time a <= ev_time b)%Z) events /\
    mkEvent 20 fact_ended as_subject
            (to_dict (mkTriple "t1" "Aura" "version" "3.1" 1 10 (Some 20%Z) 10 "config" 1 None []))
      ∈ events.
Proof.
  destruct (entity_timeline_sorted demo_updated "Aura" demo_updated_well_indexed)
    as (events & Hrun & Hsorted & _ & Hin).
  exists events. split; [exact Hrun|]. split; [exact Hsorted|].
  apply Hin.
  exists (mkTriple "t1" "Aura" "version" "3.1" 1 10 (Some 20%Z) 10 "config" 1 None []).
  split; [reflexivity|]. split; [split; [reflexivity | right; by split]|].
  left. by split.
Defined.

End TemporalStoreFacts.

(* ===================================================================== *)
(** * More facts on episodic_memory.py: the store across calls *)
(* ===================================================================== *)

Module EpisodicStoreFacts.
Import MemoryTypes Episodic EpisodicAccess EpisodicFacts.

(** A payload as [store] writes it: a metadata dictionary and no
    ["consolidated_into"] key. *)
Definition as_stored (p : episode_dict) : bool :=
  match ed_metadata p, ed_consolidated_into p with
  | MDict _, None => true
  | _, _ => false
  end.

(** A payload with metadata that [Episode.from_dict] accepts. *)
Definition readable (p : episode_dict) : bool :=
  match ed_metadata p, ed_consolidated_into p with
  | MAbsent, _ => false
  | _, None => true
  | _, Some _ => false
  end.

(** The episode that [Episode.from_dict] builds from a payload without
    ["consolidated_into"]. *)
Definition built `{PyLib} (now_iso : string) (p : episode_dict) : Episode :=
  mkEpisode (if decide (ed_id p = "")
             then episode_generate_id (ed_timestamp p) (ed_context p) (ed_action p)
             else ed_id p)
            (ed_timestamp p) (ed_context p) (ed_action p) (ed_outcome p)
            (ed_thought_process p) (ed_entities p)
            (default 0%Q (ed_emotional_valence p)) (default 0.5%Q (ed_importance p))
            (match ed_metadata p with
             | MDict d => meta_from_dict now_iso d
             | MObj m => m
             | MAbsent => new_metadata now_iso "user"
             end).

Lemma as_stored_readable p : as_stored p = true -> readable p = true.
Proof. unfold as_stored, readable. by destruct (ed_metadata p), (ed_consolidated_into p). Qed.

Lemma forallb_impl {A} (f g : A -> bool) (l : list A) :
  (forall x, f x = true -> g x = true) -> forallb f l = true -> forallb g l = true.
Proof.
  intros Himp. rewrite !forallb_forall. intros Hall x Hx. by apply Himp, Hall.
Qed.

Lemma forallb_elem {A} (f : A -> bool) (l : list A) x :
  forallb f l = true -> x ∈ l -> f x = true.
Proof. rewrite forallb_forall. intros Hall Hx. by apply Hall, list_elem_of_In. Qed.

Section WithEnv.
Context `{PyLib} `{VectorIndex}.

Lemma episode_from_dict_built now_iso p :
  ed_consolidated_into p = None ->
  (episode_from_dict now_iso p).2 = Ok (built now_iso p).
Proof.
  intros Hc. unfold episode_from_dict, built.
  destruct (ed_metadata p) as [|d|m] eqn:Hm; simpl; rewrite ?Hm, Hc; simpl; by rewrite ?Hm.
Qed.

Lemma episode_from_dict_consolidated now_iso p l :
  ed_consolidated_into p = Some l -> (episode_from_dict now_iso p).2 = Raise TypeError.
Proof.
  intros Hc. unfold episode_from_dict.
  destruct (ed_metadata p) as [|d|m] eqn:Hm; simpl; by rewrite Hc.
Qed.

Lemma episode_from_dict_readable now_iso p :
  readable p = true ->
  readable (episode_from_dict now_iso p).1 = true /\
  exists m, ed_metadata (episode_from_dict now_iso p).1 = MObj m.
Proof.
  unfold readable, episode_from_dict.
  destruct (ed_metadata p) as [|d|m] eqn:Hm; [done|..];
    destruct (ed_consolidated_into p) eqn:Hc; try done; intros _; simpl;
    rewrite ?Hm, Hc; simpl; rewrite ?Hm, ?Hc; eauto.
Qed.

(** ** [recall] on episodes written by [store] *)

Lemma access_counts_raise payloads x : access_counts payloads = Raise x -> x = AttributeError.
Proof.
  induction payloads as [|p payloads IH]; simpl; [done|].
  destruct (ed_metadata p); destruct (access_counts payloads); try done;
    intros [= <-]; by (done || apply IH).
Qed.

Lemma access_counts_object payloads p m :
  p ∈ payloads -> ed_metadata p = MObj m -> access_counts payloads = Raise AttributeError.
Proof.
  intros Hin Hm. induction payloads as [|q payloads IH]; [by apply elem_of_nil in Hin|].
  simpl. apply elem_of_cons in Hin as [<-|Hin].
  - by rewrite Hm.
  - rewrite (IH Hin). by destruct (ed_metadata q).
Qed.

(** One iteration of the loop of [recall] on a store of readable payloads:
    it skips the candidate, or raises [AttributeError] when the candidate
    is important enough. *)
Lemma recall_step_readable now min_importance acc k dist s :
  forallb readable (od_values (_metadata_cache s)) = true ->
  exists s',
    recall_step now min_importance acc (k, dist) s
    = (s', match scored_keys (_metadata_cache s) min_importance [(k, dist)] with
           | [] => Ok acc
           | _ => Raise AttributeError
           end) /\
    forallb readable (od_values (_metadata_cache s')) = true /\
    (forall k', payload_scored min_importance <$> od_get k' (_metadata_cache s')
                = payload_scored min_importance <$> od_get k' (_metadata_cache s)) /\
    ConsolidatorFacts.episodic_kept now s s'.
Proof.
  intros Hall. unfold recall_step, scored_keys, bind, get_state, ret. simpl.
  destruct (od_get k (_metadata_cache s)) as [p|] eqn:Hget; [|by exists s].
  assert (readable p = true) as Hp by (eapply forallb_elem; [exact Hall | by eapply od_get_value]).
  pose proof (ConsolidatorFacts.from_dict_in_cache_kept now k p s Hget) as Hkept.
  unfold from_dict_in_cache in *.
  destruct (episode_from_dict_readable (isoformat now) p Hp) as (Hp' & m & Hm).
  destruct (episode_from_dict_payload (isoformat now) p) as [Hf _].
  assert (Hb : (episode_from_dict (isoformat now) p).2 = Ok (built (isoformat now) p)).
  { apply episode_from_dict_built. unfold readable in Hp.
    destruct (ed_metadata p), (ed_consolidated_into p); done. }
  destruct (episode_from_dict (isoformat now) p) as [p' r]. simpl in *. subst r.
  assert (Hext : forall k', payload_scored min_importance <$> od_get k' (od_set k p' (_metadata_cache s))
                            = payload_scored min_importance <$> od_get k' (_metadata_cache s)).
  { intros k'. rewrite od_get_set. destruct (decide (k = k')) as [<-|Hne]; [|done].
    rewrite Hget. simpl. f_equal. by apply payload_scored_fields. }
  assert (Hall' : forallb readable (od_values (od_set k p' (_metadata_cache s))) = true)
    by (by apply od_set_forallb).
  unfold payload_scored.
  change (ep_importance (built (isoformat now) p)) with (default 0.5%Q (ed_importance p)).
  destruct (Qltb (default 0.5%Q (ed_importance p)) min_importance); simpl.
  - eexists. split; [reflexivity|]. by split_and!.
  - unfold read_max_access. simpl.
    rewrite (access_counts_object _ p' m); [| eapply od_get_value; apply od_get_set_eq | done].
    eexists. split; [reflexivity|]. by split_and!.
Qed.

Lemma recall_loop_readable now min_importance candidates : forall s acc,
  forallb readable (od_values (_metadata_cache s)) = true ->
  exists s',
    for_each (recall_step now min_importance) acc candidates s
    = (s', match scored_keys (_metadata_cache s) min_importance candidates with
           | [] => Ok acc
           | _ => Raise AttributeError
           end) /\
    ConsolidatorFacts.episodic_kept now s s'.
Proof.
  induction candidates as [|[k dist] rest IH]; intros s acc Hall.
  - exists s. by rewrite for_each_nil.
  - rewrite for_each_cons, scored_keys_cons.
    destruct (recall_step_readable now min_importance acc k dist s Hall)
      as (s1 & -> & Hall1 & Hext & Hkept1).
    destruct (scored_keys (_metadata_cache s) min_importance [(k, dist)]) as [|k0 ks]; simpl.
    + destruct (IH s1 acc Hall1) as (s' & -> & Hkept).
      rewrite (scored_keys_ext _ (_metadata_cache s)) by done.
      exists s'. split; [done|]. by eapply ConsolidatorFacts.episodic_kept_trans.
    + by exists s1.
Qed.

(** X11 (recall of stored episodes).  On a store whose payloads are as
    [store] writes them, [recall] of a positive number of results returns
    the empty list when no fetched candidate is in the cache with an
    importance of at least [min_importance]; otherwise it raises
    [AttributeError] (the access counts are read on a payload whose
    metadata [from_dict] has just replaced by an object): it never returns
    an episode.  The store keeps its index, its file and the content of its
    payloads.  ([n_results = 0] is left out: the vector index rejects a
    query for no result.) *)
Theorem recall_of_stored_episodes now query n_results min_importance include_archived mem :
  (0 < n_results)%nat ->
  forallb as_stored (od_values (_metadata_cache mem)) = true ->
  exists mem',
    recall now query n_results min_importance include_archived mem
    = (mem', if decide (scored_keys (_metadata_cache mem) min_importance
                                    (fetched mem query n_results include_archived) = [])
             then Ok [] else Raise AttributeError) /\
    ConsolidatorFacts.episodic_kept now mem mem'.
Proof.
  intros _ Hall. apply (forallb_impl _ readable _ as_stored_readable) in Hall.
  unfold recall, fetched, bind, get_state, ret. cbv beta iota.
  destruct (decide (coll_count (em_collection mem) = 0)) as [Hzero|Hpos].
  - exists mem. by rewrite decide_True.
  - destruct (recall_loop_readable now min_importance
                (coll_query (em_collection mem) query
                   (min (n_results * 2) (coll_count (em_collection mem))) (negb include_archived))
                mem [] Hall) as (s' & -> & Hkept).
    exists s'. split; [|done].
    destruct (scored_keys _ _ _) as [|k ks]; [|by rewrite decide_False].
    rewrite decide_True by done. simpl. by rewrite firstn_nil.
Qed.

(** ** The listings *)

(** A payload that [Episode.from_dict] accepts. *)
Definition loadable (p : episode_dict) : bool :=
  match ed_consolidated_into p with
  | None => true
  | Some _ => false
  end.

Lemma as_stored_loadable p : as_stored p = true -> loadable p = true.
Proof. unfold as_stored, loadable. by destruct (ed_metadata p), (ed_consolidated_into p). Qed.

(** The body of the loop of [collect_episodes]. *)
Definition collect_body (now : Z) (keep : Episode -> bool)
    (episodes : list Episode) (key : string) : M EpisodicMemory (list Episode) :=
  mem' <- get_state ;;
  match od_get key (_metadata_cache mem') with
  | None => ret episodes
  | Some data =>
      episode <- from_dict_in_cache now key data ;;
      ret (if keep episode then (episodes ++ [episode])%list else episodes)
  end.

Lemma collect_episodes_unfold now keep mem :
  collect_episodes now keep mem
  = for_each (collect_body now keep) [] (od_keys (_metadata_cache mem)) mem.
Proof. reflexivity. Qed.

Lemma collect_step now keep acc k v s :
  od_get k (_metadata_cache s) = Some v -> loadable v = true ->
  collect_body now keep acc k s
  = (set_cache s (od_set k (episode_from_dict (isoformat now) v).1 (_metadata_cache s)),
     Ok (if keep (built (isoformat now) v)
         then (acc ++ [built (isoformat now) v])%list else acc)).
Proof.
  intros Hget Hv. unfold collect_body, bind, get_state, ret, from_dict_in_cache.
  rewrite Hget.
  assert (Hb : (episode_from_dict (isoformat now) v).2 = Ok (built (isoformat now) v)).
  { apply episode_from_dict_built. unfold loadable in Hv.
    by destruct (ed_consolidated_into v). }
  destruct (episode_from_dict (isoformat now) v) as [v' r]. simpl in *. by subst r.
Qed.

Lemma collect_step_raises now keep acc k v l s :
  od_get k (_metadata_cache s) = Some v -> ed_consolidated_into v = Some l ->
  exists s', collect_body now keep acc k s = (s', Raise TypeError).
Proof.
  intros Hget Hv. unfold collect_body, bind, get_state, ret, from_dict_in_cache.
  rewrite Hget.
  pose proof (episode_from_dict_consolidated (isoformat now) v l Hv) as Hr.
  destruct (episode_from_dict (isoformat now) v) as [v' r]. simpl in *. subst r.
  by eexists.
Qed.

(** The loop of [collect_episodes] over the entries of a dictionary whose
    payloads are accepted: the episodes built from the payloads, in order,
    filtered; every visited payload is left as [from_dict] leaves it. *)
Lemma collect_loop now keep (l : odict episode_dict) : forall s acc,
  NoDup (od_keys l) ->
  (forall k v, (k, v) ∈ l -> od_get k (_metadata_cache s) = Some v) ->
  forallb loadable (od_values l) = true ->
  exists s',
    for_each (collect_body now keep) acc (od_keys l) s
    = (s', Ok (acc ++ List.filter keep (map (built (isoformat now)) (od_values l)))%list) /\
    (forall k v, (k, v) ∈ l ->
       od_get k (_metadata_cache s') = Some (episode_from_dict (isoformat now) v).1) /\
    (forall k, k ∉ od_keys l -> od_get k (_metadata_cache s') = od_get k (_metadata_cache s)).
Proof.
  induction l as [|[k v] l IH]; intros s acc Hnd Hget Hall.
  - exists s. split_and!; [| | done].
    + unfold od_keys, od_values. simpl. by rewrite app_nil_r.
    + intros k v Hin. by apply elem_of_nil in Hin.
  - simpl in Hnd, Hall. apply NoDup_cons in Hnd as [Hk Hnd].
    apply andb_prop in Hall as [Hv Hall].
    change (od_keys ((k, v) :: l)) with (k :: od_keys l). rewrite for_each_cons.
    rewrite (collect_step now keep acc k v s (Hget k v (list_elem_of_here _ _)) Hv).
    set (s1 := set_cache s _). set (acc1 := if keep _ then _ else _).
    destruct (IH s1 acc1 Hnd) as (s' & Hrun & Hvisited & Hother); [|exact Hall|].
    { intros k' w Hin. unfold s1. simpl. rewrite od_get_set_ne.
      - apply Hget. by apply list_elem_of_further.
      - intros <-. apply Hk. apply list_elem_of_fmap. by exists (k, w). }
    exists s'. split_and!.
    + rewrite Hrun. f_equal. f_equal. unfold acc1, od_values. simpl.
      destruct (keep (built (isoformat now) v)); [by rewrite <- app_assoc | done].
    + intros k' w Hin. apply elem_of_cons in Hin as [[= -> ->]|Hin]; [|by apply Hvisited].
      rewrite (Hother k Hk). unfold s1. simpl. apply od_get_set_eq.
    + intros k' Hk'. apply not_elem_of_cons in Hk' as [Hne Hk'].
      rewrite (Hother k' Hk'). unfold s1. simpl. by apply od_get_set_ne.
Qed.

Lemma collect_episodes_spec now keep mem :
  NoDup (od_keys (_metadata_cache mem)) ->
  forallb loadable (od_values (_metadata_cache mem)) = true ->
  exists mem',
    collect_episodes now keep mem
    = (mem', Ok (List.filter keep (map (built (isoformat now))
                                       (od_values (_metadata_cache mem))))) /\
    (forall k v, od_get k (_metadata_cache mem) = Some v ->
       od_get k (_metadata_cache mem') = Some (episode_from_dict (isoformat now) v).1).
Proof.
  intros Hnd Hall. rewrite collect_episodes_unfold.
  destruct (collect_loop now keep (_metadata_cache mem) mem [] Hnd) as (mem' & -> & Hv & _);
    [intros k v Hin; by apply od_elem_get | exact Hall |].
  exists mem'. split; [done|]. intros k v Hget. by apply Hv, od_get_elem.
Qed.

Lemma built_of_payload now_iso (cache : odict episode_dict) e :
  e ∈ map (built now_iso) (od_values cache) ->
  exists k p, (k, p) ∈ cache /\ e = built now_iso p.
Proof.
  intros Hin. apply list_elem_of_fmap in Hin as (p & -> & Hin).
  apply list_elem_of_fmap in Hin as ([k p'] & -> & Hin). by exists k, p'.
Qed.

(** X12 (successful episodes).  On a dictionary of payloads that
    [from_dict] accepts, [get_successful_episodes] returns at most [limit]
    episodes in descending order of valence; each is built from a payload
    of the cache, is ACTIVE and has a valence of at least [min_valence];
    and an ACTIVE episode with such a valence is returned unless [limit]
    episodes with valences at least as high were.  The store keeps its
    index, its file and the content of its payloads. *)
Theorem successful_episodes_ranked now min_valence limit mem :
  NoDup (od_keys (_metadata_cache mem)) ->
  forallb loadable (od_values (_metadata_cache mem)) = true ->
  exists mem' episodes,
    get_successful_episodes now min_valence limit mem = (mem', Ok episodes) /\
    (length episodes <= limit)%nat /\
    StronglySorted (fun a b => (ep_emotional_valence b <= ep_emotional_valence a)%Q) episodes /\
    (forall e, e ∈ episodes ->
       (min_valence <= ep_emotional_valence e)%Q /\ status (ep_metadata e) = ACTIVE /\
       exists k p, od_get k (_metadata_cache mem) = Some p /\ e = built (isoformat now) p) /\
    (forall k p,
       od_get k (_metadata_cache mem) = Some p ->
       (min_valence <= ep_emotional_valence (built (isoformat now) p))%Q ->
       status (ep_metadata (built (isoformat now) p)) = ACTIVE ->
       built (isoformat now) p ∈ episodes \/
       (length episodes = limit /\
        forall e, e ∈ episodes ->
          (ep_emotional_valence (built (isoformat now) p) <= ep_emotional_valence e)%Q)) /\
    ConsolidatorFacts.episodic_kept now mem mem'.
Proof.
  intros Hnd Hall.
  pose proof (ConsolidatorFacts.get_successful_episodes_kept now min_valence limit mem) as Hkept.
  revert Hkept. unfold get_successful_episodes.
  set (keep := fun e : Episode =>
                 negb (Qltb (ep_emotional_valence e) min_valence)
                 && (if decide (status (ep_metadata e) = ACTIVE) then true else false)).
  destruct (collect_episodes_spec now keep mem Hnd Hall) as (mem' & Hrun & _).
  rewrite (bind_ok _ _ _ _ _ Hrun). unfold ret. simpl. intros Hkept.
  set (kept := List.filter keep _).
  assert (Hkeep : forall e, keep e = true <->
            (min_valence <= ep_emotional_valence e)%Q /\ status (ep_metadata e) = ACTIVE).
  { intros e. unfold keep. rewrite andb_true_iff, negb_true_iff, Qltb_false.
    by destruct (decide (status (ep_metadata e) = ACTIVE)); split; intros [? ?]. }
  pose proof (sort_desc_by_Q ep_emotional_valence kept) as Hsorted.
  eexists _, _. split; [reflexivity|]. split_and!.
  - apply firstn_le_length.
  - by apply sorted_firstn.
  - intros e Hin. apply firstn_sort_elem in Hin. unfold kept in Hin.
    apply list_elem_of_In, filter_In in Hin as [Hin Hk]. apply list_elem_of_In in Hin.
    apply Hkeep in Hk as [Hv Hs]. split_and!; [done | done |].
    apply built_of_payload in Hin as (k & p & Hin & ->).
    exists k, p. split; [by apply od_elem_get | done].
  - intros k p Hget Hv Hs.
    assert (built (isoformat now) p ∈ kept) as Hin.
    { unfold kept. apply list_elem_of_In, filter_In. split; [|by apply Hkeep].
      apply list_elem_of_In, list_elem_of_fmap. exists p. split; [done|].
      by eapply od_get_value. }
    apply (sort_desc_elem (fun x y => Qgtb (ep_emotional_valence x) (ep_emotional_valence y)))
      in Hin.
    destruct (sorted_firstn_complete _ limit _ _ Hsorted Hin) as [?|[Hlen Hmin]];
      [by left | right; by split].
  - exact Hkept.
Qed.

(** ** The order of strings *)

Lemma ascii_compare_trans (a b c : ascii) :
  Ascii.compare a b = Lt -> Ascii.compare b c = Lt -> Ascii.compare a c = Lt.
Proof.
  unfold Ascii.compare. rewrite !N.compare_lt_iff. apply N.lt_trans.
Qed.

Lemma string_compare_trans (s1 : string) : forall s2 s3,
  String.compare s1 s2 = Lt -> String.compare s2 s3 = Lt -> String.compare s1 s3 = Lt.
Proof.
  induction s1 as [|a s1 IH]; intros [|b s2] [|c s3]; simpl; try done.
  destruct (Ascii.compare a b) eqn:Hab; [| |done].
  - apply Ascii.compare_eq_iff in Hab as ->.
    destruct (Ascii.compare b c); [apply IH | done | done].
  - intros _. destruct (Ascii.compare b c) eqn:Hbc; [| |done].
    + apply Ascii.compare_eq_iff in Hbc as <-. by rewrite Hab.
    + by rewrite (ascii_compare_trans a b c).
Qed.

Lemma string_ltb_asym (x y : string) : String.ltb x y = true -> String.ltb y x = false.
Proof.
  unfold String.ltb. rewrite (String.compare_antisym y x).
  by destruct (String.compare x y).
Qed.

Lemma string_ltb_ntrans (x y z : string) :
  String.ltb x y = false -> String.ltb y z = false -> String.ltb x z = false.
Proof.
  unfold String.ltb. intros Hxy Hyz.
  destruct (String.compare x z) eqn:Hxz; [done | exfalso | done].
  destruct (String.compare x y) eqn:Exy; [|done|].
  - apply String.compare_eq_iff in Exy as ->. by rewrite Hxz in Hyz.
  - assert (String.compare y x = Lt) as Hyx by (by rewrite String.compare_antisym, Exy).
    by rewrite (string_compare_trans y x z Hyx Hxz) in Hyz.
Qed.

(** X13 (recent episodes).  On a dictionary of payloads that [from_dict]
    accepts, [get_recent_episodes] returns at most [limit] episodes, none of
    them ARCHIVED, from the latest timestamp to the earliest (in the order
    of strings); each is built from a payload of the cache; and an episode
    that is not ARCHIVED is returned unless [limit] episodes that are not
    earlier were. *)
Theorem recent_episodes_ranked now limit mem :
  NoDup (od_keys (_metadata_cache mem)) ->
  forallb loadable (od_values (_metadata_cache mem)) = true ->
  exists mem' episodes,
    get_recent_episodes now limit mem = (mem', Ok episodes) /\
    (length episodes <= limit)%nat /\
    StronglySorted (fun a b => String.ltb (ep_timestamp a) (ep_timestamp b) = false) episodes /\
    (forall e, e ∈ episodes ->
       status (ep_metadata e) <> ARCHIVED /\
       exists k p, od_get k (_metadata_cache mem) = Some p /\ e = built (isoformat now) p) /\
    (forall k p,
       od_get k (_metadata_cache mem) = Some p ->
       status (ep_metadata (built (isoformat now) p)) <> ARCHIVED ->
       built (isoformat now) p ∈ episodes \/
       (length episodes = limit /\
        forall e, e ∈ episodes ->
          String.ltb (ep_timestamp e) (ep_timestamp (built (isoformat now) p)) = false)).
Proof.
  intros Hnd Hall. unfold get_recent_episodes.
  set (keep := fun e : Episode =>
                 if decide (status (ep_metadata e) = ARCHIVED) then false else true).
  destruct (collect_episodes_spec now keep mem Hnd Hall) as (mem' & Hrun & _).
  rewrite (bind_ok _ _ _ _ _ Hrun). unfold ret. simpl.
  set (kept := List.filter keep _).
  set (gt := fun x y : Episode => String.ltb (ep_timestamp y) (ep_timestamp x)).
  assert (Hkeep : forall e, keep e = true <-> status (ep_metadata e) <> ARCHIVED).
  { intros e. unfold keep. by destruct (decide (status (ep_metadata e) = ARCHIVED)). }
  assert (Hsorted : StronglySorted
                      (fun a b => String.ltb (ep_timestamp a) (ep_timestamp b) = false)
                      (sort_desc gt kept)).
  { apply (sort_desc_sorted gt).
    - intros x y. apply string_ltb_asym.
    - intros x y z Hxy Hyz. unfold gt in *. by eapply string_ltb_ntrans. }
  eexists _, _. split; [reflexivity|]. split_and!.
  - apply firstn_le_length.
  - by apply sorted_firstn.
  - intros e Hin. apply firstn_sort_elem in Hin. unfold kept in Hin.
    apply list_elem_of_In, filter_In in Hin as [Hin Hk]. apply list_elem_of_In in Hin.
    apply Hkeep in Hk. split; [done|].
    apply built_of_payload in Hin as (k & p & Hin & ->).
    exists k, p. split; [by apply od_elem_get | done].
  - intros k p Hget Hs.
    assert (built (isoformat now) p ∈ kept) as Hin.
    { unfold kept. apply list_elem_of_In, filter_In. split; [|by apply Hkeep].
      apply list_elem_of_In, list_elem_of_fmap. exists p. split; [done|].
      by eapply od_get_value. }
    apply (sort_desc_elem gt) in Hin.
    destruct (sorted_firstn_complete _ limit _ _ Hsorted Hin) as [?|[Hlen Hmin]];
      [by left | right; by split].
Qed.

(** ** [mark_consolidated] and the listings *)

(** The body of the loop of [mark_consolidated]. *)
Definition mark_body (now : Z) (skill_id : string) (count : nat) (ep_id : string)
  : M EpisodicMemory nat :=
  mem <- get_state ;;
  match od_get ep_id (_metadata_cache mem) with
  | None => ret count
  | Some payload =>
      match set_status_in_payload now CONSOLIDATED payload with
      | Raise x => raise x
      | Ok payload' =>
          let into := (default [] (ed_consolidated_into payload') ++ [skill_id])%list in
          put_state (set_cache mem
                       (od_set ep_id (ed_set_consolidated_into payload' (Some into))
                               (_metadata_cache mem))) ;;;
          ret (S count)
      end
  end.

Lemma mark_consolidated_unfold now episode_ids skill_id mem :
  mark_consolidated now episode_ids skill_id mem
  = (count <- for_each (mark_body now skill_id) 0%nat episode_ids ;;
     (if decide (count = 0%nat) then ret tt else _save_metadata_cache) ;;;
     ret count) mem.
Proof. reflexivity. Qed.

(** The loop of both listings stops with [TypeError] at a payload that
    holds the key ["consolidated_into"]. *)
Lemma collect_loop_consolidated now keep keys : forall s acc,
  (forall k, k ∈ keys -> is_Some (od_get k (_metadata_cache s))) ->
  (exists k p l, k ∈ keys /\ od_get k (_metadata_cache s) = Some p /\
                 ed_consolidated_into p = Some l) ->
  exists s', for_each (collect_body now keep) acc keys s = (s', Raise TypeError).
Proof.
  induction keys as [|k keys IH]; intros s acc Hpresent (kb & pb & l & Hin & Hget & Hl).
  - by apply elem_of_nil in Hin.
  - rewrite for_each_cons.
    destruct (Hpresent k (list_elem_of_here _ _)) as [v Hv].
    destruct (ed_consolidated_into v) as [lv|] eqn:Hc.
    + destruct (collect_step_raises now keep acc k v lv s Hv Hc) as (s' & ->). by exists s'.
    + rewrite (collect_step now keep acc k v s Hv) by (unfold loadable; by rewrite Hc).
      assert (kb <> k) as Hne by (intros ->; congruence).
      apply elem_of_cons in Hin as [?|Hin]; [done|].
      apply IH.
      * intros k' Hk'. simpl. rewrite od_get_set.
        destruct (decide (k = k')); [by eexists|]. apply Hpresent. by apply list_elem_of_further.
      * exists kb, pb, l. simpl. rewrite od_get_set_ne by done. by split_and!.
Qed.

Lemma listings_raise_on_consolidated now mem k p l :
  od_get k (_metadata_cache mem) = Some p -> ed_consolidated_into p = Some l ->
  forall keep, exists mem', collect_episodes now keep mem = (mem', Raise TypeError).
Proof.
  intros Hget Hl keep. rewrite collect_episodes_unfold. apply collect_loop_consolidated.
  - intros k' Hk'. apply od_key_get in Hk' as [v Hv]. by eexists.
  - exists k, p, l. split_and!; [by eapply od_get_key | done | done].
Qed.

(** The payload that [mark_consolidated] leaves for a payload with a
    metadata dictionary. *)
Definition consolidated_payload (now_iso skill_id : string) (p : episode_dict) : episode_dict :=
  ed_set_consolidated_into
    (ed_set_metadata p
       (match ed_metadata p with
        | MDict d =>
            MDict (mkMetaDict (md_created_at d) (Some now_iso) (md_access_count d)
                              (md_last_accessed d) (md_source d) (md_tags d)
                              (md_priority d) (Some CONSOLIDATED))
        | r => r
        end))
    (Some (default [] (ed_consolidated_into p) ++ [skill_id])%list).

Lemma mark_step_stored now skill_id count k p s :
  od_get k (_metadata_cache s) = Some p -> as_stored p = true ->
  mark_body now skill_id count k s
  = (set_cache s (od_set k (consolidated_payload (isoformat now) skill_id p)
                         (_metadata_cache s)), Ok (S count)).
Proof.
  intros Hget Hp. unfold mark_body, bind, get_state, ret, put_state. rewrite Hget.
  unfold as_stored in Hp. unfold set_status_in_payload, consolidated_payload.
  destruct (ed_metadata p) as [|d|m] eqn:Hm; [done | | done].
  destruct (ed_consolidated_into p) eqn:Hc; [done|]. simpl. by rewrite Hc.
Qed.

Lemma mark_step_serializable now skill_id count k s :
  forallb episode_serializable (od_values (_metadata_cache s)) = true ->
  forallb episode_serializable
          (od_values (_metadata_cache (mark_body now skill_id count k s).1)) = true.
Proof.
  intros Hs. unfold mark_body, bind, get_state, ret, put_state, raise.
  destruct (od_get k (_metadata_cache s)) as [p|] eqn:Hget; [|done].
  unfold set_status_in_payload. destruct (ed_metadata p) as [|d|m] eqn:Hm; [done | | done].
  simpl. by apply od_set_forallb.
Qed.

Lemma mark_step_absent now skill_id count k s :
  od_get k (_metadata_cache s) = None -> mark_body now skill_id count k s = (s, Ok count).
Proof. intros Hget. unfold mark_body, bind, get_state, ret. by rewrite Hget. Qed.

(** The number of identifiers that are keys of the cache. *)
Definition known (cache : odict episode_dict) (ids : list string) : nat :=
  length (List.filter (fun id => bool_decide (id ∈ od_keys cache)) ids).

Lemma od_get_None_keys {V} k (d : odict V) : od_get k d = None <-> k ∉ od_keys d.
Proof.
  split.
  - intros Hget Hin. apply od_key_get in Hin as [v Hv]. congruence.
  - intros Hnin. destruct (od_get k d) as [v|] eqn:Hget; [|done].
    exfalso. apply Hnin. by eapply od_get_key.
Qed.

Lemma mark_loop_stored now skill_id ids : forall s count,
  NoDup ids ->
  (forall id p, id ∈ ids -> od_get id (_metadata_cache s) = Some p -> as_stored p = true) ->
  exists s',
    for_each (mark_body now skill_id) count ids s
    = (s', Ok (count + known (_metadata_cache s) ids)%nat) /\
    em_collection s' = em_collection s /\ metadata_file s' = metadata_file s /\
    od_keys (_metadata_cache s') = od_keys (_metadata_cache s) /\
    forall k, od_get k (_metadata_cache s')
              = if decide (k ∈ ids)
                then consolidated_payload (isoformat now) skill_id
                       <$> od_get k (_metadata_cache s)
                else od_get k (_metadata_cache s).
Proof.
  induction ids as [|id ids IH]; intros s count Hnd Hst.
  - exists s. rewrite for_each_nil. unfold known. simpl. rewrite Nat.add_0_r.
    by split_and!.
  - apply NoDup_cons in Hnd as [Hid Hnd]. rewrite for_each_cons.
    destruct (od_get id (_metadata_cache s)) as [p|] eqn:Hget.
    + rewrite (mark_step_stored now skill_id count id p s Hget)
        by (eapply Hst; [apply list_elem_of_here | done]).
      set (s1 := set_cache s _).
      destruct (IH s1 (S count) Hnd) as (s' & -> & Hc & Hf & Hk & Hp).
      { intros id' p' Hin'. unfold s1. simpl. rewrite od_get_set_ne by (intros <-; done).
        apply Hst. by apply list_elem_of_further. }
      assert (Hkeys : od_keys (_metadata_cache s1) = od_keys (_metadata_cache s))
        by (unfold s1; simpl; by eapply od_keys_set_present).
      exists s'. split_and!; [| done | done | congruence |].
      * f_equal. f_equal. unfold known. rewrite Hkeys. simpl.
        rewrite bool_decide_eq_true_2 by (by eapply od_get_key). simpl. lia.
      * intros k. rewrite Hp. unfold s1. simpl. rewrite od_get_set.
        destruct (decide (id = k)) as [<-|Hne].
        -- rewrite decide_False by done. rewrite decide_True by apply list_elem_of_here.
           by rewrite Hget.
        -- destruct (decide (k ∈ ids)) as [Hin|Hnin].
           ++ by rewrite decide_True by (by apply list_elem_of_further).
           ++ rewrite decide_False; [done|]. by apply not_elem_of_cons.
    + rewrite (mark_step_absent now skill_id count id s Hget).
      destruct (IH s count Hnd) as (s' & -> & Hc & Hf & Hk & Hp).
      { intros id' p' Hin'. apply Hst. by apply list_elem_of_further. }
      exists s'. split_and!; try done.
      * f_equal. f_equal. unfold known. simpl.
        rewrite bool_decide_eq_false_2; [done|]. by apply od_get_None_keys.
      * intros k. rewrite Hp. destruct (decide (k ∈ ids)) as [Hin|Hnin].
        -- by rewrite decide_True by (by apply list_elem_of_further).
        -- destruct (decide (k = id)) as [->|Hne].
           ++ rewrite decide_True by apply list_elem_of_here. by rewrite Hget.
           ++ rewrite decide_False; [done|]. by apply not_elem_of_cons.
Qed.

Lemma consolidated_payload_serializable now_iso skill_id p :
  as_stored p = true -> episode_serializable (consolidated_payload now_iso skill_id p) = true.
Proof.
  unfold as_stored, episode_serializable, consolidated_payload. simpl.
  by destruct (ed_metadata p).
Qed.

Lemma as_stored_serializable p : as_stored p = true -> episode_serializable p = true.
Proof. unfold as_stored, episode_serializable. by destruct (ed_metadata p). Qed.

Lemma known_elem (cache : odict episode_dict) ids :
  (0 < known cache ids)%nat -> exists id, id ∈ ids /\ id ∈ od_keys cache.
Proof.
  unfold known. induction ids as [|id ids IH]; simpl; [lia|].
  destruct (bool_decide_reflect (id ∈ od_keys cache)) as [Hin|Hnin]; simpl.
  - intros _. exists id. split; [apply list_elem_of_here | done].
  - intros Hpos. destruct (IH Hpos) as (id' & Hin' & Hk). exists id'.
    split; [by apply list_elem_of_further | done].
Qed.

(** X14 (consolidated episodes cannot be listed).  On a store whose
    payloads are as [store] writes them, [mark_consolidated] returns the
    number of identifiers that are keys of the cache; the payloads of these
    keys get the status CONSOLIDATED, the update instant and the key
    ["consolidated_into"] with the skill, the other payloads are untouched;
    when the number is positive the cache is written to the file.  From
    then on [get_successful_episodes] and [get_recent_episodes] raise
    [TypeError]: [Episode.from_dict] does not accept the new key. *)
Theorem consolidated_episodes_block_listings now episode_ids skill_id mem :
  forallb as_stored (od_values (_metadata_cache mem)) = true ->
  NoDup episode_ids ->
  exists mem',
    mark_consolidated now episode_ids skill_id mem
    = (mem', Ok (known (_metadata_cache mem) episode_ids)) /\
    em_collection mem' = em_collection mem /\
    (forall k, od_get k (_metadata_cache mem')
               = if decide (k ∈ episode_ids)
                 then consolidated_payload (isoformat now) skill_id
                        <$> od_get k (_metadata_cache mem)
                 else od_get k (_metadata_cache mem)) /\
    ((0 < known (_metadata_cache mem) episode_ids)%nat ->
     metadata_file mem' = Some (_metadata_cache mem') /\
     forall now' min_valence limit,
       (exists mem'', get_successful_episodes now' min_valence limit mem'
                      = (mem'', Raise TypeError)) /\
       (exists mem'', get_recent_episodes now' limit mem' = (mem'', Raise TypeError))).
Proof.
  intros Hall Hnd. rewrite mark_consolidated_unfold.
  destruct (mark_loop_stored now skill_id episode_ids mem 0%nat Hnd)
    as (s' & Hloop & Hc & Hf & Hk & Hp).
  { intros id p _ Hget. eapply forallb_elem; [exact Hall | by eapply od_get_value]. }
  rewrite (bind_ok _ _ _ _ _ Hloop). simpl.
  assert (Hser : forallb episode_serializable (od_values (_metadata_cache s')) = true).
  { pose proof (for_each_state_inv
                  (fun s => forallb (fun p => episode_serializable p) (od_values (_metadata_cache s)) = true)
                  (mark_body now skill_id) episode_ids) as Hinv.
    assert (s' = (for_each (mark_body now skill_id) 0%nat episode_ids mem).1) as Es
      by (by rewrite Hloop).
    rewrite Es. apply Hinv.
    - intros s count id _ Hs. apply mark_step_serializable, Hs.
    - eapply forallb_impl; [apply as_stored_serializable | exact Hall]. }
  destruct (decide (known (_metadata_cache mem) episode_ids = 0%nat)) as [Hzero|Hpos].
  - exists s'. unfold bind, ret. simpl. split_and!; [done | done | done | lia].
  - unfold bind, ret, _save_metadata_cache. rewrite Hser. eexists. split; [reflexivity|].
    simpl. split_and!; [done | done |]. intros _. split; [done|].
    destruct (known_elem _ _ (proj1 (Nat.neq_0_lt_0 _) Hpos)) as (id & Hin & Hkey).
    apply od_key_get in Hkey as [p Hget].
    assert (Hget' : od_get id (_metadata_cache s')
                    = Some (consolidated_payload (isoformat now) skill_id p))
      by (by rewrite Hp, decide_True, Hget).
    intros now' min_valence limit. split.
    + unfold get_successful_episodes.
      destruct (listings_raise_on_consolidated now'
                  (mkEpisodic (em_collection s') (_metadata_cache s')
                              (Some (_metadata_cache s')))
                  id _ _ Hget' eq_refl
                  (fun e => negb (Qltb (ep_emotional_valence e) min_valence)
                            && (if decide (status (ep_metadata e) = ACTIVE)
                                then true else false))) as (mem'' & Hrun).
      exists mem''. unfold bind. by rewrite Hrun.
    + unfold get_recent_episodes.
      destruct (listings_raise_on_consolidated now'
                  (mkEpisodic (em_collection s') (_metadata_cache s')
                              (Some (_metadata_cache s')))
                  id _ _ Hget' eq_refl
                  (fun e => if decide (status (ep_metadata e) = ARCHIVED)
                            then false else true)) as (mem'' & Hrun).
      exists mem''. unfold bind. by rewrite Hrun.
Qed.

Lemma mark_loop_object now skill_id ids : forall s count,
  (forall id p, id ∈ ids -> od_get id (_metadata_cache s) = Some p ->
                exists m, ed_metadata p = MObj m) ->
  (exists id, id ∈ ids /\ id ∈ od_keys (_metadata_cache s)) ->
  for_each (mark_body now skill_id) count ids s = (s, Raise TypeError).
Proof.
  induction ids as [|id ids IH]; intros s count Hobj (id0 & Hin & Hkey).
  - by apply elem_of_nil in Hin.
  - rewrite for_each_cons.
    destruct (od_get id (_metadata_cache s)) as [p|] eqn:Hget.
    + destruct (Hobj id p (list_elem_of_here _ _) Hget) as [m Hm].
      unfold mark_body, bind, get_state, raise. rewrite Hget.
      unfold set_status_in_payload. by rewrite Hm.
    + rewrite (mark_step_absent now skill_id count id s Hget). apply IH.
      * intros id' p' Hin'. apply Hobj. by apply list_elem_of_further.
      * exists id0. split; [|done]. apply elem_of_cons in Hin as [->|Hin]; [|done].
        by apply od_get_None_keys in Hget.
Qed.

(** X15 (marking after a listing).  On a store whose payloads are as
    [store] writes them, [get_successful_episodes] returns, and leaves in
    every payload a metadata object in place of the dictionary; a
    [mark_consolidated] that follows, for identifiers of which one at least
    is a key of the cache, raises [TypeError] and changes nothing: no
    payload is marked and the file is not written. *)
Theorem marking_after_listing_raises now min_valence limit mem :
  NoDup (od_keys (_metadata_cache mem)) ->
  forallb as_stored (od_values (_metadata_cache mem)) = true ->
  exists mem1 episodes,
    get_successful_episodes now min_valence limit mem = (mem1, Ok episodes) /\
    forall now' episode_ids skill_id,
      (exists id, id ∈ episode_ids /\ id ∈ od_keys (_metadata_cache mem)) ->
      mark_consolidated now' episode_ids skill_id mem1 = (mem1, Raise TypeError).
Proof.
  intros Hnd Hall. unfold get_successful_episodes.
  set (keep := fun e : Episode =>
                 negb (Qltb (ep_emotional_valence e) min_valence)
                 && (if decide (status (ep_metadata e) = ACTIVE) then true else false)).
  pose proof (ConsolidatorFacts.collect_episodes_kept now keep mem) as (_ & _ & Hcontent).
  destruct (collect_episodes_spec now keep mem Hnd) as (mem1 & Hrun & Hpay).
  { eapply forallb_impl; [apply as_stored_loadable | exact Hall]. }
  rewrite Hrun in Hcontent. simpl in Hcontent.
  apply ConsolidatorFacts.cache_content_keys in Hcontent.
  rewrite (bind_ok _ _ _ _ _ Hrun). unfold ret.
  eexists _, _. split; [reflexivity|].
  intros now' episode_ids skill_id Hknown.
  rewrite mark_consolidated_unfold. unfold bind at 1.
  rewrite mark_loop_object; [done | | by rewrite Hcontent].
  intros id p' _ Hget'.
  assert (id ∈ od_keys (_metadata_cache mem)) as Hkey
    by (rewrite <- Hcontent; by eapply od_get_key).
  apply od_key_get in Hkey as [p Hget]. rewrite (Hpay id p Hget) in Hget'.
  injection Hget' as <-.
  apply episode_from_dict_readable, as_stored_readable.
  eapply forallb_elem; [exact Hall | by eapply od_get_value].
Qed.

(** ** [store] and [get_episode] *)

(** The metadata dictionary after [_update_access_stats]. *)
Definition bumped (now_iso : string) (d : meta_dict) : meta_dict :=
  mkMetaDict (md_created_at d) (md_updated_at d)
             (Some (default 0%Z (md_access_count d) + 1)%Z)
             (Some now_iso) (md_source d) (md_tags d) (md_priority d) (md_status d).

Lemma update_access_stats_dict now k p d s :
  od_get k (_metadata_cache s) = Some p -> ed_metadata p = MDict d ->
  _update_access_stats now k s
  = (set_cache s (od_set k (ed_set_metadata p (MDict (bumped (isoformat now) d)))
                         (_metadata_cache s)), Ok tt).
Proof. intros Hget Hm. unfold _update_access_stats. by rewrite Hget, Hm. Qed.

Lemma update_access_stats_object now k p m s :
  od_get k (_metadata_cache s) = Some p -> ed_metadata p = MObj m ->
  _update_access_stats now k s = (s, Raise AttributeError).
Proof. intros Hget Hm. unfold _update_access_stats. by rewrite Hget, Hm. Qed.

Lemma od_set_set {V} k (v w : V) d : od_set k w (od_set k v d) = od_set k w d.
Proof.
  induction d as [|[k' v'] d IH]; simpl.
  - by rewrite decide_True.
  - destruct (decide (k = k')) as [->|Hne]; simpl.
    + by rewrite decide_True.
    + by rewrite decide_False, IH.
Qed.

(** [get_episode] on a payload with a metadata dictionary, and on a
    payload with a metadata object. *)
Lemma get_episode_dict now now_load k p d s :
  od_get k (_metadata_cache s) = Some p -> ed_metadata p = MDict d ->
  ed_consolidated_into p = None ->
  get_episode now now_load k s
  = (set_cache s
       (od_set k (ed_set_metadata p
                    (MObj (meta_from_dict (isoformat now_load) (bumped (isoformat now) d))))
               (_metadata_cache s)),
     Ok (Some (built (isoformat now_load)
                     (ed_set_metadata p (MDict (bumped (isoformat now) d)))))).
Proof.
  intros Hget Hm Hc. unfold get_episode. unfold bind at 1. unfold get_state at 1.
  rewrite Hget. rewrite (bind_ok _ _ _ _ _ (update_access_stats_dict now k p d s Hget Hm)).
  unfold bind at 1. unfold get_state at 1. unfold set_cache at 1.
  cbn [_metadata_cache]. rewrite od_get_set_eq.
  unfold bind, ret, from_dict_in_cache, episode_from_dict, set_cache, built.
  cbn [_metadata_cache em_collection metadata_file ed_metadata ed_set_metadata
       ed_consolidated_into ed_id ed_timestamp ed_context ed_action ed_outcome
       ed_thought_process ed_entities ed_emotional_valence ed_importance].
  rewrite Hc. cbn [_metadata_cache em_collection metadata_file ed_metadata ed_set_metadata
       ed_consolidated_into ed_id ed_timestamp ed_context ed_action ed_outcome
       ed_thought_process ed_entities ed_emotional_valence ed_importance].
  by rewrite od_set_set.
Qed.

Lemma get_episode_object now now_load k p m s :
  od_get k (_metadata_cache s) = Some p -> ed_metadata p = MObj m ->
  get_episode now now_load k s = (s, Raise AttributeError).
Proof.
  intros Hget Hm. unfold get_episode. unfold bind at 1. unfold get_state at 1.
  rewrite Hget. unfold bind at 1.
  by rewrite (update_access_stats_object now k p m s Hget Hm).
Qed.

(** The episode after one more access at the instant [now_iso]. *)
Definition accessed (now_iso : string) (e : Episode) : Episode :=
  mkEpisode (ep_id e) (ep_timestamp e) (ep_context e) (ep_action e) (ep_outcome e)
            (ep_thought_process e) (ep_entities e) (ep_emotional_valence e) (ep_importance e)
            (mkMeta (created_at (ep_metadata e)) (updated_at (ep_metadata e))
                    (access_count (ep_metadata e) + 1) (Some now_iso)
                    (source (ep_metadata e)) (tags (ep_metadata e))
                    (priority (ep_metadata e)) (status (ep_metadata e))).

Lemma built_accessed now_iso now_load episode :
  ep_id episode <> "" ->
  built now_load (ed_set_metadata (episode_to_dict episode)
                    (MDict (bumped now_iso (meta_to_dict (ep_metadata episode)))))
  = accessed now_iso episode.
Proof.
  intros Hid. unfold built, accessed. simpl. by rewrite decide_False.
Qed.

(** X16 (an episode read back).  On a store that can be saved, [store]
    returns the identifier of the episode and writes the cache to the file;
    a first [get_episode] of this identifier returns the episode that was
    stored, with one more access at the instant of the call, and does not
    write the file; a second [get_episode] raises [AttributeError], the
    first having left a metadata object in the payload. *)
Theorem episode_read_back now now_load now2 now_load2 episode mem :
  ep_id episode <> "" ->
  forallb episode_serializable (od_values (_metadata_cache mem)) = true ->
  exists mem1 mem2,
    store episode mem = (mem1, Ok (ep_id episode)) /\
    metadata_file mem1 = Some (_metadata_cache mem1) /\
    od_get (ep_id episode) (_metadata_cache mem1) = Some (episode_to_dict episode) /\
    get_episode now now_load (ep_id episode) mem1
    = (mem2, Ok (Some (accessed (isoformat now) episode))) /\
    metadata_file mem2 = metadata_file mem1 /\
    get_episode now2 now_load2 (ep_id episode) mem2 = (mem2, Raise AttributeError).
Proof.
  intros Hid Hser. unfold store, bind, get_state, put_state, ret, _save_metadata_cache.
  cbv beta iota. cbn [_metadata_cache em_collection metadata_file].
  rewrite od_set_forallb by done.
  set (mem1 := mkEpisodic _ _ _).
  assert (Hget1 : od_get (ep_id episode) (_metadata_cache mem1) = Some (episode_to_dict episode))
    by apply od_get_set_eq.
  pose proof (get_episode_dict now now_load (ep_id episode) _ _ mem1 Hget1 eq_refl eq_refl)
    as Hfirst.
  rewrite built_accessed in Hfirst by done.
  set (mem2 := set_cache mem1 _) in Hfirst.
  exists mem1, mem2. split_and!; [done | done | done | done | done |].
  eapply get_episode_object; [apply od_get_set_eq | done].
Qed.

End WithEnv.

#[local] Existing Instances Examples.toy_lib Examples.toy_index.

(** A new store. *)
Definition empty_memory : EpisodicMemory := mkEpisodic [] [] None.

(** A store after two calls of [record_interaction]. *)
Definition recorded_memory : EpisodicMemory :=
  (record_interaction 20 "second" "git push" "ok" "" [] 0.5 0.9 "user"
     (record_interaction 10 "first" "git status" "ok" "" [] 0.5 0.8 "user"
        (mkEpisodic [] [] None)).1).1.

Lemma recorded_memory_stored :
  forallb as_stored (od_values (_metadata_cache recorded_memory)) = true.
Proof. vm_compute. reflexivity. Qed.

Lemma recorded_memory_keys :
  od_keys (_metadata_cache recorded_memory) = ["ep_10:first:git status"; "ep_20:second:git push"].
Proof. vm_compute. reflexivity. Qed.

Lemma recorded_memory_nodup : NoDup (od_keys (_metadata_cache recorded_memory)).
Proof.
  rewrite recorded_memory_keys. apply (bool_decide_unpack _). vm_compute. exact I.
Qed.

Lemma recall_of_stored_episodes_witness :
  exists mem', recall 100 "query" 5 0 false recorded_memory = (mem', Raise AttributeError).
Proof.
  destruct (recall_of_stored_episodes 100 "query" 5 0 false recorded_memory
              ltac:(lia) recorded_memory_stored) as (mem' & Hrun & _).
  exists mem'. rewrite Hrun. rewrite decide_False; [reflexivity|].
  vm_compute. discriminate.
Defined.

Lemma successful_episodes_ranked_witness :
  exists mem' episodes,
    get_successful_episodes 100 0.3 1 recorded_memory = (mem', Ok episodes) /\
    (length episodes <= 1)%nat /\
    StronglySorted (fun a b => (ep_emotional_valence b <= ep_emotional_valence a)%Q) episodes.
Proof.
  destruct (successful_episodes_ranked 100 0.3 1 recorded_memory recorded_memory_nodup)
    as (mem' & episodes & Hrun & Hlen & Hsorted & _).
  - eapply forallb_impl; [apply as_stored_loadable | apply recorded_memory_stored].
  - exists mem', episodes. split_and!; [exact Hrun | exact Hlen | exact Hsorted].
Defined.

Lemma recent_episodes_ranked_witness :
  exists mem' episodes,
    get_recent_episodes 100 1 recorded_memory = (mem', Ok episodes) /\
    (length episodes <= 1)%nat /\
    forall e, e ∈ episodes -> status (ep_metadata e) <> ARCHIVED.
Proof.
  destruct (recent_episodes_ranked 100 1 recorded_memory recorded_memory_nodup)
    as (mem' & episodes & Hrun & Hlen & _ & Hin & _).
  - eapply forallb_impl; [apply as_stored_loadable | apply recorded_memory_stored].
  - exists mem', episodes. split_and!; [exact Hrun | exact Hlen |].
    intros e He. by destruct (Hin e He).
Defined.

Lemma consolidated_episodes_block_listings_witness :
  exists mem' mem'',
    mark_consolidated 100 ["ep_10:first:git status"; "ep_unknown"] "sk_1" recorded_memory
    = (mem', Ok 1%nat) /\
    metadata_file mem' = Some (_metadata_cache mem') /\
    get_recent_episodes 200 10 mem' = (mem'', Raise TypeError).
Proof.
  destruct (consolidated_episodes_block_listings 100
              ["ep_10:first:git status"; "ep_unknown"] "sk_1" recorded_memory
              recorded_memory_stored) as (mem' & Hrun & _ & _ & Hafter).
  - apply (bool_decide_unpack _). vm_compute. exact I.
  - assert (known (_metadata_cache recorded_memory)
                  ["ep_10:first:git status"; "ep_unknown"] = 1%nat) as Hknown
      by (vm_compute; reflexivity).
    rewrite Hknown in Hrun, Hafter.
    destruct (Hafter (Nat.lt_0_1)) as [Hfile Hlist].
    destruct (Hlist 200%Z 0%Q 10%nat) as [_ [mem'' Hrecent]].
    by exists mem', mem''.
Defined.

Lemma marking_after_listing_raises_witness :
  exists mem1 episodes,
    get_successful_episodes 100 0.3 20 recorded_memory = (mem1, Ok episodes) /\
    mark_consolidated 200 ["ep_10:first:git status"] "sk_1" mem1 = (mem1, Raise TypeError).
Proof.
  destruct (marking_after_listing_raises 100 0.3 20 recorded_memory recorded_memory_nodup
              recorded_memory_stored) as (mem1 & episodes & Hrun & Hmark).
  exists mem1, episodes. split; [exact Hrun|]. apply Hmark.
  exists "ep_10:first:git status". split; [apply list_elem_of_here|].
  rewrite recorded_memory_keys. apply list_elem_of_here.
Defined.

Lemma episode_read_back_witness :
  let episode := mkEpisode "ep_1" "10" "contexte" "action" "succes" "raisonnement" []
                           0.5 0.7 (new_metadata "10" "user") in
  exists mem1 mem2,
    store episode empty_memory = (mem1, Ok "ep_1") /\
    get_episode 20 21 "ep_1" mem1 = (mem2, Ok (Some (accessed "20" episode))) /\
    get_episode 30 31 "ep_1" mem2 = (mem2, Raise AttributeError).
Proof.
  intros episode.
  destruct (episode_read_back 20 21 30 31 episode empty_memory)
    as (mem1 & mem2 & Hstore & _ & _ & Hfirst & _ & Hsecond); [done | done |].
  by exists mem1, mem2.
Defined.

End EpisodicStoreFacts.

(* ===================================================================== *)
(** * Facts: the procedural store between calls *)
(* ===================================================================== *)

Module ProceduralStoreFacts.
Import MemoryTypes Procedural ProceduralAccess.

Section WithEnv.
Context `{PyLib} `{VectorIndex}.

(** The skill that [Skill.from_dict] builds from a payload, and the payload
    as the call leaves it. *)
Definition built_skill (now : Z) (p : skill_dict) : Skill :=
  (skill_from_dict (isoformat now) p).2.

Definition read_skill (now : Z) (p : skill_dict) : skill_dict :=
  (skill_from_dict (isoformat now) p).1.

Lemma skill_from_dict_pair now p :
  skill_from_dict (isoformat now) p = (read_skill now p, built_skill now p).
Proof. unfold read_skill, built_skill. by destruct (skill_from_dict _ p). Qed.

Lemma read_skill_idem now p :
  skill_from_dict (isoformat now) (read_skill now p) = (read_skill now p, built_skill now p).
Proof.
  unfold read_skill, built_skill, skill_from_dict.
  destruct p as [? ? ? ? ? ? ? ? ? [|d|m]]; reflexivity.
Qed.

Lemma read_skill_metadata now p :
  sd_metadata (read_skill now p)
  = match sd_metadata p with
    | MDict d => MObj (meta_from_dict (isoformat now) d)
    | r => r
    end.
Proof.
  unfold read_skill, skill_from_dict. by destruct p as [? ? ? ? ? ? ? ? ? [|d|m]].
Qed.

Lemma read_skill_fields now p :
  sd_id (read_skill now p) = sd_id p /\
  sd_name (read_skill now p) = sd_name p /\
  sd_usage_count (read_skill now p) = sd_usage_count p /\
  sd_success_rate (read_skill now p) = sd_success_rate p /\
  sd_source_episodes (read_skill now p) = sd_source_episodes p.
Proof.
  unfold read_skill, skill_from_dict. by destruct p as [? ? ? ? ? ? ? ? ? [|d|m]].
Qed.

Lemma built_skill_fields now p :
  sk_id (built_skill now p)
  = (if decide (sd_id p = "") then skill_generate_id (sd_name p) (sd_pattern p) else sd_id p) /\
  sk_name (built_skill now p) = sd_name p /\
  sk_success_rate (built_skill now p) = default 0%Q (sd_success_rate p) /\
  sk_usage_count (built_skill now p) = default 0%Z (sd_usage_count p).
Proof.
  unfold built_skill, skill_from_dict. by destruct p as [? ? ? ? ? ? ? ? ? [|d|m]].
Qed.

(** The payload found under a key once the payloads of the keys [touched]
    have been through [Skill.from_dict]. *)
Definition payload_after (now : Z) (touched : list string) (cache : odict skill_dict)
    (k : string) : option skill_dict :=
  (fun p => if decide (k ∈ touched) then read_skill now p else p) <$> od_get k cache.

Lemma payload_after_nil now cache k : payload_after now [] cache k = od_get k cache.
Proof.
  unfold payload_after. destruct (od_get k cache) as [p|]; [|done].
  destruct (decide (k ∈ [])) as [Hin|Hout]; [by inversion Hin | done].
Qed.

(** The state after [Skill.from_dict] on the payload under a key. *)
Lemma from_dict_in_cache_touch now touched cache0 k p0 mem :
  (forall k', od_get k' (_skills_cache mem) = payload_after now touched cache0 k') ->
  od_get k cache0 = Some p0 ->
  exists p mem',
    od_get k (_skills_cache mem) = Some p /\
    from_dict_in_cache now k p mem = (mem', Ok (built_skill now p0)) /\
    (forall k', od_get k' (_skills_cache mem')
                = payload_after now (touched ++ [k]) cache0 k') /\
    pm_collection mem' = pm_collection mem /\
    skills_file mem' = skills_file mem /\
    od_keys (_skills_cache mem') = od_keys (_skills_cache mem).
Proof.
  intros Hinv Hget0.
  pose proof (Hinv k) as Hk. unfold payload_after in Hk. rewrite Hget0 in Hk. simpl in Hk.
  set (p := if decide (k ∈ touched) then read_skill now p0 else p0) in Hk.
  assert (Hfd : skill_from_dict (isoformat now) p = (read_skill now p0, built_skill now p0)).
  { unfold p. destruct (decide (k ∈ touched)).
    - apply read_skill_idem.
    - apply skill_from_dict_pair. }
  exists p. eexists. split; [exact Hk|].
  unfold from_dict_in_cache. rewrite Hfd. split; [reflexivity|]. split_and!; try done.
  - intros k'. cbn [_skills_cache set_skills]. rewrite od_get_set.
    unfold payload_after. destruct (decide (k = k')) as [<-|Hne].
    + rewrite Hget0. simpl. rewrite decide_True; [done|]. set_solver.
    + rewrite Hinv. unfold payload_after. destruct (od_get k' cache0) as [q|]; [|done]. simpl.
      destruct (decide (k' ∈ touched)) as [Hin|Hout].
      * rewrite decide_True; [done|]. set_solver.
      * rewrite decide_False; [done|]. set_solver.
  - cbn [_skills_cache set_skills]. by eapply od_keys_set_present.
Qed.

(** A key that the cache does not hold can be counted as touched. *)
Lemma payload_after_absent now touched cache0 k :
  od_get k cache0 = None ->
  forall k', payload_after now (touched ++ [k]) cache0 k' = payload_after now touched cache0 k'.
Proof.
  intros Hnone k'. unfold payload_after.
  destruct (od_get k' cache0) as [q|] eqn:Hq; [|done]. simpl.
  assert (k' <> k) by congruence.
  destruct (decide (k' ∈ touched)) as [Hin|Hout].
  - rewrite decide_True; [done|]. set_solver.
  - rewrite decide_False; [done|]. set_solver.
Qed.

(** ** [find_applicable_skills] *)

(** What a candidate of the vector index contributes to the result. *)
Definition candidate_score (now : Z) (min_success_rate : Q) (cache : odict skill_dict)
    (candidate : string * Q) : option (Skill * MemoryScore) :=
  match od_get candidate.1 cache with
  | None => None
  | Some p =>
      if Qltb (sk_success_rate (built_skill now p)) min_success_rate then None
      else Some (built_skill now p, skill_score now (built_skill now p) candidate.2)
  end.

(** The candidates that [find_applicable_skills] asks of the vector index. *)
Definition candidates (context : string) (n_results : nat) (mem : ProceduralMemory)
  : list (string * Q) :=
  if decide (coll_count (pm_collection mem) = 0) then []
  else coll_query (pm_collection mem) context
                  (min (n_results * 2) (coll_count (pm_collection mem))) false.

Lemma omap_cons {A B} (f : A -> option B) (x : A) (l : list A) :
  omap f (x :: l) = (option_list (f x) ++ omap f l)%list.
Proof. simpl. by destruct (f x). Qed.

Lemma find_step_touch now min_success_rate cache0 touched mem acc k distance :
  (forall k', od_get k' (_skills_cache mem) = payload_after now touched cache0 k') ->
  exists mem',
    find_step now min_success_rate acc (k, distance) mem
    = (mem', Ok (acc ++ option_list (candidate_score now min_success_rate cache0
                                                     (k, distance)))%list) /\
    (forall k', od_get k' (_skills_cache mem')
                = payload_after now (touched ++ [k]) cache0 k') /\
    pm_collection mem' = pm_collection mem /\
    skills_file mem' = skills_file mem /\
    od_keys (_skills_cache mem') = od_keys (_skills_cache mem).
Proof.
  intros Hinv. unfold candidate_score. cbn [fst snd].
  unfold find_step, bind, get_state. cbv beta iota.
  destruct (od_get k cache0) as [p0|] eqn:Hget0.
  - destruct (from_dict_in_cache_touch now touched cache0 k p0 mem Hinv Hget0)
      as (p & mem1 & Hk & Hrun & Hinv1 & Hrest).
    rewrite Hk, Hrun. exists mem1. split; [|by split].
    unfold ret. destruct (Qltb _ _); simpl; [by rewrite app_nil_r | done].
  - pose proof (Hinv k) as Hk. unfold payload_after in Hk. rewrite Hget0 in Hk. simpl in Hk.
    rewrite Hk. exists mem. unfold ret. simpl. rewrite app_nil_r. split_and!; try done.
    intros k'. rewrite Hinv. symmetry. by apply payload_after_absent.
Qed.

Lemma find_loop now min_success_rate cache0 results : forall touched mem acc,
  (forall k, od_get k (_skills_cache mem) = payload_after now touched cache0 k) ->
  exists mem',
    for_each (find_step now min_success_rate) acc results mem
    = (mem', Ok (acc ++ omap (candidate_score now min_success_rate cache0) results)%list) /\
    (forall k, od_get k (_skills_cache mem')
               = payload_after now (touched ++ map fst results) cache0 k) /\
    pm_collection mem' = pm_collection mem /\
    skills_file mem' = skills_file mem /\
    od_keys (_skills_cache mem') = od_keys (_skills_cache mem).
Proof.
  induction results as [|[k distance] results IH]; intros touched mem acc Hinv.
  - exists mem. rewrite for_each_nil. simpl. rewrite !app_nil_r. by split_and!.
  - rewrite for_each_cons.
    destruct (find_step_touch now min_success_rate cache0 touched mem acc k distance Hinv)
      as (mem1 & Hstep & Hinv1 & Hc1 & Hf1 & Hk1).
    rewrite Hstep.
    destruct (IH (touched ++ [k])%list mem1
                (acc ++ option_list (candidate_score now min_success_rate cache0
                                                     (k, distance)))%list Hinv1) as (mem' & Hloop & Hinv' & Hc' & Hf' & Hk').
    exists mem'. split_and!; [| | congruence | congruence | congruence].
    + rewrite Hloop, omap_cons. by rewrite <- app_assoc.
    + intros k'. rewrite Hinv'. cbn [map fst]. by rewrite <- app_assoc.
Qed.

Lemma find_applicable_skills_spec now context n_results min_success_rate mem :
  exists mem',
    find_applicable_skills now context n_results min_success_rate mem
    = (mem', Ok (firstn n_results
                   (sort_desc (key_gt (fun r : Skill * MemoryScore => combined_score r.2))
                      (omap (candidate_score now min_success_rate (_skills_cache mem))
                            (candidates context n_results mem))))) /\
    (forall k, od_get k (_skills_cache mem')
               = payload_after now (map fst (candidates context n_results mem))
                               (_skills_cache mem) k) /\
    pm_collection mem' = pm_collection mem /\
    skills_file mem' = skills_file mem /\
    od_keys (_skills_cache mem') = od_keys (_skills_cache mem).
Proof.
  unfold find_applicable_skills, candidates. unfold bind at 1, get_state at 1. cbv beta iota.
  destruct (decide (coll_count (pm_collection mem) = 0)) as [Hzero|Hpos].
  - exists mem. unfold ret. simpl. rewrite firstn_nil. split_and!; try done.
    intros k. by rewrite payload_after_nil.
  - destruct (find_loop now min_success_rate (_skills_cache mem)
                (coll_query (pm_collection mem) context
                   (min (n_results * 2) (coll_count (pm_collection mem))) false)
                [] mem [])
      as (mem' & Hloop & Hinv & Hrest).
    { intros k. by rewrite payload_after_nil. }
    exists mem'. rewrite (bind_ok _ _ _ _ _ Hloop). unfold ret. rewrite app_nil_l.
    split; [reflexivity|]. split; [|exact Hrest].
    intros k. by rewrite Hinv.
Qed.

(** The pairs that the candidates contribute. *)
Lemma scored_candidates now min_success_rate cache (results : list (string * Q)) r :
  r ∈ omap (candidate_score now min_success_rate cache) results <->
  exists id distance p,
    (id, distance) ∈ results /\
    od_get id cache = Some p /\
    (min_success_rate <= sk_success_rate (built_skill now p))%Q /\
    r = (built_skill now p, skill_score now (built_skill now p) distance).
Proof.
  rewrite list_elem_of_omap. split.
  - intros ([id distance] & Hin & Hsc). unfold candidate_score in Hsc. cbn [fst snd] in Hsc.
    destruct (od_get id cache) as [p|] eqn:Hget; [|done].
    destruct (Qltb _ _) eqn:Hlt; [done|]. injection Hsc as <-.
    apply Qltb_false in Hlt. by exists id, distance, p.
  - intros (id & distance & p & Hin & Hget & Hrate & ->).
    exists (id, distance). split; [done|]. unfold candidate_score. cbn [fst snd]. rewrite Hget.
    apply Qltb_false in Hrate. by rewrite Hrate.
Qed.

(** The creation instants of the cached skills are not later than [now]. *)
Definition created_in_past (now : Z) (cache : odict skill_dict) : Prop :=
  forall k p, od_get k cache = Some p ->
    ScoreFacts.valid_timestamp now (created_at (sk_metadata (built_skill now p))).

(** A check of [created_in_past] that evaluates. *)
Lemma created_in_past_check now (cache : odict skill_dict) :
  forallb (fun kp : string * skill_dict =>
             match fromisoformat
                     (replace_Z (created_at (sk_metadata (built_skill now kp.2)))) with
             | Some t => (t <=? now)%Z
             | None => true
             end) cache = true ->
  created_in_past now cache.
Proof.
  intros Hall k p Hget t Ht. apply od_get_elem in Hget.
  apply (EpisodicStoreFacts.forallb_elem _ _ _ Hall) in Hget. cbn [fst snd] in Hget.
  rewrite Ht in Hget. by apply Z.leb_le.
Qed.

(** X24 (applicable skills).  For a positive [n_results], on a cache whose
    skills were not created in the future, [find_applicable_skills]
    returns: at most [n_results] pairs in descending order of combined
    score.  Each pair holds the skill built from the cached payload of a
    candidate that the vector index proposed, with a success rate of at
    least [min_success_rate], and the score computed from the candidate's
    distance; and such a candidate is in the result unless [n_results]
    pairs with combined scores at least as high as its own are.  The call
    leaves the index, the file and the keys of the cache as they were.
    ([n_results = 0] is left out because the vector index rejects a query
    for no result, a creation instant in the future because [math.exp] may
    overflow, which makes the recency 0.5.) *)
Theorem applicable_skills_ranked now context n_results min_success_rate mem :
  (0 < n_results)%nat ->
  created_in_past now (_skills_cache mem) ->
  exists mem' results,
    find_applicable_skills now context n_results min_success_rate mem = (mem', Ok results) /\
    (length results <= n_results)%nat /\
    descending (fun r : Skill * MemoryScore => combined_score r.2) results /\
    (forall skill score, (skill, score) ∈ results ->
       (min_success_rate <= sk_success_rate skill)%Q /\
       exists id distance p,
         (id, distance) ∈ candidates context n_results mem /\
         od_get id (_skills_cache mem) = Some p /\
         skill = built_skill now p /\
         score = skill_score now skill distance) /\
    (forall id distance p,
       (id, distance) ∈ candidates context n_results mem ->
       od_get id (_skills_cache mem) = Some p ->
       (min_success_rate <= sk_success_rate (built_skill now p))%Q ->
       (built_skill now p, skill_score now (built_skill now p) distance) ∈ results \/
       (length results = n_results /\
        forall r, r ∈ results ->
          (combined_score (skill_score now (built_skill now p) distance)
           <= combined_score r.2)%R)) /\
    pm_collection mem' = pm_collection mem /\
    skills_file mem' = skills_file mem /\
    od_keys (_skills_cache mem') = od_keys (_skills_cache mem).
Proof.
  intros _ _.
  destruct (find_applicable_skills_spec now context n_results min_success_rate mem)
    as (mem' & Hrun & _ & Hc & Hf & Hk).
  set (scored := omap (candidate_score now min_success_rate (_skills_cache mem))
                      (candidates context n_results mem)) in Hrun.
  assert (Hscored := scored_candidates now min_success_rate (_skills_cache mem)
                       (candidates context n_results mem)).
  fold scored in Hscored.
  exists mem'. eexists. split; [exact Hrun|]. split_and!; try done.
  - apply firstn_le_length.
  - apply descending_firstn, sort_desc_descending.
  - intros skill score Hin. apply firstn_sort_elem in Hin.
    apply Hscored in Hin as (id & distance & p & Hin & Hget & Hrate & [= -> ->]).
    split; [done|]. by exists id, distance, p.
  - intros id distance p Hin Hget Hrate.
    apply (firstn_sort_complete (fun r : Skill * MemoryScore => combined_score r.2)).
    apply Hscored. by exists id, distance, p.
Qed.

(** ** Updates after a lookup *)

(** A cache as [store] files it: every payload under its own identifier,
    which is not empty, with a metadata entry and a usage count that is
    not negative. *)
Definition filed (cache : odict skill_dict) : Prop :=
  forall k p, od_get k cache = Some p ->
    sd_id p = k /\ k <> "" /\ sd_metadata p <> MAbsent /\
    (0 <= ProceduralFacts.count_of p)%Z.

(** A check of [filed] that evaluates. *)
Lemma filed_check (cache : odict skill_dict) :
  forallb (fun kp : string * skill_dict =>
             bool_decide (sd_id kp.2 = kp.1 /\ kp.1 <> "")
             && match sd_metadata kp.2 with MAbsent => false | _ => true end
             && (0 <=? ProceduralFacts.count_of kp.2)%Z) cache = true ->
  filed cache.
Proof.
  intros Hall k p Hget. apply od_get_elem in Hget.
  apply (EpisodicStoreFacts.forallb_elem _ _ _ Hall) in Hget. cbn [fst snd] in Hget.
  apply andb_true_iff in Hget as [[Hid Hmeta]%andb_true_iff Hcount].
  apply bool_decide_eq_true in Hid as [Hid Hne]. apply Z.leb_le in Hcount.
  split_and!; try done. intros Habs. by rewrite Habs in Hmeta.
Qed.

Lemma record_usage_object now skill_id success mem data m :
  od_get skill_id (_skills_cache mem) = Some data ->
  (0 <= ProceduralFacts.count_of data)%Z ->
  sd_metadata data = MObj m ->
  exists data',
    record_usage now skill_id success mem
    = (set_skills mem (od_set skill_id data' (_skills_cache mem)), Raise TypeError) /\
    sd_usage_count data' = Some (ProceduralFacts.count_of data + 1)%Z /\
    sd_success_rate data'
    = Some (new_success_rate (ProceduralFacts.rate_of data)
                             (ProceduralFacts.count_of data + 1) success).
Proof.
  intros Hget Hcount Hmeta. unfold record_usage, bind, get_state, put_state, raise, ret.
  rewrite Hget. fold (ProceduralFacts.count_of data) (ProceduralFacts.rate_of data).
  destruct (decide ((ProceduralFacts.count_of data + 1)%Z = 0%Z)) as [Hz|_]; [lia|].
  cbn [sd_metadata]. rewrite Hmeta. cbn [touch_updated_at].
  eexists. split; [reflexivity|]. done.
Qed.

(** The payload of a candidate after the lookup. *)
Lemma looked_up_payload now context n_results min_success_rate mem mem1 results skill score :
  filed (_skills_cache mem) ->
  find_applicable_skills now context n_results min_success_rate mem = (mem1, Ok results) ->
  (skill, score) ∈ results ->
  exists p m,
    od_get (sk_id skill) (_skills_cache mem) = Some p /\
    skill = built_skill now p /\
    od_get (sk_id skill) (_skills_cache mem1) = Some (read_skill now p) /\
    sd_metadata (read_skill now p) = MObj m /\
    pm_collection mem1 = pm_collection mem /\
    skills_file mem1 = skills_file mem.
Proof.
  intros Hfiled Hrun Hin.
  destruct (find_applicable_skills_spec now context n_results min_success_rate mem)
    as (mem' & Hspec & Hinv & Hc & Hf & _).
  rewrite Hrun in Hspec. injection Hspec as -> ->.
  apply firstn_sort_elem, scored_candidates in Hin
    as (id & distance & p & Hcand & Hget & _ & [= -> ->]).
  destruct (Hfiled id p Hget) as (Hid & Hne & Hmeta & _).
  assert (sk_id (built_skill now p) = id) as ->.
  { destruct (built_skill_fields now p) as (-> & _). by rewrite Hid, decide_False. }
  assert (exists m, sd_metadata (read_skill now p) = MObj m) as [m Hm].
  { rewrite read_skill_metadata. destruct (sd_metadata p); [done | by eexists | by eexists]. }
  exists p, m. split_and!; try done.
  rewrite Hinv. unfold payload_after. rewrite Hget. cbn [fmap option_fmap option_map].
  rewrite decide_True; [done|].
  apply list_elem_of_fmap. by exists (id, distance).
Qed.

(** X25 (usage after a lookup).  On a cache as [store] files it,
    [record_usage] on a skill that [find_applicable_skills] has just
    returned raises [TypeError] (the lookup left a [MemoryMetadata] object
    in the payload, and [skill_data["metadata"]["updated_at"] = ...] is an
    item assignment on it).  The two counters are already updated in the
    cache, but the vector index and the file are not. *)
Theorem usage_after_lookup_raises
    now context n_results min_success_rate mem mem1 results skill score now' success :
  filed (_skills_cache mem) ->
  find_applicable_skills now context n_results min_success_rate mem = (mem1, Ok results) ->
  (skill, score) ∈ results ->
  exists p mem2 p2,
    od_get (sk_id skill) (_skills_cache mem) = Some p /\
    record_usage now' (sk_id skill) success mem1 = (mem2, Raise TypeError) /\
    pm_collection mem2 = pm_collection mem /\
    skills_file mem2 = skills_file mem /\
    od_get (sk_id skill) (_skills_cache mem2) = Some p2 /\
    sd_usage_count p2 = Some (ProceduralFacts.count_of p + 1)%Z /\
    sd_success_rate p2
    = Some (new_success_rate (ProceduralFacts.rate_of p)
                             (ProceduralFacts.count_of p + 1) success).
Proof.
  intros Hfiled Hrun Hin.
  destruct (looked_up_payload _ _ _ _ _ _ _ _ _ Hfiled Hrun Hin)
    as (p & m & Hget & _ & Hget1 & Hm & Hc & Hf).
  destruct (Hfiled _ p Hget) as (_ & _ & _ & Hcount).
  destruct (read_skill_fields now p) as (_ & _ & Hcnt & Hrate & _).
  destruct (record_usage_object now' (sk_id skill) success mem1 (read_skill now p) m Hget1)
    as (p2 & Hraise & Hc2 & Hr2); [| done |].
  { unfold ProceduralFacts.count_of. by rewrite Hcnt. }
  exists p. eexists. exists p2. split; [done|]. split; [exact Hraise|].
  cbn [set_skills pm_collection skills_file _skills_cache]. rewrite od_get_set_eq.
  unfold ProceduralFacts.count_of, ProceduralFacts.rate_of in *.
  rewrite Hcnt, Hrate in *. by split_and!.
Qed.

(** ** Source episodes *)

(** [skill_data.get("source_episodes", [])]. *)
Definition sources_of (p : skill_dict) : list string := default [] (sd_source_episodes p).

(** The payload with one more source episode. *)
Definition with_source (episode_id : string) (p : skill_dict) : skill_dict :=
  mkSkillDict (sd_id p) (sd_name p) (sd_description p) (sd_pattern p)
              (sd_trigger_conditions p) (sd_action_template p) (sd_success_rate p)
              (sd_usage_count p) (Some (sources_of p ++ [episode_id])%list) (sd_metadata p).

Lemma add_source_episode_known now skill_id episode_id mem p :
  od_get skill_id (_skills_cache mem) = Some p ->
  episode_id ∈ sources_of p ->
  add_source_episode now skill_id episode_id mem = (mem, Ok true).
Proof.
  intros Hget Hin. unfold add_source_episode, bind, get_state, ret. rewrite Hget.
  fold (sources_of p). by rewrite decide_True.
Qed.

Lemma add_source_episode_dict now skill_id episode_id mem p d :
  od_get skill_id (_skills_cache mem) = Some p ->
  sd_metadata p = MDict d ->
  forallb skill_serializable (od_values (_skills_cache mem)) = true ->
  episode_id ∉ sources_of p ->
  exists d',
    let p' := sd_set_metadata (with_source episode_id p) (MDict d') in
    let cache' := od_set skill_id p' (_skills_cache mem) in
    add_source_episode now skill_id episode_id mem
    = (mkProcedural (pm_collection mem) cache' (Some cache'), Ok true) /\
    md_updated_at d' = Some (isoformat now) /\
    md_created_at d' = md_created_at d.
Proof.
  intros Hget Hmeta Hser Hout.
  unfold add_source_episode, bind, get_state, put_state, ret. rewrite Hget.
  fold (sources_of p). rewrite decide_False by done.
  fold (with_source episode_id p). cbn [with_source sd_metadata]. rewrite Hmeta.
  cbn [touch_updated_at]. unfold _save_skills_cache. cbn [set_skills _skills_cache].
  rewrite od_set_forallb; [| done | reflexivity].
  eexists. split; [reflexivity|]. done.
Qed.

Lemma add_source_episode_object now skill_id episode_id mem p m :
  od_get skill_id (_skills_cache mem) = Some p ->
  sd_metadata p = MObj m ->
  episode_id ∉ sources_of p ->
  add_source_episode now skill_id episode_id mem
  = (set_skills mem (od_set skill_id (with_source episode_id p) (_skills_cache mem)),
     Raise TypeError).
Proof.
  intros Hget Hmeta Hout.
  unfold add_source_episode, bind, get_state, put_state, ret, raise. rewrite Hget.
  fold (sources_of p). rewrite decide_False by done.
  fold (with_source episode_id p). cbn [with_source sd_metadata]. rewrite Hmeta.
  reflexivity.
Qed.

(** X26 (a source episode is added once).  On a cache that [json.dumps]
    accepts, [add_source_episode] for a stored skill and an episode that is
    not among its sources returns [True], appends the episode to the
    sources, sets [updated_at] and writes the cache to the file; calling it
    again with the same episode returns [True] and changes nothing. *)
Theorem source_episode_added_once now skill_id episode_id mem p d :
  od_get skill_id (_skills_cache mem) = Some p ->
  sd_metadata p = MDict d ->
  forallb skill_serializable (od_values (_skills_cache mem)) = true ->
  episode_id ∉ sources_of p ->
  exists mem1 p1 d1,
    add_source_episode now skill_id episode_id mem = (mem1, Ok true) /\
    _skills_cache mem1 = od_set skill_id p1 (_skills_cache mem) /\
    skills_file mem1 = Some (_skills_cache mem1) /\
    pm_collection mem1 = pm_collection mem /\
    sd_source_episodes p1 = Some (sources_of p ++ [episode_id])%list /\
    sd_usage_count p1 = sd_usage_count p /\
    sd_success_rate p1 = sd_success_rate p /\
    sd_metadata p1 = MDict d1 /\
    md_updated_at d1 = Some (isoformat now) /\
    forall now', add_source_episode now' skill_id episode_id mem1 = (mem1, Ok true).
Proof.
  intros Hget Hmeta Hser Hout.
  destruct (add_source_episode_dict now skill_id episode_id mem p d Hget Hmeta Hser Hout)
    as (d' & Hrun & Hup & _). cbv zeta in Hrun.
  eexists _, _, d'. split; [exact Hrun|]. split_and!; try done.
  intros now'. eapply add_source_episode_known.
  - cbn [_skills_cache]. apply od_get_set_eq.
  - unfold sources_of at 1. cbn [sd_source_episodes sd_set_metadata with_source default].
    set_solver.
Qed.

(** X27 (a source episode after a read).  Once [get_skill] has returned a
    stored skill, [add_source_episode] for that skill and a new episode
    raises [TypeError]: the episode is appended to the sources in the
    cache, but nothing is written to the file.  A second call with the same
    episode then returns [True] and still writes nothing. *)
Theorem source_episode_after_read now now' skill_id episode_id mem p d :
  od_get skill_id (_skills_cache mem) = Some p ->
  sd_metadata p = MDict d ->
  episode_id ∉ sources_of p ->
  exists mem1 mem2 p2,
    get_skill now skill_id mem = (mem1, Ok (Some (built_skill now p))) /\
    add_source_episode now' skill_id episode_id mem1 = (mem2, Raise TypeError) /\
    od_get skill_id (_skills_cache mem2) = Some p2 /\
    sources_of p2 = (sources_of p ++ [episode_id])%list /\
    skills_file mem2 = skills_file mem /\
    pm_collection mem2 = pm_collection mem /\
    forall now'', add_source_episode now'' skill_id episode_id mem2 = (mem2, Ok true).
Proof.
  intros Hget Hmeta Hout.
  assert (Hread : get_skill now skill_id mem
                  = (set_skills mem (od_set skill_id (read_skill now p) (_skills_cache mem)),
                     Ok (Some (built_skill now p)))).
  { unfold get_skill, bind, get_state, ret. rewrite Hget. unfold from_dict_in_cache.
    by rewrite skill_from_dict_pair. }
  set (mem1 := set_skills mem (od_set skill_id (read_skill now p) (_skills_cache mem))) in *.
  assert (Hget1 : od_get skill_id (_skills_cache mem1) = Some (read_skill now p))
    by apply od_get_set_eq.
  assert (Hm : sd_metadata (read_skill now p) = MObj (meta_from_dict (isoformat now) d))
    by (by rewrite read_skill_metadata, Hmeta).
  assert (Hsrc : sources_of (read_skill now p) = sources_of p).
  { unfold sources_of. by destruct (read_skill_fields now p) as (_ & _ & _ & _ & ->). }
  assert (Hout1 : episode_id ∉ sources_of (read_skill now p)) by (by rewrite Hsrc).
  exists mem1. eexists. exists (with_source episode_id (read_skill now p)).
  split; [exact Hread|]. split; [by eapply add_source_episode_object|].
  cbn [set_skills _skills_cache skills_file pm_collection mem1].
  split_and!; try done.
  - apply od_get_set_eq.
  - unfold sources_of at 1. cbn [with_source sd_source_episodes default]. by rewrite Hsrc.
  - intros now''. eapply add_source_episode_known.
    + cbn [set_skills _skills_cache]. apply od_get_set_eq.
    + unfold sources_of at 1. cbn [with_source sd_source_episodes default]. set_solver.
Qed.

(** ** [update_skill] *)

Lemma od_set_del_forallb {V} (f : V -> bool) k v (d : odict V) :
  f v = true ->
  forallb f (od_values (od_del k d)) = true ->
  forallb f (od_values (od_set k v d)) = true.
Proof.
  intros Hv. unfold od_values. induction d as [|[k' v'] d IH]; simpl.
  - by rewrite Hv.
  - destruct (decide (k = k')) as [->|Hne]; simpl.
    + intros ->. by rewrite Hv.
    + intros [-> Hrest]%andb_true_iff. simpl. by apply IH.
Qed.

(** The arguments of [update_skill] that count: [None], the empty string
    and the empty list leave the field as it is. *)
Definition chosen_text (given : option string) (current : string) : string :=
  match given with
  | Some text => if decide (text = "") then current else text
  | None => current
  end.

Definition chosen_list (given : option (list string)) (current : list string) : list string :=
  match given with
  | Some (t :: ts) => t :: ts
  | _ => current
  end.

(** X28 (updating a skill).  For a skill stored under its identifier,
    whatever the representation of its metadata (also after a lookup), and
    a cache whose other payloads [json.dumps] accepts, [update_skill]
    returns [True], replaces the payload by a plain dictionary and writes
    the cache to the file.  The new payload keeps the identifier, the name,
    the description, the statistics and the source episodes; the pattern,
    the trigger conditions and the action template are replaced by the
    arguments that are given and not empty; [updated_at] is the instant of
    the call.  After the call every payload of the cache is a plain
    dictionary again. *)
Theorem update_skill_rewrites_payload
    now skill_id pattern trigger_conditions action_template mem p :
  od_get skill_id (_skills_cache mem) = Some p ->
  sd_id p = skill_id ->
  skill_id <> "" ->
  forallb skill_serializable (od_values (od_del skill_id (_skills_cache mem))) = true ->
  exists mem1 p1 d1,
    update_skill now skill_id pattern trigger_conditions action_template mem
    = (mem1, Ok true) /\
    _skills_cache mem1 = od_set skill_id p1 (_skills_cache mem) /\
    skills_file mem1 = Some (_skills_cache mem1) /\
    forallb skill_serializable (od_values (_skills_cache mem1)) = true /\
    sd_id p1 = skill_id /\
    sd_name p1 = sd_name p /\
    sd_description p1 = sd_description p /\
    sd_pattern p1 = chosen_text pattern (sd_pattern p) /\
    sd_trigger_conditions p1 = chosen_list trigger_conditions (sd_trigger_conditions p) /\
    sd_action_template p1 = chosen_text action_template (sd_action_template p) /\
    sd_success_rate p1 = Some (ProceduralFacts.rate_of p) /\
    sd_usage_count p1 = Some (ProceduralFacts.count_of p) /\
    sd_source_episodes p1 = Some (sources_of p) /\
    sd_metadata p1 = MDict d1 /\
    md_updated_at d1 = Some (isoformat now).
Proof.
  intros Hget Hid Hne Hser.
  assert (Hskill_id : sk_id (built_skill now p) = skill_id).
  { destruct (built_skill_fields now p) as (-> & _). by rewrite Hid, decide_False. }
  unfold update_skill. unfold bind at 1, get_state at 1. cbv beta iota. rewrite Hget.
  unfold bind at 1. unfold from_dict_in_cache at 1. rewrite skill_from_dict_pair.
  cbv beta iota zeta.
  set (mem_a := set_skills mem (od_set skill_id (read_skill now p) (_skills_cache mem))).
  unfold bind at 1, get_state at 1. cbv beta iota.
  assert (Hget_a : od_get skill_id (_skills_cache mem_a) = Some (read_skill now p))
    by apply od_get_set_eq.
  rewrite Hget_a.
  set (m' := mkMeta _ (isoformat now) _ _ _ _ _ _).
  set (revised := mkSkill _ _ _ _ _ _ _ _ _ m').
  assert (Hstore : forall mem_b,
            _skills_cache mem_b = od_set skill_id (read_skill now p) (_skills_cache mem) \/
            (exists q, _skills_cache mem_b = od_set skill_id q (_skills_cache mem)) ->
            exists index',
              store revised mem_b
              = (mkProcedural index'
                   (od_set skill_id (skill_to_dict revised) (_skills_cache mem))
                   (Some (od_set skill_id (skill_to_dict revised) (_skills_cache mem))),
                 Ok skill_id)).
  { intros mem_b Hb.
    assert (exists q, _skills_cache mem_b = od_set skill_id q (_skills_cache mem)) as [q Hq]
      by (destruct Hb as [Hb|Hb]; [by eexists | done]).
    unfold store, bind, get_state, put_state, ret, _save_skills_cache.
    cbn [_skills_cache pm_collection skills_file].
    assert (sk_id revised = skill_id) as -> by exact Hskill_id.
    rewrite Hq, EpisodicStoreFacts.od_set_set.
    rewrite od_set_del_forallb by done. by eexists. }
  assert (Hrun : exists index',
            (bind
               (match sd_metadata (read_skill now p) with
                | MObj _ =>
                    put_state (set_skills mem_a
                                 (od_set skill_id
                                    (sd_set_metadata (read_skill now p) (MObj m'))
                                    (_skills_cache mem_a)))
                | _ => ret tt
                end)
               (fun _ => bind (store revised) (fun _ => ret true))) mem_a
            = (mkProcedural index'
                 (od_set skill_id (skill_to_dict revised) (_skills_cache mem))
                 (Some (od_set skill_id (skill_to_dict revised) (_skills_cache mem))),
               Ok true)).
  { destruct (sd_metadata (read_skill now p)) as [|d|m].
    - destruct (Hstore mem_a) as (index' & Hs); [by left|].
      exists index'. unfold bind at 1, ret at 1. by rewrite (bind_ok _ _ _ _ _ Hs).
    - destruct (Hstore mem_a) as (index' & Hs); [by left|].
      exists index'. unfold bind at 1, ret at 1. by rewrite (bind_ok _ _ _ _ _ Hs).
    - destruct (Hstore (set_skills mem_a
                          (od_set skill_id (sd_set_metadata (read_skill now p) (MObj m'))
                                  (_skills_cache mem_a)))) as (index' & Hs).
      { right. eexists. cbn [set_skills _skills_cache mem_a].
        apply EpisodicStoreFacts.od_set_set. }
      exists index'. unfold bind at 1, put_state at 1. by rewrite (bind_ok _ _ _ _ _ Hs). }
  destruct Hrun as (index' & Hrun).
  eexists. exists (skill_to_dict revised), (meta_to_dict m').
  split; [exact Hrun|]. cbn [_skills_cache skills_file].
  destruct (built_skill_fields now p) as (_ & Hname & Hrate & Hcount).
  split_and!; try done; try (by apply od_set_del_forallb);
    cbn;
    unfold built_skill, skill_from_dict, chosen_text, chosen_list, sources_of,
      ProceduralFacts.rate_of, ProceduralFacts.count_of;
    destruct p as [? ? ? ? ? ? ? ? ? [|d|m]]; cbn; try done;
    first [ by destruct pattern
          | by destruct trigger_conditions as [[|? ?]|]
          | by destruct action_template ].
Qed.

(** ** [get_all_skills] and [get_top_skills] *)

(** The body of the comprehension of [get_all_skills]. *)
Definition all_body (now : Z) (skills : list Skill) (key : string)
  : M ProceduralMemory (list Skill) :=
  mem' <- get_state ;;
  match od_get key (_skills_cache mem') with
  | None => ret skills
  | Some data =>
      skill <- from_dict_in_cache now key data ;;
      ret (skills ++ [skill])%list
  end.

Lemma get_all_skills_unfold now mem :
  get_all_skills now mem = for_each (all_body now) [] (od_keys (_skills_cache mem)) mem.
Proof. reflexivity. Qed.

Lemma all_step now cache0 touched mem acc k :
  (forall k', od_get k' (_skills_cache mem) = payload_after now touched cache0 k') ->
  exists mem',
    all_body now acc k mem
    = (mem', Ok (acc ++ option_list (built_skill now <$> od_get k cache0))%list) /\
    (forall k', od_get k' (_skills_cache mem')
                = payload_after now (touched ++ [k]) cache0 k') /\
    pm_collection mem' = pm_collection mem /\
    skills_file mem' = skills_file mem /\
    od_keys (_skills_cache mem') = od_keys (_skills_cache mem).
Proof.
  intros Hinv. unfold all_body, bind, get_state. cbv beta iota.
  destruct (od_get k cache0) as [p0|] eqn:Hget0.
  - destruct (from_dict_in_cache_touch now touched cache0 k p0 mem Hinv Hget0)
      as (p & mem1 & Hk & Hrun & Hinv1 & Hrest).
    rewrite Hk, Hrun. exists mem1. by split.
  - pose proof (Hinv k) as Hk. unfold payload_after in Hk. rewrite Hget0 in Hk. simpl in Hk.
    rewrite Hk. exists mem. unfold ret. simpl. rewrite app_nil_r. split_and!; try done.
    intros k'. rewrite Hinv. symmetry. by apply payload_after_absent.
Qed.

Lemma all_loop now cache0 keys : forall touched mem acc,
  (forall k, od_get k (_skills_cache mem) = payload_after now touched cache0 k) ->
  exists mem',
    for_each (all_body now) acc keys mem
    = (mem', Ok (acc ++ omap (fun k => built_skill now <$> od_get k cache0) keys)%list) /\
    (forall k, od_get k (_skills_cache mem')
               = payload_after now (touched ++ keys) cache0 k) /\
    pm_collection mem' = pm_collection mem /\
    skills_file mem' = skills_file mem /\
    od_keys (_skills_cache mem') = od_keys (_skills_cache mem).
Proof.
  induction keys as [|k keys IH]; intros touched mem acc Hinv.
  - exists mem. rewrite for_each_nil. simpl. rewrite !app_nil_r. by split_and!.
  - rewrite for_each_cons.
    destruct (all_step now cache0 touched mem acc k Hinv)
      as (mem1 & Hstep & Hinv1 & Hc1 & Hf1 & Hk1).
    rewrite Hstep.
    destruct (IH (touched ++ [k])%list mem1
                (acc ++ option_list (built_skill now <$> od_get k cache0))%list Hinv1)
      as (mem' & Hloop & Hinv' & Hc' & Hf' & Hk').
    exists mem'. split_and!; [| | congruence | congruence | congruence].
    + rewrite Hloop, omap_cons. by rewrite <- app_assoc.
    + intros k'. rewrite Hinv'. by rewrite <- app_assoc.
Qed.

Lemma omap_ext_in {A B} (f g : A -> option B) (l : list A) :
  (forall x, x ∈ l -> f x = g x) -> omap f l = omap g l.
Proof.
  induction l as [|x l IH]; intros Hfg; [done|].
  rewrite !omap_cons, (Hfg x) by apply list_elem_of_here.
  rewrite IH; [done|]. intros y Hy. apply Hfg. by apply list_elem_of_further.
Qed.

(** Reading a dictionary key by key gives its values in order. *)
Lemma od_values_by_key {V W} (f : V -> W) (d : odict V) :
  NoDup (od_keys d) ->
  omap (fun k => f <$> od_get k d) (od_keys d) = map f (od_values d).
Proof.
  unfold od_keys, od_values. induction d as [|[k v] d IH]; intros Hnd; [done|].
  apply NoDup_cons in Hnd as [Hk Hnd]. cbn [map fst snd]. rewrite omap_cons.
  cbn [od_get]. rewrite decide_True by done. cbn [fmap option_fmap option_map option_list].
  cbn [app]. f_equal. rewrite <- IH by done. apply omap_ext_in.
  intros k' Hk'. cbn [od_get]. rewrite decide_False; [done|]. by intros ->.
Qed.

Lemma get_all_skills_spec now mem :
  NoDup (od_keys (_skills_cache mem)) ->
  exists mem',
    get_all_skills now mem = (mem', Ok (map (built_skill now) (od_values (_skills_cache mem)))) /\
    (forall k, od_get k (_skills_cache mem') = read_skill now <$> od_get k (_skills_cache mem)) /\
    pm_collection mem' = pm_collection mem /\
    skills_file mem' = skills_file mem.
Proof.
  intros Hnd. rewrite get_all_skills_unfold.
  destruct (all_loop now (_skills_cache mem) (od_keys (_skills_cache mem)) [] mem [])
    as (mem' & Hloop & Hinv & Hc & Hf & _).
  { intros k. by rewrite payload_after_nil. }
  exists mem'. rewrite Hloop, app_nil_l, od_values_by_key by done.
  split_and!; try done.
  intros k. rewrite Hinv, app_nil_l. unfold payload_after.
  destruct (od_get k (_skills_cache mem)) as [p|] eqn:Hget; [|done].
  cbn [fmap option_fmap option_map]. rewrite decide_True; [done|]. by eapply od_get_key.
Qed.

(** A list sorted by [sort_desc] on an integer key is in descending order
    of that key. *)
Lemma sort_desc_by_Z {A} (key : A -> Z) (l : list A) :
  StronglySorted (fun x y => (key y <= key x)%Z)
                 (sort_desc (fun x y => (key y <? key x)%Z) l).
Proof.
  eapply sorted_weaken; [|apply sort_desc_sorted].
  - intros x y Hxy. unfold not_beaten in Hxy. by apply Z.ltb_ge in Hxy.
  - intros x y Hxy. apply Z.ltb_lt in Hxy. apply Z.ltb_ge. lia.
  - intros x y z Hxy Hyz. apply Z.ltb_ge in Hxy, Hyz. apply Z.ltb_ge. lia.
Qed.

(** X29 (top skills).  On a cache without a repeated key,
    [get_top_skills] returns at most [limit] skills, each built from a
    payload of the cache.  With [by = "success_rate"] they are in
    descending order of success rate, with [by = "usage_count"] in
    descending order of usage count, and a stored skill is missing only
    when [limit] skills that rank at least as high are returned; with any
    other [by] the result is the first [limit] skills in the order of the
    cache.  The call changes neither the index nor the file, and leaves
    every payload as [Skill.from_dict] leaves it. *)
Theorem top_skills_ranked now limit by_ mem :
  NoDup (od_keys (_skills_cache mem)) ->
  exists mem' skills,
    get_top_skills now limit by_ mem = (mem', Ok skills) /\
    (length skills <= limit)%nat /\
    (forall skill, skill ∈ skills ->
       exists k p, od_get k (_skills_cache mem) = Some p /\ skill = built_skill now p) /\
    (by_ = "success_rate" ->
       StronglySorted (fun a b => (sk_success_rate b <= sk_success_rate a)%Q) skills /\
       forall k p, od_get k (_skills_cache mem) = Some p ->
         built_skill now p ∈ skills \/
         (length skills = limit /\
          forall skill, skill ∈ skills ->
            (sk_success_rate (built_skill now p) <= sk_success_rate skill)%Q)) /\
    (by_ = "usage_count" ->
       StronglySorted (fun a b => (sk_usage_count b <= sk_usage_count a)%Z) skills /\
       forall k p, od_get k (_skills_cache mem) = Some p ->
         built_skill now p ∈ skills \/
         (length skills = limit /\
          forall skill, skill ∈ skills ->
            (sk_usage_count (built_skill now p) <= sk_usage_count skill)%Z)) /\
    (by_ <> "success_rate" -> by_ <> "usage_count" ->
       skills = firstn limit (map (built_skill now) (od_values (_skills_cache mem)))) /\
    pm_collection mem' = pm_collection mem /\
    skills_file mem' = skills_file mem /\
    (forall k, od_get k (_skills_cache mem')
               = read_skill now <$> od_get k (_skills_cache mem)).
Proof.
  intros Hnd.
  destruct (get_all_skills_spec now mem Hnd) as (mem' & Hrun & Hpay & Hc & Hf).
  unfold get_top_skills. rewrite (bind_ok _ _ _ _ _ Hrun). unfold ret.
  set (all := map (built_skill now) (od_values (_skills_cache mem))).
  assert (Hall : forall skill, skill ∈ all <->
            exists k p, od_get k (_skills_cache mem) = Some p /\ skill = built_skill now p).
  { intros skill. unfold all. rewrite list_elem_of_fmap. split.
    - intros (p & -> & Hp). unfold od_values in Hp. apply list_elem_of_fmap in Hp
        as ([k p'] & -> & Hin). exists k, p'. split; [by apply od_elem_get | done].
    - intros (k & p & Hget & ->). exists p. split; [done | by eapply od_get_value]. }
  exists mem'. eexists. split; [reflexivity|].
  destruct (decide (by_ = "success_rate")) as [Hrate|Hnrate];
    [|destruct (decide (by_ = "usage_count")) as [Hcount|Hncount]].
  - pose proof (sort_desc_by_Q sk_success_rate all) as Hsorted.
    split_and!; try done.
    + apply firstn_le_length.
    + intros skill Hin. apply firstn_sort_elem in Hin. by apply Hall.
    + intros _. split; [by apply sorted_firstn|].
      intros k p Hget.
      assert (built_skill now p ∈ all) as Hin by (apply Hall; by exists k, p).
      apply (sort_desc_elem (fun x y => Qgtb (sk_success_rate x) (sk_success_rate y))) in Hin.
      destruct (sorted_firstn_complete _ limit _ _ Hsorted Hin) as [?|[Hlen Hmin]];
        [by left | right; by split].
    + intros ->. done.
  - pose proof (sort_desc_by_Z sk_usage_count all) as Hsorted.
    split_and!; try done.
    + apply firstn_le_length.
    + intros skill Hin. apply firstn_sort_elem in Hin. by apply Hall.
    + intros _. split; [by apply sorted_firstn|].
      intros k p Hget.
      assert (built_skill now p ∈ all) as Hin by (apply Hall; by exists k, p).
      apply (sort_desc_elem (fun x y => (sk_usage_count y <? sk_usage_count x)%Z)) in Hin.
      destruct (sorted_firstn_complete _ limit _ _ Hsorted Hin) as [?|[Hlen Hmin]];
        [by left | right; by split].
  - split_and!; try done.
    + apply firstn_le_length.
    + intros skill Hin. apply Hall. rewrite <- (firstn_skipn limit all).
      apply elem_of_app. by left.
Qed.

(** ** [delete_skill] *)

Lemma od_del_set_new {V} k (v : V) (d : odict V) :
  od_get k d = None -> od_del k (od_set k v d) = d.
Proof.
  induction d as [|[k' v'] d IH]; simpl.
  - intros _. by rewrite decide_True.
  - destruct (decide (k = k')) as [->|Hne]; [done|].
    intros Hnone. simpl. rewrite decide_False by done. by rewrite IH.
Qed.

Section WithDelete.
Context `{!KnowledgeQueries.VectorIndexDelete}.

(** X30 (deleting a created skill).  On a cache that [json.dumps] accepts
    and that holds no skill under the generated identifier,
    [create_skill] followed by [delete_skill] of the returned identifier
    returns [True] and restores the cache; the file holds the restored
    cache, the vector index is asked to delete the identifier, and a
    second [delete_skill] returns [False] and changes nothing. *)
Theorem delete_skill_undoes_create
    now name description pattern trigger_conditions action_template source_episodes
    success_rate mem :
  forallb skill_serializable (od_values (_skills_cache mem)) = true ->
  od_get (skill_generate_id name pattern) (_skills_cache mem) = None ->
  exists mem1 mem2,
    create_skill now name description pattern trigger_conditions action_template
                 source_episodes success_rate mem
    = (mem1, Ok (skill_generate_id name pattern)) /\
    od_get (skill_generate_id name pattern) (_skills_cache mem1) <> None /\
    delete_skill (skill_generate_id name pattern) mem1 = (mem2, Ok true) /\
    _skills_cache mem2 = _skills_cache mem /\
    skills_file mem2 = Some (_skills_cache mem) /\
    pm_collection mem2
    = KnowledgeQueries.coll_delete (pm_collection mem1) (skill_generate_id name pattern) /\
    delete_skill (skill_generate_id name pattern) mem2 = (mem2, Ok false).
Proof.
  intros Hser Hnew.
  set (id := skill_generate_id name pattern) in *.
  set (skill := mkSkill id name description pattern trigger_conditions action_template
                        success_rate 0 source_episodes
                        (new_metadata (isoformat now) "consolidation")).
  assert (Hcreate : exists index',
            create_skill now name description pattern trigger_conditions action_template
                         source_episodes success_rate mem
            = (mkProcedural index' (od_set id (skill_to_dict skill) (_skills_cache mem))
                            (Some (od_set id (skill_to_dict skill) (_skills_cache mem))),
               Ok id)).
  { unfold create_skill, store, bind, get_state, put_state, ret, _save_skills_cache.
    cbv beta iota. cbn [_skills_cache pm_collection skills_file sk_id].
    fold id. fold skill. rewrite od_set_forallb by done. by eexists. }
  destruct Hcreate as (index' & Hcreate).
  eexists.
  exists (mkProcedural (KnowledgeQueries.coll_delete index' id) (_skills_cache mem)
                       (Some (_skills_cache mem))).
  split; [exact Hcreate|].
  cbn [_skills_cache]. rewrite od_get_set_eq. split; [done|].
  unfold delete_skill, bind, get_state, put_state, ret, _save_skills_cache.
  cbv beta iota. cbn [_skills_cache pm_collection skills_file set_skills].
  rewrite od_get_set_eq. cbn [_skills_cache pm_collection skills_file set_skills].
  rewrite od_del_set_new by done. rewrite Hser.
  cbn [_skills_cache pm_collection skills_file]. rewrite Hnew.
  by split_and!.
Qed.

End WithDelete.

End WithEnv.

#[local] Existing Instances Examples.toy_lib Examples.toy_index.

(** The payload of the skill of [Examples.fresh_skill_memory]. *)
Definition fresh_metadata : meta_dict := meta_to_dict (new_metadata "100" "consolidation").

Definition fresh_payload : skill_dict :=
  mkSkillDict Examples.fresh_skill_id "test_skill" "Skill de test" "commande test"
              ["test"; "commande"] "echo {{STRING}}" (Some 0%Q) (Some 0%Z) (Some [])
              (MDict fresh_metadata).

Lemma fresh_payload_stored :
  od_get Examples.fresh_skill_id (_skills_cache Examples.fresh_skill_memory)
  = Some fresh_payload.
Proof. vm_compute. reflexivity. Qed.

(** A store with a second skill, of success rate 0.5. *)
Definition two_skill_memory : ProceduralMemory :=
  (create_skill 110 "autre_skill" "Autre skill" "autre commande" ["autre"] "ls" [] 0.5%Q
                Examples.fresh_skill_memory).1.

Definition empty_skill_memory : ProceduralMemory := mkProcedural [] [] None.

(** A vector index from which an identifier can be removed. *)
Definition drop_entry (c : list (string * Q)) (id : string) : list (string * Q) :=
  List.filter (fun entry => negb (bool_decide (entry.1 = id))) c.

#[local] Instance toy_skill_delete : @KnowledgeQueries.VectorIndexDelete Examples.toy_index :=
  @KnowledgeQueries.Build_VectorIndexDelete Examples.toy_index drop_entry.

Lemma applicable_skills_ranked_witness :
  exists mem' results,
    find_applicable_skills 100 "test commande" 1 0 Examples.fresh_skill_memory
      = (mem', Ok results) /\
    (length results <= 1)%nat /\
    descending (fun r : Skill * MemoryScore => combined_score r.2) results.
Proof.
  destruct (applicable_skills_ranked 100 "test commande" 1 0 Examples.fresh_skill_memory)
    as (mem' & results & Hrun & Hlen & Hsorted & _).
  - lia.
  - apply created_in_past_check. vm_compute. reflexivity.
  - exists mem', results. split_and!; [exact Hrun | exact Hlen | exact Hsorted].
Defined.

Lemma usage_after_lookup_raises_witness :
  exists mem1 results skill score mem2,
    find_applicable_skills 100 "test commande" 1 0 Examples.fresh_skill_memory
      = (mem1, Ok results) /\
    (skill, score) ∈ results /\
    record_usage 200 (sk_id skill) true mem1 = (mem2, Raise TypeError) /\
    skills_file mem2 = skills_file Examples.fresh_skill_memory.
Proof.
  set (run := find_applicable_skills 100 "test commande" 1 0 Examples.fresh_skill_memory).
  assert (Hok : exists gt r1, run.2 = Ok (firstn 1 (sort_desc gt [r1])))
    by (do 2 eexists; reflexivity).
  destruct Hok as (gt & [skill score] & Hres).
  assert (Hrun : run = (run.1, Ok [(skill, score)]))
    by (change [(skill, score)] with (firstn 1 (sort_desc gt [(skill, score)]));
        rewrite <- Hres; by destruct run).
  assert (Hfiled : filed (_skills_cache Examples.fresh_skill_memory))
    by (apply filed_check; vm_compute; reflexivity).
  destruct (usage_after_lookup_raises 100 "test commande" 1 0 Examples.fresh_skill_memory
              run.1 [(skill, score)] skill score 200 true Hfiled Hrun
              (list_elem_of_here _ _))
    as (p & mem2 & p2 & _ & Hraise & _ & Hfile & _).
  exists run.1, [(skill, score)], skill, score, mem2.
  split_and!; [exact Hrun | apply list_elem_of_here | exact Hraise | exact Hfile].
Defined.

Lemma source_episode_added_once_witness :
  exists mem1,
    add_source_episode 200 Examples.fresh_skill_id "ep_1" Examples.fresh_skill_memory
      = (mem1, Ok true) /\
    skills_file mem1 = Some (_skills_cache mem1) /\
    add_source_episode 300 Examples.fresh_skill_id "ep_1" mem1 = (mem1, Ok true).
Proof.
  destruct (source_episode_added_once 200 Examples.fresh_skill_id "ep_1"
              Examples.fresh_skill_memory fresh_payload fresh_metadata)
    as (mem1 & p1 & d1 & Hrun & _ & Hfile & _ & _ & _ & _ & _ & _ & Hagain).
  - exact fresh_payload_stored.
  - reflexivity.
  - vm_compute. reflexivity.
  - intros Hin. inversion Hin.
  - exists mem1. split_and!; [exact Hrun | exact Hfile | exact (Hagain 300%Z)].
Defined.

Lemma source_episode_after_read_witness :
  exists mem1 mem2 skill,
    get_skill 150 Examples.fresh_skill_id Examples.fresh_skill_memory
      = (mem1, Ok (Some skill)) /\
    add_source_episode 200 Examples.fresh_skill_id "ep_1" mem1 = (mem2, Raise TypeError) /\
    skills_file mem2 = skills_file Examples.fresh_skill_memory /\
    add_source_episode 300 Examples.fresh_skill_id "ep_1" mem2 = (mem2, Ok true).
Proof.
  destruct (source_episode_after_read 150 200 Examples.fresh_skill_id "ep_1"
              Examples.fresh_skill_memory fresh_payload fresh_metadata)
    as (mem1 & mem2 & p2 & Hread & Hraise & _ & _ & Hfile & _ & Hagain).
  - exact fresh_payload_stored.
  - reflexivity.
  - intros Hin. inversion Hin.
  - exists mem1, mem2, (built_skill 150 fresh_payload).
    split_and!; [exact Hread | exact Hraise | exact Hfile | exact (Hagain 300%Z)].
Defined.

Lemma update_skill_rewrites_payload_witness :
  exists mem1 p1,
    update_skill 200 Examples.fresh_skill_id (Some "nouvelle commande") (Some []) None
                 Examples.fresh_skill_memory = (mem1, Ok true) /\
    od_get Examples.fresh_skill_id (_skills_cache mem1) = Some p1 /\
    sd_pattern p1 = "nouvelle commande" /\
    sd_trigger_conditions p1 = ["test"; "commande"] /\
    sd_action_template p1 = "echo {{STRING}}".
Proof.
  destruct (update_skill_rewrites_payload 200 Examples.fresh_skill_id
              (Some "nouvelle commande") (Some []) None
              Examples.fresh_skill_memory fresh_payload)
    as (mem1 & p1 & d1 & Hrun & Hcache & _ & _ & _ & _ & _ & Hpat & Htrig & Htem & _).
  - exact fresh_payload_stored.
  - reflexivity.
  - discriminate.
  - vm_compute. reflexivity.
  - exists mem1, p1.
    split_and!; [exact Hrun | rewrite Hcache; apply od_get_set_eq
                | exact Hpat | exact Htrig | exact Htem].
Defined.

Lemma top_skills_ranked_witness :
  exists mem' skills,
    get_top_skills 200 1 "success_rate" two_skill_memory = (mem', Ok skills) /\
    (length skills <= 1)%nat /\
    StronglySorted (fun a b => (sk_success_rate b <= sk_success_rate a)%Q) skills.
Proof.
  destruct (top_skills_ranked 200 1 "success_rate" two_skill_memory)
    as (mem' & skills & Hrun & Hlen & _ & Hrate & _).
  - vm_compute. repeat constructor; set_solver.
  - exists mem', skills.
    split_and!; [exact Hrun | exact Hlen | exact (proj1 (Hrate eq_refl))].
Defined.

Lemma delete_skill_undoes_create_witness :
  exists mem1 mem2,
    create_skill 100 "test_skill" "Skill de test" "commande test" ["test"; "commande"]
                 "echo {{STRING}}" [] 0%Q empty_skill_memory
      = (mem1, Ok (skill_generate_id "test_skill" "commande test")) /\
    delete_skill (skill_generate_id "test_skill" "commande test") mem1 = (mem2, Ok true) /\
    _skills_cache mem2 = [] /\
    skills_file mem2 = Some [].
Proof.
  destruct (delete_skill_undoes_create 100 "test_skill" "Skill de test" "commande test"
              ["test"; "commande"] "echo {{STRING}}" [] 0%Q empty_skill_memory)
    as (mem1 & mem2 & Hcreate & _ & Hdelete & Hcache & Hfile & _).
  - reflexivity.
  - reflexivity.
  - exists mem1, mem2. split_and!; [exact Hcreate | exact Hdelete | exact Hcache | exact Hfile].
Defined.

End ProceduralStoreFacts.

(* ===================================================================== *)
(** * More facts on knowledge_graph.py: indices, relations, paths *)
(* ===================================================================== *)

Module KnowledgeQueryFacts.
Import MemoryTypes Knowledge KnowledgeQueries KnowledgeFacts.

(** Visiting one more element of [O] leaves one element less to visit. *)
Lemma size_unvisited (O visited : gset string) (x : string) :
  x ∈ O -> x ∉ visited -> S (size (O ∖ ({[x]} ∪ visited))) = size (O ∖ visited).
Proof.
  intros HO Hv.
  assert (O ∖ visited = {[x]} ∪ O ∖ ({[x]} ∪ visited)) as E.
  { apply set_eq. intros y. destruct (decide (y = x)) as [->|?]; set_solver. }
  rewrite E.
  rewrite (size_union (C := gset string) {[x]} (O ∖ ({[x]} ∪ visited))) by set_solver.
  by rewrite size_singleton.
Qed.

Lemma size_unvisited_le (O visited : gset string) : (size (O ∖ visited) <= size O)%nat.
Proof. apply subseteq_size. set_solver. Qed.

Section WithEnv.
Context `{PyLib} `{VectorIndex}.

(** ** The inverted indices *)

(** An index lists, under every key, the identifiers of the stored triples
    whose lower-cased field is the key. *)
Definition index_exact (index : gmap string (gset string)) (field : triple_dict -> string)
    (g : gmap string triple_dict) : Prop :=
  forall k id, id ∈ default ∅ (index !! k) <->
               exists d, g !! id = Some d /\ lower (field d) = k.

Definition well_indexed (kg : KnowledgeGraph) : Prop :=
  index_exact (_subject_index kg) td_subject (_graph kg) /\
  index_exact (_object_index kg) td_object (_graph kg) /\
  index_exact (_predicate_index kg) td_predicate (_graph kg).

Lemma index_add_lookup index key tid k :
  default ∅ (index_add index key tid !! k)
  = if decide (key = k) then default ∅ (index !! k) ∪ {[tid]} else default ∅ (index !! k).
Proof.
  unfold index_add. destruct (decide (key = k)) as [->|Hne].
  - by rewrite lookup_insert_eq.
  - by rewrite lookup_insert_ne.
Qed.

Lemma fold_index_entry entries : forall kg,
  let kg' := fold_left index_entry entries kg in
  _graph kg' = _graph kg /\ kg_collection kg' = kg_collection kg /\
  graph_file kg' = graph_file kg /\
  (forall k id, id ∈ default ∅ (_subject_index kg' !! k) <->
     id ∈ default ∅ (_subject_index kg !! k) \/
     exists d, (id, d) ∈ entries /\ lower (td_subject d) = k) /\
  (forall k id, id ∈ default ∅ (_object_index kg' !! k) <->
     id ∈ default ∅ (_object_index kg !! k) \/
     exists d, (id, d) ∈ entries /\ lower (td_object d) = k) /\
  (forall k id, id ∈ default ∅ (_predicate_index kg' !! k) <->
     id ∈ default ∅ (_predicate_index kg !! k) \/
     exists d, (id, d) ∈ entries /\ lower (td_predicate d) = k).
Proof.
  induction entries as [|[i e] entries IH]; intros kg; simpl.
  - split_and!; try done; intros k id; split; try (by left);
      intros [?|(d & Hin & _)]; try done; by apply elem_of_nil in Hin.
  - destruct (IH (index_entry kg (i, e))) as (Hg & Hc & Hf & Hs & Ho & Hp).
    split_and!; try done.
    + intros k id. rewrite Hs. simpl. rewrite index_add_lookup.
      setoid_rewrite elem_of_cons. destruct (decide (lower (td_subject e) = k)) as [<-|Hne].
      * rewrite elem_of_union, elem_of_singleton. naive_solver.
      * naive_solver.
    + intros k id. rewrite Ho. simpl. rewrite index_add_lookup.
      setoid_rewrite elem_of_cons. destruct (decide (lower (td_object e) = k)) as [<-|Hne].
      * rewrite elem_of_union, elem_of_singleton. naive_solver.
      * naive_solver.
    + intros k id. rewrite Hp. simpl. rewrite index_add_lookup.
      setoid_rewrite elem_of_cons. destruct (decide (lower (td_predicate e) = k)) as [<-|Hne].
      * rewrite elem_of_union, elem_of_singleton. naive_solver.
      * naive_solver.
Qed.

(** [_rebuild_indices] makes the three indices exact, whatever they held. *)
Lemma rebuild_well_indexed kg :
  well_indexed (_rebuild_indices kg) /\
  _graph (_rebuild_indices kg) = _graph kg /\
  kg_collection (_rebuild_indices kg) = kg_collection kg /\
  graph_file (_rebuild_indices kg) = graph_file kg.
Proof.
  unfold _rebuild_indices.
  destruct (fold_index_entry (map_to_list (_graph kg))
              (mkKnowledge (kg_collection kg) (_graph kg) ∅ ∅ ∅ (graph_file kg)))
    as (Hg & Hc & Hf & Hs & Ho & Hp).
  simpl in *. split_and!; try done. unfold well_indexed. rewrite Hg.
  split_and!; intros k id; [rewrite Hs | rewrite Ho | rewrite Hp];
    rewrite lookup_empty; simpl; setoid_rewrite elem_of_map_to_list; set_solver.
Qed.

(** ** Reading triples *)

(** The triple that [KnowledgeTriple.from_dict] builds from a payload. *)
Definition built_triple (now_iso : string) (d : triple_dict) : KnowledgeTriple :=
  (triple_from_dict now_iso d).2.

(** The payload as [from_dict] leaves it. *)
Definition read_payload (now_iso : string) (d : triple_dict) : triple_dict :=
  (triple_from_dict now_iso d).1.

Lemma read_payload_fields now_iso d :
  td_id (read_payload now_iso d) = td_id d /\
  td_subject (read_payload now_iso d) = td_subject d /\
  td_predicate (read_payload now_iso d) = td_predicate d /\
  td_object (read_payload now_iso d) = td_object d /\
  td_confidence (read_payload now_iso d) = td_confidence d /\
  td_source_episode (read_payload now_iso d) = td_source_episode d.
Proof.
  unfold read_payload, triple_from_dict. destruct d as [? ? ? ? ? ? [|md|m]]; by split_and!.
Qed.

Lemma read_payload_metadata now_iso d :
  td_metadata (read_payload now_iso d)
  = match td_metadata d with
    | MDict md => MObj (meta_from_dict now_iso md)
    | r => r
    end.
Proof.
  unfold read_payload, triple_from_dict. destruct d as [? ? ? ? ? ? [|md|m]]; reflexivity.
Qed.

Lemma read_payload_idem now_iso d :
  read_payload now_iso (read_payload now_iso d) = read_payload now_iso d.
Proof.
  unfold read_payload, triple_from_dict. destruct d as [? ? ? ? ? ? [|md|m]]; reflexivity.
Qed.

Lemma built_triple_read now_iso d :
  built_triple now_iso (read_payload now_iso d) = built_triple now_iso d.
Proof.
  unfold built_triple, read_payload, triple_from_dict.
  destruct d as [? ? ? ? ? ? [|md|m]]; reflexivity.
Qed.

Lemma built_triple_fields now_iso d :
  kt_subject (built_triple now_iso d) = td_subject d /\
  kt_predicate (built_triple now_iso d) = td_predicate d /\
  kt_object (built_triple now_iso d) = td_object d.
Proof.
  unfold built_triple, triple_from_dict. destruct d as [? ? ? ? ? ? [|md|m]]; by split_and!.
Qed.

Definition set_graph (kg : KnowledgeGraph) (g : gmap string triple_dict) : KnowledgeGraph :=
  mkKnowledge (kg_collection kg) g (_subject_index kg) (_object_index kg)
              (_predicate_index kg) (graph_file kg).

Lemma fetch_triple_step now triples id kg :
  fetch_triple now triples id kg
  = match _graph kg !! id with
    | Some d => (set_graph kg (<[id := read_payload (isoformat now) d]> (_graph kg)),
                 Ok (triples ++ [built_triple (isoformat now) d])%list)
    | None => (kg, Ok triples)
    end.
Proof.
  unfold fetch_triple, bind, get_state, put_state, ret, built_triple, read_payload.
  destruct (_graph kg !! id) as [d|]; [|done].
  by destruct (triple_from_dict (isoformat now) d).
Qed.

(** The triples of the identifiers [ids] that are stored, in order. *)
Definition stored_triples (now_iso : string) (g : gmap string triple_dict)
    (ids : list string) : list KnowledgeTriple :=
  omap (fun id => built_triple now_iso <$> g !! id) ids.

Lemma stored_triples_ext now_iso g g' ids :
  (forall id, built_triple now_iso <$> g' !! id = built_triple now_iso <$> g !! id) ->
  stored_triples now_iso g' ids = stored_triples now_iso g ids.
Proof.
  intros Hext. unfold stored_triples. apply list_omap_ext, Forall2_same_length_lookup_2; [done|].
  intros i x y Hx Hy. assert (x = y) as <- by congruence. apply Hext.
Qed.

(** A graph that differs from [g] by reads only. *)
Definition read_of (now_iso : string) (g g' : gmap string triple_dict) : Prop :=
  forall id, g' !! id = g !! id \/
             exists d, g !! id = Some d /\ g' !! id = Some (read_payload now_iso d).

Lemma read_of_refl now_iso g : read_of now_iso g g.
Proof. intros id. by left. Qed.

Lemma read_of_step now_iso g g' id d :
  read_of now_iso g g' -> g' !! id = Some d ->
  read_of now_iso g (<[id := read_payload now_iso d]> g').
Proof.
  intros Hr Hget id'. destruct (decide (id = id')) as [<-|Hne].
  - rewrite lookup_insert_eq. right. destruct (Hr id) as [Heq|(d0 & Hg & Hg')].
    + exists d. split; [congruence | done].
    + exists d0. split; [done|]. f_equal. assert (d = read_payload now_iso d0) as -> by congruence.
      apply read_payload_idem.
  - rewrite lookup_insert_ne by done. apply Hr.
Qed.

Lemma read_of_built now_iso g g' id :
  read_of now_iso g g' ->
  built_triple now_iso <$> g' !! id = built_triple now_iso <$> g !! id.
Proof.
  intros Hr. destruct (Hr id) as [->|(d & -> & ->)]; [done|]. simpl.
  by rewrite built_triple_read.
Qed.

Lemma read_of_trans now_iso g1 g2 g3 :
  read_of now_iso g1 g2 -> read_of now_iso g2 g3 -> read_of now_iso g1 g3.
Proof.
  intros H12 H23 id. destruct (H23 id) as [->|(d & Hg2 & ->)]; [apply H12|].
  destruct (H12 id) as [Heq|(d0 & Hg1 & Hg2')].
  - right. exists d. split; [congruence | done].
  - right. exists d0. split; [done|]. f_equal.
    assert (d = read_payload now_iso d0) as -> by congruence. apply read_payload_idem.
Qed.

Lemma read_of_index_exact now_iso index field g g' :
  (forall d, field (read_payload now_iso d) = field d) ->
  read_of now_iso g g' -> index_exact index field g -> index_exact index field g'.
Proof.
  intros Hfield Hr Hex k id. rewrite (Hex k id). split.
  - intros (d & Hget & Hk). destruct (Hr id) as [Heq|(d0 & Hg & Hg')].
    + exists d. split; [congruence | done].
    + exists (read_payload now_iso d0). split; [done|].
      rewrite Hfield. congruence.
  - intros (d' & Hget' & Hk). destruct (Hr id) as [Heq|(d0 & Hg & Hg')].
    + exists d'. split; [congruence | done].
    + exists d0. split; [done|]. assert (d' = read_payload now_iso d0) as -> by congruence.
      by rewrite Hfield in Hk.
Qed.

Lemma read_of_well_indexed now_iso kg g' :
  read_of now_iso (_graph kg) g' -> well_indexed kg -> well_indexed (set_graph kg g').
Proof.
  intros Hr (Hs & Ho & Hp). unfold well_indexed. simpl.
  split_and!; (eapply read_of_index_exact; [|exact Hr|done]); intros d;
    by destruct (read_payload_fields now_iso d) as (_ & ? & ? & ? & _).
Qed.

(** The loop over the identifiers of an index entry: it returns, with the
    triples of the identifiers that are stored; the payloads of these
    identifiers are left as [from_dict] leaves them. *)
Lemma fetch_loop now ids : forall kg acc,
  exists g',
    for_each (fetch_triple now) acc ids kg
    = (set_graph kg g', Ok (acc ++ stored_triples (isoformat now) (_graph kg) ids)%list) /\
    read_of (isoformat now) (_graph kg) g' /\
    (forall id d, id ∈ ids -> _graph kg !! id = Some d ->
                  g' !! id = Some (read_payload (isoformat now) d)).
Proof.
  induction ids as [|id ids IH]; intros kg acc.
  - exists (_graph kg). rewrite for_each_nil. unfold stored_triples. simpl.
    rewrite app_nil_r. split_and!; [by destruct kg | apply read_of_refl |].
    intros id d Hin. by apply elem_of_nil in Hin.
  - rewrite for_each_cons, fetch_triple_step. unfold stored_triples. simpl.
    destruct (_graph kg !! id) as [d|] eqn:Hget; simpl.
    + destruct (IH (set_graph kg (<[id := read_payload (isoformat now) d]> (_graph kg)))
                   (acc ++ [built_triple (isoformat now) d])%list) as (g' & -> & Hr & Hread).
      simpl in Hr, Hread.
      assert (Hstep : read_of (isoformat now) (_graph kg)
                              (<[id := read_payload (isoformat now) d]> (_graph kg)))
        by (apply read_of_step; [apply read_of_refl | done]).
      exists g'. split_and!; [|by eapply read_of_trans|].
      * unfold set_graph. simpl. f_equal. f_equal. rewrite <- app_assoc. simpl. f_equal. f_equal.
        apply stored_triples_ext. intros id'. by apply read_of_built.
      * intros id' d' Hin Hget'. destruct (decide (id' = id)) as [->|Hne].
        -- assert (d' = d) as -> by congruence.
           destruct (Hr id) as [Heq|(d1 & Hd1 & ->)].
           ++ by rewrite Heq, lookup_insert_eq.
           ++ rewrite lookup_insert_eq in Hd1. injection Hd1 as <-.
              by rewrite read_payload_idem.
        -- apply elem_of_cons in Hin as [?|Hin]; [done|].
           apply Hread; [done|]. by rewrite lookup_insert_ne.
    + destruct (IH kg acc) as (g' & -> & Hr & Hread). exists g'. split_and!; [done | done |].
      intros id' d' Hin Hget'. apply elem_of_cons in Hin as [->|Hin]; [congruence|].
      by apply Hread.
Qed.

Lemma stored_triples_elem now_iso g ids t :
  t ∈ stored_triples now_iso g ids <->
  exists id d, id ∈ ids /\ g !! id = Some d /\ t = built_triple now_iso d.
Proof.
  unfold stored_triples. rewrite list_elem_of_omap. split.
  - intros (id & Hin & Ht). destruct (g !! id) as [d|] eqn:Hget; [|done].
    injection Ht as <-. by exists id, d.
  - intros (id & d & Hin & Hget & ->). exists id. by rewrite Hget.
Qed.

Lemma stored_triples_length now_iso g ids :
  (forall id, id ∈ ids -> is_Some (g !! id)) ->
  length (stored_triples now_iso g ids) = length ids.
Proof.
  unfold stored_triples. induction ids as [|id ids IH]; intros Hall; simpl; [done|].
  destruct (Hall id (list_elem_of_here _ _)) as [d ->]. simpl. f_equal.
  apply IH. intros id' Hin. apply Hall. by apply list_elem_of_further.
Qed.

Lemma set_graph_set_graph kg g1 g2 : set_graph (set_graph kg g1) g2 = set_graph kg g2.
Proof. reflexivity. Qed.

(** X17 (relations of an entity).  On a graph with exact indices,
    [get_relations] returns: for the direction "outgoing" the triples whose
    subject is the entity, for "incoming" those whose object is the entity,
    for "both" the first followed by the second (a triple from the entity
    to itself is listed twice), for any other direction nothing; the
    comparison ignores case.  The call changes nothing but the
    representation of the metadata of the payloads it reads. *)
Theorem relations_of_entity now entity direction kg :
  well_indexed kg ->
  let outgoing := direction = "outgoing" \/ direction = "both" in
  let incoming := direction = "incoming" \/ direction = "both" in
  exists g' triples,
    get_relations now entity direction kg = (set_graph kg g', Ok triples) /\
    read_of (isoformat now) (_graph kg) g' /\
    (forall t, t ∈ triples <->
       exists id d, _graph kg !! id = Some d /\ t = built_triple (isoformat now) d /\
                    ((outgoing /\ lower (td_subject d) = lower entity) \/
                     (incoming /\ lower (td_object d) = lower entity))) /\
    length triples
    = ((if bool_decide outgoing
        then size (default ∅ (_subject_index kg !! lower entity)) else 0)
       + (if bool_decide incoming
          then size (default ∅ (_object_index kg !! lower entity)) else 0))%nat.
Proof.
  intros (Hs & Ho & _) outgoing incoming. unfold get_relations.
  unfold bind at 1. unfold get_state at 1. fold outgoing incoming.
  set (ids_s := elements (default ∅ (_subject_index kg !! lower entity))).
  set (ids_o := elements (default ∅ (_object_index kg !! lower entity))).
  assert (Hes : forall id, id ∈ ids_s <->
            exists d, _graph kg !! id = Some d /\ lower (td_subject d) = lower entity)
    by (intros id; unfold ids_s; rewrite elem_of_elements; apply Hs).
  assert (Heo : forall id, id ∈ ids_o <->
            exists d, _graph kg !! id = Some d /\ lower (td_object d) = lower entity)
    by (intros id; unfold ids_o; rewrite elem_of_elements; apply Ho).
  assert (Hls : length (stored_triples (isoformat now) (_graph kg) ids_s)
                = size (default ∅ (_subject_index kg !! lower entity))).
  { rewrite stored_triples_length; [done|].
    intros id Hin. apply Hes in Hin as (d & -> & _). by eexists. }
  assert (Hlo : length (stored_triples (isoformat now) (_graph kg) ids_o)
                = size (default ∅ (_object_index kg !! lower entity))).
  { rewrite stored_triples_length; [done|].
    intros id Hin. apply Heo in Hin as (d & -> & _). by eexists. }
  destruct (bool_decide_reflect outgoing) as [Hout|Hnout];
    destruct (bool_decide_reflect incoming) as [Hinc|Hninc].
  - destruct (fetch_loop now ids_s kg []) as (g1 & Hrun1 & Hr1 & _).
    rewrite app_nil_l in Hrun1. rewrite (bind_ok _ _ _ _ _ Hrun1). cbv beta iota.
    destruct (fetch_loop now ids_o (set_graph kg g1)
                (stored_triples (isoformat now) (_graph kg) ids_s)) as (g2 & -> & Hr2 & _).
    simpl in Hr2.
    rewrite (stored_triples_ext _ (_graph kg) g1) by (intros id; by apply read_of_built).
    exists g2. eexists. split_and!; [done | by eapply read_of_trans | |].
    + intros t. rewrite elem_of_app, !stored_triples_elem. split.
      * intros [(id & d & Hin & Hget & ->)|(id & d & Hin & Hget & ->)].
        -- apply Hes in Hin as (d' & Hget' & Hk). assert (d' = d) as -> by congruence.
           exists id, d. split_and!; [done | done | by left].
        -- apply Heo in Hin as (d' & Hget' & Hk). assert (d' = d) as -> by congruence.
           exists id, d. split_and!; [done | done | by right].
      * intros (id & d & Hget & -> & [[_ Hk]|[_ Hk]]).
        -- left. exists id, d. split_and!; [|done|done]. apply Hes. by exists d.
        -- right. exists id, d. split_and!; [|done|done]. apply Heo. by exists d.
    + rewrite length_app. by rewrite Hls, Hlo.
  - destruct (fetch_loop now ids_s kg []) as (g1 & Hrun1 & Hr1 & _).
    rewrite app_nil_l in Hrun1. rewrite (bind_ok _ _ _ _ _ Hrun1). cbv beta iota. unfold ret.
    exists g1. eexists. split_and!; [done | done | |].
    + intros t. simpl. rewrite stored_triples_elem. split.
      * intros (id & d & Hin & Hget & ->).
        apply Hes in Hin as (d' & Hget' & Hk). assert (d' = d) as -> by congruence.
        exists id, d. split_and!; [done | done | by left].
      * intros (id & d & Hget & -> & [[_ Hk]|[? _]]); [|done].
        exists id, d. split_and!; [|done|done]. apply Hes. by exists d.
    + simpl. rewrite Hls. lia.
  - unfold bind, ret.
    destruct (fetch_loop now ids_o kg []) as (g2 & -> & Hr2 & _).
    rewrite app_nil_l. exists g2. eexists. split_and!; [done | done | |].
    + intros t. simpl. rewrite stored_triples_elem. split.
      * intros (id & d & Hin & Hget & ->).
        apply Heo in Hin as (d' & Hget' & Hk). assert (d' = d) as -> by congruence.
        exists id, d. split_and!; [done | done | by right].
      * intros (id & d & Hget & -> & [[? _]|[_ Hk]]); [done|].
        exists id, d. split_and!; [|done|done]. apply Heo. by exists d.
    + simpl. by rewrite Hlo.
  - unfold bind, ret. exists (_graph kg), []. split_and!.
    + by destruct kg.
    + apply read_of_refl.
    + intros t. split; [intros Hin; by apply elem_of_nil in Hin|].
      intros (id & d & _ & _ & [[? _]|[? _]]); done.
    + done.
Qed.

(** ** Writing after reading *)

Lemma same_relation_read now_iso g g' predicate obj id :
  read_of now_iso g g' ->
  same_relation g' predicate obj id = same_relation g predicate obj id.
Proof.
  intros Hr. unfold same_relation. destruct (Hr id) as [->|(d & -> & ->)]; [done|]. simpl.
  destruct (read_payload_fields now_iso d) as (_ & _ & -> & -> & _). done.
Qed.

Lemma find_ext {A} (f g : A -> bool) (l : list A) :
  (forall x, x ∈ l -> f x = g x) -> List.find f l = List.find g l.
Proof.
  intros Hext. induction l as [|x l IH]; simpl; [done|].
  rewrite Hext by apply list_elem_of_here. rewrite IH; [done|].
  intros y Hy. apply Hext. by apply list_elem_of_further.
Qed.

Lemma find_existing_read now_iso kg g' subject predicate obj :
  read_of now_iso (_graph kg) g' ->
  _find_existing_triple (set_graph kg g') subject predicate obj
  = _find_existing_triple kg subject predicate obj.
Proof.
  intros Hr. unfold _find_existing_triple. simpl. apply find_ext.
  intros id _. by eapply same_relation_read.
Qed.

Lemma not_serializable (g : gmap string triple_dict) id d :
  g !! id = Some d -> triple_serializable d = false ->
  forallb triple_serializable (map snd (map_to_list g)) = false.
Proof.
  intros Hget Hd. apply not_true_is_false. intros Hall.
  rewrite forallb_forall in Hall. rewrite Hall in Hd; [done|].
  apply in_map_iff. exists (id, d). split; [done|].
  by apply list_elem_of_In, elem_of_map_to_list.
Qed.

(** X18 (adding after reading).  On a graph with exact indices whose
    payloads hold a metadata dictionary, [get_relations] of an entity that
    is the subject of a stored triple returns at least one triple, and
    leaves a metadata object in the payloads it read.  An [add_triple] of
    a new triple that follows raises [TypeError] in [_save_graph]: the
    triple is then in [_graph], but not in the file and in no index, so
    that the search for it still fails. *)
Theorem add_after_relations_raises now entity kg :
  well_indexed kg ->
  (forall id d, _graph kg !! id = Some d -> exists md, td_metadata d = MDict md) ->
  (exists id d, _graph kg !! id = Some d /\ lower (td_subject d) = lower entity) ->
  exists kg1 triples,
    get_relations now entity "outgoing" kg = (kg1, Ok triples) /\
    triples <> [] /\
    forall now' subject predicate obj confidence source_episode,
      _graph kg !! triple_generate_id subject predicate obj = None ->
      _find_existing_triple kg subject predicate obj = None ->
      exists kg2,
        add_triple now' subject predicate obj confidence source_episode kg1
        = (kg2, Raise TypeError) /\
        graph_file kg2 = graph_file kg /\
        _graph kg2 !! triple_generate_id subject predicate obj
        = Some (new_triple_dict now' subject predicate obj confidence source_episode) /\
        _subject_index kg2 = _subject_index kg /\
        _object_index kg2 = _object_index kg /\
        _predicate_index kg2 = _predicate_index kg /\
        _find_existing_triple kg2 subject predicate obj = None.
Proof.
  intros Hwi Hdict (id0 & d0 & Hget0 & Hk0).
  pose proof Hwi as (Hs & _ & _).
  unfold get_relations. unfold bind at 1. unfold get_state at 1.
  rewrite bool_decide_eq_true_2 by (by left).
  rewrite bool_decide_eq_false_2 by (intros [?|?]; done).
  set (ids := elements (default ∅ (_subject_index kg !! lower entity))).
  destruct (fetch_loop now ids kg []) as (g1 & Hrun & Hr & Hread).
  rewrite app_nil_l in Hrun. rewrite (bind_ok _ _ _ _ _ Hrun). cbv beta iota. unfold ret.
  assert (Hin0 : id0 ∈ ids) by (unfold ids; rewrite elem_of_elements; apply Hs; by exists d0).
  eexists _, _. split; [reflexivity|]. split.
  { simpl. intros Hnil.
    assert (built_triple (isoformat now) d0 ∈ stored_triples (isoformat now) (_graph kg) ids)
      as Hin by (apply stored_triples_elem; by exists id0, d0).
    rewrite Hnil in Hin. by apply elem_of_nil in Hin. }
  intros now' subject predicate obj confidence source_episode Hnew Hnone.
  set (new_id := triple_generate_id subject predicate obj).
  set (new := new_triple_dict now' subject predicate obj confidence source_episode).
  assert (Hne : new_id <> id0) by (intros E; unfold new_id in E; congruence).
  assert (Hbad : triple_serializable (read_payload (isoformat now) d0) = false).
  { unfold triple_serializable. rewrite read_payload_metadata.
    by destruct (Hdict id0 d0 Hget0) as [md ->]. }
  unfold add_triple. unfold bind at 1. unfold get_state at 1.
  rewrite (find_existing_read (isoformat now)) by done. rewrite Hnone.
  unfold insert_triple, bind, get_state, put_state, ret, _save_graph. simpl.
  fold new_id new.
  rewrite (not_serializable (<[new_id := new]> g1) id0 (read_payload (isoformat now) d0));
    [| rewrite lookup_insert_ne by done; by apply Hread | done].
  eexists. split; [reflexivity|]. simpl. split_and!; try done.
  - apply lookup_insert_eq.
  - unfold _find_existing_triple in *. simpl.
    rewrite <- Hnone. apply find_ext. intros id Hid0.
    apply elem_of_elements, Hs in Hid0 as (ds & Hds & _).
    unfold same_relation. destruct (decide (id = new_id)) as [->|Hid].
    + exfalso. unfold new_id in Hds. congruence.
    + rewrite lookup_insert_ne by done.
      destruct (Hr id) as [->|(d & -> & ->)]; [done|]. simpl.
      by destruct (read_payload_fields (isoformat now) d) as (_ & _ & -> & -> & _).
Qed.

(** ** A reopened graph *)

Lemma find_some_exists {A} (f : A -> bool) (l : list A) (x : A) :
  x ∈ l -> f x = true -> exists y, List.find f l = Some y /\ y ∈ l /\ f y = true.
Proof.
  intros Hin Hf. destruct (List.find f l) as [y|] eqn:Hfind.
  - apply find_some in Hfind as [Hy Hfy]. exists y. split_and!; [done | | done].
    by apply list_elem_of_In.
  - rewrite (find_none_elem f l x Hfind Hin) in Hf. done.
Qed.

Lemma raise_confidence_dict now id confidence kg d md :
  _graph kg !! id = Some d -> td_metadata d = MDict md ->
  (forall id' d', _graph kg !! id' = Some d' -> triple_serializable d' = true) ->
  exists kg' d',
    raise_confidence now id confidence kg = (kg', Ok id) /\
    _graph kg' = <[id := d']> (_graph kg) /\
    kg_collection kg' = kg_collection kg /\
    td_subject d' = td_subject d /\ td_predicate d' = td_predicate d /\
    td_object d' = td_object d /\
    default 0%Q (td_confidence d') = Qmax (default 0%Q (td_confidence d)) confidence.
Proof.
  intros Hget Hmeta Hser.
  unfold raise_confidence, bind, get_state, put_state, ret, raise. rewrite Hget.
  rewrite <- Qgtb_max. destruct (Qgtb confidence (default 0%Q (td_confidence d))) eqn:Hgt.
  - simpl. rewrite Hmeta. simpl. unfold _save_graph. simpl.
    rewrite serializable_forallb.
    + eexists _, _. split; [reflexivity|]. simpl. by split_and!.
    + intros k d'. rewrite lookup_insert. case_decide.
      * by intros [= <-].
      * apply Hser.
  - exists kg, d. split_and!; try done. by rewrite insert_id.
Qed.

(** X19 (a reopened graph recognises its triples).  On a graph opened from
    a file whose payloads hold a metadata dictionary under non-empty
    identifiers, [add_triple] of a triple that the file holds, whatever the
    case of the three strings, returns the identifier of a stored triple
    with that subject, predicate and object, adds no entry, and leaves
    this triple with the greater of the two confidences. *)
Theorem reopened_graph_deduplicates now c file subject predicate obj confidence source_episode :
  let g := default ∅ file in
  (forall id d, g !! id = Some d -> id <> "" /\ exists md, td_metadata d = MDict md) ->
  (exists id d, g !! id = Some d /\ same_triple subject predicate obj d) ->
  exists id d kg' d',
    add_triple now subject predicate obj confidence source_episode (open_graph c file)
    = (kg', Ok id) /\
    g !! id = Some d /\ same_triple subject predicate obj d /\
    _graph kg' = <[id := d']> g /\
    kg_collection kg' = c /\
    td_subject d' = td_subject d /\ td_predicate d' = td_predicate d /\
    td_object d' = td_object d /\
    default 0%Q (td_confidence d') = Qmax (default 0%Q (td_confidence d)) confidence.
Proof.
  intros g Hfile (id0 & d0 & Hget0 & Hs0 & Hp0 & Ho0).
  unfold open_graph.
  set (kg0 := mkKnowledge c (default ∅ file) ∅ ∅ ∅ file).
  destruct (rebuild_well_indexed kg0) as ((Hs & _ & _) & Hg & Hc & _).
  simpl in Hg, Hc. fold g in Hg.
  unfold add_triple. unfold bind at 1. unfold get_state at 1.
  destruct (find_some_exists (same_relation (_graph (_rebuild_indices kg0)) predicate obj)
              (elements (default ∅ (_subject_index (_rebuild_indices kg0) !! lower subject)))
              id0) as (id & Hfind & Hin & Hrel).
  { apply elem_of_elements, Hs. exists d0. by rewrite Hg. }
  { rewrite Hg. apply (same_relation_spec _ _ _ _ d0); done. }
  unfold _find_existing_triple at 1. rewrite Hfind.
  apply elem_of_elements, Hs in Hin as (d & Hget & Hsub). rewrite Hg in Hget.
  destruct (Hfile id d Hget) as [Hne [md Hmd]].
  rewrite decide_False by done.
  destruct (raise_confidence_dict now id confidence (_rebuild_indices kg0) d md)
    as (kg' & d' & Hrun & Hg' & Hc' & Hfs & Hfp & Hfo & Hconf); [by rewrite Hg | done | |].
  { intros id' d1. rewrite Hg. intros Hget1. destruct (Hfile id' d1 Hget1) as [_ [md1 Hmd1]].
    unfold triple_serializable. by rewrite Hmd1. }
  exists id, d, kg', d'. rewrite Hg in Hrel.
  apply (same_relation_spec _ _ _ _ d Hget) in Hrel as [Hp Ho].
  split_and!; try done; congruence.
Qed.

(** ** Paths *)

(** The triples of a path follow one another from [from] to [to], both
    lower-cased. *)
Fixpoint connects (from : string) (path : list KnowledgeTriple) (to : string) : Prop :=
  match path with
  | [] => from = to
  | triple :: rest =>
      lower (kt_subject triple) = from /\ connects (lower (kt_object triple)) rest to
  end.

Lemma connects_snoc from path triple to :
  connects from path (lower (kt_subject triple)) -> lower (kt_object triple) = to ->
  connects from (path ++ [triple]) to.
Proof.
  revert from. induction path as [|t path IH]; intros from; simpl.
  - by intros <-.
  - intros [Hs Hrest] Ho. split; [done|]. by apply IH.
Qed.

(** The lower-cased objects of the stored triples. *)
Definition objects (kg : KnowledgeGraph) : gset string :=
  list_to_set (map (fun entry => lower (td_object entry.2)) (map_to_list (_graph kg))).

Lemma objects_elem kg id d : _graph kg !! id = Some d -> lower (td_object d) ∈ objects kg.
Proof.
  intros Hget. unfold objects. apply elem_of_list_to_set, list_elem_of_fmap.
  exists (id, d). split; [done|]. by apply elem_of_map_to_list.
Qed.

Lemma get_relations_outgoing now entity kg g :
  exists g',
    get_relations now entity "outgoing" (set_graph kg g)
    = (set_graph kg g',
       Ok (stored_triples (isoformat now) g
             (elements (default ∅ (_subject_index kg !! lower entity))))) /\
    read_of (isoformat now) g g'.
Proof.
  unfold get_relations. unfold bind at 1. unfold get_state at 1.
  rewrite bool_decide_eq_true_2 by (by left).
  rewrite bool_decide_eq_false_2 by (intros [?|?]; done).
  destruct (fetch_loop now (elements (default ∅ (_subject_index kg !! lower entity)))
              (set_graph kg g) []) as (g' & Hrun & Hr & _).
  rewrite app_nil_l in Hrun. simpl in Hrun, Hr. simpl.
  rewrite (bind_ok _ _ _ _ _ Hrun). by exists g'.
Qed.

(** The scan of the relations of one entity: the path found ends with a
    relation whose object is the target; otherwise the queue grows by
    entities that were not visited, each with the path that leads to it. *)
Lemma scan_relations_spec (O : gset string) target path relations :
  (forall t, t ∈ relations -> lower (kt_object t) ∈ O) ->
  forall visited queue,
  match scan_relations target path relations visited queue with
  | inl found =>
      exists t, t ∈ relations /\ found = (path ++ [t])%list /\ lower (kt_object t) = target
  | inr (visited', queue') =>
      (exists new, queue' = (queue ++ new)%list /\
         forall c p, (c, p) ∈ new ->
           exists t, t ∈ relations /\ c = kt_object t /\ p = (path ++ [t])%list) /\
      (length queue' + size (O ∖ visited') <= length queue + size (O ∖ visited))%nat
  end.
Proof.
  induction relations as [|t rest IH]; intros HO visited queue; simpl.
  - split; [|done]. exists []. rewrite app_nil_r. split; [done|].
    intros c p Hin. by apply elem_of_nil in Hin.
  - assert (HOrest : forall t', t' ∈ rest -> lower (kt_object t') ∈ O)
      by (intros t' Ht'; apply HO; by apply list_elem_of_further).
    destruct (decide (lower (kt_object t) = target)) as [Heq|Hne].
    { exists t. split_and!; [apply list_elem_of_here | done | done]. }
    destruct (decide (lower (kt_object t) ∈ visited)) as [Hv|Hnv].
    + specialize (IH HOrest visited queue).
      destruct (scan_relations target path rest visited queue) as [found|[v' q']].
      * destruct IH as (t' & Ht' & ? & ?). exists t'. split_and!; [|done|done].
        by apply list_elem_of_further.
      * destruct IH as [(new & -> & Hnew) Hm]. split; [|done].
        exists new. split; [done|]. intros c p Hin.
        destruct (Hnew c p Hin) as (t' & Ht' & ? & ?). exists t'. split_and!; [|done|done].
        by apply list_elem_of_further.
    + specialize (IH HOrest ({[lower (kt_object t)]} ∪ visited)
                     (queue ++ [(kt_object t, (path ++ [t])%list)])%list).
      pose proof (size_unvisited O visited (lower (kt_object t))
                    (HO t (list_elem_of_here _ _)) Hnv) as Hsize.
      destruct (scan_relations target path rest _ _) as [found|[v' q']].
      * destruct IH as (t' & Ht' & ? & ?). exists t'. split_and!; [|done|done].
        by apply list_elem_of_further.
      * destruct IH as [(new & -> & Hnew) Hm]. split.
        -- exists ((kt_object t, (path ++ [t])%list) :: new). split; [by rewrite <- app_assoc|].
           intros c p Hin. apply elem_of_cons in Hin as [[= -> ->]|Hin].
           ++ exists t. split_and!; [apply list_elem_of_here | done | done].
           ++ destruct (Hnew c p Hin) as (t' & Ht' & ? & ?). exists t'.
              split_and!; [|done|done]. by apply list_elem_of_further.
        -- rewrite !length_app in Hm. rewrite !length_app. simpl in *. lia.
Qed.

Lemma scan_relations_finds target path relations :
  (exists t, t ∈ relations /\ lower (kt_object t) = target) ->
  forall visited queue,
  exists t, t ∈ relations /\ lower (kt_object t) = target /\
            scan_relations target path relations visited queue = inl (path ++ [t])%list.
Proof.
  induction relations as [|t rest IH]; intros (t0 & Hin & Ht0) visited queue.
  - by apply elem_of_nil in Hin.
  - simpl. destruct (decide (lower (kt_object t) = target)) as [Heq|Hne].
    + exists t. split_and!; [apply list_elem_of_here | done | done].
    + apply elem_of_cons in Hin as [->|Hin]; [done|].
      assert (exists t, t ∈ rest /\ lower (kt_object t) = target) as Hex by (by exists t0).
      destruct (decide (lower (kt_object t) ∈ visited)).
      * destruct (IH Hex visited queue) as (t' & ? & ? & ->). exists t'.
        split_and!; [by apply list_elem_of_further | done | done].
      * destruct (IH Hex ({[lower (kt_object t)]} ∪ visited)
                     (queue ++ [(kt_object t, (path ++ [t])%list)])%list)
          as (t' & ? & ? & ->).
        exists t'. split_and!; [by apply list_elem_of_further | done | done].
Qed.

(** A triple built from a stored payload. *)
Definition stored (now_iso : string) (kg : KnowledgeGraph) (t : KnowledgeTriple) : Prop :=
  exists id d, _graph kg !! id = Some d /\ t = built_triple now_iso d.

(** The triples that [get_relations] returns for [current] on a graph read
    from [kg]: stored in [kg], with [current] for subject. *)
Lemma outgoing_relations now kg g current t :
  well_indexed kg -> read_of (isoformat now) (_graph kg) g ->
  t ∈ stored_triples (isoformat now) g
        (elements (default ∅ (_subject_index kg !! lower current))) <->
  exists id d, _graph kg !! id = Some d /\ t = built_triple (isoformat now) d /\
               lower (td_subject d) = lower current.
Proof.
  intros (Hs & _ & _) Hr.
  rewrite (stored_triples_ext _ (_graph kg) g) by (intros id; by apply read_of_built).
  rewrite stored_triples_elem. split.
  - intros (id & d & Hin & Hget & ->). apply elem_of_elements, Hs in Hin as (d' & Hget' & Hk).
    assert (d' = d) as -> by congruence. by exists id, d.
  - intros (id & d & Hget & -> & Hk). exists id, d. split_and!; [|done|done].
    apply elem_of_elements, Hs. by exists d.
Qed.

(** The loop of [get_path].  With enough iterations it ends; a path that
    it returns leads from the source to the target, has at most
    [max_depth] triples and is made of stored triples. *)
Lemma search_path_spec now target max_depth kg source :
  well_indexed kg ->
  forall fuel visited queue g,
  read_of (isoformat now) (_graph kg) g ->
  (forall current path, (current, path) ∈ queue ->
     connects source path (lower current) /\ Forall (stored (isoformat now) kg) path) ->
  (length queue + size (objects kg ∖ visited) <= fuel)%nat ->
  exists g' r,
    search_path fuel now target max_depth visited queue (set_graph kg g)
    = (set_graph kg g', Ok (Some r)) /\
    read_of (isoformat now) (_graph kg) g' /\
    forall path, r = Some path ->
      connects source path target /\ (0 < length path <= max_depth)%nat /\
      Forall (stored (isoformat now) kg) path.
Proof.
  intros Hwi. induction fuel as [|fuel IH]; intros visited queue g Hr Hinv Hfuel.
  - destruct queue as [|[current path] queue]; [|simpl in Hfuel; lia].
    exists g, None. simpl. unfold ret. by split_and!.
  - destruct queue as [|[current path] queue].
    { exists g, None. simpl. unfold ret. by split_and!. }
    simpl in Hfuel. cbn [search_path].
    destruct (Hinv current path (list_elem_of_here _ _)) as [Hconn Hstored].
    assert (Hinv' : forall c p, (c, p) ∈ queue ->
              connects source p (lower c) /\ Forall (stored (isoformat now) kg) p)
      by (intros c p Hin; apply Hinv; by apply list_elem_of_further).
    destruct (max_depth <=? length path)%nat eqn:Hdepth.
    { apply IH; [done | done | lia]. }
    apply Nat.leb_gt in Hdepth.
    destruct (get_relations_outgoing now current kg g) as (g1 & Hrel & Hr1).
    rewrite (bind_ok _ _ _ _ _ Hrel).
    set (relations := stored_triples (isoformat now) g _) in *.
    assert (Hrelations : forall t, t ∈ relations ->
              stored (isoformat now) kg t /\ lower (kt_subject t) = lower current).
    { intros t Ht. apply (outgoing_relations now kg g current t Hwi Hr) in Ht
        as (id & d & Hget & -> & Hk).
      split; [by exists id, d|].
      by destruct (built_triple_fields (isoformat now) d) as (-> & _). }
    pose proof (scan_relations_spec (objects kg) target path relations) as Hscan.
    specialize (Hscan (fun t Ht =>
      match Hrelations t Ht with
      | conj (ex_intro _ id (ex_intro _ d (conj Hget Ht'))) _ =>
          eq_ind_r (fun t => lower (kt_object t) ∈ objects kg)
                   (eq_ind_r (fun o => lower o ∈ objects kg) (objects_elem kg id d Hget)
                             (proj2 (proj2 (built_triple_fields (isoformat now) d))))
                   Ht'
      end) visited queue).
    destruct (scan_relations target path relations visited queue) as [found|[v' q']].
    + destruct Hscan as (t & Ht & -> & Hobj). destruct (Hrelations t Ht) as [Hst Hsub].
      exists g1, (Some (path ++ [t])%list). unfold ret.
      split_and!; [done | by eapply read_of_trans |].
      intros p [= <-]. rewrite length_app. simpl. split_and!; [| lia | lia |].
      * apply connects_snoc; [by rewrite Hsub | done].
      * apply Forall_app. split; [done|]. by constructor.
    + destruct Hscan as [(new & -> & Hnew) Hm].
      destruct (IH v' (queue ++ new)%list g1) as (g' & r & Hrun & Hr' & Hres).
      * by eapply read_of_trans.
      * intros c p Hin. apply elem_of_app in Hin as [Hin|Hin]; [by apply Hinv'|].
        destruct (Hnew c p Hin) as (t & Ht & -> & ->).
        destruct (Hrelations t Ht) as [Hst Hsub]. split.
        -- apply connects_snoc; [by rewrite Hsub | done].
        -- apply Forall_app. split; [done|]. by constructor.
      * lia.
      * exists g', r. by split_and!.
Qed.

(** X20 (paths).  On a graph with exact indices, [get_path] ends within
    as many iterations of its loop as the graph has objects, plus one.  It
    returns the empty path when the source is the target; a path that it
    returns leads from the source to the target through stored triples,
    each starting where the previous one ends, and has at most [max_depth]
    triples; and when a stored triple leads from the source to the target
    and [max_depth] is positive, it returns one such triple.  Names are
    compared without case. *)
Theorem get_path_follows_relations now source target max_depth fuel kg :
  well_indexed kg ->
  (size (objects kg) < fuel)%nat ->
  exists g' r,
    get_path fuel now source target max_depth kg = (set_graph kg g', Ok (Some r)) /\
    read_of (isoformat now) (_graph kg) g' /\
    (lower source = lower target -> r = Some []) /\
    (forall path, r = Some path ->
       connects (lower source) path (lower target) /\ (length path <= max_depth)%nat /\
       Forall (stored (isoformat now) kg) path) /\
    (lower source <> lower target -> (0 < max_depth)%nat ->
     (exists id d, _graph kg !! id = Some d /\ lower (td_subject d) = lower source /\
                   lower (td_object d) = lower target) ->
     exists t, r = Some [t] /\ lower (kt_subject t) = lower source /\
               lower (kt_object t) = lower target).
Proof.
  intros Hwi Hfuel. unfold get_path.
  assert (Hkg : set_graph kg (_graph kg) = kg) by (by destruct kg).
  destruct (decide (lower source = lower target)) as [Heq|Hne].
  - exists (_graph kg), (Some []). unfold ret. rewrite Hkg. split_and!; try done.
    + apply read_of_refl.
    + intros path [= <-]. simpl. split_and!; [done | lia | constructor].
  - destruct (search_path_spec now (lower target) max_depth kg (lower source) Hwi fuel
                {[lower source]} [(source, [])] (_graph kg)) as (g' & r & Hrun & Hr & Hres).
    + apply read_of_refl.
    + intros c p Hin. apply list_elem_of_singleton in Hin as [= -> ->]. simpl.
      split; [done | constructor].
    + simpl. pose proof (size_unvisited_le (objects kg) {[lower source]}). lia.
    + rewrite Hkg in Hrun.
      exists g', r. split_and!; [done | done | done | |].
      * intros path Hp. destruct (Hres path Hp) as (? & ? & ?). split_and!; [done | lia | done].
      * intros _ Hdepth (id & d & Hget & Hsub & Hobj).
        destruct fuel as [|fuel]; [lia|].
        cbn [search_path] in Hrun. change (length (@nil KnowledgeTriple)) with 0%nat in Hrun.
        destruct (Nat.leb_spec max_depth 0) as [?|_]; [lia|].
        destruct (get_relations_outgoing now source kg (_graph kg)) as (g1 & Hrel & Hr1).
        rewrite Hkg in Hrel.
        rewrite (bind_ok _ _ _ _ _ Hrel) in Hrun.
        destruct (scan_relations_finds (lower target) []
                    (stored_triples (isoformat now) (_graph kg)
                       (elements (default ∅ (_subject_index kg !! lower source)))))
          with (visited := ({[lower source]} : gset string))
               (queue := @nil (string * list KnowledgeTriple)) as (t & Ht & Hto & Hscan).
        { exists (built_triple (isoformat now) d). split.
          - apply (outgoing_relations now kg (_graph kg) source _ Hwi (read_of_refl _ _)).
            by exists id, d.
          - by destruct (built_triple_fields (isoformat now) d) as (_ & _ & ->). }
        rewrite Hscan in Hrun. unfold ret in Hrun. simpl in Hrun.
        exists t. split_and!; [congruence | | done].
        apply (outgoing_relations now kg (_graph kg) source _ Hwi (read_of_refl _ _)) in Ht
          as (id' & d' & _ & -> & Hk).
        by destruct (built_triple_fields (isoformat now) d') as (-> & _).
Qed.

(** ** Deleting *)

Section WithDelete.
Context `{!VectorIndexDelete}.

Lemma index_discard_add index key tid k :
  tid ∉ default ∅ (index !! key) ->
  default ∅ (index_discard (index_add index key tid) key tid !! k) = default ∅ (index !! k).
Proof.
  intros Hnin. unfold index_discard, index_add.
  destruct (decide (key = k)) as [<-|Hne].
  - rewrite !lookup_insert_eq. simpl. apply set_eq. intros x.
    rewrite elem_of_difference, elem_of_union, elem_of_singleton. naive_solver.
  - by rewrite !lookup_insert_ne.
Qed.

Lemma index_exact_add index field g id d :
  g !! id = None -> index_exact index field g ->
  index_exact (index_add index (lower (field d)) id) field (<[id := d]> g).
Proof.
  intros Hnew Hex k tid. rewrite index_add_lookup.
  destruct (decide (tid = id)) as [->|Hne].
  - rewrite lookup_insert_eq. destruct (decide (lower (field d) = k)) as [Hk|Hk].
    + rewrite elem_of_union, elem_of_singleton. split; [|by right]. intros _. by exists d.
    + rewrite (Hex k id). split.
      * intros (d' & Hget & _). congruence.
      * intros (d' & [= <-] & ?). done.
  - rewrite lookup_insert_ne by done. destruct (decide (lower (field d) = k)) as [Hk|Hk].
    + rewrite elem_of_union, elem_of_singleton, (Hex k tid). naive_solver.
    + apply Hex.
Qed.

(** X21 (deleting what was added).  On a graph with exact indices whose
    payloads can be serialised, [add_triple] of a triple that is not
    stored returns its identifier and keeps the indices exact; a
    [delete_triple] of this identifier then returns [True] and restores the
    triples and the content of the three indices, writes the restored graph
    to the file, and removes the identifier from the vector index. *)
Theorem delete_undoes_add now subject predicate obj confidence source_episode kg :
  well_indexed kg ->
  (forall id d, _graph kg !! id = Some d -> triple_serializable d = true) ->
  _find_existing_triple kg subject predicate obj = None ->
  _graph kg !! triple_generate_id subject predicate obj = None ->
  let new_id := triple_generate_id subject predicate obj in
  exists kg1 kg2,
    add_triple now subject predicate obj confidence source_episode kg = (kg1, Ok new_id) /\
    well_indexed kg1 /\
    delete_triple new_id kg1 = (kg2, Ok true) /\
    _graph kg2 = _graph kg /\
    graph_file kg2 = Some (_graph kg) /\
    kg_collection kg2 = coll_delete (kg_collection kg1) new_id /\
    (forall k, default ∅ (_subject_index kg2 !! k) = default ∅ (_subject_index kg !! k)) /\
    (forall k, default ∅ (_object_index kg2 !! k) = default ∅ (_object_index kg !! k)) /\
    (forall k, default ∅ (_predicate_index kg2 !! k) = default ∅ (_predicate_index kg !! k)).
Proof.
  intros (Hs & Ho & Hp) Hser Hnone Hnew new_id.
  unfold add_triple. unfold bind at 1. unfold get_state at 1. rewrite Hnone.
  rewrite insert_triple_ok by done. fold new_id.
  set (new := new_triple_dict now subject predicate obj confidence source_episode).
  assert (Hfresh : forall (index : gmap string (gset string)) field k,
            index_exact index field (_graph kg) -> new_id ∉ default ∅ (index !! k)).
  { intros index field k Hex Hin. apply Hex in Hin as (d & Hget & _).
    unfold new_id in Hget. congruence. }
  eexists _, _. split; [reflexivity|]. split.
  { unfold well_indexed. simpl. split_and!.
    - apply (index_exact_add _ td_subject _ new_id new); done.
    - apply (index_exact_add _ td_object _ new_id new); done.
    - apply (index_exact_add _ td_predicate _ new_id new); done. }
  unfold delete_triple, bind, get_state, put_state, ret, _save_graph. simpl.
  rewrite lookup_insert_eq. simpl. rewrite delete_insert_id by done.
  rewrite serializable_forallb by done.
  split_and!; try done; intros k.
  - apply index_discard_add. by eapply Hfresh.
  - apply index_discard_add. by eapply Hfresh.
  - apply index_discard_add. by eapply Hfresh.
Qed.

End WithDelete.

End WithEnv.

#[local] Existing Instances Examples.toy_lib Examples.toy_index.

(** A vector index from which an identifier can be removed. *)
Definition toy_coll_delete (c : list (string * Q)) (id : string) : list (string * Q) :=
  List.filter (fun entry => negb (bool_decide (entry.1 = id))) c.

#[local] Instance toy_delete : @VectorIndexDelete Examples.toy_index :=
  @Build_VectorIndexDelete Examples.toy_index toy_coll_delete.

(** The content of a graph file with two triples. *)
Definition aura_uses_python : triple_dict :=
  mkTripleDict "kg_Aura:uses:Python" "Aura" "uses" "Python" (Some 0.7%Q) None
               (MDict (meta_to_dict (new_metadata "10" "user"))).

Definition python_is_language : triple_dict :=
  mkTripleDict "kg_Python:is_a:language" "Python" "is_a" "language" (Some 1%Q) None
               (MDict (meta_to_dict (new_metadata "20" "user"))).

Definition demo_file : gmap string triple_dict :=
  <["kg_Aura:uses:Python" := aura_uses_python]>
    {["kg_Python:is_a:language" := python_is_language]}.

Lemma demo_file_aura : demo_file !! "kg_Aura:uses:Python" = Some aura_uses_python.
Proof. apply lookup_insert_eq. Qed.

Lemma demo_file_rust : demo_file !! "kg_Rust:is_a:language" = None.
Proof.
  unfold demo_file. rewrite lookup_insert_ne by done. by apply lookup_singleton_None.
Qed.

(** The graph opened from this file. *)
Definition empty_collection : @collection Examples.toy_index := [].

Definition demo_graph : KnowledgeGraph := open_graph empty_collection (Some demo_file).

Lemma demo_graph_well_indexed : well_indexed demo_graph.
Proof. apply rebuild_well_indexed. Qed.

Lemma demo_graph_triples : _graph demo_graph = demo_file.
Proof.
  exact (proj1 (proj2 (rebuild_well_indexed
                         (mkKnowledge empty_collection demo_file ∅ ∅ ∅ (Some demo_file))))).
Qed.

Lemma demo_file_payloads id d :
  demo_file !! id = Some d -> id <> "" /\ exists md, td_metadata d = MDict md.
Proof.
  unfold demo_file. intros Hget.
  apply lookup_insert_Some in Hget as [[<- <-]|[_ Hget]]; [by eauto|].
  apply lookup_singleton_Some in Hget as [<- <-]. by eauto.
Qed.

Lemma relations_of_entity_witness :
  exists g' triples,
    get_relations 100 "PYTHON" "both" demo_graph = (set_graph demo_graph g', Ok triples) /\
    length triples = 2%nat.
Proof.
  destruct (relations_of_entity 100 "PYTHON" "both" demo_graph demo_graph_well_indexed)
    as (g' & triples & Hrun & _ & _ & Hlen).
  exists g', triples. split; [exact Hrun|]. rewrite Hlen. vm_compute. reflexivity.
Defined.

Lemma add_after_relations_raises_witness :
  exists kg1 triples kg2,
    get_relations 100 "aura" "outgoing" demo_graph = (kg1, Ok triples) /\
    add_triple 200 "Rust" "is_a" "language" 1 None kg1 = (kg2, Raise TypeError).
Proof.
  destruct (add_after_relations_raises 100 "aura" demo_graph demo_graph_well_indexed)
    as (kg1 & triples & Hrun & _ & Hadd).
  - rewrite demo_graph_triples. intros id d Hget.
    destruct (demo_file_payloads id d Hget) as [_ Hmd]. exact Hmd.
  - rewrite demo_graph_triples. exists "kg_Aura:uses:Python", aura_uses_python.
    split; [apply demo_file_aura | reflexivity].
  - destruct (Hadd 200%Z "Rust" "is_a" "language" 1%Q None) as (kg2 & Hraise & _).
    + rewrite demo_graph_triples. apply demo_file_rust.
    + vm_compute. reflexivity.
    + exists kg1, triples, kg2. split; [exact Hrun | exact Hraise].
Defined.

Lemma reopened_graph_deduplicates_witness :
  exists id d kg',
    add_triple 100 "AURA" "Uses" "python" 0.9 None (open_graph empty_collection (Some demo_file))
    = (kg', Ok id) /\
    demo_file !! id = Some d /\ td_subject d = "Aura".
Proof.
  destruct (reopened_graph_deduplicates 100 empty_collection (Some demo_file)
              "AURA" "Uses" "python" 0.9 None)
    as (id & d & kg' & d' & Hrun & Hget & Hsame & _).
  - apply demo_file_payloads.
  - exists "kg_Aura:uses:Python", aura_uses_python. split; [apply demo_file_aura|].
    unfold same_triple. by split_and!.
  - exists id, d, kg'. split_and!; [exact Hrun | exact Hget |].
    simpl in Hget. unfold demo_file in Hget.
    apply lookup_insert_Some in Hget as [[<- <-]|[_ Hget]]; [done|].
    apply lookup_singleton_Some in Hget as [<- <-].
    destruct Hsame as (Hs & _). discriminate Hs.
Defined.

Lemma get_path_follows_relations_witness :
  exists g' t,
    get_path 3 100 "aura" "PYTHON" 4 demo_graph = (set_graph demo_graph g', Ok (Some (Some [t]))) /\
    lower (kt_subject t) = "aura" /\ lower (kt_object t) = "python".
Proof.
  destruct (get_path_follows_relations 100 "aura" "PYTHON" 4 3 demo_graph
              demo_graph_well_indexed) as (g' & r & Hrun & _ & _ & _ & Hdirect).
  - vm_compute. lia.
  - destruct Hdirect as (t & -> & Hsub & Hobj).
    + by vm_compute.
    + lia.
    + rewrite demo_graph_triples. exists "kg_Aura:uses:Python", aura_uses_python.
      split_and!; [apply demo_file_aura | reflexivity | reflexivity].
    + exists g', t. split_and!; [exact Hrun | exact Hsub | exact Hobj].
Defined.

Lemma delete_undoes_add_witness :
  exists kg1 kg2,
    add_triple 100 "Rust" "is_a" "language" 1 None demo_graph
    = (kg1, Ok "kg_Rust:is_a:language") /\
    delete_triple "kg_Rust:is_a:language" kg1 = (kg2, Ok true) /\
    _graph kg2 = _graph demo_graph.
Proof.
  destruct (delete_undoes_add 100 "Rust" "is_a" "language" 1 None demo_graph
              demo_graph_well_indexed) as (kg1 & kg2 & Hadd & _ & Hdel & Hgraph & _).
  - rewrite demo_graph_triples. intros id d Hget.
    destruct (demo_file_payloads id d Hget) as [_ [md Hmd]].
    unfold triple_serializable. by rewrite Hmd.
  - vm_compute. reflexivity.
  - rewrite demo_graph_triples. apply demo_file_rust.
  - exists kg1, kg2. split_and!; [exact Hadd | exact Hdel | exact Hgraph].
Defined.

End KnowledgeQueryFacts.

(* ===================================================================== *)
(** * More facts on hybrid_search.py: the index built by [fit] *)
(* ===================================================================== *)

Module IndexFacts.
Import Hybrid BM25Facts FusionFacts.

Section WithEnv.
Context `{PyLib} `{VectorIndex}.
Local Open Scope R_scope.

(** ** Document frequencies *)

(** The inner loop of [fit] adds one to the count of a term exactly when
    the term occurs among the tokens and was not seen before. *)
Lemma count_document_spec tokens : forall (seen : gset string) (df : gmap string nat) term,
  default 0%nat (count_document tokens seen df !! term) =
  (default 0%nat (df !! term)
   + (if decide (term ∈ tokens /\ term ∉ seen) then 1 else 0))%nat.
Proof.
  induction tokens as [|token rest IH]; intros seen df0 term.
  - case_decide as Hd; [|simpl; lia]. destruct Hd as [Hin _]. by apply elem_of_nil in Hin.
  - cbn [count_document]. destruct (decide (token ∈ seen)) as [Hseen|Hnew].
    + rewrite IH. f_equal. apply decide_ext. rewrite elem_of_cons. split; [naive_solver|].
      intros [[->|?] ?]; [done|by split].
    + rewrite IH. destruct (decide (term = token)) as [->|Hne].
      * rewrite lookup_insert_eq. simpl default.
        rewrite (decide_False (P := _ /\ _)) by set_solver.
        rewrite (decide_True (P := _ /\ _)); [unfold Datatypes.id; lia|]. split; [apply list_elem_of_here | done].
      * rewrite lookup_insert_ne by done. f_equal. apply decide_ext.
        rewrite elem_of_cons. set_solver.
Qed.

(** The number of documents among [documents] whose tokens contain
    [term]. *)
Definition documents_with (term : string) (documents : list (string * string)) : nat :=
  length (List.filter (fun d => bool_decide (term ∈ tokenize d.2)) documents).

Lemma fit_document_df bm document term :
  default 0%nat (df (fit_document bm document) !! term) =
  (default 0%nat (df bm !! term) + documents_with term [document])%nat.
Proof.
  destruct document as [doc_id content]. unfold documents_with. simpl.
  rewrite count_document_spec. f_equal.
  destruct (decide (term ∈ tokenize content)) as [Hin|Hnin].
  - rewrite decide_True by set_solver. by rewrite bool_decide_eq_true_2.
  - rewrite decide_False by naive_solver. by rewrite bool_decide_eq_false_2.
Qed.

Lemma documents_with_cons term d documents :
  documents_with term (d :: documents)
  = (documents_with term [d] + documents_with term documents)%nat.
Proof. unfold documents_with. simpl. by destruct (bool_decide _). Qed.

Lemma fold_fit_document_df documents : forall bm term,
  default 0%nat (df (fold_left fit_document documents bm) !! term) =
  (default 0%nat (df bm !! term) + documents_with term documents)%nat.
Proof.
  induction documents as [|d ds IH]; intros bm term; simpl.
  - unfold documents_with. simpl. lia.
  - rewrite IH, fit_document_df, (documents_with_cons term d ds). lia.
Qed.

Lemma fold_fit_document_corpus documents : forall bm,
  corpus (fold_left fit_document documents bm)
    = (corpus bm ++ map (fun d => tokenize d.2) documents)%list /\
  doc_lengths (fold_left fit_document documents bm)
    = (doc_lengths bm ++ map (fun d => length (tokenize d.2)) documents)%list /\
  doc_ids (fold_left fit_document documents bm) = (doc_ids bm ++ map fst documents)%list /\
  doc_contents (fold_left fit_document documents bm)
    = (doc_contents bm ++ map snd documents)%list.
Proof.
  induction documents as [|[doc_id content] ds IH]; intros bm.
  - simpl. by rewrite !app_nil_r.
  - cbn [fold_left].
    destruct (IH (fit_document bm (doc_id, content))) as (E1 & E2 & E3 & E4).
    rewrite E1, E2, E3, E4. simpl. by rewrite <- !app_assoc.
Qed.

(** The state from which the loop of [fit] starts. *)
Definition cleared (bm : BM25) : BM25 :=
  mkBM25 (k1 bm) (b bm) [] [] (avgdl bm) ∅ (idf bm) [] [].

Lemma fit_unfold bm documents :
  fit bm documents =
  let indexed := fold_left fit_document documents (cleared bm) in
  mkBM25 (k1 indexed) (b indexed) (corpus indexed) (doc_lengths indexed)
         (match doc_lengths indexed with
          | [] => avgdl indexed
          | _ => INR (list_sum (doc_lengths indexed)) / INR (length (doc_lengths indexed))
          end)
         (df indexed) ((idf_value (length (corpus indexed)) <$> df indexed) ∪ idf indexed)
         (doc_ids indexed) (doc_contents indexed).
Proof. reflexivity. Qed.

Lemma df_value_positive documents : forall bm term n,
  (forall t m, df bm !! t = Some m -> (0 < m)%nat) ->
  df (fold_left fit_document documents bm) !! term = Some n -> (0 < n)%nat.
Proof.
  induction documents as [|[doc_id content] ds IH]; intros bm term n Hpos; simpl.
  - apply Hpos.
  - apply IH. intros t m. simpl.
    clear IH. revert Hpos. generalize (df bm). generalize (∅ : gset string).
    induction (tokenize content) as [|token rest IHt]; intros seen df0 Hpos; simpl.
    + apply Hpos.
    + destruct (decide (token ∈ seen)); [by apply IHt|].
      apply IHt. intros t' m'. rewrite lookup_insert. case_decide.
      * intros [= <-]. lia.
      * apply Hpos.
Qed.

(** The layout of a fitted index: the parameters are kept, the parallel
    lists are those of the documents, whatever was indexed before. *)
Lemma fit_layout bm documents :
  k1 (fit bm documents) = k1 bm /\ b (fit bm documents) = b bm /\
  corpus (fit bm documents) = map (fun d => tokenize d.2) documents /\
  doc_lengths (fit bm documents) = map (fun d => length (tokenize d.2)) documents /\
  doc_ids (fit bm documents) = map fst documents /\
  doc_contents (fit bm documents) = map snd documents.
Proof.
  rewrite fit_unfold. cbv zeta.
  destruct (fold_fit_document_corpus documents (cleared bm)) as (Hc & Hl & Hi & Hd).
  destruct (fold_fit_document_params documents (cleared bm)) as [Ek Eb].
  simpl in *. by rewrite Ek, Eb, Hc, Hl, Hi, Hd.
Qed.

Lemma fit_df bm documents term :
  default 0%nat (df (fit bm documents) !! term) = documents_with term documents.
Proof.
  rewrite fit_unfold. cbv zeta. simpl.
  rewrite (fold_fit_document_df documents (cleared bm) term).
  simpl. by rewrite lookup_empty.
Qed.

Lemma fit_idf bm documents term :
  (0 < documents_with term documents)%nat ->
  idf (fit bm documents) !! term
  = Some (idf_value (length documents) (documents_with term documents)).
Proof.
  intros Hn. pose proof (fit_df bm documents term) as Hdf. revert Hdf.
  rewrite fit_unfold. cbv zeta. simpl.
  destruct (fold_fit_document_corpus documents (cleared bm)) as (Hc & _).
  simpl in Hc. rewrite Hc, length_map.
  destruct (df (fold_left fit_document documents (cleared bm)) !! term) as [m|] eqn:Hm;
    simpl; intros Hdf; [|lia].
  apply lookup_union_Some_l. rewrite lookup_fmap, Hm. simpl. by subst.
Qed.

Lemma fit_avgdl bm documents :
  documents <> [] ->
  avgdl (fit bm documents)
  = INR (list_sum (map (fun d => length (tokenize d.2)) documents)) / INR (length documents).
Proof.
  intros Hne. rewrite fit_unfold. cbv zeta. simpl.
  destruct (fold_fit_document_corpus documents (cleared bm)) as (_ & Hl & _).
  simpl in Hl. rewrite Hl. destruct documents as [|d ds]; [done|]. simpl.
  by rewrite length_map.
Qed.

(** X7 (statistics of the index).  After [fit], the document frequency of
    a term is the number of documents in which it occurs, however often it
    occurs in each; a term that occurs in some document has for weight the
    smoothed inverse document frequency of that count; the stored token
    lists, lengths and identifiers are those of the documents, in order;
    and, when there is at least one document, the average length is the
    total number of tokens divided by the number of documents. *)
Theorem fit_statistics bm documents term :
  let fitted := fit bm documents in
  let n := documents_with term documents in
  default 0%nat (df fitted !! term) = n /\
  ((0 < n)%nat -> idf fitted !! term = Some (idf_value (length documents) n)) /\
  corpus fitted = map (fun d => tokenize d.2) documents /\
  doc_lengths fitted = map (fun d => length (tokenize d.2)) documents /\
  doc_ids fitted = map fst documents /\
  (documents <> [] ->
   avgdl fitted
   = INR (list_sum (map (fun d => length (tokenize d.2)) documents)) / INR (length documents)).
Proof.
  intros fitted n. subst fitted n.
  destruct (fit_layout bm documents) as (_ & _ & Hc & Hl & Hi & _).
  split_and!; [apply fit_df | apply fit_idf | exact Hc | exact Hl | exact Hi | apply fit_avgdl].
Qed.

(** ** A new fit forgets the previous corpus *)

Lemma term_count_zero tokens term : term_count tokens term = 0%nat <-> term ∉ tokens.
Proof.
  unfold term_count. induction tokens as [|t ts IH]; simpl.
  - split; [intros _ Hin; by apply elem_of_nil in Hin | done].
  - rewrite not_elem_of_cons. destruct (bool_decide_reflect (t = term)) as [->|Hne]; simpl.
    + split; [lia | naive_solver].
    + rewrite IH. naive_solver.
Qed.

Lemma score_terms_ext bm1 bm2 doc_tokens doc_len query_tokens :
  k1 bm1 = k1 bm2 -> b bm1 = b bm2 -> avgdl bm1 = avgdl bm2 ->
  (forall term, term ∈ doc_tokens -> idf bm1 !! term = idf bm2 !! term) ->
  forall acc,
    score_terms bm1 doc_tokens doc_len query_tokens acc
    = score_terms bm2 doc_tokens doc_len query_tokens acc.
Proof.
  intros Ek Eb Ea Hidf. induction query_tokens as [|term rest IH]; intros acc; simpl; [done|].
  destruct (decide (term_count doc_tokens term = 0%nat)) as [E|N]; [apply IH|].
  assert (term ∈ doc_tokens) as Hin.
  { destruct (decide (term ∈ doc_tokens)) as [?|Hnin]; [done|].
    by apply term_count_zero in Hnin. }
  assert (term_score bm1 (term_count doc_tokens term) doc_len term
          = term_score bm2 (term_count doc_tokens term) doc_len term) as ->.
  { unfold term_score. by rewrite Ek, Eb, Ea, (Hidf term Hin). }
  destruct (term_score bm2 _ _ _); [apply IH | done].
Qed.

Lemma documents_with_elem term documents d :
  d ∈ documents -> term ∈ tokenize d.2 -> (0 < documents_with term documents)%nat.
Proof.
  intros Hd Hterm. unfold documents_with.
  assert (d ∈ List.filter (fun d => bool_decide (term ∈ tokenize d.2)) documents) as Hin.
  { apply list_elem_of_In, filter_In. split; [by apply list_elem_of_In|].
    by apply bool_decide_eq_true_2. }
  destruct (List.filter _ documents); [by apply elem_of_nil in Hin | simpl; lia].
Qed.

Lemma documents_with_le term documents :
  (documents_with term documents <= length documents)%nat.
Proof.
  unfold documents_with. induction documents as [|d ds IH]; simpl; [lia|].
  destruct (bool_decide _); simpl; lia.
Qed.

Lemma fit_score_ext bm1 bm2 documents query idx :
  k1 bm1 = k1 bm2 -> b bm1 = b bm2 ->
  score (fit bm1 documents) query idx = score (fit bm2 documents) query idx.
Proof.
  intros Ek Eb. unfold score.
  destruct (fit_layout bm1 documents) as (Ek1 & Eb1 & Hc1 & Hl1 & _).
  destruct (fit_layout bm2 documents) as (Ek2 & Eb2 & Hc2 & Hl2 & _).
  rewrite Hc1, Hc2, Hl1, Hl2, !list_lookup_fmap.
  destruct (documents !! idx) as [d|] eqn:Hd; simpl; [|done].
  assert (documents <> []) as Hne by (intros ->; by rewrite lookup_nil in Hd).
  apply score_terms_ext; [congruence | congruence | by rewrite !fit_avgdl |].
  intros term Hterm.
  assert (0 < documents_with term documents)%nat as Hn.
  { eapply documents_with_elem; [|exact Hterm]. by eapply list_elem_of_lookup_2. }
  by rewrite !fit_idf.
Qed.

Lemma search_scores_ext bm1 bm2 query indices :
  (forall idx, score bm1 query idx = score bm2 query idx) ->
  doc_ids bm1 = doc_ids bm2 -> doc_contents bm1 = doc_contents bm2 ->
  forall scores,
    search_scores bm1 query indices scores = search_scores bm2 query indices scores.
Proof.
  intros Hs Hi Hc. induction indices as [|idx rest IH]; intros scores; simpl; [done|].
  rewrite Hs, Hi, Hc. destruct (score bm2 query idx) as [s|]; [|done].
  destruct (Rgtb s 0); [|apply IH].
  destruct (doc_ids bm2 !! idx), (doc_contents bm2 !! idx); done || apply IH.
Qed.

(** X8 (a new fit forgets the previous corpus).  Although [fit] does not
    reset the term weights of an earlier corpus, they are never used: a
    search after [fit] returns what it returns on a new index with the same
    [k1] and [b] fitted on the same documents. *)
Theorem refit_forgets_previous_corpus bm documents query top_k :
  bm25_search (fit bm documents) query top_k
  = bm25_search (fit (new_BM25 (k1 bm) (b bm)) documents) query top_k.
Proof.
  unfold bm25_search.
  destruct (fit_layout bm documents) as (_ & _ & Hc1 & _ & Hi1 & Hd1).
  destruct (fit_layout (new_BM25 (k1 bm) (b bm)) documents) as (_ & _ & Hc2 & _ & Hi2 & Hd2).
  rewrite Hc1, Hc2.
  rewrite (search_scores_ext (fit bm documents) (fit (new_BM25 (k1 bm) (b bm)) documents));
    [done | | congruence | congruence].
  intros idx. by apply fit_score_ext.
Qed.

(** ** What a search on a fitted index finds *)

Lemma idf_value_pos n df_val : (df_val <= n)%nat -> 0 < idf_value n df_val.
Proof.
  intros Hle. apply le_INR in Hle. pose proof (pos_INR df_val) as Hd.
  unfold idf_value. rewrite <- ln_1.
  assert (0 < (INR n - INR df_val + 0.5) / (INR df_val + 0.5)) as Hq.
  { apply Rmult_lt_0_compat; [lra|]. apply Rinv_0_lt_compat. lra. }
  apply ln_increasing; lra.
Qed.

Lemma score_terms_no_token bm doc_len query_tokens : forall acc,
  score_terms bm [] doc_len query_tokens acc = Ok acc.
Proof. induction query_tokens as [|term rest IH]; intros acc; simpl; [done|apply IH]. Qed.

(** The loop of [score] on an index with sound parameters and positive
    weights for the terms of the document: the total grows exactly when a
    query term occurs in the document. *)
Lemma score_terms_matches bm doc_tokens doc_len query_tokens :
  parameters_ok bm ->
  (forall term, term ∈ doc_tokens -> 0 < default 0 (idf bm !! term)) ->
  forall acc, exists s,
    score_terms bm doc_tokens doc_len query_tokens acc = Ok s /\
    acc <= s /\
    (acc < s <-> exists term, term ∈ query_tokens /\ term ∈ doc_tokens).
Proof.
  intros Hp Hidf. induction query_tokens as [|term rest IH]; intros acc; simpl.
  - exists acc. split_and!; [done | lra |]. split; [lra|].
    intros (term & Hin & _). by apply elem_of_nil in Hin.
  - destruct (decide (term_count doc_tokens term = 0%nat)) as [E|N].
    + destruct (IH acc) as (s & -> & Hle & Hiff). exists s. split_and!; [done | done |].
      rewrite Hiff. apply term_count_zero in E. split.
      * intros (t & Ht & Hd). exists t. split; [by apply list_elem_of_further | done].
      * intros (t & Ht & Hd). apply elem_of_cons in Ht as [->|Ht]; [done|]. by exists t.
    + assert (term ∈ doc_tokens) as Hin.
      { destruct (decide (term ∈ doc_tokens)) as [?|Hnin]; [done|].
        by apply term_count_zero in Hnin. }
      rewrite term_score_ok by (done || lia).
      set (v := default 0 (idf bm !! term) * _).
      assert (0 < v) as Hv.
      { unfold v. apply Rmult_lt_0_compat; [by apply Hidf|].
        pose proof (penalty_nonneg bm doc_len Hp) as HK.
        assert (0 < INR (term_count doc_tokens term)) as Htf by (apply lt_0_INR; lia).
        destruct Hp as (Hk & _).
        apply Rmult_lt_0_compat; [apply Rmult_lt_0_compat; lra|].
        apply Rinv_0_lt_compat. lra. }
      destruct (IH (acc + v)) as (s & -> & Hle & _). exists s. split_and!; [done | lra |].
      split; [|lra]. intros _. exists term. split; [apply list_elem_of_here | done].
Qed.

Lemma list_sum_elem (n : nat) l : n ∈ l -> (n <= list_sum l)%nat.
Proof.
  induction l as [|m l IH]; intros Hin; [by apply elem_of_nil in Hin|].
  simpl. apply elem_of_cons in Hin as [->|Hin]; [lia|]. specialize (IH Hin). lia.
Qed.

(** The score of a document of a fitted index: it is computed (no division
    by zero, even when no document has a token); it is positive exactly
    when the document holds a term of the query. *)
Lemma fit_score bm documents query idx doc_id content :
  0 <= k1 bm -> 0 <= b bm <= 1 ->
  documents !! idx = Some (doc_id, content) ->
  exists s, score (fit bm documents) query idx = Ok s /\ 0 <= s /\
            (0 < s <-> exists term, term ∈ tokenize query /\ term ∈ tokenize content).
Proof.
  intros Hk Hb Hd. unfold score.
  destruct (fit_layout bm documents) as (_ & _ & Hc & Hl & _).
  rewrite Hc, Hl, !list_lookup_fmap, Hd. simpl.
  destruct (tokenize content) as [|t ts] eqn:Ht.
  - rewrite score_terms_no_token. exists 0. split_and!; [done | lra |]. split; [lra|].
    intros (term & _ & Hin). by apply elem_of_nil in Hin.
  - rewrite <- Ht. apply score_terms_matches.
    + apply fit_parameters_ok; [done | done |]. rewrite Hl.
      assert (length (tokenize content) ∈ map (fun d => length (tokenize d.2)) documents) as Hin.
      { apply list_elem_of_fmap. exists (doc_id, content). split; [done|].
        by eapply list_elem_of_lookup_2. }
      apply list_sum_elem in Hin. rewrite Ht in Hin. simpl in Hin. lia.
    + intros term Hterm.
      assert (0 < documents_with term documents)%nat as Hn.
      { eapply (documents_with_elem _ _ (doc_id, content)); [|exact Hterm].
        by eapply list_elem_of_lookup_2. }
      rewrite fit_idf by done. simpl. apply idf_value_pos, documents_with_le.
Qed.

(** The loop of [search]: when every score is computed, the list gains the
    documents of positive score. *)
Lemma search_scores_spec bm query indices :
  (forall idx, idx ∈ indices ->
     exists s doc_id content,
       score bm query idx = Ok s /\ doc_ids bm !! idx = Some doc_id /\
       doc_contents bm !! idx = Some content) ->
  forall scores, exists scores',
    search_scores bm query indices scores = Ok scores' /\
    forall r, r ∈ scores' <->
      r ∈ scores \/
      exists idx, idx ∈ indices /\ score bm query idx = Ok r.2 /\ 0 < r.2 /\
                  doc_ids bm !! idx = Some r.1.1 /\ doc_contents bm !! idx = Some r.1.2.
Proof.
  induction indices as [|idx rest IH]; intros Hall scores; simpl.
  - exists scores. split; [done|]. intros r. split; [by left|].
    intros [?|(idx & Hin & _)]; [done | by apply elem_of_nil in Hin].
  - destruct (Hall idx (list_elem_of_here _ _)) as (s & doc_id & content & Hs & Hi & Hc).
    assert (Hrest : forall i, i ∈ rest ->
              exists s doc_id content,
                score bm query i = Ok s /\ doc_ids bm !! i = Some doc_id /\
                doc_contents bm !! i = Some content)
      by (intros i Hin; apply Hall; by apply list_elem_of_further).
    rewrite Hs. unfold Rgtb. destruct (Rlt_dec 0 s) as [Hpos|Hnpos].
    + rewrite Hi, Hc.
      destruct (IH Hrest (scores ++ [(doc_id, content, s)])%list) as (scores' & -> & Hspec).
      exists scores'. split; [done|]. intros r. rewrite Hspec, elem_of_app, list_elem_of_singleton.
      split.
      * intros [[? | ->] | (i & Hin & ?)]; [by left | right | right].
        -- exists idx. split; [apply list_elem_of_here | done].
        -- exists i. split; [by apply list_elem_of_further | done].
      * intros [?|(i & Hin & Hsi & Hp & Hii & Hci)]; [by left; left|].
        apply elem_of_cons in Hin as [->|Hin].
        -- left. right. destruct r as [[r1 r2] r3]. simpl in *. congruence.
        -- right. by exists i.
    + destruct (IH Hrest scores) as (scores' & -> & Hspec).
      exists scores'. split; [done|]. intros r. rewrite Hspec. split.
      * intros [?|(i & Hin & ?)]; [by left | right].
        exists i. split; [by apply list_elem_of_further | done].
      * intros [?|(i & Hin & Hsi & Hp & Hii & Hci)]; [by left|].
        apply elem_of_cons in Hin as [->|Hin]; [|right; by exists i].
        rewrite Hs in Hsi. injection Hsi as ->. lra.
Qed.

(** X9 (what a BM25 search finds).  On an index fitted with [k1 >= 0] and
    [0 <= b <= 1], [search] returns (it never divides by zero); it returns
    at most [top_k] results, in descending order of score; every result is
    a document of the corpus with its own score, which is positive, and it
    shares a term with the query; and a document that shares a term with
    the query has a positive score and is among the results with that
    score, unless [top_k] results with scores at least as high as its own
    were returned. *)
Theorem fitted_search_finds_matching_documents bm documents query top_k :
  0 <= k1 bm -> 0 <= b bm <= 1 ->
  exists results,
    bm25_search (fit bm documents) query top_k = Ok results /\
    (length results <= top_k)%nat /\
    StronglySorted (fun x y => y.2 <= x.2) results /\
    (forall doc_id content s, (doc_id, content, s) ∈ results ->
       0 < s /\
       (exists idx, documents !! idx = Some (doc_id, content) /\
                    score (fit bm documents) query idx = Ok s) /\
       exists term, term ∈ tokenize query /\ term ∈ tokenize content) /\
    (forall idx doc_id content term,
       documents !! idx = Some (doc_id, content) ->
       term ∈ tokenize query -> term ∈ tokenize content ->
       exists s, score (fit bm documents) query idx = Ok s /\ 0 < s /\
         ((doc_id, content, s) ∈ results \/
          (length results = top_k /\ forall r, r ∈ results -> s <= r.2))).
Proof.
  intros Hk Hb. unfold bm25_search.
  destruct (fit_layout bm documents) as (_ & _ & Hc & _ & Hi & Hd).
  assert (Hdoc : forall idx doc_id content,
            doc_ids (fit bm documents) !! idx = Some doc_id ->
            doc_contents (fit bm documents) !! idx = Some content ->
            documents !! idx = Some (doc_id, content)).
  { intros idx doc_id content. rewrite Hi, Hd, !list_lookup_fmap.
    destruct (documents !! idx) as [[i c]|]; simpl; congruence. }
  destruct (search_scores_spec (fit bm documents) query
              (seq 0 (length (corpus (fit bm documents))))) with (scores := @nil (string * string * R))
    as (scores & -> & Hspec).
  { intros idx Hin. apply elem_of_seq in Hin. rewrite Hc, length_map in Hin.
    destruct (lookup_lt_is_Some_2 documents idx) as [[doc_id content] Hget]; [lia|].
    destruct (fit_score bm documents query idx doc_id content Hk Hb Hget) as (s & Hs & _).
    exists s, doc_id, content. rewrite Hi, Hd, !list_lookup_fmap, Hget. by split_and!. }
  eexists. split; [reflexivity|]. split; [apply firstn_le_length|]. split.
  { apply (descending_firstn (fun r : string * string * R => r.2)).
    apply (sort_desc_descending (fun r : string * string * R => r.2)). }
  split.
  - intros doc_id content s Hin. apply firstn_sort_elem in Hin.
    apply Hspec in Hin as [Hnil|(idx & _ & Hs & Hpos & Hid & Hcont)];
      [by apply elem_of_nil in Hnil|]. simpl in *.
    pose proof (Hdoc _ _ _ Hid Hcont) as Hget.
    destruct (fit_score bm documents query idx doc_id content Hk Hb Hget) as (s' & Hs' & _ & Hiff).
    assert (s' = s) as -> by congruence.
    split_and!; [done | by exists idx | by apply Hiff].
  - intros idx doc_id content term Hget Hq Ht.
    destruct (fit_score bm documents query idx doc_id content Hk Hb Hget) as (s & Hs & _ & Hiff).
    assert (0 < s) as Hpos by (apply Hiff; by exists term).
    exists s. split; [done|]. split; [done|].
    assert ((doc_id, content, s) ∈ scores) as Hscored.
    { apply Hspec. right. exists idx. cbn [fst snd]. split_and!; try done.
      - apply elem_of_seq. rewrite Hc, length_map. apply lookup_lt_Some in Hget. lia.
      - by rewrite Hi, list_lookup_fmap, Hget.
      - by rewrite Hd, list_lookup_fmap, Hget. }
    destruct (firstn_sort_complete (fun r : string * string * R => r.2) top_k _ _ Hscored)
      as [?|[Hlen Hmin]]; [by left | right; by split].
Qed.

(** ** Min-max normalisation *)

Lemma fold_Rmin_lower l : forall x y, y ∈ x :: l -> fold_left Rmin l x <= y.
Proof.
  induction l as [|z l IH]; intros x y Hy; simpl.
  - apply list_elem_of_singleton in Hy as ->. lra.
  - apply elem_of_cons in Hy as [->|Hy].
    + etrans; [apply IH, list_elem_of_here | apply Rmin_l].
    + apply elem_of_cons in Hy as [->|Hy].
      * etrans; [apply IH, list_elem_of_here | apply Rmin_r].
      * apply IH. by apply list_elem_of_further.
Qed.

Lemma fold_Rmin_elem l : forall x, fold_left Rmin l x ∈ x :: l.
Proof.
  induction l as [|z l IH]; intros x; simpl; [apply list_elem_of_here|].
  specialize (IH (Rmin x z)). apply elem_of_cons in IH as [->|IH].
  - unfold Rmin. destruct (Rle_dec x z); [apply list_elem_of_here|].
    apply list_elem_of_further, list_elem_of_here.
  - by do 2 apply list_elem_of_further.
Qed.

Lemma min_max_bounds scores s :
  s ∈ scores ->
  min_list scores <= s <= max_list scores /\
  min_list scores ∈ scores /\ max_list scores ∈ scores.
Proof.
  destruct scores as [|x l]; [intros Hin; by apply elem_of_nil in Hin|].
  intros Hin. unfold min_list, max_list. split_and!.
  - by apply fold_Rmin_lower.
  - by apply fold_Rmax_upper.
  - apply fold_Rmin_elem.
  - apply fold_Rmax_elem.
Qed.

(** X10 (min-max normalisation).  [_normalize_scores] keeps the length and
    the order of the scores and maps every score into [0, 1]: a larger
    score never gets a smaller value, a highest score gets 1, and a lowest
    score gets 0 unless all the scores are equal (then all get 1). *)
Theorem normalize_scores_unit scores i s :
  scores !! i = Some s ->
  length (_normalize_scores scores) = length scores /\
  exists x,
    _normalize_scores scores !! i = Some x /\
    0 <= x <= 1 /\
    ((forall t, t ∈ scores -> t <= s) -> x = 1) /\
    ((forall t, t ∈ scores -> s <= t) -> (exists t, t ∈ scores /\ t <> s) -> x = 0) /\
    (forall j s' x', scores !! j = Some s' -> _normalize_scores scores !! j = Some x' ->
                     s <= s' -> x <= x').
Proof.
  intros Hi. pose proof (list_elem_of_lookup_2 _ _ _ Hi) as Hin.
  destruct (min_max_bounds scores s Hin) as ([Hlo Hhi] & Hmin & Hmax).
  unfold _normalize_scores. destruct scores as [|h l] eqn:E; [by apply elem_of_nil in Hin|].
  rewrite <- E in *. clear E h l.
  set (m := min_list scores) in *. set (M := max_list scores) in *.
  destruct (Req_dec_T M m) as [Heq|Hne].
  - split; [by rewrite length_map|]. exists 1.
    rewrite list_lookup_fmap, Hi. simpl. split_and!; [done | lra | lra | done | |].
    + intros _ (t & Ht & Hts). destruct (min_max_bounds scores t Ht) as ([? ?] & _).
      exfalso. apply Hts. subst m M. lra.
    + intros j s' x'. rewrite list_lookup_fmap. intros -> [= <-] _. lra.
  - split; [by rewrite length_map|]. exists ((s - m) / (M - m)).
    rewrite list_lookup_fmap, Hi. simpl.
    assert (m <= M) as HmM by lra.
    assert (0 < M - m) as Hd by lra.
    assert (0 < / (M - m)) as Hinv by (by apply Rinv_0_lt_compat).
    assert (forall u v, u <= v -> u / (M - m) <= v / (M - m)) as Hmono.
    { intros u v Huv. unfold Rdiv. apply Rmult_le_compat_r; lra. }
    split_and!; [done | | | | |].
    + replace 0 with (0 / (M - m)) by (unfold Rdiv; lra). apply Hmono. lra.
    + replace 1 with ((M - m) / (M - m)) by (field; lra). apply Hmono. lra.
    + intros Hbest. specialize (Hbest M Hmax). replace s with M by lra. field. lra.
    + intros Hworst _. specialize (Hworst m Hmin). replace s with m by lra.
      unfold Rdiv. lra.
    + intros j s' x'. rewrite list_lookup_fmap. intros -> [= <-] Hle. apply Hmono. lra.
Qed.

End WithEnv.

#[local] Existing Instances Examples.toy_lib Examples.toy_index.

Lemma fitted_search_finds_matching_documents_witness :
  exists results,
    bm25_search (fit (new_BM25 1.5 0.75) [("d1", "python code"); ("d2", "rust code")])
                "python" 1 = Ok results /\
    (length results <= 1)%nat /\
    StronglySorted (fun x y => (y.2 <= x.2)%R) results /\
    (exists s,
       score (fit (new_BM25 1.5 0.75) [("d1", "python code"); ("d2", "rust code")])
             "python" 0 = Ok s /\
       (0 < s)%R /\
       (("d1", "python code", s) ∈ results \/
        (length results = 1%nat /\ forall r, r ∈ results -> (s <= r.2)%R))).
Proof.
  destruct (fitted_search_finds_matching_documents (new_BM25 1.5 0.75)
              [("d1", "python code"); ("d2", "rust code")] "python" 1)
    as (results & Hs & Hlen & Hsorted & _ & Hfound); [simpl; lra | simpl; lra |].
  exists results. split_and!; [exact Hs | exact Hlen | exact Hsorted |].
  apply (Hfound 0%nat "d1" "python code" "python").
  - reflexivity.
  - apply list_elem_of_here.
  - apply list_elem_of_here.
Defined.

Lemma normalize_scores_unit_witness :
  length (_normalize_scores [2; 4; 3]%R) = 3%nat /\
  exists x, _normalize_scores [2; 4; 3]%R !! 1%nat = Some x /\ x = 1%R.
Proof.
  destruct (normalize_scores_unit [2; 4; 3]%R 1%nat 4%R eq_refl)
    as (Hlen & x & Hx & _ & Hbest & _).
  split; [exact Hlen|]. exists x. split; [exact Hx|]. apply Hbest.
  intros t Ht. rewrite !elem_of_cons, elem_of_nil in Ht.
  destruct Ht as [->|[->|[->|[]]]]; lra.
Defined.

End IndexFacts.

(* ===================================================================== *)
(** * More facts on memory_consolidator.py: grouping, real runs *)
(* ===================================================================== *)

Module ConsolidationFacts.
Import MemoryTypes Consolidator.

Section Grouping.
Context `{PyLib}.

Lemma od_keys_set {V} k (v : V) (d : odict V) :
  od_keys (od_set k v d) = if decide (k ∈ od_keys d) then od_keys d else (od_keys d ++ [k])%list.
Proof.
  unfold od_keys. induction d as [|[k' v'] d IH].
  - destruct (decide (k ∈ map fst (@nil (string * V)))) as [Hin|_]; [|done].
    by apply elem_of_nil in Hin.
  - cbn [od_set]. destruct (decide (k = k')) as [->|Hne].
    + destruct (decide (k' ∈ map fst ((k', v') :: d))) as [_|Hnin]; [done|].
      exfalso. apply Hnin. apply list_elem_of_here.
    + cbn [map fst]. rewrite IH.
      destruct (decide (k ∈ map fst d)) as [Hin|Hnin];
        destruct (decide (k ∈ k' :: map fst d)) as [Hin'|Hnin']; try done.
      * exfalso. apply Hnin'. by apply list_elem_of_further.
      * apply elem_of_cons in Hin' as [?|?]; done.
Qed.

Lemma od_set_nodup {V} k (v : V) (d : odict V) :
  NoDup (od_keys d) -> NoDup (od_keys (od_set k v d)).
Proof.
  intros Hnd. rewrite od_keys_set. destruct (decide (k ∈ od_keys d)) as [Hin|Hnin]; [done|].
  apply NoDup_app. split_and!; [done | | apply NoDup_singleton].
  intros x Hx Hx'. apply list_elem_of_singleton in Hx' as ->. done.
Qed.

(** The total number of members of the groups. *)
Definition members {A} (groups : odict (list A)) : nat :=
  list_sum (map (fun group => length group.2) groups).

Lemma members_set {A} k (x : A) (groups : odict (list A)) :
  members (od_set k (default [] (od_get k groups) ++ [x])%list groups) = S (members groups).
Proof.
  unfold members. induction groups as [|[k' g] groups IH]; simpl.
  - done.
  - destruct (decide (k = k')) as [->|Hne]; simpl.
    + rewrite length_app. simpl. lia.
    + rewrite IH. lia.
Qed.

(** The episodes of a list that have the key [k], in order. *)
Definition with_key (k : string) (episodes : list Episode) : list Episode :=
  List.filter (fun e => bool_decide (pattern_key_of e = k)) episodes.

(** The body of the loop of [_group_by_pattern]. *)
Definition group_step (groups : odict (list Episode)) (episode : Episode)
  : odict (list Episode) :=
  od_set (pattern_key_of episode)
         (default [] (od_get (pattern_key_of episode) groups) ++ [episode])%list groups.

Lemma group_by_pattern_unfold episodes :
  _group_by_pattern episodes = fold_left group_step episodes [].
Proof. reflexivity. Qed.

Lemma group_loop episodes : forall groups,
  NoDup (od_keys groups) ->
  NoDup (od_keys (fold_left group_step episodes groups)) /\
  members (fold_left group_step episodes groups) = (members groups + length episodes)%nat /\
  forall k,
    od_get k (fold_left group_step episodes groups)
    = match od_get k groups, with_key k episodes with
      | None, [] => None
      | g, l => Some (default [] g ++ l)%list
      end.
Proof.
  induction episodes as [|e episodes IH]; intros groups Hnd.
  - simpl. split_and!; [done | lia |]. intros k. destruct (od_get k groups); simpl; [|done].
    by rewrite app_nil_r.
  - cbn [fold_left].
    destruct (IH (group_step groups e)) as (Hnd' & Hm & Hget); [by apply od_set_nodup|].
    split_and!; [done | |].
    + rewrite Hm. unfold group_step. rewrite members_set. simpl. lia.
    + intros k. rewrite Hget. unfold group_step at 1. rewrite od_get_set.
      unfold with_key. cbn [List.filter].
      destruct (decide (pattern_key_of e = k)) as [Hk|Hk].
      * rewrite bool_decide_eq_true_2 by done. rewrite Hk. simpl.
        rewrite <- app_assoc. simpl. by destruct (od_get k groups).
      * by rewrite bool_decide_eq_false_2 by done.
Qed.

(** The members of a group of the result are episodes of the list. *)
Lemma group_by_pattern_members episodes k g :
  (k, g) ∈ _group_by_pattern episodes ->
  g = with_key k episodes /\ forall e, e ∈ g -> e ∈ episodes.
Proof.
  rewrite group_by_pattern_unfold.
  destruct (group_loop episodes [] (NoDup_nil_2)) as (Hnd & _ & Hget).
  intros Hin. apply od_elem_get in Hin; [|done]. rewrite Hget in Hin. simpl in Hin.
  assert (g = with_key k episodes) as -> by (destruct (with_key k episodes); congruence).
  split; [done|]. intros e He. unfold with_key in He.
  by apply list_elem_of_In, filter_In in He as [He%list_elem_of_In _].
Qed.

(** X22 (grouping).  [_group_by_pattern] splits the episodes into groups
    with distinct keys: the group of a key holds, in their order, exactly
    the episodes whose own key (the first three words of the lower-cased
    action joined by "_", or "unknown" for an action without words) is
    that key; no group is empty; and the sizes of the groups add up to the
    number of episodes. *)
Theorem group_by_pattern_partitions episodes :
  let groups := _group_by_pattern episodes in
  NoDup (od_keys groups) /\
  (forall k g, od_get k groups = Some g <-> g <> [] /\ g = with_key k episodes) /\
  members groups = length episodes.
Proof.
  intros groups. subst groups. rewrite group_by_pattern_unfold.
  destruct (group_loop episodes [] (NoDup_nil_2)) as (Hnd & Hm & Hget).
  split_and!; [done | | exact Hm].
  intros k g. rewrite Hget. simpl. destruct (with_key k episodes) as [|e l]; split.
  - done.
  - by intros [? ->].
  - intros [= <-]. done.
  - intros [_ ->]. done.
Qed.

End Grouping.

Section RealRun.
Context `{PyLib} `{VectorIndex}.
Import EpisodicFacts EpisodicStoreFacts.

(** ** A consolidation that is not a dry run *)

Lemma create_skill_ok now name description pattern triggers template sources rate pm :
  forallb Procedural.skill_serializable (od_values (Procedural._skills_cache pm)) = true ->
  let skill := mkSkill (skill_generate_id name pattern) name description pattern triggers
                       template rate 0 sources (new_metadata (isoformat now) "consolidation") in
  exists pm',
    Procedural.create_skill now name description pattern triggers template sources rate pm
    = (pm', Ok (sk_id skill)) /\
    Procedural.skills_file pm' = Some (Procedural._skills_cache pm') /\
    Procedural._skills_cache pm'
    = od_set (sk_id skill) (skill_to_dict skill) (Procedural._skills_cache pm).
Proof.
  intros Hser skill.
  unfold Procedural.create_skill, Procedural.store, bind, get_state, put_state, ret,
    Procedural._save_skills_cache.
  cbv beta iota. cbn [Procedural._skills_cache Procedural.pm_collection Procedural.skills_file].
  fold skill. rewrite od_set_forallb by done.
  eexists. split; [reflexivity|]. by split.
Qed.

Lemma get_skill_by_name_none now name pm :
  Procedural.find_by_name name (Procedural._skills_cache pm) = None ->
  Procedural.get_skill_by_name now name pm = (pm, Ok None).
Proof.
  intros Hfind. unfold Procedural.get_skill_by_name, bind, get_state, ret. by rewrite Hfind.
Qed.

(** The skill that a consolidation creates for a group. *)
Definition group_skill (now : Z) (pattern_key : string) (episodes : list Episode) : Skill :=
  let common_action := _find_common_pattern (map ep_action episodes) in
  mkSkill (skill_generate_id ("skill_" ++ pattern_key) common_action)
          ("skill_" ++ pattern_key)
          ("Pattern appris depuis " ++ pretty (length episodes) ++ " épisodes réussis")
          common_action
          (_extract_trigger_conditions (map ep_context episodes))
          (_generalize_action common_action)
          (fold_left Qplus (map ep_emotional_valence episodes) 0
           / inject_Z (Z.of_nat (length episodes)))%Q
          0 (map ep_id episodes) (new_metadata (isoformat now) "consolidation").

Definition with_procedural (c : MemoryConsolidator) (pm : Procedural.ProceduralMemory)
  : MemoryConsolidator :=
  mkConsolidator (episodic c) pm (knowledge c) (logs_dir c).

Lemma consolidate_pattern_new now pattern_key episodes c :
  episodes <> [] ->
  Procedural.find_by_name ("skill_" ++ pattern_key) (Procedural._skills_cache (procedural c))
    = None ->
  forallb Procedural.skill_serializable (od_values (Procedural._skills_cache (procedural c)))
    = true ->
  exists pm',
    _consolidate_pattern_to_skill now pattern_key episodes false c
    = (with_procedural c pm',
       Ok (mkSkillResult true false (Some (sk_id (group_skill now pattern_key episodes))))) /\
    Procedural.skills_file pm' = Some (Procedural._skills_cache pm') /\
    Procedural._skills_cache pm'
    = od_set (sk_id (group_skill now pattern_key episodes))
             (skill_to_dict (group_skill now pattern_key episodes))
             (Procedural._skills_cache (procedural c)).
Proof.
  intros Hne Hfind Hser. unfold _consolidate_pattern_to_skill.
  destruct episodes as [|e episodes]; [done|]. cbv zeta.
  set (group := e :: episodes) in *.
  unfold bind at 1. unfold on_procedural at 1, lift.
  rewrite (get_skill_by_name_none now _ (procedural c) Hfind).
  destruct (create_skill_ok now ("skill_" ++ pattern_key)
              ("Pattern appris depuis " ++ pretty (length group) ++ " épisodes réussis")
              (_find_common_pattern (map ep_action group))
              (_extract_trigger_conditions (map ep_context group))
              (_generalize_action (_find_common_pattern (map ep_action group)))
              (map ep_id group)
              (fold_left Qplus (map ep_emotional_valence group) 0
               / inject_Z (Z.of_nat (length group)))%Q
              (procedural c) Hser) as (pm' & Hcreate & Hfile & Hcache).
  exists pm'. split; [|by split].
  cbv beta iota. unfold bind, on_procedural, lift, ret. cbn [procedural]. rewrite Hcreate.
  reflexivity.
Qed.

Lemma skill_id_not_empty name pattern : skill_generate_id name pattern <> "".
Proof. done. Qed.

Lemma consolidate_group_raises now counts pattern_key episodes c :
  (min_skill_occurrences <= length episodes)%nat ->
  Procedural.find_by_name ("skill_" ++ pattern_key) (Procedural._skills_cache (procedural c))
    = None ->
  forallb Procedural.skill_serializable (od_values (Procedural._skills_cache (procedural c)))
    = true ->
  Episodic.mark_consolidated now (map ep_id episodes)
    (sk_id (group_skill now pattern_key episodes)) (episodic c)
    = (episodic c, Raise TypeError) ->
  exists pm',
    consolidate_group now false counts (pattern_key, episodes) c
    = (with_procedural c pm', Raise TypeError) /\
    Procedural.skills_file pm' = Some (Procedural._skills_cache pm') /\
    Procedural._skills_cache pm'
    = od_set (sk_id (group_skill now pattern_key episodes))
             (skill_to_dict (group_skill now pattern_key episodes))
             (Procedural._skills_cache (procedural c)).
Proof.
  intros Hlen Hfind Hser Hmark. unfold consolidate_group.
  rewrite decide_False by lia.
  destruct (consolidate_pattern_new now pattern_key episodes c) as (pm' & Hrun & Hfile & Hcache);
    [| done | done |].
  { intros ->. unfold min_skill_occurrences in Hlen. simpl in Hlen. lia. }
  exists pm'. split; [|by split].
  rewrite (bind_ok _ _ _ _ _ Hrun). cbn [created updated skill_id negb andb].
  rewrite bool_decide_eq_false_2 by apply skill_id_not_empty. cbn [negb andb].
  unfold bind, on_episodic, lift. cbn [episodic with_procedural]. by rewrite Hmark.
Qed.

Lemma skip_small_groups now dry_run small : forall counts rest c,
  Forall (fun group : string * list Episode =>
            (length group.2 < min_skill_occurrences)%nat) small ->
  for_each (consolidate_group now dry_run) counts (small ++ rest) c
  = for_each (consolidate_group now dry_run) counts rest c.
Proof.
  induction small as [|[k g] small IH]; intros counts rest c Hall; [done|].
  apply Forall_cons in Hall as [Hg Hall]. simpl in Hg.
  change (((k, g) :: small) ++ rest)%list with ((k, g) :: (small ++ rest))%list.
  rewrite for_each_cons. unfold consolidate_group at 1.
  rewrite decide_True by done. unfold ret. by apply IH.
Qed.

(** What the fetch of step 1 leaves: a metadata object in every payload,
    and episodes whose identifiers are keys of the cache. *)
Lemma fetch_leaves_objects now min_valence limit mem mem1 episodes :
  NoDup (od_keys (Episodic._metadata_cache mem)) ->
  forallb as_stored (od_values (Episodic._metadata_cache mem)) = true ->
  (forall k p, od_get k (Episodic._metadata_cache mem) = Some p -> ed_id p = k /\ k <> "") ->
  Episodic.get_successful_episodes now min_valence limit mem = (mem1, Ok episodes) ->
  (forall id p, od_get id (Episodic._metadata_cache mem1) = Some p ->
                exists m, ed_metadata p = MObj m) /\
  (forall e, e ∈ episodes -> ep_id e ∈ od_keys (Episodic._metadata_cache mem1)).
Proof.
  intros Hnd Hall Hkeys Hfetch.
  pose proof (ConsolidatorFacts.get_successful_episodes_kept now min_valence limit mem)
    as (_ & _ & Hcontent).
  rewrite Hfetch in Hcontent. simpl in Hcontent.
  apply ConsolidatorFacts.cache_content_keys in Hcontent.
  unfold Episodic.get_successful_episodes in Hfetch.
  set (keep := fun e : Episode =>
                 negb (Qltb (ep_emotional_valence e) min_valence)
                 && (if decide (status (ep_metadata e) = ACTIVE) then true else false)) in *.
  destruct (collect_episodes_spec now keep mem Hnd) as (mem' & Hrun & Hpay).
  { eapply forallb_impl; [apply as_stored_loadable | exact Hall]. }
  rewrite (bind_ok _ _ _ _ _ Hrun) in Hfetch. unfold ret in Hfetch.
  injection Hfetch as <- <-. split.
  - intros id p' Hget'.
    assert (id ∈ od_keys (Episodic._metadata_cache mem)) as Hkey
      by (rewrite <- Hcontent; by eapply od_get_key).
    apply od_key_get in Hkey as [p Hget]. rewrite (Hpay id p Hget) in Hget'.
    injection Hget' as <-.
    apply episode_from_dict_readable, as_stored_readable.
    eapply forallb_elem; [exact Hall | by eapply od_get_value].
  - intros e He. apply firstn_sort_elem in He.
    apply list_elem_of_In, filter_In in He as [He _]. apply list_elem_of_In in He.
    apply built_of_payload in He as (k & p & Hin & ->).
    apply od_elem_get in Hin; [|done].
    destruct (Hkeys k p Hin) as [Hid Hk].
    rewrite Hcontent. unfold built. simpl. rewrite Hid, decide_False by done.
    by eapply od_get_key.
Qed.

(** X23 (a real consolidation stops at the first skill).  Take stores as
    the code writes them: episodic payloads filed under their identifier
    with a metadata dictionary, a procedural cache that can be saved.  If
    the fetch returns enough episodes, and the first group with at least
    [min_skill_occurrences] episodes has no skill of its name yet, then
    [consolidate] with [dry_run = False] creates and saves the skill of
    this group and then raises [TypeError] in [mark_consolidated]: no
    episode is marked, no triple is extracted, nothing is archived and no
    log entry is written. *)
Theorem real_consolidation_raises
    now min_episodes min_valence c mem1 successful_episodes small pattern_key episodes others :
  NoDup (od_keys (Episodic._metadata_cache (episodic c))) ->
  forallb as_stored (od_values (Episodic._metadata_cache (episodic c))) = true ->
  (forall k p, od_get k (Episodic._metadata_cache (episodic c)) = Some p ->
               ed_id p = k /\ k <> "") ->
  forallb Procedural.skill_serializable (od_values (Procedural._skills_cache (procedural c)))
    = true ->
  Episodic.get_successful_episodes now min_valence 100 (episodic c)
    = (mem1, Ok successful_episodes) ->
  (ConsolidatorFacts.effective_threshold min_episodes
   <= Z.of_nat (length successful_episodes))%Z ->
  _group_by_pattern successful_episodes = (small ++ (pattern_key, episodes) :: others)%list ->
  Forall (fun group : string * list Episode =>
            (length group.2 < min_skill_occurrences)%nat) small ->
  (min_skill_occurrences <= length episodes)%nat ->
  Procedural.find_by_name ("skill_" ++ pattern_key) (Procedural._skills_cache (procedural c))
    = None ->
  exists c',
    consolidate now min_episodes min_valence false c = (c', Raise TypeError) /\
    episodic c' = mem1 /\
    knowledge c' = knowledge c /\
    logs_dir c' = logs_dir c /\
    Procedural.skills_file (procedural c') = Some (Procedural._skills_cache (procedural c')) /\
    Procedural._skills_cache (procedural c')
    = od_set (sk_id (group_skill now pattern_key episodes))
             (skill_to_dict (group_skill now pattern_key episodes))
             (Procedural._skills_cache (procedural c)).
Proof.
  intros Hnd Hall Hkeys Hser Hfetch Hmin Hgroups Hsmall Hlen Hfind.
  destruct (fetch_leaves_objects now min_valence 100 (episodic c) mem1 successful_episodes
              Hnd Hall Hkeys Hfetch) as [Hobj Hids].
  unfold consolidate. fold (ConsolidatorFacts.effective_threshold min_episodes). cbv zeta.
  unfold bind at 1. unfold on_episodic at 1, lift. rewrite Hfetch.
  set (c1 := mkConsolidator mem1 (procedural c) (knowledge c) (logs_dir c)).
  rewrite decide_False by lia.
  rewrite Hgroups. unfold bind at 1. rewrite skip_small_groups by done.
  rewrite for_each_cons.
  assert (Hmember : forall e, e ∈ episodes -> e ∈ successful_episodes).
  { intros e He.
    destruct (group_by_pattern_members successful_episodes pattern_key episodes) as [_ Hsub].
    - rewrite Hgroups. apply elem_of_app. right. apply list_elem_of_here.
    - by apply Hsub. }
  destruct (consolidate_group_raises now (0%nat, 0%nat) pattern_key episodes c1)
    as (pm' & -> & Hfile & Hcache); [done | done | done | |].
  { rewrite mark_consolidated_unfold. unfold bind at 1.
    rewrite mark_loop_object; [done | |].
    - intros id p _ Hget. by eapply Hobj.
    - destruct episodes as [|e episodes']; [unfold min_skill_occurrences in Hlen; simpl in Hlen; lia|].
      exists (ep_id e). split; [apply list_elem_of_here|].
      apply Hids, Hmember, list_elem_of_here. }
  eexists. split; [reflexivity|]. by split_and!.
Qed.

End RealRun.

#[local] Existing Instances Examples.toy_lib Examples.toy_index.

(** A check of the filing of a cache that evaluates. *)
Lemma filed_under_identifier (cache : odict episode_dict) :
  forallb (fun kp : string * episode_dict =>
             bool_decide (ed_id kp.2 = kp.1 /\ kp.1 <> "")) cache = true ->
  forall k p, od_get k cache = Some p -> ed_id p = k /\ k <> "".
Proof.
  intros Hall k p Hget. apply od_get_elem in Hget.
  apply (EpisodicStoreFacts.forallb_elem _ _ _ Hall) in Hget.
  by apply bool_decide_eq_true in Hget.
Qed.

(** The group of the three recorded episodes. *)
Definition three_grouped : list Episode :=
  match _group_by_pattern
          (match ConsolidatorFacts.three_fetched.2 with Ok l => l | Raise _ => [] end) with
  | (_, g) :: _ => g
  | [] => []
  end.

Lemma real_consolidation_raises_witness :
  exists c',
    consolidate 200 (Some 3%Z) 0.3 false ConsolidatorFacts.three_episode_consolidator
      = (c', Raise TypeError) /\
    logs_dir c' = [] /\
    od_keys (Procedural._skills_cache (procedural c'))
      = [sk_id (group_skill 200 "git_status" three_grouped)].
Proof.
  destruct (real_consolidation_raises 200 (Some 3%Z) 0.3
              ConsolidatorFacts.three_episode_consolidator
              ConsolidatorFacts.three_fetched.1
              (match ConsolidatorFacts.three_fetched.2 with Ok l => l | Raise _ => [] end)
              [] "git_status" three_grouped [])
    as (c' & Hrun & _ & _ & Hlog & _ & Hcache).
  - vm_compute. repeat constructor; set_solver.
  - vm_compute. reflexivity.
  - apply filed_under_identifier. vm_compute. reflexivity.
  - vm_compute. reflexivity.
  - vm_compute. reflexivity.
  - vm_compute. discriminate.
  - vm_compute. reflexivity.
  - constructor.
  - vm_compute. lia.
  - vm_compute. reflexivity.
  - exists c'. split_and!; [exact Hrun | exact Hlog | by rewrite Hcache].
Defined.

End ConsolidationFacts.
